(** * Symmetry-reduced oblivious routing: a shallow embedding

    The development follows the Python sources module by module:
    [topology_automorphism.py] (orbit enumeration, auxiliary maps, link
    signatures), [optimization.py] (flow conservation, solver outcome
    handling), [verification.py] (per-link worst-case load) and
    [solution_grouping.py] (per-node route compaction).

    Conventions.  Node identifiers are [nat].  A Python tuple of nodes is a
    pair, a triple or a [list] according to its use.  A Python [set] is a
    [gset], a [dict] a [gmap]; iteration over a set or dict follows
    [elements] / [map_to_list].  [set.pop()] removes an arbitrary element:
    it is driven by an oracle that may depend on the number of pops made so
    far and on the current content.  Pickled files are fields of a record of
    finite maps keyed like the file names.  Python exceptions are the
    [Raise] outcomes of the [result] monad; unbounded [while] loops take
    fuel and report [OutOfFuel] when it is exhausted. *)

From Stdlib Require Import QArith Qcanon.
From stdpp Require Import gmap sets fin_sets list strings sorting.

Local Open Scope nat_scope.

(** ** Python outcomes *)

Inductive exn : Type :=
| KeyError
| IndexError
| TypeError
| ValueError
| ZeroDivisionError
| AssertionError
| FileNotFoundError
| AttributeError
| NameError (name : string)
| NetworkXError
| AddConstrError.
(* [AddConstrError] stands for the exception gurobipy's [Model.addConstr]
   raises when its argument is not a constraint (a [TypeError] or a
   [GurobiError], by release). *)

Inductive result (A : Type) : Type :=
| Ok (a : A)
| Raise (e : exn)
| OutOfFuel.
Arguments Ok {A} a.
Arguments Raise {A} e.
Arguments OutOfFuel {A}.

#[global] Instance result_ret : MRet result := λ A a, Ok a.
#[global] Instance result_bind : MBind result := λ A B f m,
  match m with
  | Ok a => f a
  | Raise e => Raise e
  | OutOfFuel => OutOfFuel
  end.

(** [d[k]], [l[i]], [open(path)]: the lookup or the exception. *)
Definition orRaise {A} (e : exn) (o : option A) : result A :=
  match o with
  | Some a => Ok a
  | None => Raise e
  end.

(** [for x in l: s = f(s, x)] where the body may raise. *)
Fixpoint for_each {A S} (f : S → A → result S) (l : list A) (s : S) : result S :=
  match l with
  | [] => Ok s
  | a :: l' => s' ← f s a; for_each f l' s'
  end.

(** [while cond(s): s = body(s)]. *)
Fixpoint while {S} (cond : S → bool) (body : S → result S) (fuel : nat) (s : S)
  : result S :=
  if cond s then
    match fuel with
    | 0 => OutOfFuel
    | S fuel' => s' ← body s; while cond body fuel' s'
    end
  else Ok s.

(** [s.pop()] on a set: [KeyError] when empty, otherwise the element the
    oracle selects among the current members. *)
Definition set_pop `{Countable T} (pick : list T → nat) (s : gset T)
  : result (T * gset T) :=
  let l := elements s in
  match l !! (pick l `mod` length l) with
  | Some x => Ok (x, s ∖ {[x]})
  | None => Raise KeyError
  end.

(** ** Tuple orders ([list.sort()] on tuples of integers) *)

Definition pair_le (a b : nat * nat) : Prop :=
  a.1 < b.1 ∨ (a.1 = b.1 ∧ a.2 ≤ b.2).

Definition triple_le (a b : nat * nat * nat) : Prop :=
  pair_le a.1 b.1 ∧ a.1 ≠ b.1 ∨ (a.1 = b.1 ∧ a.2 ≤ b.2).

#[global] Instance pair_le_dec a b : Decision (pair_le a b).
Proof. unfold pair_le. apply _. Defined.

#[global] Instance triple_le_dec a b : Decision (triple_le a b).
Proof. unfold triple_le. apply _. Defined.

(** ** topology_automorphism.py *)

(** [involve(node, autmap)] *)
Definition involve (node : nat) (autmap : list nat) : result bool :=
  x ← orRaise IndexError (autmap !! node);
  Ok (bool_decide (x ≠ node)).

(** [applyGenerator(nodes, autmap)]: [tuple(autmap[n] for n in nodes)]. *)
Fixpoint applyGenerator {A} (nodes : list nat) (autmap : list A)
  : result (list A) :=
  match nodes with
  | [] => Ok []
  | n :: ns =>
      x ← orRaise IndexError (autmap !! n);
      xs ← applyGenerator ns autmap;
      Ok (x :: xs)
  end.

(** [applyGenerator] at a 2-tuple (a commodity or a directed link). *)
Definition applyGenerator2 {A} (p : nat * nat) (autmap : list A)
  : result (A * A) :=
  t ← applyGenerator [p.1; p.2] autmap;
  match t with
  | [a; b] => Ok (a, b)
  | _ => Raise TypeError
  end.

(** [applyGenerator] at a 3-tuple (an auxiliary index). *)
Definition applyGenerator3 {A} (p : nat * nat * nat) (autmap : list A)
  : result (A * A * A) :=
  t ← applyGenerator [p.1.1; p.1.2; p.2] autmap;
  match t with
  | [a; b; c] => Ok (a, b, c)
  | _ => Raise TypeError
  end.

(** The undirected graph [UG] (a [networkx.Graph]): nodes in insertion
    order with their attributes, and capacitated edges. *)
Record Graph : Type := {
  nodes : list nat;
  numServer : nat → nat;
  routing : nat → bool;
  edges : list (nat * nat * Qc);
}.

Definition number_of_nodes (G : Graph) : nat := length (nodes G).

(** [UG.get_edge_data(i, j)['capacity']]; the edge is undirected. *)
Definition get_edge_data (G : Graph) (i j : nat) : option Qc :=
  match list_find (λ e : nat * nat * Qc, e.1 = (i, j) ∨ e.1 = (j, i)) (edges G) with
  | Some (_, e) => Some e.2
  | None => None
  end.

(** [UG.adj[n]]: the nodes joined to [n] by an edge. *)
Definition adj (G : Graph) (n : nat) : list nat :=
  remove_dups
    (omap (λ e : nat * nat * Qc,
             if decide (e.1.1 = n) then Some e.1.2
             else if decide (e.1.2 = n) then Some e.1.1 else None)
          (edges G)).

(** [UG.neighbors(n)]: [NetworkXError] for a node that is not in the
    graph. *)
Definition neighbors (G : Graph) (n : nat) : result (list nat) :=
  if decide (n ∈ nodes G) then Ok (adj G n) else Raise NetworkXError.

(** The fields of a [Topology] object. *)
Record Topology : Type := {
  UG : Graph;
  RouteNodes : gset nat;
  NonRouteNodes : gset nat;
  AllNodes : gset nat;
  HostNodes : gset nat;
  Commodities : gset (nat * nat);
  ULinks : gset (nat * nat);
  DLinks : gset (nat * nat);
  Autgen : list (list nat);
  RepCommodities : gset (nat * nat);
  RepCommFlowLinks : gmap (nat * nat) (gset (nat * nat));
  RepAuxiliarys : gset (nat * nat * nat);
  RepLinkConstrs : gset (nat * nat);
}.

(** The pickled files under the precomputation directory. *)
Record Files : Type := {
  CommodityGroup : gmap (nat * nat) (gset (nat * nat));
  AutomorphicMap_Forward : gmap (nat * nat) (list nat);
  AutomorphicMap_Reverse : gmap (nat * nat) (list (option nat));
  FlowLinkMap : gmap (nat * nat) (gmap (nat * nat) (nat * nat));
  AuxiliaryGroup : gmap (nat * nat * nat) (gset (nat * nat * nat));
  AuxToRep : gmap nat (gmap (nat * nat) (nat * nat * nat));
  stage_findRepresentativeCommodities : option (gset (nat * nat));
  stage_findRepresentativeCommodityFlowLinks :
    option (gmap (nat * nat) (gset (nat * nat)));
  stage_findRepresentativeAuxs : option (gset (nat * nat * nat));
  stage_findRepresentativeLinkConstrs : option (gset (nat * nat));
}.

Definition no_files : Files :=
  {| CommodityGroup := ∅; AutomorphicMap_Forward := ∅;
     AutomorphicMap_Reverse := ∅; FlowLinkMap := ∅; AuxiliaryGroup := ∅;
     AuxToRep := ∅; stage_findRepresentativeCommodities := None;
     stage_findRepresentativeCommodityFlowLinks := None;
     stage_findRepresentativeAuxs := None;
     stage_findRepresentativeLinkConstrs := None |}.

(** [setUGraph]: the sets derived from the graph (fresh run, the generator
    set is supplied by the external automorphism discovery). *)
Definition setUGraph (ugraph : Graph) (autgen : list (list nat))
  : result Topology :=
  if decide (list_to_set (nodes ugraph) =@{gset nat}
             list_to_set (seq 0 (number_of_nodes ugraph))) then
    let route : gset nat := list_to_set (filter (λ n, routing ugraph n = true) (nodes ugraph)) in
    let nonroute : gset nat := list_to_set (filter (λ n, routing ugraph n = false) (nodes ugraph)) in
    let hosts : gset nat := list_to_set (filter (λ n, 0 < numServer ugraph n) (nodes ugraph)) in
    let ulinks : gset (nat * nat) := list_to_set (fst <$> edges ugraph) in
    Ok {| UG := ugraph;
          RouteNodes := route;
          NonRouteNodes := nonroute;
          AllNodes := route ∪ nonroute;
          HostNodes := hosts;
          Commodities :=
            list_to_set (s ← elements hosts; d ← elements hosts;
                         if decide (s = d) then [] else [(s, d)]);
          ULinks := ulinks;
          DLinks := ulinks ∪ set_map (λ l : nat * nat, (l.2, l.1)) ulinks;
          Autgen := autgen;
          RepCommodities := ∅;
          RepCommFlowLinks := ∅;
          RepAuxiliarys := ∅;
          RepLinkConstrs := ∅ |}
  else Raise AssertionError.

(** *** findRepresentativeCommodities *)

(** [rmap = [None]*len(fmap); for i in range(len(fmap)): rmap[fmap[i]] = i] *)
Definition invert_map (fmap : list nat) : result (list (option nat)) :=
  for_each
    (λ (rmap : list (option nat)) (i : nat),
       x ← orRaise IndexError (fmap !! i);
       if decide (x < length rmap) then Ok (<[x := Some i]> rmap)
       else Raise IndexError)
    (seq 0 (length fmap))
    (replicate (length fmap) None).

(** The loop state of [findRepresentativeCommodities] together with the
    commodity files it writes. *)
Record CommBfs : Type := {
  c_tovisit : gset ((nat * nat) * (nat * nat));
  c_visited : gset (nat * nat);
  c_repcomms : gset (nat * nat);
  c_autcomms : gset (nat * nat);
  c_fwd : gmap (nat * nat) (list nat);
  c_rev : gmap (nat * nat) (list (option nat));
  c_groups : gmap (nat * nat) (gset (nat * nat));
  c_clock : nat;
}.

(** [saveCommodityAutomorphicMap(sd, parent, autmap)] on the two map
    families; [n] is [UG.number_of_nodes()]. *)
Definition saveCommodityAutomorphicMap (n : nat) (sd parent : nat * nat)
    (autmap : option (list nat))
    (maps : gmap (nat * nat) (list nat) * gmap (nat * nat) (list (option nat)))
  : result (gmap (nat * nat) (list nat) * gmap (nat * nat) (list (option nat))) :=
  if decide (sd = parent) then
    let fmap := seq 0 n in
    Ok (<[sd := fmap]> maps.1, <[sd := Some <$> fmap]> maps.2)
  else
    pmapfwd ← orRaise FileNotFoundError (maps.1 !! parent);
    fmap ← match autmap with
           | Some a => applyGenerator pmapfwd a
           | None => if decide (pmapfwd = []) then Ok [] else Raise TypeError
           end;
    rmap ← invert_map fmap;
    Ok (<[sd := fmap]> maps.1, <[sd := rmap]> maps.2).

(** The [for autmap in self.Autgen] loop run for a popped commodity [sd]. *)
Definition comm_expand (n : nat) (autgen : list (list nat)) (sd : nat * nat)
    (σ : CommBfs) : result CommBfs :=
  for_each
    (λ (σ : CommBfs) (autmap : list nat),
       asd ← applyGenerator2 sd autmap;
       if decide (asd ∈ c_visited σ) then Ok σ
       else
         maps ← saveCommodityAutomorphicMap n asd sd (Some autmap)
                  (c_fwd σ, c_rev σ);
         Ok {| c_tovisit := c_tovisit σ ∪ {[(asd, sd)]};
               c_visited := c_visited σ;
               c_repcomms := c_repcomms σ;
               c_autcomms := c_autcomms σ;
               c_fwd := maps.1;
               c_rev := maps.2;
               c_groups := c_groups σ;
               c_clock := c_clock σ |})
    autgen σ.

(** One iteration of [while len(tovisit) > 0]. *)
Definition comm_while_body (n : nat) (autgen : list (list nat))
    (pick : nat → list ((nat * nat) * (nat * nat)) → nat) (σ : CommBfs)
  : result CommBfs :=
  popped ← set_pop (pick (c_clock σ)) (c_tovisit σ);
  let sd := popped.1.1 in
  comm_expand n autgen sd
    {| c_tovisit := popped.2;
       c_visited := c_visited σ ∪ {[sd]};
       c_repcomms := c_repcomms σ;
       c_autcomms := c_autcomms σ ∪ {[sd]};
       c_fwd := c_fwd σ;
       c_rev := c_rev σ;
       c_groups := c_groups σ;
       c_clock := S (c_clock σ) |}.

Definition comm_pending (σ : CommBfs) : bool :=
  bool_decide (0 < size (c_tovisit σ)).

(** The body of [for repsd in commodities]. *)
Definition comm_seed (n : nat) (autgen : list (list nat))
    (pick : nat → list ((nat * nat) * (nat * nat)) → nat) (fuel : nat)
    (σ : CommBfs) (repsd : nat * nat) : result CommBfs :=
  if decide (repsd ∈ c_visited σ) then Ok σ
  else
    maps ← saveCommodityAutomorphicMap n repsd repsd None (c_fwd σ, c_rev σ);
    σ' ← while comm_pending (comm_while_body n autgen pick) fuel
           {| c_tovisit := c_tovisit σ ∪ {[(repsd, repsd)]};
              c_visited := c_visited σ;
              c_repcomms := c_repcomms σ ∪ {[repsd]};
              c_autcomms := ∅;
              c_fwd := maps.1;
              c_rev := maps.2;
              c_groups := c_groups σ;
              c_clock := c_clock σ |};
    Ok {| c_tovisit := c_tovisit σ';
          c_visited := c_visited σ';
          c_repcomms := c_repcomms σ';
          c_autcomms := c_autcomms σ';
          c_fwd := c_fwd σ';
          c_rev := c_rev σ';
          c_groups := <[repsd := c_autcomms σ']> (c_groups σ');
          c_clock := c_clock σ' |}.

Definition comm_init (fs : Files) : CommBfs :=
  {| c_tovisit := ∅; c_visited := ∅; c_repcomms := ∅; c_autcomms := ∅;
     c_fwd := AutomorphicMap_Forward fs; c_rev := AutomorphicMap_Reverse fs;
     c_groups := CommodityGroup fs; c_clock := 0 |}.

(** The enumeration loop of [findRepresentativeCommodities]. *)
Definition comm_orbits (pick : nat → list ((nat * nat) * (nat * nat)) → nat)
    (fuel : nat) (self : Topology) (fs : Files) : result CommBfs :=
  for_each
    (comm_seed (number_of_nodes (UG self)) (Autgen self) pick fuel)
    (merge_sort pair_le (elements (Commodities self)))
    (comm_init fs).

Definition set_RepCommodities (self : Topology) (v : gset (nat * nat))
  : Topology :=
  {| UG := UG self; RouteNodes := RouteNodes self;
     NonRouteNodes := NonRouteNodes self; AllNodes := AllNodes self;
     HostNodes := HostNodes self; Commodities := Commodities self;
     ULinks := ULinks self; DLinks := DLinks self; Autgen := Autgen self;
     RepCommodities := v; RepCommFlowLinks := RepCommFlowLinks self;
     RepAuxiliarys := RepAuxiliarys self;
     RepLinkConstrs := RepLinkConstrs self |}.

Definition findRepresentativeCommodities
    (pick : nat → list ((nat * nat) * (nat * nat)) → nat) (fuel : nat)
    (self : Topology) (fs : Files) : result (Topology * Files) :=
  match stage_findRepresentativeCommodities fs with
  | Some stagedata => Ok (set_RepCommodities self stagedata, fs)
  | None =>
      σ ← comm_orbits pick fuel self fs;
      Ok (set_RepCommodities self (c_repcomms σ),
          {| CommodityGroup := c_groups σ;
             AutomorphicMap_Forward := c_fwd σ;
             AutomorphicMap_Reverse := c_rev σ;
             FlowLinkMap := FlowLinkMap fs;
             AuxiliaryGroup := AuxiliaryGroup fs;
             AuxToRep := AuxToRep fs;
             stage_findRepresentativeCommodities := Some (c_repcomms σ);
             stage_findRepresentativeCommodityFlowLinks :=
               stage_findRepresentativeCommodityFlowLinks fs;
             stage_findRepresentativeAuxs := stage_findRepresentativeAuxs fs;
             stage_findRepresentativeLinkConstrs :=
               stage_findRepresentativeLinkConstrs fs |})
  end.

(** *** Worker pools

    [pool.imap_unordered(f, xs)]: every task is run once and the results
    arrive in the order [sched] decides (a rearrangement of the inputs). *)
Definition imap_unordered {A B} (sched : list A → list A) (f : A → result B)
    (xs : list A) : result (list B) :=
  for_each (λ (acc : list B) (x : A), y ← f x; Ok (acc ++ [y])) (sched xs) [].

(** *** findRepresentativeCommodityFlowLinks *)

Record FlowBfs : Type := {
  l_tovisit : gset (nat * nat);
  l_visited : gset (nat * nat);
  l_repflowlinks : gset (nat * nat);
  l_flowlinkmap : gmap (nat * nat) (nat * nat);
  l_clock : nat;
}.

(** The generators that fix both endpoints of [repsd]. *)
Definition stabilizer (autgen : list (list nat)) (repsd : nat * nat)
  : result (list (list nat)) :=
  for_each
    (λ (acc : list (list nat)) (autmap : list nat),
       involve repsd.1 autmap ≫= λ i0 : bool,
       if i0 then Ok acc
       else
         involve repsd.2 autmap ≫= λ i1 : bool,
         if i1 then Ok acc else Ok (acc ++ [autmap]))
    autgen [].

Definition flow_expand (autgen : list (list nat)) (link : nat * nat)
    (σ : FlowBfs) : result FlowBfs :=
  for_each
    (λ (σ : FlowBfs) (autmap : list nat),
       alink ← applyGenerator2 link autmap;
       if decide (alink ∈ l_visited σ) then Ok σ
       else
         rep ← orRaise KeyError (l_flowlinkmap σ !! link);
         Ok {| l_tovisit := l_tovisit σ ∪ {[alink]};
               l_visited := l_visited σ;
               l_repflowlinks := l_repflowlinks σ;
               l_flowlinkmap := <[alink := rep]> (l_flowlinkmap σ);
               l_clock := l_clock σ |})
    autgen σ.

Definition flow_while_body (autgen : list (list nat))
    (pick : nat → list (nat * nat) → nat) (σ : FlowBfs) : result FlowBfs :=
  popped ← set_pop (pick (l_clock σ)) (l_tovisit σ);
  flow_expand autgen popped.1
    {| l_tovisit := popped.2;
       l_visited := l_visited σ ∪ {[popped.1]};
       l_repflowlinks := l_repflowlinks σ;
       l_flowlinkmap := l_flowlinkmap σ;
       l_clock := S (l_clock σ) |}.

Definition flow_pending (σ : FlowBfs) : bool :=
  bool_decide (0 < size (l_tovisit σ)).

Definition flow_seed (autgen : list (list nat))
    (pick : nat → list (nat * nat) → nat) (fuel : nat)
    (σ : FlowBfs) (canlink : nat * nat) : result FlowBfs :=
  if decide (canlink ∈ l_visited σ) then Ok σ
  else
    while flow_pending (flow_while_body autgen pick) fuel
      {| l_tovisit := l_tovisit σ ∪ {[canlink]};
         l_visited := l_visited σ;
         l_repflowlinks := l_repflowlinks σ ∪ {[canlink]};
         l_flowlinkmap := <[canlink := canlink]> (l_flowlinkmap σ);
         l_clock := l_clock σ |}.

(** [findRepresentativeCommodityFlowLinksByCommodity(repsd)]: the returned
    pair, and the flow-link map the task pickles under its own key. *)
Definition findRepresentativeCommodityFlowLinksByCommodity
    (pick : nat * nat → nat → list (nat * nat) → nat) (fuel : nat)
    (self : Topology) (repsd : nat * nat)
  : result ((nat * nat) * gset (nat * nat) * gmap (nat * nat) (nat * nat)) :=
  autgen ← stabilizer (Autgen self) repsd;
  σ ← for_each (flow_seed autgen (pick repsd) fuel)
        (merge_sort pair_le (elements (DLinks self)))
        {| l_tovisit := ∅; l_visited := ∅; l_repflowlinks := ∅;
           l_flowlinkmap := ∅; l_clock := 0 |};
  Ok (repsd, l_repflowlinks σ, l_flowlinkmap σ).

(** The merge loop of [findRepresentativeCommodityFlowLinks]:
    [self.RepCommFlowLinks[repsd] = repflowlinks] per finished task. *)
Definition merge_flowlinks
    (done : list ((nat * nat) * gset (nat * nat) * gmap (nat * nat) (nat * nat)))
    (acc : gmap (nat * nat) (gset (nat * nat))
           * gmap (nat * nat) (gmap (nat * nat) (nat * nat)))
  : gmap (nat * nat) (gset (nat * nat))
    * gmap (nat * nat) (gmap (nat * nat) (nat * nat)) :=
  foldl (λ acc r, (<[r.1.1 := r.1.2]> acc.1, <[r.1.1 := r.2]> acc.2)) acc done.

Definition set_RepCommFlowLinks (self : Topology)
    (v : gmap (nat * nat) (gset (nat * nat))) : Topology :=
  {| UG := UG self; RouteNodes := RouteNodes self;
     NonRouteNodes := NonRouteNodes self; AllNodes := AllNodes self;
     HostNodes := HostNodes self; Commodities := Commodities self;
     ULinks := ULinks self; DLinks := DLinks self; Autgen := Autgen self;
     RepCommodities := RepCommodities self; RepCommFlowLinks := v;
     RepAuxiliarys := RepAuxiliarys self;
     RepLinkConstrs := RepLinkConstrs self |}.

Definition set_FlowLinkMap (fs : Files)
    (m : gmap (nat * nat) (gmap (nat * nat) (nat * nat)))
    (stage : option (gmap (nat * nat) (gset (nat * nat)))) : Files :=
  {| CommodityGroup := CommodityGroup fs;
     AutomorphicMap_Forward := AutomorphicMap_Forward fs;
     AutomorphicMap_Reverse := AutomorphicMap_Reverse fs;
     FlowLinkMap := m;
     AuxiliaryGroup := AuxiliaryGroup fs;
     AuxToRep := AuxToRep fs;
     stage_findRepresentativeCommodities :=
       stage_findRepresentativeCommodities fs;
     stage_findRepresentativeCommodityFlowLinks := stage;
     stage_findRepresentativeAuxs := stage_findRepresentativeAuxs fs;
     stage_findRepresentativeLinkConstrs :=
       stage_findRepresentativeLinkConstrs fs |}.

Definition findRepresentativeCommodityFlowLinks
    (sched : list (nat * nat) → list (nat * nat))
    (pick : nat * nat → nat → list (nat * nat) → nat) (fuel : nat)
    (self : Topology) (fs : Files) : result (Topology * Files) :=
  match stage_findRepresentativeCommodityFlowLinks fs with
  | Some stagedata => Ok (set_RepCommFlowLinks self stagedata, fs)
  | None =>
      done ← imap_unordered sched
                (findRepresentativeCommodityFlowLinksByCommodity pick fuel self)
                (elements (RepCommodities self));
      let merged := merge_flowlinks done (∅, FlowLinkMap fs) in
      Ok (set_RepCommFlowLinks self merged.1,
          set_FlowLinkMap fs merged.2 (Some merged.1))
  end.

(** *** findRepresentativeAuxs *)

Record AuxBfs : Type := {
  a_tovisit : gset (nat * nat * nat);
  a_visited : gset (nat * nat * nat);
  a_repauxs : gset (nat * nat * nat);
  a_autauxs : gset (nat * nat * nat);
  a_groups : gmap (nat * nat * nat) (gset (nat * nat * nat));
  a_clock : nat;
}.

Definition aux_expand (autgen : list (list nat)) (aux : nat * nat * nat)
    (σ : AuxBfs) : result AuxBfs :=
  for_each
    (λ (σ : AuxBfs) (autmap : list nat),
       aaux ← applyGenerator3 aux autmap;
       if decide (aaux ∈ a_visited σ) then Ok σ
       else
         Ok {| a_tovisit := a_tovisit σ ∪ {[aaux]};
               a_visited := a_visited σ;
               a_repauxs := a_repauxs σ;
               a_autauxs := a_autauxs σ;
               a_groups := a_groups σ;
               a_clock := a_clock σ |})
    autgen σ.

Definition aux_while_body (autgen : list (list nat))
    (pick : nat → list (nat * nat * nat) → nat) (σ : AuxBfs) : result AuxBfs :=
  popped ← set_pop (pick (a_clock σ)) (a_tovisit σ);
  aux_expand autgen popped.1
    {| a_tovisit := popped.2;
       a_visited := a_visited σ ∪ {[popped.1]};
       a_repauxs := a_repauxs σ;
       a_autauxs := a_autauxs σ ∪ {[popped.1]};
       a_groups := a_groups σ;
       a_clock := S (a_clock σ) |}.

Definition aux_pending (σ : AuxBfs) : bool :=
  bool_decide (0 < size (a_tovisit σ)).

Definition aux_seed (autgen : list (list nat))
    (pick : nat → list (nat * nat * nat) → nat) (fuel : nat)
    (σ : AuxBfs) (repaux : nat * nat * nat) : result AuxBfs :=
  if decide (repaux ∈ a_visited σ) then Ok σ
  else
    σ' ← while aux_pending (aux_while_body autgen pick) fuel
           {| a_tovisit := a_tovisit σ ∪ {[repaux]};
              a_visited := a_visited σ;
              a_repauxs := a_repauxs σ ∪ {[repaux]};
              a_autauxs := ∅;
              a_groups := a_groups σ;
              a_clock := a_clock σ |};
    Ok {| a_tovisit := a_tovisit σ';
          a_visited := a_visited σ';
          a_repauxs := a_repauxs σ';
          a_autauxs := a_autauxs σ';
          a_groups := <[repaux := a_autauxs σ']> (a_groups σ');
          a_clock := a_clock σ' |}.

(** [[(u, i, j) for u in self.HostNodes for (i, j) in self.DLinks]], sorted. *)
Definition auxindice (self : Topology) : list (nat * nat * nat) :=
  merge_sort triple_le
    (u ← elements (HostNodes self);
     l ← elements (DLinks self);
     [(u, l.1, l.2)]).

Definition aux_orbits (pick : nat → list (nat * nat * nat) → nat) (fuel : nat)
    (self : Topology) (fs : Files) : result AuxBfs :=
  for_each (aux_seed (Autgen self) pick fuel) (auxindice self)
    {| a_tovisit := ∅; a_visited := ∅; a_repauxs := ∅; a_autauxs := ∅;
       a_groups := AuxiliaryGroup fs; a_clock := 0 |}.

Definition set_RepAuxiliarys (self : Topology) (v : gset (nat * nat * nat))
  : Topology :=
  {| UG := UG self; RouteNodes := RouteNodes self;
     NonRouteNodes := NonRouteNodes self; AllNodes := AllNodes self;
     HostNodes := HostNodes self; Commodities := Commodities self;
     ULinks := ULinks self; DLinks := DLinks self; Autgen := Autgen self;
     RepCommodities := RepCommodities self;
     RepCommFlowLinks := RepCommFlowLinks self;
     RepAuxiliarys := v;
     RepLinkConstrs := RepLinkConstrs self |}.

Definition set_AuxiliaryGroup (fs : Files)
    (m : gmap (nat * nat * nat) (gset (nat * nat * nat)))
    (stage : option (gset (nat * nat * nat))) : Files :=
  {| CommodityGroup := CommodityGroup fs;
     AutomorphicMap_Forward := AutomorphicMap_Forward fs;
     AutomorphicMap_Reverse := AutomorphicMap_Reverse fs;
     FlowLinkMap := FlowLinkMap fs;
     AuxiliaryGroup := m;
     AuxToRep := AuxToRep fs;
     stage_findRepresentativeCommodities :=
       stage_findRepresentativeCommodities fs;
     stage_findRepresentativeCommodityFlowLinks :=
       stage_findRepresentativeCommodityFlowLinks fs;
     stage_findRepresentativeAuxs := stage;
     stage_findRepresentativeLinkConstrs :=
       stage_findRepresentativeLinkConstrs fs |}.

Definition findRepresentativeAuxs
    (pick : nat → list (nat * nat * nat) → nat) (fuel : nat)
    (self : Topology) (fs : Files) : result (Topology * Files) :=
  match stage_findRepresentativeAuxs fs with
  | Some stagedata => Ok (set_RepAuxiliarys self stagedata, fs)
  | None =>
      σ ← aux_orbits pick fuel self fs;
      Ok (set_RepAuxiliarys self (a_repauxs σ),
          set_AuxiliaryGroup fs (a_groups σ) (Some (a_repauxs σ)))
  end.

(** *** computeAuxReverseMap *)

(** The dictionary [auxtorep] built for one host [u]. *)
Definition auxtorep_of (groups : gmap (nat * nat * nat) (gset (nat * nat * nat)))
    (reps : list (nat * nat * nat)) (u : nat)
  : result (gmap (nat * nat) (nat * nat * nat)) :=
  for_each
    (λ (auxtorep : gmap (nat * nat) (nat * nat * nat)) (repaux : nat * nat * nat),
       autauxs ← orRaise FileNotFoundError (groups !! repaux);
       Ok (foldl
             (λ (m : gmap (nat * nat) (nat * nat * nat)) (nij : nat * nat * nat),
                if decide (nij.1.1 ≠ u) then m
                else <[(nij.1.2, nij.2) := repaux]> m)
             auxtorep (elements autauxs)))
    reps ∅.

Definition set_AuxToRep (fs : Files)
    (m : gmap nat (gmap (nat * nat) (nat * nat * nat))) : Files :=
  {| CommodityGroup := CommodityGroup fs;
     AutomorphicMap_Forward := AutomorphicMap_Forward fs;
     AutomorphicMap_Reverse := AutomorphicMap_Reverse fs;
     FlowLinkMap := FlowLinkMap fs;
     AuxiliaryGroup := AuxiliaryGroup fs;
     AuxToRep := m;
     stage_findRepresentativeCommodities :=
       stage_findRepresentativeCommodities fs;
     stage_findRepresentativeCommodityFlowLinks :=
       stage_findRepresentativeCommodityFlowLinks fs;
     stage_findRepresentativeAuxs := stage_findRepresentativeAuxs fs;
     stage_findRepresentativeLinkConstrs :=
       stage_findRepresentativeLinkConstrs fs |}.

Definition computeAuxReverseMap (self : Topology) (fs : Files) : result Files :=
  for_each
    (λ (fs : Files) (u : nat),
       auxtorep ← auxtorep_of (AuxiliaryGroup fs)
                    (elements (RepAuxiliarys self)) u;
       Ok (set_AuxToRep fs (<[u := auxtorep]> (AuxToRep fs))))
    (elements (HostNodes self)) fs.

(** The "Find representative auxs" step of [Topology.__init__]. *)
Definition aux_stage (pick : nat → list (nat * nat * nat) → nat) (fuel : nat)
    (self : Topology) (fs : Files) : result (Topology * Files) :=
  r ← findRepresentativeAuxs pick fuel self fs;
  fs' ← computeAuxReverseMap r.1 r.2;
  Ok (r.1, fs').

(** [loadAuxToRep(node)] *)
Definition loadAuxToRep (fs : Files) (node : nat)
  : result (gmap (nat * nat) (nat * nat * nat)) :=
  orRaise FileNotFoundError (AuxToRep fs !! node).

(** *** Insertion-ordered dictionaries and sets

    A [dict] whose value order matters ([count.values()],
    [repgroups.values()]) is an association list in insertion order.  A
    [set] whose [pop()] result is observed is the list of its members in
    insertion order: the popped member may depend on that history. *)

Fixpoint dict_get {K V} `{EqDecision K} (k : K) (d : list (K * V)) : option V :=
  match d with
  | [] => None
  | kv :: d' => if decide (k = kv.1) then Some kv.2 else dict_get k d'
  end.

Fixpoint dict_set {K V} `{EqDecision K} (k : K) (v : V) (d : list (K * V))
  : list (K * V) :=
  match d with
  | [] => [(k, v)]
  | kv :: d' =>
      if decide (k = kv.1) then (kv.1, v) :: d' else kv :: dict_set k v d'
  end.

Definition dict_values {K V} (d : list (K * V)) : list V := snd <$> d.

Definition hset_add {T} `{EqDecision T} (x : T) (s : list T) : list T :=
  if decide (x ∈ s) then s else s ++ [x].

Definition hset_pop {T} `{EqDecision T} (pick : list T → nat) (s : list T)
  : result (T * list T) :=
  match s !! (pick s `mod` length s) with
  | Some x => Ok (x, filter (λ y, y ≠ x) s)
  | None => Raise KeyError
  end.

(** *** encodeLinkConstraint *)

Inductive bg : Type := tag_b | tag_g.

#[global] Instance bg_eq_dec : EqDecision bg.
Proof. solve_decision. Defined.

(** [count[k] += 1] *)
Definition dict_incr {K} `{EqDecision K} (k : K) (d : list (K * nat))
  : result (list (K * nat)) :=
  v ← orRaise KeyError (dict_get k d);
  Ok (dict_set k (v + 1) d).

(** The dictionary [count] at the end of [encodeLinkConstraint(link)]. *)
Definition encodeLinkConstraint_count (self : Topology) (fs : Files)
    (link : nat * nat) : result (list (bg * (nat * nat * nat) * nat)) :=
  let count0 :=
    foldl (λ count auxidx,
             dict_set (tag_g, auxidx) 0 (dict_set (tag_b, auxidx) 0 count))
          [] (elements (RepAuxiliarys self)) in
  for_each
    (λ (count : list (bg * (nat * nat * nat) * nat)) (u : nat),
       auxtorep ← loadAuxToRep fs u;
       auxidx ← orRaise KeyError (auxtorep !! link);
       count ← dict_incr (tag_b, auxidx) count;
       dict_incr (tag_g, auxidx) count)
    (elements (HostNodes self)) count0.

Definition encodeLinkConstraint (self : Topology) (fs : Files)
    (link : nat * nat) : result ((nat * nat) * list nat) :=
  count ← encodeLinkConstraint_count self fs link;
  Ok (link, dict_values count).

(** *** findRepresentativeLinkConstrs *)

(** The grouping loop: [repgroups[encode].add(link)] per finished task. *)
Definition group_by_encode (done : list ((nat * nat) * list nat))
  : list (list nat * list (nat * nat)) :=
  foldl
    (λ (repgroups : list (list nat * list (nat * nat))) r,
       let repgroups :=
         match dict_get r.2 repgroups with
         | None => dict_set r.2 [] repgroups
         | Some _ => repgroups
         end in
       match dict_get r.2 repgroups with
       | Some links => dict_set r.2 (hset_add r.1 links) repgroups
       | None => repgroups
       end)
    [] done.

(** [for links in repgroups.values(): replinks.add(links.pop())] *)
Definition pop_representatives (pop : list (nat * nat) → nat)
    (repgroups : list (list nat * list (nat * nat)))
  : result (gset (nat * nat)) :=
  for_each
    (λ (replinks : gset (nat * nat)) (links : list (nat * nat)),
       popped ← hset_pop pop links;
       Ok (replinks ∪ {[popped.1]}))
    (dict_values repgroups) ∅.

Definition set_RepLinkConstrs (self : Topology) (v : gset (nat * nat))
  : Topology :=
  {| UG := UG self; RouteNodes := RouteNodes self;
     NonRouteNodes := NonRouteNodes self; AllNodes := AllNodes self;
     HostNodes := HostNodes self; Commodities := Commodities self;
     ULinks := ULinks self; DLinks := DLinks self; Autgen := Autgen self;
     RepCommodities := RepCommodities self;
     RepCommFlowLinks := RepCommFlowLinks self;
     RepAuxiliarys := RepAuxiliarys self;
     RepLinkConstrs := v |}.

Definition set_stage_LinkConstrs (fs : Files) (stage : option (gset (nat * nat)))
  : Files :=
  {| CommodityGroup := CommodityGroup fs;
     AutomorphicMap_Forward := AutomorphicMap_Forward fs;
     AutomorphicMap_Reverse := AutomorphicMap_Reverse fs;
     FlowLinkMap := FlowLinkMap fs;
     AuxiliaryGroup := AuxiliaryGroup fs;
     AuxToRep := AuxToRep fs;
     stage_findRepresentativeCommodities :=
       stage_findRepresentativeCommodities fs;
     stage_findRepresentativeCommodityFlowLinks :=
       stage_findRepresentativeCommodityFlowLinks fs;
     stage_findRepresentativeAuxs := stage_findRepresentativeAuxs fs;
     stage_findRepresentativeLinkConstrs := stage |}.

Definition findRepresentativeLinkConstrs
    (sched : list (nat * nat) → list (nat * nat))
    (pop : list (nat * nat) → nat)
    (self : Topology) (fs : Files) : result (Topology * Files) :=
  match stage_findRepresentativeLinkConstrs fs with
  | Some stagedata => Ok (set_RepLinkConstrs self stagedata, fs)
  | None =>
      done ← imap_unordered sched (encodeLinkConstraint self fs)
                (elements (DLinks self));
      replinks ← pop_representatives pop (group_by_encode done);
      Ok (set_RepLinkConstrs self replinks,
          set_stage_LinkConstrs fs (Some replinks))
  end.

(** *** Topology.__init__ after generator discovery *)

Record Oracles : Type := {
  pick_comm : nat → list ((nat * nat) * (nat * nat)) → nat;
  pick_flow : nat * nat → nat → list (nat * nat) → nat;
  pick_aux : nat → list (nat * nat * nat) → nat;
  pop_link : list (nat * nat) → nat;
  sched_flow : list (nat * nat) → list (nat * nat);
  sched_link : list (nat * nat) → list (nat * nat);
}.

(** [Topology.__init__] up to and including the auxiliary step. *)
Definition Topology_init_aux (o : Oracles) (fuel : nat) (ugraph : Graph)
    (autgen : list (list nat)) (fs : Files) : result (Topology * Files) :=
  self ← setUGraph ugraph autgen;
  r ← findRepresentativeCommodities (pick_comm o) fuel self fs;
  r ← findRepresentativeCommodityFlowLinks (sched_flow o) (pick_flow o) fuel
        r.1 r.2;
  aux_stage (pick_aux o) fuel r.1 r.2.

Definition Topology_init (o : Oracles) (fuel : nat) (ugraph : Graph)
    (autgen : list (list nat)) (fs : Files) : result (Topology * Files) :=
  r ← Topology_init_aux o fuel ugraph autgen fs;
  findRepresentativeLinkConstrs (sched_link o) (pop_link o) r.1 r.2.

(** *** Sample topologies *)

(** Two hosts joined by one unit-capacity link; the only non-trivial
    automorphism swaps them. *)
Definition pair_graph : Graph :=
  {| nodes := [0; 1]; numServer := λ _, 1; routing := λ _, true;
     edges := [(0, 1, 1%Qc)] |}.

Definition pair_autgen : list (list nat) := [[1; 0]].

Definition first_oracles : Oracles :=
  {| pick_comm := λ _ _, 0; pick_flow := λ _ _ _, 0; pick_aux := λ _ _, 0;
     pop_link := λ _, 0; sched_flow := id; sched_link := id |}.

(** ** optimization.py *)

(** Solver variables, identified as their Gurobi names identify them. *)
Inductive Var : Type :=
| Var_r
| Var_f (repsd : nat * nat) (link : nat * nat)
| Var_b (repaux : nat * nat * nat)
| Var_g (repaux : nat * nat * nat).

#[global] Instance Var_eq_dec : EqDecision Var.
Proof. solve_decision. Defined.

(** Constraint names: [fc_s_d_n], [afa_s_d_i_j], [afc_s_d_i_j],
    [auxtc_i_j], [auxfc_s_d_i_j]. *)
Inductive CName : Type :=
| fc (s d n : nat)
| afa (s d i j : nat)
| afc (s d i j : nat)
| auxtc (i j : nat)
| auxfc (s d i j : nat).

#[global] Instance CName_eq_dec : EqDecision CName.
Proof. solve_decision. Defined.

(** A linear expression: weighted variables plus a constant. *)
Record LinExpr : Type := {
  terms : list (Qc * Var);
  constant : Qc;
}.

Inductive Sense : Type := EQUAL | LESS_EQUAL.

Record Constr : Type := {
  cname : CName;
  lhs : LinExpr;
  sense : Sense;
  rhs : LinExpr;
}.

(** The part of an [Optimization] object the constraint builders use. *)
Record Optimization : Type := {
  Topo : Topology;
  constrs : list Constr;
  F : gmap (nat * nat) (gmap (nat * nat) Var);
  B : gmap (nat * nat * nat) Var;
  G : gmap (nat * nat * nat) Var;
}.

(** [createVariables]: the dictionaries [F], [B] and [G]. *)
Definition createVariables (topo : Topology) : result Optimization :=
  Fd ← for_each
         (λ (Fd : gmap (nat * nat) (gmap (nat * nat) Var)) (repsd : nat * nat),
            links ← orRaise KeyError (RepCommFlowLinks topo !! repsd);
            row ← for_each
                    (λ (row : gmap (nat * nat) Var) (repflowlink : nat * nat),
                       linkcap ← orRaise TypeError
                         (get_edge_data (UG topo) repflowlink.1 repflowlink.2);
                       Ok (<[repflowlink := Var_f repsd repflowlink]> row))
                    (elements links) ∅;
            Ok (<[repsd := row]> Fd))
         (elements (RepCommodities topo)) ∅;
  Ok {| Topo := topo; constrs := []; F := Fd;
        B := set_to_map (λ repaux, (repaux, Var_b repaux)) (RepAuxiliarys topo);
        G := set_to_map (λ repaux, (repaux, Var_g repaux)) (RepAuxiliarys topo) |}.

Definition addConstr (c : Constr) (self : Optimization) : Optimization :=
  {| Topo := Topo self; constrs := constrs self ++ [c]; F := F self;
     B := B self; G := G self |}.

(** [loadCommodityFlowLinkMap(repsd)] *)
Definition loadCommodityFlowLinkMap (fs : Files) (repsd : nat * nat)
  : result (gmap (nat * nat) (nat * nat)) :=
  orRaise FileNotFoundError (FlowLinkMap fs !! repsd).

(** [sum(F[repsd][flowmap[link h]] for h in hs)], [hs] being the
    neighbours [UG.neighbors(n)] handed out: the variables summed.  Over
    no neighbour the built-in [sum] is the integer 0 and no dictionary
    is read. *)
Definition flow_sum (Fd : gmap (nat * nat) (gmap (nat * nat) Var))
    (repsd : nat * nat)
    (flowmap : gmap (nat * nat) (nat * nat)) (link_of : nat → nat * nat)
    (hs : list nat) : result (list (Qc * Var)) :=
  for_each
    (λ (acc : list (Qc * Var)) (h : nat),
       Frep ← orRaise KeyError (Fd !! repsd);
       replink ← orRaise KeyError (flowmap !! link_of h);
       v ← orRaise KeyError (Frep !! replink);
       Ok (acc ++ [(1%Qc, v)]))
    hs [].

(** The constraint [setFlowConservationConstraint] adds for commodity
    [(s, d)] at node [n].  When neither sum holds a variable, [flowin]
    and [flowout] are integers, [flowin == flowout] is a Python [bool],
    and [M.addConstr] refuses it. *)
Definition flow_conservation_at (self : Optimization)
    (flowmap : gmap (nat * nat) (nat * nat)) (repsd : nat * nat) (n : nat)
  : result Constr :=
  let s := repsd.1 in
  let d := repsd.2 in
  hs ← neighbors (UG (Topo self)) n;
  flowin ← flow_sum (F self) repsd flowmap (λ h, (h, n)) hs;
  hs ← neighbors (UG (Topo self)) n;
  flowout ← flow_sum (F self) repsd flowmap (λ h, (n, h)) hs;
  if decide (flowin = [] ∧ flowout = []) then Raise AddConstrError
  else
    Ok {| cname := fc s d n;
          lhs := {| terms := flowin;
                    constant := if decide (n = s) then 1%Qc else 0%Qc |};
          sense := EQUAL;
          rhs := {| terms := flowout;
                    constant := if decide (n = d) then 1%Qc else 0%Qc |} |}.

Definition setFlowConservationConstraint (fs : Files) (self : Optimization)
  : result Optimization :=
  for_each
    (λ (self : Optimization) (repsd : nat * nat),
       flowmap ← loadCommodityFlowLinkMap fs repsd;
       for_each
         (λ (self : Optimization) (n : nat),
            c ← flow_conservation_at self flowmap repsd n;
            Ok (addConstr c self))
         (elements (AllNodes (Topo self))) self)
    (elements (RepCommodities (Topo self))) self.

(** [setAuxThroughputConstraint] *)
Definition setAuxThroughputConstraint (fs : Files) (self : Optimization)
  : result Optimization :=
  for_each
    (λ (self : Optimization) (ij : nat * nat),
       lhs ← for_each
               (λ (lhs : list (Qc * Var)) (u : nat),
                  linkauxtorep ← loadAuxToRep fs u;
                  auxidx ← orRaise KeyError (linkauxtorep !! ij);
                  vb ← orRaise KeyError (B self !! auxidx);
                  vg ← orRaise KeyError (G self !! auxidx);
                  let w := Qc_of_Z (Z.of_nat (numServer (UG (Topo self)) u)) in
                  Ok (lhs ++ [(w, vb); (w, vg)]))
               (elements (HostNodes (Topo self))) [];
       Ok (addConstr {| cname := auxtc ij.1 ij.2;
                        lhs := {| terms := lhs; constant := 0%Qc |};
                        sense := LESS_EQUAL;
                        rhs := {| terms := [(1%Qc, Var_r)]; constant := 0%Qc |} |}
                     self))
    (elements (RepLinkConstrs (Topo self))) self.

(** [setAuxFlowConstraint] *)
Definition setAuxFlowConstraint (fs : Files) (self : Optimization)
  : result Optimization :=
  for_each
    (λ (self : Optimization) (repsd : nat * nat),
       links ← orRaise KeyError (RepCommFlowLinks (Topo self) !! repsd);
       for_each
         (λ (self : Optimization) (repflowlink : nat * nat),
            linkcap ← orRaise TypeError
              (get_edge_data (UG (Topo self)) repflowlink.1 repflowlink.2);
            srclinkauxtorep ← loadAuxToRep fs repsd.1;
            bauxidx ← orRaise KeyError (srclinkauxtorep !! repflowlink);
            dstlinkauxtorep ← loadAuxToRep fs repsd.2;
            gauxidx ← orRaise KeyError (dstlinkauxtorep !! repflowlink);
            Frep ← orRaise KeyError (F self !! repsd);
            vf ← orRaise KeyError (Frep !! repflowlink);
            if decide (linkcap = 0%Qc) then Raise ZeroDivisionError
            else
              vb ← orRaise KeyError (B self !! bauxidx);
              vg ← orRaise KeyError (G self !! gauxidx);
              Ok (addConstr
                    {| cname := auxfc repsd.1 repsd.2 repflowlink.1 repflowlink.2;
                       lhs := {| terms := [((1 / linkcap)%Qc, vf);
                                           ((-1)%Qc, vb); ((-1)%Qc, vg)];
                                 constant := 0%Qc |};
                       sense := LESS_EQUAL;
                       rhs := {| terms := []; constant := 0%Qc |} |}
                    self))
         (elements links) self)
    (elements (RepCommodities (Topo self))) self.

(** The outcome the external solver reports for the model. *)
Inductive Status : Type :=
| OPTIMAL
| TIME_LIMIT
| INFEASIBLE
| OTHER_STATUS (code : nat).

(** [SolCount] is the number of solutions the solver holds; the
    attributes [ObjVal] and [X] can be read only when there is one. *)
Record Solved : Type := {
  status : Status;
  SolCount : nat;
  ObjVal : Qc;
  X : Var → Qc;
  getVars : list Var;
}.

(** [v.X] and [M.ObjVal]: [AttributeError] when the solver holds no
    solution. *)
Definition var_X (sol : Solved) (v : Var) : result Qc :=
  if decide (SolCount sol = 0) then Raise AttributeError else Ok (X sol v).

Definition model_ObjVal (sol : Solved) : result Qc :=
  if decide (SolCount sol = 0) then Raise AttributeError else Ok (ObjVal sol).

(** A routing graph: edge [(i, j)] carries a dictionary from commodity
    to flow. *)
Record Routing : Type := {
  r_nodes : gset nat;
  r_edges : gmap (nat * nat) (gmap (nat * nat) Qc);
}.

(** The pickled files under the output directory. *)
Record Output : Type := {
  ComputedThroughput : option Qc;
  OptimalRouting : option Routing;
  IntermediateRouting : option Routing;
  IntermediateSolution : option (list (Var * Qc));
  VerifiedThroughput : option Qc;
  VerifiedIntermediateThroughput : option Qc;
}.

Definition no_output : Output :=
  {| ComputedThroughput := None; OptimalRouting := None;
     IntermediateRouting := None; IntermediateSolution := None;
     VerifiedThroughput := None; VerifiedIntermediateThroughput := None |}.

(** [g.add_edge(i, j)]: an existing edge keeps its attributes. *)
Definition add_edge (i j : nat) (g : Routing) : Routing :=
  {| r_nodes := r_nodes g ∪ {[i; j]};
     r_edges := match r_edges g !! (i, j) with
                | Some _ => r_edges g
                | None => <[(i, j) := ∅]> (r_edges g)
                end |}.

(** [g[i][j][repsd] = flow] *)
Definition set_flow (i j : nat) (repsd : nat * nat) (flow : Qc) (g : Routing)
  : result Routing :=
  attrs ← orRaise KeyError (r_edges g !! (i, j));
  Ok {| r_nodes := r_nodes g;
        r_edges := <[(i, j) := <[repsd := flow]> attrs]> (r_edges g) |}.

(** The expansion loop shared verbatim by [saveOptimalRouting] and
    [saveIntermediateRouting]. *)
Definition expand_routing (fs : Files) (self : Optimization) (sol : Solved)
  : result Routing :=
  let g0 := {| r_nodes := list_to_set (nodes (UG (Topo self))); r_edges := ∅ |} in
  for_each
    (λ (g : Routing) (e : nat * nat * Qc),
       let i := e.1.1 in
       let j := e.1.2 in
       for_each
         (λ (g : Routing) (repsd : nat * nat),
            flowmap ← loadCommodityFlowLinkMap fs repsd;
            Frep ← orRaise KeyError (F self !! repsd);
            lij ← orRaise KeyError (flowmap !! (i, j));
            vij ← orRaise KeyError (Frep !! lij);
            flowij ← var_X sol vij;
            Frep ← orRaise KeyError (F self !! repsd);
            lji ← orRaise KeyError (flowmap !! (j, i));
            vji ← orRaise KeyError (Frep !! lji);
            flowji ← var_X sol vji;
            g ← (if decide (0 < flowij)%Qc then set_flow i j repsd flowij g
                 else Ok g);
            if decide (0 < flowji)%Qc then set_flow j i repsd flowji g
            else Ok g)
         (elements (RepCommodities (Topo self)))
         (add_edge j i (add_edge i j g)))
    (edges (UG (Topo self))) g0.

(** Name resolution inside a function body: a name is bound if it is a
    local of the function or a global of the module (no builtin of the
    names below exists). *)
Definition resolve (locals globals : list string) (name : string) : result unit :=
  if decide (name ∈ locals ++ globals) then Ok () else Raise (NameError name).

(** The module-level names of optimization.py. *)
Definition optimization_globals : list string :=
  ["time"; "pickle"; "nx"; "gp"; "os"; "itertools"; "helper"; "HCONST";
   "DEFAULT_MAX_TIMEOUT"; "Optimization"]%string.

(** The parameter and assigned names of [saveIntermediateRouting]. *)
Definition saveIntermediateRouting_locals : list string :=
  ["self"; "Topo"; "F"; "g"; "node"; "i"; "j"; "repsd"; "flowmap"; "flowij";
   "flowji"; "intermediatesolution"]%string.

Definition set_IntermediateRouting (out : Output) (g : Routing) : Output :=
  {| ComputedThroughput := ComputedThroughput out;
     OptimalRouting := OptimalRouting out;
     IntermediateRouting := Some g;
     IntermediateSolution := IntermediateSolution out;
     VerifiedThroughput := VerifiedThroughput out;
     VerifiedIntermediateThroughput := VerifiedIntermediateThroughput out |}.

Definition set_IntermediateSolution (out : Output) (s : list (Var * Qc)) : Output :=
  {| ComputedThroughput := ComputedThroughput out;
     OptimalRouting := OptimalRouting out;
     IntermediateRouting := IntermediateRouting out;
     IntermediateSolution := Some s;
     VerifiedThroughput := VerifiedThroughput out;
     VerifiedIntermediateThroughput := VerifiedIntermediateThroughput out |}.

(** [saveIntermediateRouting]: the outcome and the output directory it
    leaves behind (files written before an exception stay written). *)
Definition saveIntermediateRouting (fs : Files) (self : Optimization)
    (sol : Solved) (out : Output) : result unit * Output :=
  match expand_routing fs self sol with
  | Ok g =>
      let out := set_IntermediateRouting out g in
      match resolve saveIntermediateRouting_locals optimization_globals "M" with
      | Ok _ =>
          match for_each (λ (d : list (Var * Qc)) (v : Var),
                            x ← var_X sol v; Ok (d ++ [(v, x)]))
                         (getVars sol) [] with
          | Ok d => (Ok (), set_IntermediateSolution out d)
          | Raise e => (Raise e, out)
          | OutOfFuel => (OutOfFuel, out)
          end
      | Raise e => (Raise e, out)
      | OutOfFuel => (OutOfFuel, out)
      end
  | Raise e => (Raise e, out)
  | OutOfFuel => (OutOfFuel, out)
  end.

(** [computeOptimalSolution], after [M.optimize()] reported [sol]. *)
Definition computeOptimalSolution (fs : Files) (self : Optimization)
    (sol : Solved) (out : Output) : result (option Qc) * Output :=
  match status sol with
  | OPTIMAL =>
      match model_ObjVal sol with
      | Ok objval =>
          if decide (objval = 0%Qc) then (Raise ZeroDivisionError, out)
          else (Ok (Some (1 / objval)%Qc), out)
      | Raise e => (Raise e, out)
      | OutOfFuel => (OutOfFuel, out)
      end
  | TIME_LIMIT =>
      match saveIntermediateRouting fs self sol out with
      | (Ok _, out) => (Ok None, out)
      | (Raise e, out) => (Raise e, out)
      | (OutOfFuel, out) => (OutOfFuel, out)
      end
  | _ => (Raise AssertionError, out)
  end.

(** ** verification.py *)

(** [self.Route]: the routing graph, or (for an intermediate run) the
    pickled variable dictionary, which has no edge data. *)
Inductive Route : Type :=
| RouteGraph (g : Routing)
| RouteDict (d : list (Var * Qc)).

Record Verification : Type := {
  intermediate : bool;
  vTopo : Topology;
  vRoute : Route;
}.

(** [Route.get_edge_data] at a link whose coordinates come from a
    stored reverse map. *)
Definition route_edge_data (r : Route) (alink : option nat * option nat)
  : result (gmap (nat * nat) Qc) :=
  match r with
  | RouteGraph g =>
      match alink with
      | (Some i, Some j) => orRaise AttributeError (r_edges g !! (i, j))
      | _ => Raise AttributeError
      end
  | RouteDict _ => Raise AttributeError
  end.

(** [loadCommodityGroup(repsd)], [loadCommodityAutomorphicMap(sd, False)] *)
Definition loadCommodityGroup (fs : Files) (repsd : nat * nat)
  : result (gset (nat * nat)) :=
  orRaise FileNotFoundError (CommodityGroup fs !! repsd).

Definition loadCommodityAutomorphicMap_Reverse (fs : Files) (sd : nat * nat)
  : result (list (option nat)) :=
  orRaise FileNotFoundError (AutomorphicMap_Reverse fs !! sd).

(** The per-link program handed to the solver: one share variable per
    commodity, two capacity rows per host, and the objective [load]. *)
Record LinkLP : Type := {
  lp_vars : list (nat * nat);
  lp_hosts : list (nat * nat);
  lp_objective : list ((nat * nat) * Qc);
}.

(** The objective of [findMaxLinkLoad(link)]. *)
Definition link_objective (fs : Files) (self : Verification) (link : nat * nat)
  : result (list ((nat * nat) * Qc)) :=
  for_each
    (λ (load : list ((nat * nat) * Qc)) (repsd : nat * nat),
       autcomms ← loadCommodityGroup fs repsd;
       for_each
         (λ (load : list ((nat * nat) * Qc)) (sd : nat * nat),
            rmap ← loadCommodityAutomorphicMap_Reverse fs sd;
            alink ← applyGenerator2 link rmap;
            attrs ← route_edge_data (vRoute self) alink;
            match attrs !! repsd with
            | Some flow =>
                if decide (sd ∈ Commodities (vTopo self))
                then Ok (load ++ [(sd, flow)]) else Raise KeyError
            | None => Ok load
            end)
         (elements autcomms) load)
    (elements (RepCommodities (vTopo self))) [].

(** [findMaxLinkLoad(link)]; [solve] is the external solver. *)
Definition findMaxLinkLoad (solve : LinkLP → Status * Qc) (fs : Files)
    (self : Verification) (link : nat * nat) : result ((nat * nat) * Qc) :=
  load ← link_objective fs self link;
  let m := {| lp_vars := elements (Commodities (vTopo self));
              lp_hosts := (λ n, (n, numServer (UG (vTopo self)) n))
                            <$> elements (HostNodes (vTopo self));
              lp_objective := load |} in
  match (solve m).1 with
  | OPTIMAL => Ok (link, (solve m).2)
  | _ => Raise AssertionError
  end.

(** [pool.imap_unordered(f, xs)] with the list of inputs [f] was started
    on, in arrival order, up to the first task that raised. *)
Fixpoint imap_traced {A B} (f : A → result B) (xs : list A)
  : result (list B) * list A :=
  match xs with
  | [] => (Ok [], [])
  | x :: xs' =>
      match f x with
      | Ok y =>
          let r := imap_traced f xs' in
          (ys ← r.1; Ok (y :: ys), x :: r.2)
      | Raise e => (Raise e, [x])
      | OutOfFuel => (OutOfFuel, [x])
      end
  end.

Definition set_VerifiedThroughput (out : Output) (v : Qc) : Output :=
  {| ComputedThroughput := ComputedThroughput out;
     OptimalRouting := OptimalRouting out;
     IntermediateRouting := IntermediateRouting out;
     IntermediateSolution := IntermediateSolution out;
     VerifiedThroughput := Some v;
     VerifiedIntermediateThroughput := VerifiedIntermediateThroughput out |}.

Definition set_VerifiedIntermediateThroughput (out : Output) (v : Qc) : Output :=
  {| ComputedThroughput := ComputedThroughput out;
     OptimalRouting := OptimalRouting out;
     IntermediateRouting := IntermediateRouting out;
     IntermediateSolution := IntermediateSolution out;
     VerifiedThroughput := VerifiedThroughput out;
     VerifiedIntermediateThroughput := Some v |}.

(** [max(linkload.values())] *)
Definition py_max (vs : list Qc) : result Qc :=
  match vs with
  | [] => Raise ValueError
  | v :: vs' => Ok (foldl (λ m x, if decide (m < x)%Qc then x else m) v vs')
  end.

(** What one call of [verifyAllLinkLoad] does: its outcome (the returned
    value, [None] for a bare [return]), the links [findMaxLinkLoad] was
    invoked on, and the output directory afterwards. *)
Record Verified : Type := {
  returned : result (option (Qc * Qc));
  solved_links : list (nat * nat);
  output_after : Output;
}.

Definition verifyAllLinkLoad (sched : list (nat * nat) → list (nat * nat))
    (solve : LinkLP → Status * Qc) (fs : Files) (self : Verification)
    (out : Output) : Verified :=
  match VerifiedThroughput out with
  | Some verifiedThroughput =>
      (* [print(.., 1.0/verifiedThroughput)], then a bare [return] *)
      {| returned := if decide (verifiedThroughput = 0%Qc)
                     then Raise ZeroDivisionError else Ok None;
         solved_links := []; output_after := out |}
  | None =>
      let run := imap_traced (findMaxLinkLoad solve fs self)
                   (sched (elements (DLinks (vTopo self)))) in
      let finish : result (option (Qc * Qc) * Output) :=
        done ← run.1;
        linkload ← for_each
          (λ (linkload : gmap (nat * nat) Qc) (r : (nat * nat) * Qc),
             cap ← orRaise TypeError
                     (get_edge_data (UG (vTopo self)) r.1.1 r.1.2);
             if decide (cap = 0%Qc) then Raise ZeroDivisionError
             else Ok (<[r.1 := (r.2 / cap)%Qc]> linkload))
          done ∅;
        maxload ← py_max (snd <$> map_to_list linkload);
        if decide (maxload = 0%Qc) then Raise ZeroDivisionError
        else
          let verifiedThroughput := (1 / maxload)%Qc in
          Ok (Some (maxload, verifiedThroughput),
              if intermediate self
              then set_VerifiedIntermediateThroughput out verifiedThroughput
              else set_VerifiedThroughput out verifiedThroughput) in
      match finish with
      | Ok r => {| returned := Ok r.1; solved_links := run.2; output_after := r.2 |}
      | Raise e => {| returned := Raise e; solved_links := run.2; output_after := out |}
      | OutOfFuel => {| returned := OutOfFuel; solved_links := run.2; output_after := out |}
      end
  end.

(** ** solution_grouping.py *)

(** A local forwarding signature: [(link, repflowlink, flow)] triples. *)
Definition code_le (a b : (nat * nat) * (nat * nat) * Qc) : Prop :=
  (pair_le a.1.1 b.1.1 ∧ a.1.1 ≠ b.1.1)
  ∨ (a.1.1 = b.1.1 ∧
     ((pair_le a.1.2 b.1.2 ∧ a.1.2 ≠ b.1.2)
      ∨ (a.1.2 = b.1.2 ∧ (a.2 <= b.2)%Qc))).

#[global] Instance code_le_dec a b : Decision (code_le a b).
Proof. unfold code_le. apply _. Defined.

Record SolutionGrouping : Type := {
  gTopo : Topology;
  gRoute : Route;
}.

(** [encodeFlows(node, repsd, sd)] *)
Definition encodeFlows (fs : Files) (self : SolutionGrouping) (node : nat)
    (repsd sd : nat * nat) : result (list ((nat * nat) * (nat * nat) * Qc)) :=
  flowlinkmap ← loadCommodityFlowLinkMap fs repsd;
  nhs ← neighbors (UG (gTopo self)) node;
  code ← for_each
    (λ (code : list ((nat * nat) * (nat * nat) * Qc)) (nh : nat),
       let link := (node, nh) in
       rmap ← loadCommodityAutomorphicMap_Reverse fs sd;
       alink ← applyGenerator2 link rmap;
       repflowlink ← match alink with
                     | (Some i, Some j) => orRaise KeyError (flowlinkmap !! (i, j))
                     | _ => Raise KeyError
                     end;
       attrs ← route_edge_data (gRoute self)
                 (Some repflowlink.1, Some repflowlink.2);
       match attrs !! repsd with
       | Some flow => Ok (code ++ [(link, repflowlink, flow)])
       | None => Ok code
       end)
    nhs [];
  Ok (merge_sort code_le code).

(** [if code not in commsplit: commsplit[code] = set()] followed by
    [commsplit[code].add(autsd)]. *)
Definition commsplit_add
    (commsplit : gmap (list ((nat * nat) * (nat * nat) * Qc)) (gset (nat * nat)))
    (code : list ((nat * nat) * (nat * nat) * Qc)) (autsd : nat * nat)
  : result (gmap (list ((nat * nat) * (nat * nat) * Qc)) (gset (nat * nat))) :=
  let commsplit : gmap (list ((nat * nat) * (nat * nat) * Qc)) (gset (nat * nat)) :=
    match commsplit !! code with
    | None => <[code := ∅]> commsplit
    | Some _ => commsplit
    end in
  match commsplit !! code with
  | Some members => Ok (<[code := members ∪ {[autsd]}]> commsplit)
  | None => Raise KeyError
  end.

(** The dictionary [commsplit] built for one representative commodity. *)
Definition commsplit_of (fs : Files) (self : SolutionGrouping) (node : nat)
    (repsd : nat * nat) (autcomms : gset (nat * nat))
  : result (gmap (list ((nat * nat) * (nat * nat) * Qc)) (gset (nat * nat))) :=
  for_each
    (λ (commsplit : gmap (list ((nat * nat) * (nat * nat) * Qc))
                         (gset (nat * nat))) (autsd : nat * nat),
       match encodeFlows fs self node repsd autsd with
       | Ok code => commsplit_add commsplit code autsd
       | Raise e => Raise e
       | OutOfFuel => OutOfFuel
       end)
    (elements autcomms) ∅.

(** The dictionary [splitgroups] built by [groupSolutionAtNode(node)]. *)
Definition groupSolutionAtNode (fs : Files) (self : SolutionGrouping) (node : nat)
  : result (gmap (nat * nat)
              (gmap (list ((nat * nat) * (nat * nat) * Qc)) (gset (nat * nat)))) :=
  for_each
    (λ (splitgroups : gmap (nat * nat)
          (gmap (list ((nat * nat) * (nat * nat) * Qc)) (gset (nat * nat))))
       (repsd : nat * nat),
       match loadCommodityGroup fs repsd with
       | Ok autcomms =>
           match commsplit_of fs self node repsd autcomms with
           | Ok commsplit => Ok (<[repsd := commsplit]> splitgroups)
           | Raise e => Raise e
           | OutOfFuel => OutOfFuel
           end
       | Raise e => Raise e
       | OutOfFuel => OutOfFuel
       end)
    (elements (RepCommodities (gTopo self))) ∅.

(** [countRouteInfoAtNode(splitgroups, node)]: [(cntall, cntcpt)]. *)
Definition countRouteInfoAtNode (self : SolutionGrouping)
    (splitgroups : gmap (nat * nat)
       (gmap (list ((nat * nat) * (nat * nat) * Qc)) (gset (nat * nat))))
  : result (nat * nat) :=
  for_each
    (λ (cnt : nat * nat) (repsd : nat * nat),
       commsplit ← orRaise KeyError (splitgroups !! repsd);
       Ok (foldl
             (λ (cnt : nat * nat) grp,
                if decide (length grp.1 = 0) then cnt
                else (cnt.1 + size grp.2, cnt.2 + 1))
             cnt (map_to_list commsplit)))
    (elements (RepCommodities (gTopo self))) (0, 0).

(** The counts reported for [node]: [groupSolutionAtNode] followed by the
    [countRouteInfoAtNode] call it makes. *)
Definition node_counts (fs : Files) (self : SolutionGrouping) (node : nat)
  : result (nat * nat) :=
  splitgroups ← groupSolutionAtNode fs self node;
  countRouteInfoAtNode self splitgroups.

(** One entry of [ratio] in [getStatCountInfo]: [compact / all]. *)
Definition compaction_ratio (cnt : nat * nat) : result Qc :=
  if decide (cnt.1 = 0) then Raise ZeroDivisionError
  else Ok (Qc_of_Z (Z.of_nat cnt.2) / Qc_of_Z (Z.of_nat cnt.1))%Qc.

(** *** Sample runs *)

(** The outcome of a run that is known to complete. *)
Definition topo_of (r : result (Topology * Files)) : Topology :=
  match r with
  | Ok x => x.1
  | _ => {| UG := pair_graph; RouteNodes := ∅; NonRouteNodes := ∅;
            AllNodes := ∅; HostNodes := ∅; Commodities := ∅; ULinks := ∅;
            DLinks := ∅; Autgen := []; RepCommodities := ∅;
            RepCommFlowLinks := ∅; RepAuxiliarys := ∅; RepLinkConstrs := ∅ |}
  end.

Definition files_of (r : result (Topology * Files)) : Files :=
  match r with
  | Ok x => x.2
  | _ => no_files
  end.

(** The topology as [setUGraph] leaves it, before any enumeration. *)
Definition pair_start : Topology := Eval vm_compute in
  topo_of (self ← setUGraph pair_graph pair_autgen; Ok (self, no_files)).

(** The run before the link-constraint classes are formed. *)
Definition pair_aux_run : result (Topology * Files) :=
  Topology_init_aux first_oracles 100 pair_graph pair_autgen no_files.

Definition pair_aux_topo : Topology := Eval vm_compute in topo_of pair_aux_run.
Definition pair_aux_files : Files := Eval vm_compute in files_of pair_aux_run.

Definition pair_run : result (Topology * Files) :=
  Topology_init first_oracles 100 pair_graph pair_autgen no_files.

Definition pair_topo : Topology := Eval vm_compute in topo_of pair_run.
Definition pair_files : Files := Eval vm_compute in files_of pair_run.

(** The routing that sends each commodity over its direct link. *)
Definition direct_X (v : Var) : Qc :=
  match v with
  | Var_f sd l => if decide (sd = l) then 1%Qc else 0%Qc
  | _ => 1%Qc
  end.

Definition solved (st : Status) (vars : list Var) : Solved :=
  {| status := st; SolCount := 1; ObjVal := 1%Qc; X := direct_X;
     getVars := vars |}.

Definition opt_of (r : result Optimization) (topo : Topology) : Optimization :=
  match r with
  | Ok o => o
  | _ => {| Topo := topo; constrs := []; F := ∅; B := ∅; G := ∅ |}
  end.

Definition routing_of (r : result Routing) : Routing :=
  match r with
  | Ok g => g
  | _ => {| r_nodes := ∅; r_edges := ∅ |}
  end.

Definition pair_opt : Optimization := Eval vm_compute in
  opt_of (createVariables pair_topo) pair_topo.

Definition pair_route : Routing := Eval vm_compute in
  routing_of (expand_routing pair_files pair_opt (solved OPTIMAL [Var_r])).

Definition pair_verification : Verification :=
  {| intermediate := false; vTopo := pair_topo; vRoute := RouteGraph pair_route |}.

(** A stand-in for the per-link solver: every program is reported solved,
    with the sum of the objective coefficients as its value. *)
Definition sum_solver (m : LinkLP) : Status * Qc :=
  (OPTIMAL, foldr (λ t acc, (t.2 + acc)%Qc) 0%Qc (lp_objective m)).

(** Two hosts and a switch hanging off host 0; no non-trivial
    automorphism. *)
Definition pendant_graph : Graph :=
  {| nodes := [0; 1; 2];
     numServer := λ n, if decide (n = 2) then 0 else 1;
     routing := λ _, true;
     edges := [(0, 1, 1%Qc); (0, 2, 1%Qc)] |}.

Definition pendant_run : result (Topology * Files) :=
  Topology_init first_oracles 100 pendant_graph [] no_files.

Definition pendant_topo : Topology := Eval vm_compute in topo_of pendant_run.
Definition pendant_files : Files := Eval vm_compute in files_of pendant_run.

Definition pendant_opt : Optimization := Eval vm_compute in
  opt_of (createVariables pendant_topo) pendant_topo.

Definition pendant_route : Routing := Eval vm_compute in
  routing_of (expand_routing pendant_files pendant_opt (solved OPTIMAL [Var_r])).

Definition pendant_grouping : SolutionGrouping :=
  {| gTopo := pendant_topo; gRoute := RouteGraph pendant_route |}.

(** ** Specification vocabulary *)

(** A generator over [n] nodes: a tuple of length [n] with entries below
    [n]; a permutation when its entries are moreover distinct. *)
Definition wf_gen (n : nat) (g : list nat) : Prop :=
  length g = n ∧ Forall (λ x, x < n) g.

Definition perm_gen (n : nat) (g : list nat) : Prop :=
  wf_gen n g ∧ NoDup g.

#[global] Instance wf_gen_dec n g : Decision (wf_gen n g).
Proof. unfold wf_gen. apply _. Defined.

#[global] Instance perm_gen_dec n g : Decision (perm_gen n g).
Proof. unfold perm_gen. apply _. Defined.

(** The action of a generator on in-range nodes, pairs and triples. *)
Definition act (g : list nat) (x : nat) : nat := g !!! x.

Definition act2 (g : list nat) (p : nat * nat) : nat * nat :=
  (act g p.1, act g p.2).

Definition act3 (g : list nat) (p : nat * nat * nat) : nat * nat * nat :=
  (act g p.1.1, act g p.1.2, act g p.2).

(** The in-range nodes, pairs and triples. *)
Definition U1 (n : nat) : gset nat := set_seq 0 n.
Definition U2 (n : nat) : gset (nat * nat) := cprod (U1 n) (U1 n).
Definition U3 (n : nat) : gset (nat * nat * nat) := cprod (U2 n) (U1 n).

(** The invariant of the [while] loop of [findRepresentativeAuxs] for the
    seed [r], entered with visited set [V0]. *)
Record AuxInv (n : nat) (gens : list (list nat))
    (V0 : gset (nat * nat * nat)) (r : nat * nat * nat)
    (σ0 σ : AuxBfs) : Prop := {
  ai_groups : a_groups σ = a_groups σ0;
  ai_repauxs : a_repauxs σ = a_repauxs σ0;
  ai_tovisit : a_tovisit σ ⊆ U3 n;
  ai_autauxs : a_autauxs σ ⊆ U3 n;
  ai_visited : a_visited σ = V0 ∪ a_autauxs σ;
  ai_fresh : a_tovisit σ ## a_visited σ;
  ai_new : a_autauxs σ ## V0;
  ai_seed : r ∈ a_autauxs σ ∪ a_tovisit σ;
  ai_closing : ∀ x g, x ∈ a_autauxs σ → g ∈ gens →
                 act3 g x ∈ a_autauxs σ ∪ a_tovisit σ;
}.

(** What holds between two seeds of [findRepresentativeAuxs]. *)
Record AuxOuter (n : nat) (gens : list (list nat))
    (seen : list (nat * nat * nat)) (σ : AuxBfs) : Prop := {
  ao_tovisit : a_tovisit σ = ∅;
  ao_visited : a_visited σ ⊆ U3 n;
  ao_seen : ∀ x, x ∈ seen → x ∈ a_visited σ;
  ao_reps : ∀ r, r ∈ a_repauxs σ → r ∈ seen;
  ao_cover : ∀ x, x ∈ a_visited σ ↔
               ∃ r G, r ∈ a_repauxs σ ∧ a_groups σ !! r = Some G ∧ x ∈ G;
  ao_self : ∀ r, r ∈ a_repauxs σ →
               ∃ G, a_groups σ !! r = Some G ∧ r ∈ G;
  ao_disjoint : ∀ r1 r2 G1 G2 x, r1 ∈ a_repauxs σ → r2 ∈ a_repauxs σ →
               a_groups σ !! r1 = Some G1 → a_groups σ !! r2 = Some G2 →
               x ∈ G1 → x ∈ G2 → r1 = r2;
  ao_closed : ∀ r G g x, r ∈ a_repauxs σ → a_groups σ !! r = Some G →
               g ∈ gens → x ∈ U3 n → (x ∈ G ↔ act3 g x ∈ G);
}.

(** The auxiliary classes stored by [findRepresentativeAuxs]: every index
    of a host and a directed link lies in the group of one representative,
    groups of distinct representatives are disjoint, and every group is
    stable under the generators and their inverses. *)
Record AuxClasses (n : nat) (gens : list (list nat)) (self : Topology)
    (groups : gmap (nat * nat * nat) (gset (nat * nat * nat))) : Prop := {
  ac_cover : ∀ u l, u ∈ HostNodes self → l ∈ DLinks self →
      ∃ r G, r ∈ RepAuxiliarys self ∧ groups !! r = Some G ∧ (u, l.1, l.2) ∈ G;
  ac_defined : ∀ r, r ∈ RepAuxiliarys self → ∃ G, groups !! r = Some G ∧ r ∈ G;
  ac_index : ∀ r, r ∈ RepAuxiliarys self →
      r.1.1 ∈ HostNodes self ∧ (r.1.2, r.2) ∈ DLinks self;
  ac_disjoint : ∀ r1 r2 G1 G2 x,
      r1 ∈ RepAuxiliarys self → r2 ∈ RepAuxiliarys self →
      groups !! r1 = Some G1 → groups !! r2 = Some G2 →
      x ∈ G1 → x ∈ G2 → r1 = r2;
  ac_closed : ∀ r G g x, r ∈ RepAuxiliarys self → groups !! r = Some G →
      g ∈ gens → x ∈ U3 n → (x ∈ G ↔ act3 g x ∈ G);
}.

(** The class [loadAuxToRep(u)[link]] of a host and a link, if stored. *)
Definition aux_class (fs : Files) (u : nat) (link : nat * nat)
  : option (nat * nat * nat) :=
  AuxToRep fs !! u ≫= λ auxtorep, auxtorep !! link.

(** The number of hosts whose index on [link] falls in class [r]. *)
Definition class_count (self : Topology) (fs : Files) (link : nat * nat)
    (r : nat * nat * nat) : nat :=
  length (filter (λ u, aux_class fs u link = Some r) (elements (HostNodes self))).

(** A [count] dictionary laid out as [encodeLinkConstraint] fills it. *)
Definition sig_list (reps : list (nat * nat * nat))
    (cb cg : nat * nat * nat → nat) : list (bg * (nat * nat * nat) * nat) :=
  r ← reps; [(tag_b, r, cb r); (tag_g, r, cg r)].

(** Two directed links in one orbit of the group the generators span. *)
Definition same_orbit (n : nat) (gens : list (list nat)) : relation (nat * nat) :=
  rtsc (λ l1 l2, l1 ∈ U2 n ∧ ∃ g, g ∈ gens ∧ l2 = act2 g l1).

(** The reverse tuple [rv] stored next to a forward permutation [f]:
    it has the same length and undoes [f] at every node. *)
Definition inverse_maps (n : nat) (f : list nat) (rv : list (option nat)) : Prop :=
  length rv = n ∧ ∀ i, i < n → rv !! (act f i) = Some (Some i).

(** The stored maps of commodity [x] in the orbit of representative [r]:
    the forward map is a permutation sending [r] to [x], the reverse map
    its inverse. *)
Definition good_maps (n : nat) (r x : nat * nat)
    (fwd : gmap (nat * nat) (list nat))
    (rev : gmap (nat * nat) (list (option nat))) : Prop :=
  ∃ f rv, fwd !! x = Some f ∧ rev !! x = Some rv
    ∧ perm_gen n f ∧ act2 f r = x ∧ inverse_maps n f rv.

(** The pairs of in-range commodities. *)
Definition UU (n : nat) : gset ((nat * nat) * (nat * nat)) :=
  cprod (U2 n) (U2 n).

(** The number of [(commodity, parent)] pairs that can still be popped. *)
Definition comm_measure (n : nat) (σ : CommBfs) : nat :=
  size (c_tovisit σ ∪ filter (λ xp, xp.1 ∉ c_visited σ) (UU n)).

(** The invariant of the [while] loop of [findRepresentativeCommodities]
    for the seed [r], entered with visited set [V0] in state [σ0]; [D] is
    a set of in-range pairs that the generators map into itself. *)
Record CommInv (n : nat) (gens : list (list nat)) (D : gset (nat * nat))
    (V0 : gset (nat * nat)) (r : nat * nat) (σ0 σ : CommBfs) : Prop := {
  ci_groups : c_groups σ = c_groups σ0;
  ci_repcomms : c_repcomms σ = c_repcomms σ0;
  ci_tovisit : ∀ xp, xp ∈ c_tovisit σ → xp.1 ∈ D ∧ xp.2 ∈ D ∧ xp.1 ∉ V0;
  ci_autcomms : c_autcomms σ ⊆ D;
  ci_visited : c_visited σ = V0 ∪ c_autcomms σ;
  ci_new : c_autcomms σ ## V0;
  ci_seed : r ∈ c_autcomms σ ∨ c_tovisit σ = {[(r, r)]};
  ci_seed_maps : c_fwd σ !! r = Some (seq 0 n)
                 ∧ c_rev σ !! r = Some (Some <$> seq 0 n);
  ci_closing : ∀ x g, x ∈ c_autcomms σ → g ∈ gens →
      act2 g x ∈ c_autcomms σ ∨ ∃ p, (act2 g x, p) ∈ c_tovisit σ;
  ci_maps : ∀ x, (x ∈ c_autcomms σ ∨ ∃ p, (x, p) ∈ c_tovisit σ) →
      good_maps n r x (c_fwd σ) (c_rev σ);
  ci_old : ∀ x, x ∈ V0 →
      c_fwd σ !! x = c_fwd σ0 !! x ∧ c_rev σ !! x = c_rev σ0 !! x;
}.

(** What holds between two seeds of [findRepresentativeCommodities]. *)
Record CommOuter (n : nat) (gens : list (list nat)) (D : gset (nat * nat))
    (seen : list (nat * nat)) (σ : CommBfs) : Prop := {
  co_tovisit : c_tovisit σ = ∅;
  co_visited : c_visited σ ⊆ D;
  co_seen : ∀ x, x ∈ seen → x ∈ c_visited σ;
  co_reps : ∀ r, r ∈ c_repcomms σ → r ∈ seen;
  co_cover : ∀ x, x ∈ c_visited σ ↔
      ∃ r G, r ∈ c_repcomms σ ∧ c_groups σ !! r = Some G ∧ x ∈ G;
  co_self : ∀ r, r ∈ c_repcomms σ → ∃ G, c_groups σ !! r = Some G ∧ r ∈ G;
  co_disjoint : ∀ r1 r2 G1 G2 x, r1 ∈ c_repcomms σ → r2 ∈ c_repcomms σ →
      c_groups σ !! r1 = Some G1 → c_groups σ !! r2 = Some G2 →
      x ∈ G1 → x ∈ G2 → r1 = r2;
  co_closed : ∀ r G g x, r ∈ c_repcomms σ → c_groups σ !! r = Some G →
      g ∈ gens → x ∈ U2 n → (x ∈ G ↔ act2 g x ∈ G);
  co_maps : ∀ r G x, r ∈ c_repcomms σ → c_groups σ !! r = Some G → x ∈ G →
      good_maps n r x (c_fwd σ) (c_rev σ);
  co_rep_maps : ∀ r, r ∈ c_repcomms σ →
      c_fwd σ !! r = Some (seq 0 n) ∧ c_rev σ !! r = Some (Some <$> seq 0 n);
}.

(** The flow-conservation constraint of commodity [repsd] at node [n],
    a node with the neighbours [hs] (at least one): the flow variables of
    the links entering [n] (through the commodity's flow-link map) plus
    the unit injection at the source, equal to those of the links leaving
    [n] plus the unit absorption at the destination. *)
Definition fc_spec (fs : Files) (self : Optimization)
    (key : (nat * nat) * nat) (c : Constr) : Prop :=
  let repsd := key.1 in
  let n := key.2 in
  ∃ flowmap Frep hs flowin flowout,
    FlowLinkMap fs !! repsd = Some flowmap
    ∧ F self !! repsd = Some Frep
    ∧ neighbors (UG (Topo self)) n = Ok hs
    ∧ hs ≠ []
    ∧ Forall2 (λ h v, ∃ l, flowmap !! (h, n) = Some l ∧ Frep !! l = Some v)
        hs flowin
    ∧ Forall2 (λ h v, ∃ l, flowmap !! (n, h) = Some l ∧ Frep !! l = Some v)
        hs flowout
    ∧ c = {| cname := fc repsd.1 repsd.2 n;
             lhs := {| terms := (λ v, (1%Qc, v)) <$> flowin;
                       constant := if decide (n = repsd.1) then 1%Qc else 0%Qc |};
             sense := EQUAL;
             rhs := {| terms := (λ v, (1%Qc, v)) <$> flowout;
                       constant := if decide (n = repsd.2) then 1%Qc else 0%Qc |} |}.


(** Two links with the same count-signature. *)
Definition same_signature (self : Topology) (fs : Files)
    (link1 link2 : nat * nat) : Prop :=
  ∃ encode, encodeLinkConstraint self fs link1 = Ok (link1, encode)
            ∧ encodeLinkConstraint self fs link2 = Ok (link2, encode).

(** A set of links holding exactly one member of every signature class of
    the directed links. *)
Definition one_per_class (self : Topology) (fs : Files)
    (replinks : gset (nat * nat)) : Prop :=
  replinks ⊆ DLinks self
  ∧ ∀ link, link ∈ DLinks self →
      ∃ rep, rep ∈ replinks ∧ same_signature self fs rep link
             ∧ ∀ rep', rep' ∈ replinks → same_signature self fs rep' link →
                 rep' = rep.

(** The value a task returns, when it returns one. *)
Definition returned_or {B} (d : B) (r : result B) : B :=
  match r with
  | Ok y => y
  | _ => d
  end.

(** The element [links.pop()] returns under the oracle. *)
Definition chosen {T} (pop : list T → nat) (s : list T) : option T :=
  s !! (pop s `mod` length s).

(** The dictionary [repgroups] after the results [done] were merged: keys
    are distinct signatures, every group is non-empty and holds exactly the
    links with that signature. *)
Definition grouped (done : list ((nat * nat) * list nat))
    (d : list (list nat * list (nat * nat))) : Prop :=
  NoDup d.*1
  ∧ (∀ e ls, (e, ls) ∈ d → ls ≠ [] ∧ ∀ l, l ∈ ls ↔ (l, e) ∈ done)
  ∧ (∀ l e, (l, e) ∈ done → e ∈ d.*1).

(** Every group of a [commsplit] dictionary has a member. *)
Definition groups_inhabited
    (commsplit : gmap (list ((nat * nat) * (nat * nat) * Qc)) (gset (nat * nat)))
  : Prop :=
  ∀ code members, commsplit !! code = Some members → 0 < size members.


(** ** Further vocabulary *)

(** What [networkx] guarantees of a graph: the endpoints of every edge are
    nodes of the graph. *)
Definition graph_ok (G : Graph) : Prop :=
  ∀ e, e ∈ edges G → e.1.1 ∈ nodes G ∧ e.1.2 ∈ nodes G.

#[global] Instance graph_ok_dec G : Decision (graph_ok G).
Proof.
  refine (cast_if (decide (Forall (λ e : nat * nat * Qc,
                                     e.1.1 ∈ nodes G ∧ e.1.2 ∈ nodes G)
                                  (edges G))));
    unfold graph_ok; by rewrite <- Forall_forall.
Defined.

(** Every node of the graph is an end of some edge. *)
Definition no_isolated_node (G : Graph) : Prop :=
  ∀ v, v ∈ nodes G → ∃ e, e ∈ edges G ∧ (e.1.1 = v ∨ e.1.2 = v).

#[global] Instance no_isolated_node_dec G : Decision (no_isolated_node G).
Proof.
  refine (cast_if (decide (Forall (λ v : nat,
                     Exists (λ e : nat * nat * Qc, e.1.1 = v ∨ e.1.2 = v)
                            (edges G))
                     (nodes G))));
    unfold no_isolated_node; rewrite <- Forall_forall;
    [|intros Hf; contradict n];
    (eapply Forall_impl; [eassumption|]);
    intros v; by rewrite Exists_exists.
Defined.


(** The generators that fix both endpoints of a commodity. *)
Definition fixes (repsd : nat * nat) (g : list nat) : Prop :=
  act g repsd.1 = repsd.1 ∧ act g repsd.2 = repsd.2.

#[global] Instance fixes_dec repsd g : Decision (fixes repsd g).
Proof. unfold fixes. apply _. Defined.

(** The invariant of the [while] loop of
    [findRepresentativeCommodityFlowLinksByCommodity] for the seed [r],
    entered with visited set [V0] in state [σ0]. *)
Record FlowInv (n : nat) (gens : list (list nat))
    (V0 : gset (nat * nat)) (r : nat * nat) (σ0 σ : FlowBfs) : Prop := {
  fi_reps : l_repflowlinks σ = l_repflowlinks σ0;
  fi_tovisit : l_tovisit σ ⊆ U2 n;
  fi_old : V0 ⊆ l_visited σ;
  fi_visited : l_visited σ ⊆ U2 n;
  fi_fresh : l_tovisit σ ## l_visited σ;
  fi_seed : r ∈ (l_visited σ ∖ V0) ∪ l_tovisit σ;
  fi_map_new : ∀ x, x ∈ (l_visited σ ∖ V0) ∪ l_tovisit σ →
      l_flowlinkmap σ !! x = Some r;
  fi_map_old : ∀ x, x ∈ V0 → l_flowlinkmap σ !! x = l_flowlinkmap σ0 !! x;
  fi_dom : ∀ x, is_Some (l_flowlinkmap σ !! x) →
      is_Some (l_flowlinkmap σ0 !! x) ∨ x ∈ l_visited σ ∪ l_tovisit σ;
  fi_closing : ∀ x g, x ∈ l_visited σ ∖ V0 → g ∈ gens →
      act2 g x ∈ (l_visited σ ∖ V0) ∪ l_tovisit σ;
  fi_reach : ∀ x, x ∈ (l_visited σ ∖ V0) ∪ l_tovisit σ →
      same_orbit n gens r x;
}.

(** What holds between two candidate links of that enumeration. *)
Record FlowOuter (n : nat) (gens : list (list nat))
    (seen : list (nat * nat)) (σ : FlowBfs) : Prop := {
  fo_tovisit : l_tovisit σ = ∅;
  fo_visited : l_visited σ ⊆ U2 n;
  fo_seen : ∀ x, x ∈ seen → x ∈ l_visited σ;
  fo_reps : ∀ r, r ∈ l_repflowlinks σ →
      r ∈ seen ∧ l_flowlinkmap σ !! r = Some r;
  fo_dom : ∀ x, x ∈ l_visited σ ↔ is_Some (l_flowlinkmap σ !! x);
  fo_rep : ∀ x y, l_flowlinkmap σ !! x = Some y →
      y ∈ l_repflowlinks σ ∧ same_orbit n gens y x;
  fo_closed : ∀ x g, x ∈ l_visited σ → g ∈ gens →
      act2 g x ∈ l_visited σ
      ∧ l_flowlinkmap σ !! act2 g x = l_flowlinkmap σ !! x;
}.

(** ** optimization.py, continued *)

(** The constraint [v == 0]. *)
Definition pin_zero (name : CName) (v : Var) : Constr :=
  {| cname := name;
     lhs := {| terms := [(1%Qc, v)]; constant := 0%Qc |};
     sense := EQUAL;
     rhs := {| terms := []; constant := 0%Qc |} |}.

(** [setAdditionalFlowConstraint]: no flow into a routing-incapable node
    other than the destination, no flow back into the source or out of
    the destination. *)
Definition setAdditionalFlowConstraint (self : Optimization)
  : result Optimization :=
  let topo := Topo self in
  self ← for_each
    (λ (self : Optimization) (repsd : nat * nat),
       let s := repsd.1 in
       let d := repsd.2 in
       let avoidlinks : gset (nat * nat) :=
         cprod (AllNodes topo) (NonRouteNodes topo ∖ {[d]}) in
       links ← orRaise KeyError (RepCommFlowLinks topo !! repsd);
       for_each
         (λ (self : Optimization) (ij : nat * nat),
            Frep ← orRaise KeyError (F self !! repsd);
            v ← orRaise KeyError (Frep !! ij);
            Ok (addConstr (pin_zero (afa s d ij.1 ij.2) v) self))
         (elements (links ∩ avoidlinks)) self)
    (elements (RepCommodities topo)) self;
  for_each
    (λ (self : Optimization) (repsd : nat * nat),
       let s := repsd.1 in
       let d := repsd.2 in
       links ← orRaise KeyError (RepCommFlowLinks topo !! repsd);
       for_each
         (λ (self : Optimization) (ij : nat * nat),
            if decide (ij.2 = s ∨ ij.1 = d) then
              Frep ← orRaise KeyError (F self !! repsd);
              v ← orRaise KeyError (Frep !! ij);
              Ok (addConstr (pin_zero (afc s d ij.1 ij.2) v) self)
            else Ok self)
         (elements links) self)
    (elements (RepCommodities topo)) self.

(** The model-building calls of [optimize], in their order. *)
Definition build_model (fs : Files) (topo : Topology) : result Optimization :=
  self ← createVariables topo;
  self ← setFlowConservationConstraint fs self;
  self ← setAdditionalFlowConstraint self;
  self ← setAuxThroughputConstraint fs self;
  setAuxFlowConstraint fs self.

(** The flow [F[repsd][flowmap[i, j]].X] the expansion reads for a
    commodity on a directed link. *)
Definition routed_flow (fs : Files) (self : Optimization) (sol : Solved)
    (repsd : nat * nat) (link : nat * nat) : option Qc :=
  flowmap ← FlowLinkMap fs !! repsd;
  Frep ← F self !! repsd;
  l ← flowmap !! link;
  v ← Frep !! l;
  Some (X sol v).

Definition set_OptimalRouting (out : Output) (g : Routing) : Output :=
  {| ComputedThroughput := ComputedThroughput out;
     OptimalRouting := Some g;
     IntermediateRouting := IntermediateRouting out;
     IntermediateSolution := IntermediateSolution out;
     VerifiedThroughput := VerifiedThroughput out;
     VerifiedIntermediateThroughput := VerifiedIntermediateThroughput out |}.

Definition set_ComputedThroughput (out : Output) (v : Qc) : Output :=
  {| ComputedThroughput := Some v;
     OptimalRouting := OptimalRouting out;
     IntermediateRouting := IntermediateRouting out;
     IntermediateSolution := IntermediateSolution out;
     VerifiedThroughput := VerifiedThroughput out;
     VerifiedIntermediateThroughput := VerifiedIntermediateThroughput out |}.

(** [saveOptimalRouting] *)
Definition saveOptimalRouting (fs : Files) (self : Optimization)
    (sol : Solved) (out : Output) : result unit * Output :=
  match expand_routing fs self sol with
  | Ok g => (Ok (), set_OptimalRouting out g)
  | Raise e => (Raise e, out)
  | OutOfFuel => (OutOfFuel, out)
  end.

(** The output directory together with the [OptimizationTime] file. *)
Record OptOutput : Type := {
  oo_out : Output;
  OptimizationTime : option Qc;
}.

(** [optimize]: [solve] is the external solver run on the built model,
    [opttime] the wall-clock time it is measured to take. *)
Definition optimize (solve : Optimization → Solved) (opttime : Qc)
    (fs : Files) (topo : Topology) (o : OptOutput) : result unit * OptOutput :=
  match ComputedThroughput (oo_out o) with
  | Some _ => (Ok (), o)
  | None =>
      match build_model fs topo with
      | Ok self =>
          let sol := solve self in
          match computeOptimalSolution fs self sol (oo_out o) with
          | (Ok (Some throughput), out) =>
              let out := set_ComputedThroughput out throughput in
              let r := saveOptimalRouting fs self sol out in
              (r.1, {| oo_out := r.2; OptimizationTime := Some opttime |})
          | (Ok None, out) =>
              (Ok (), {| oo_out := out; OptimizationTime := OptimizationTime o |})
          | (Raise e, out) =>
              (Raise e, {| oo_out := out; OptimizationTime := OptimizationTime o |})
          | (OutOfFuel, out) =>
              (OutOfFuel, {| oo_out := out; OptimizationTime := OptimizationTime o |})
          end
      | Raise e => (Raise e, o)
      | OutOfFuel => (OutOfFuel, o)
      end
  end.

(** A builder step extends the model: the topology and the variable
    dictionaries stay, constraints are only appended. *)
Definition extends (self self' : Optimization) : Prop :=
  Topo self' = Topo self ∧ F self' = F self ∧ B self' = B self
  ∧ G self' = G self ∧ ∃ cs, constrs self' = constrs self ++ cs.

(** ** The state a completed [Topology.__init__] leaves behind *)

(** Generators that map hosts to hosts. *)
Definition host_preserving (ugraph : Graph) (autgen : list (list nat)) : Prop :=
  ∀ g u, g ∈ autgen → u ∈ nodes ugraph →
    0 < numServer ugraph u → 0 < numServer ugraph (act g u).

(** What the later steps rely on: the node and link sets of the graph,
    the commodity classes with their stored maps, a total flow-link map
    per representative commodity, and a total auxiliary class map. *)
Record Ready (n : nat) (ugraph : Graph) (autgen : list (list nat))
    (topo : Topology) (fs : Files) : Prop := {
  rd_UG : UG topo = ugraph;
  rd_nodes : ∀ v, v ∈ nodes ugraph ↔ v < n;
  rd_Autgen : Autgen topo = autgen;
  rd_AllNodes : AllNodes topo = U1 n;
  rd_hosts : ∀ v, v ∈ HostNodes topo ↔ v < n ∧ 0 < numServer ugraph v;
  rd_commodities : ∀ s d, (s, d) ∈ Commodities topo
      ↔ s ∈ HostNodes topo ∧ d ∈ HostNodes topo ∧ s ≠ d;
  rd_links : ∀ i j, (i, j) ∈ DLinks topo
      ↔ ∃ e, e ∈ edges ugraph ∧ (e.1 = (i, j) ∨ e.1 = (j, i));
  rd_links_range : DLinks topo ⊆ U2 n;
  rd_cover : ∀ c, c ∈ Commodities topo →
      ∃ r G, r ∈ RepCommodities topo ∧ CommodityGroup fs !! r = Some G ∧ c ∈ G;
  rd_groups : ∀ r, r ∈ RepCommodities topo →
      r ∈ Commodities topo
      ∧ ∃ G, CommodityGroup fs !! r = Some G ∧ r ∈ G ∧ G ⊆ Commodities topo;
  rd_disjoint : ∀ r1 r2 G1 G2 x,
      r1 ∈ RepCommodities topo → r2 ∈ RepCommodities topo →
      CommodityGroup fs !! r1 = Some G1 → CommodityGroup fs !! r2 = Some G2 →
      x ∈ G1 → x ∈ G2 → r1 = r2;
  rd_maps : ∀ r G x, r ∈ RepCommodities topo →
      CommodityGroup fs !! r = Some G → x ∈ G →
      good_maps n r x (AutomorphicMap_Forward fs) (AutomorphicMap_Reverse fs);
  rd_flow : ∀ repsd, repsd ∈ RepCommodities topo →
      ∃ links flowmap,
        RepCommFlowLinks topo !! repsd = Some links
        ∧ FlowLinkMap fs !! repsd = Some flowmap
        ∧ links ⊆ DLinks topo
        ∧ (∀ r, r ∈ links → flowmap !! r = Some r)
        ∧ (∀ l, l ∈ DLinks topo → ∃ r, flowmap !! l = Some r ∧ r ∈ links)
        ∧ (∀ l r, flowmap !! l = Some r →
             same_orbit n (filter (fixes repsd) autgen) r l);
  rd_aux : ∀ u l, u ∈ HostNodes topo → l ∈ DLinks topo →
      ∃ r, r ∈ RepAuxiliarys topo ∧ aux_class fs u l = Some r;
  rd_replinks : one_per_class topo fs (RepLinkConstrs topo);
}.

(** [g[i][j].get(repsd)]: the flow a routing graph stores for a commodity
    on a directed link. *)
Definition edge_flow (g : Routing) (link : nat * nat) (repsd : nat * nat)
  : option Qc :=
  r_edges g !! link ≫= λ attrs, attrs !! repsd.

(** A directed link of the graph: an edge in either orientation. *)
Definition is_link (G : Graph) (link : nat * nat) : Prop :=
  ∃ e, e ∈ edges G ∧ (e.1 = link ∨ e.1 = (link.2, link.1)).

(** Every flow a routing graph stores is the positive flow the solution
    routes for a representative commodity. *)
Definition sound_routing (fs : Files) (self : Optimization) (sol : Solved)
    (g : Routing) : Prop :=
  ∀ link r f, edge_flow g link r = Some f →
    r ∈ RepCommodities (Topo self)
    ∧ routed_flow fs self sol r link = Some f ∧ (0 < f)%Qc.

(** ** verification.py, continued *)

(** [Verification.__init__]: the pickled topology and the route file the
    flag selects ([topology] is the [Topology] file of the output
    directory). *)
Definition Verification_init (intermediate : bool) (topology : option Topology)
    (out : Output) : result Verification :=
  topo ← orRaise FileNotFoundError topology;
  if intermediate then
    d ← orRaise FileNotFoundError (IntermediateSolution out);
    Ok {| intermediate := true; vTopo := topo; vRoute := RouteDict d |}
  else
    g ← orRaise FileNotFoundError (OptimalRouting out);
    Ok {| intermediate := false; vTopo := topo; vRoute := RouteGraph g |}.

(** The load a link reports relative to its capacity. *)
Definition relative_load (solve : LinkLP → Status * Qc) (fs : Files)
    (self : Verification) (link : nat * nat) (v : Qc) : Prop :=
  ∃ load cap,
    findMaxLinkLoad solve fs self link = Ok (link, load)
    ∧ get_edge_data (UG (vTopo self)) link.1 link.2 = Some cap
    ∧ cap ≠ 0%Qc ∧ v = (load / cap)%Qc.

(** Generators that map a set of directed links into itself. *)
Definition link_preserving (D : gset (nat * nat)) (autgen : list (list nat))
  : Prop :=
  ∀ g l, g ∈ autgen → l ∈ D → act2 g l ∈ D.

(** A node map that is in range and maps the links of [D] to links of [D]. *)
Definition link_map (n : nat) (D : gset (nat * nat)) (f : list nat) : Prop :=
  wf_gen n f ∧ ∀ l, l ∈ D → act2 f l ∈ D.

(** The stored forward maps of visited and pending commodities map links
    to links. *)
Definition fwd_link_maps (n : nat) (D : gset (nat * nat)) (σ : CommBfs) : Prop :=
  ∀ x f, (x ∈ c_visited σ ∨ ∃ p, (x, p) ∈ c_tovisit σ) →
    c_fwd σ !! x = Some f → link_map n D f.

(** The directed links of a graph: every edge in both orientations. *)
Definition graph_links (G : Graph) : gset (nat * nat) :=
  list_to_set (fst <$> edges G)
  ∪ set_map (λ l : nat * nat, (l.2, l.1))
      (list_to_set (fst <$> edges G) : gset (nat * nat)).

(** The stored forward map of every commodity of a class maps links to
    links. *)
Definition class_maps_preserve_links (n : nat) (topo : Topology) (fs : Files)
  : Prop :=
  ∀ r G x f, r ∈ RepCommodities topo → CommodityGroup fs !! r = Some G →
    x ∈ G → AutomorphicMap_Forward fs !! x = Some f →
    link_map n (DLinks topo) f.

(** ** solution_grouping.py, continued *)

(** The non-empty forwarding signature of a commodity at a node, if it
    has one. *)
Definition signature_at (fs : Files) (self : SolutionGrouping) (node : nat)
    (repsd sd : nat * nat) : option (list ((nat * nat) * (nat * nat) * Qc)) :=
  match encodeFlows fs self node repsd sd with
  | Ok (c :: code) => Some (c :: code)
  | _ => None
  end.

(** The commodities of the class of [repsd] that are routed over some
    link at [node], and the distinct signatures they have there. *)
Definition crossing (fs : Files) (self : SolutionGrouping) (node : nat)
    (repsd : nat * nat) : gset (nat * nat) :=
  filter (λ sd, is_Some (signature_at fs self node repsd sd))
    (default ∅ (CommodityGroup fs !! repsd)).

Definition signatures (fs : Files) (self : SolutionGrouping) (node : nat)
    (repsd : nat * nat) : gset (list ((nat * nat) * (nat * nat) * Qc)) :=
  set_omap (signature_at fs self node repsd)
    (default ∅ (CommodityGroup fs !! repsd)).

(** A [commsplit] dictionary that splits the class [G] by signature. *)
Definition splits_by_signature (fs : Files) (self : SolutionGrouping)
    (node : nat) (repsd : nat * nat) (G : gset (nat * nat))
    (commsplit : gmap (list ((nat * nat) * (nat * nat) * Qc)) (gset (nat * nat)))
  : Prop :=
  (∀ sd, sd ∈ G →
     ∃ code members, encodeFlows fs self node repsd sd = Ok code
       ∧ commsplit !! code = Some members ∧ sd ∈ members)
  ∧ (∀ code members sd, commsplit !! code = Some members → sd ∈ members →
       sd ∈ G ∧ encodeFlows fs self node repsd sd = Ok code).


(** *** groupSolution and getStatCountInfo *)

(** The files under the split-groups directory, one
    [SplitGroupsAtNodes_<node>] and one [CountRouteInfo_<node>] per node,
    and the file [RemainedNodes]. *)
Record GroupFiles : Type := {
  SplitGroupsAtNodes :
    gmap nat (gmap (nat * nat)
                (gmap (list ((nat * nat) * (nat * nat) * Qc))
                      (gset (nat * nat))));
  CountRouteInfo : gmap nat (nat * nat);
  RemainedNodes : option (list nat);
}.

Definition no_group_files : GroupFiles :=
  {| SplitGroupsAtNodes := ∅; CountRouteInfo := ∅; RemainedNodes := None |}.

(** [groupSolutionAtNode(node)] as the pool runs it: the two files it
    writes (the second one in [countRouteInfoAtNode]) and the node it
    returns. *)
Definition groupSolutionAtNode_task (fs : Files) (self : SolutionGrouping)
    (node : nat) (gf : GroupFiles) : result nat * GroupFiles :=
  match groupSolutionAtNode fs self node with
  | Ok splitgroups =>
      let gf :=
        {| SplitGroupsAtNodes := <[node := splitgroups]> (SplitGroupsAtNodes gf);
           CountRouteInfo := CountRouteInfo gf;
           RemainedNodes := RemainedNodes gf |} in
      match countRouteInfoAtNode self splitgroups with
      | Ok count =>
          (Ok node,
           {| SplitGroupsAtNodes := SplitGroupsAtNodes gf;
              CountRouteInfo := <[node := count]> (CountRouteInfo gf);
              RemainedNodes := RemainedNodes gf |})
      | Raise e => (Raise e, gf)
      | OutOfFuel => (OutOfFuel, gf)
      end
  | Raise e => (Raise e, gf)
  | OutOfFuel => (OutOfFuel, gf)
  end.

(** [l.remove(x)]: the first occurrence goes, [ValueError] if there is
    none. *)
Fixpoint list_remove (x : nat) (l : list nat) : result (list nat) :=
  match l with
  | [] => Raise ValueError
  | y :: l' =>
      if decide (x = y) then Ok l'
      else l'' ← list_remove x l'; Ok (y :: l'')
  end.

(** The loop of [groupSolution] over the nodes in the order the pool
    hands them back, up to the first task that raised: after each node
    [remainedNodes] loses it and is written to [RemainedNodes]. *)
Fixpoint group_loop (fs : Files) (self : SolutionGrouping)
    (arrivals : list nat) (remainedNodes : list nat) (gf : GroupFiles)
  : result (list nat) * GroupFiles :=
  match arrivals with
  | [] => (Ok remainedNodes, gf)
  | x :: arrivals' =>
      match groupSolutionAtNode_task fs self x gf with
      | (Ok node, gf) =>
          match list_remove node remainedNodes with
          | Ok remainedNodes =>
              group_loop fs self arrivals' remainedNodes
                {| SplitGroupsAtNodes := SplitGroupsAtNodes gf;
                   CountRouteInfo := CountRouteInfo gf;
                   RemainedNodes := Some remainedNodes |}
          | Raise e => (Raise e, gf)
          | OutOfFuel => (OutOfFuel, gf)
          end
      | (Raise e, gf) => (Raise e, gf)
      | (OutOfFuel, gf) => (OutOfFuel, gf)
      end
  end.

(** [getCountInfoAtNode(node)] *)
Definition getCountInfoAtNode (gf : GroupFiles) (node : nat)
  : result (nat * nat) :=
  orRaise FileNotFoundError (CountRouteInfo gf !! node).

(** [min(ratio)] *)
Definition py_min (vs : list Qc) : result Qc :=
  match vs with
  | [] => Raise ValueError
  | v :: vs' => Ok (foldl (λ m x, if decide (x < m)%Qc then x else m) v vs')
  end.

(** [getStatCountInfo]: the minimum, maximum and average ratio it
    prints. *)
Definition getStatCountInfo (self : SolutionGrouping) (gf : GroupFiles)
  : result (Qc * Qc * Qc) :=
  ratio ← for_each
    (λ (ratio : list Qc) (node : nat),
       compact ← getCountInfoAtNode gf node;
       all ← getCountInfoAtNode gf node;
       q ← compaction_ratio (all.1, compact.2);
       Ok (ratio ++ [q]))
    (elements (AllNodes (gTopo self))) [];
  lo ← py_min ratio;
  hi ← py_max ratio;
  if decide (length ratio = 0) then Raise ZeroDivisionError
  else Ok (lo, hi,
           (foldr Qcplus 0%Qc ratio / Qc_of_Z (Z.of_nat (length ratio)))%Qc).

(** [groupSolution], started with [self.remainedNodes = remainedNodes]:
    what it prints (nothing while nodes remain), and the files
    afterwards. *)
Definition groupSolution (sched : list nat → list nat) (fs : Files)
    (self : SolutionGrouping) (remainedNodes : list nat) (gf : GroupFiles)
  : result (option (Qc * Qc * Qc)) * GroupFiles :=
  let allnodes := remainedNodes in
  match group_loop fs self (sched allnodes) remainedNodes gf with
  | (Ok remainedNodes, gf) =>
      if decide (length remainedNodes = 0) then
        (stats ← getStatCountInfo self gf; Ok (Some stats), gf)
      else (Ok None, gf)
  | (Raise e, gf) => (Raise e, gf)
  | (OutOfFuel, gf) => (OutOfFuel, gf)
  end.

(** *** Further sample runs *)

(** Two hosts joined by a link and a switch without any link; the
    automorphism swaps the hosts. *)
Definition detached_graph : Graph :=
  {| nodes := [0; 1; 2];
     numServer := λ n, if decide (n = 2) then 0 else 1;
     routing := λ _, true;
     edges := [(0, 1, 1%Qc)] |}.

Definition detached_autgen : list (list nat) := [[1; 0; 2]].

Definition detached_run : result (Topology * Files) :=
  Topology_init first_oracles 100 detached_graph detached_autgen no_files.

Definition detached_topo : Topology := Eval vm_compute in topo_of detached_run.
Definition detached_files : Files := Eval vm_compute in files_of detached_run.


(** The pendant topology before the flow-link step and before the
    link-constraint step. *)
Definition pendant_comm_run : result (Topology * Files) :=
  self ← setUGraph pendant_graph [];
  findRepresentativeCommodities (pick_comm first_oracles) 100 self no_files.

Definition pendant_comm_topo : Topology := Eval vm_compute in
  topo_of pendant_comm_run.
Definition pendant_comm_files : Files := Eval vm_compute in
  files_of pendant_comm_run.

Definition pendant_aux_run : result (Topology * Files) :=
  Topology_init_aux first_oracles 100 pendant_graph [] no_files.

Definition pendant_aux_topo : Topology := Eval vm_compute in
  topo_of pendant_aux_run.
Definition pendant_aux_files : Files := Eval vm_compute in
  files_of pendant_aux_run.

Definition pendant_verification : Verification :=
  {| intermediate := false; vTopo := pendant_topo;
     vRoute := RouteGraph pendant_route |}.

(** ** network_generator.py *)

(** [itertools.combinations(l, 2)] *)
Fixpoint combinations2 {A} (l : list A) : list (A * A) :=
  match l with
  | [] => []
  | x :: l' => ((λ y, (x, y)) <$> l') ++ combinations2 l'
  end.

(** [generateClique]: [numToR] routing-capable nodes with
    [numServerPerToR] servers each, every two of them joined by an edge
    of capacity [linkCapacity]. *)
Definition generateClique (numServerPerToR numToR : nat) (linkCapacity : Qc)
  : Graph :=
  let tors := seq 0 numToR in
  {| nodes := tors;
     numServer := λ _, numServerPerToR;
     routing := λ _, true;
     edges := (λ e, (e, linkCapacity)) <$> combinations2 tors |}.

(** ** The commodities reached from a seed *)



(** * Properties *)

Set Warnings "-clear-no-such-hyp".

(** ** Loop principles *)

Lemma bind_Ok {A B} (m : result A) (f : A → result B) (b : B) :
  m ≫= f = Ok b ↔ ∃ a, m = Ok a ∧ f a = Ok b.
Proof.
  destruct m; simpl; split; try naive_solver.
Qed.

(** Total form: a body that succeeds and keeps the invariant along the
    list gives a successful loop. *)
Lemma for_each_total {A S} (f : S → A → result S) (I : list A → S → Prop)
    (l : list A) (s : S) :
  I [] s →
  (∀ pre a post s, l = pre ++ a :: post → I pre s →
     ∃ s', f s a = Ok s' ∧ I (pre ++ [a]) s') →
  ∃ s', for_each f l s = Ok s' ∧ I l s'.
Proof.
  intros H0 Hstep.
  assert (∀ post pre s, l = pre ++ post → I pre s →
            ∃ s', for_each f post s = Ok s' ∧ I l s') as Hgen.
  { induction post as [|a post IH]; intros pre s0 Hl Hpre.
    - exists s0. rewrite app_nil_r in Hl. subst. done.
    - destruct (Hstep pre a post s0 Hl Hpre) as (s1 & Hf & H1).
      simpl. rewrite Hf. simpl. apply (IH (pre ++ [a])); [|done].
      by rewrite <- app_assoc. }
  by apply (Hgen l []).
Qed.

(** Partial form: whatever a successful loop returns satisfies the
    invariant that successful bodies keep. *)
Lemma for_each_partial {A S} (f : S → A → result S) (I : list A → S → Prop)
    (l : list A) (s s' : S) :
  for_each f l s = Ok s' →
  I [] s →
  (∀ pre a post s s1, l = pre ++ a :: post → I pre s → f s a = Ok s1 →
     I (pre ++ [a]) s1) →
  I l s'.
Proof.
  intros Hrun H0 Hstep.
  assert (∀ post pre s, l = pre ++ post → I pre s →
            for_each f post s = Ok s' → I l s') as Hgen.
  { induction post as [|a post IH]; intros pre s0 Hl Hpre Hr.
    - rewrite app_nil_r in Hl. simpl in Hr. by simplify_eq.
    - simpl in Hr. apply bind_Ok in Hr as (s1 & Hf & Hr).
      apply (IH (pre ++ [a]) s1); [by rewrite <- app_assoc| |done].
      by eapply Hstep. }
  by apply (Hgen l [] s).
Qed.

(** A [while] loop whose body succeeds, keeps the invariant and decreases
    a measure terminates within that many iterations. *)
Lemma while_total {S} (cond : S → bool) (body : S → result S)
    (I : S → Prop) (μ : S → nat) :
  (∀ s, I s → cond s = true → ∃ s', body s = Ok s' ∧ I s' ∧ μ s' < μ s) →
  ∀ fuel s, I s → μ s ≤ fuel →
    ∃ s', while cond body fuel s = Ok s' ∧ I s' ∧ cond s' = false.
Proof.
  intros Hbody. induction fuel as [|fuel IH]; intros s Hs Hμ.
  - simpl. destruct (cond s) eqn:Hc.
    + destruct (Hbody s Hs Hc) as (s' & _ & _ & Hlt). lia.
    + by exists s.
  - simpl. destruct (cond s) eqn:Hc.
    + destruct (Hbody s Hs Hc) as (s' & Hb & Hs' & Hlt).
      rewrite Hb. simpl. apply IH; [done|lia].
    + by exists s.
Qed.

(** [set.pop()] on a non-empty set returns one of its members. *)
Lemma set_pop_total `{Countable T} (pick : list T → nat) (s : gset T) :
  0 < size s → ∃ x, x ∈ s ∧ set_pop pick s = Ok (x, s ∖ {[x]}).
Proof.
  intros Hs. unfold set_pop. unfold size, set_size in Hs. simpl in Hs.
  destruct (lookup_lt_is_Some_2 (elements s)
              (pick (elements s) `mod` length (elements s))) as [x Hx].
  { apply Nat.mod_upper_bound. lia. }
  rewrite Hx. exists x. split; [|done].
  apply elem_of_elements. by eapply list_elem_of_lookup_2.
Qed.

(** ** Evaluation on concrete inputs *)

Ltac by_compute := refine (bool_decide_unpack _ _); vm_compute; exact I.

(** Enumerate the members of a concrete list or finite set. *)
Ltac list_members H :=
  match type of H with
  | _ ∈ ?l => let l' := eval vm_compute in l in change l with l' in H
  end;
  repeat (apply elem_of_cons in H as [->|H]);
  [..|by apply elem_of_nil in H].

Ltac members H := apply elem_of_elements in H; list_members H.

(** ** Generators acting on nodes and tuples *)

Lemma elem_of_U1 n x : x ∈ U1 n ↔ x < n.
Proof. unfold U1. rewrite elem_of_set_seq. lia. Qed.

Lemma elem_of_U2 n p : p ∈ U2 n ↔ p.1 < n ∧ p.2 < n.
Proof. unfold U2. rewrite elem_of_gset_cprod, !elem_of_U1. done. Qed.

Lemma elem_of_U3 n p : p ∈ U3 n ↔ p.1.1 < n ∧ p.1.2 < n ∧ p.2 < n.
Proof. unfold U3. rewrite elem_of_gset_cprod, elem_of_U2, elem_of_U1. tauto. Qed.

Lemma act_lookup n g x : wf_gen n g → x < n → g !! x = Some (act g x).
Proof.
  intros [Hlen _] Hx. unfold act. apply list_lookup_lookup_total_lt. lia.
Qed.

Lemma act_lt n g x : wf_gen n g → x < n → act g x < n.
Proof.
  intros Hwf Hx. pose proof (act_lookup n g x Hwf Hx) as Hl.
  destruct Hwf as [_ Hall]. rewrite Forall_forall in Hall.
  apply Hall. by eapply list_elem_of_lookup_2.
Qed.

Lemma act_inj n g x y :
  perm_gen n g → x < n → y < n → act g x = act g y → x = y.
Proof.
  intros [Hwf Hnd] Hx Hy Heq.
  pose proof (act_lookup n g x Hwf Hx) as Hlx.
  pose proof (act_lookup n g y Hwf Hy) as Hly.
  rewrite Heq in Hlx. by eapply NoDup_lookup.
Qed.

Lemma act2_inj n g p q :
  perm_gen n g → p ∈ U2 n → q ∈ U2 n → act2 g p = act2 g q → p = q.
Proof.
  rewrite !elem_of_U2. intros Hg [??] [??] [= E1 E2].
  destruct p, q; simpl in *. f_equal; by eapply act_inj.
Qed.

Lemma act3_inj n g p q :
  perm_gen n g → p ∈ U3 n → q ∈ U3 n → act3 g p = act3 g q → p = q.
Proof.
  rewrite !elem_of_U3. intros Hg (?&?&?) (?&?&?) [= E1 E2 E3].
  destruct p as [[??]?], q as [[??]?]; simpl in *.
  repeat f_equal; by eapply act_inj.
Qed.

Lemma act2_range n g p : wf_gen n g → p ∈ U2 n → act2 g p ∈ U2 n.
Proof.
  rewrite !elem_of_U2. intros Hg [??]. simpl. split; by eapply act_lt.
Qed.

Lemma act3_range n g p : wf_gen n g → p ∈ U3 n → act3 g p ∈ U3 n.
Proof.
  rewrite !elem_of_U3. intros Hg (?&?&?). simpl.
  repeat split; by eapply act_lt.
Qed.

Lemma applyGenerator2_act n g p :
  wf_gen n g → p ∈ U2 n → applyGenerator2 p g = Ok (act2 g p).
Proof.
  rewrite elem_of_U2. intros Hg [H1 H2]. unfold applyGenerator2. simpl.
  rewrite (act_lookup n g _ Hg H1), (act_lookup n g _ Hg H2). done.
Qed.

Lemma applyGenerator3_act n g p :
  wf_gen n g → p ∈ U3 n → applyGenerator3 p g = Ok (act3 g p).
Proof.
  rewrite elem_of_U3. intros Hg (H1 & H2 & H3). unfold applyGenerator3. simpl.
  rewrite (act_lookup n g _ Hg H1), (act_lookup n g _ Hg H2),
    (act_lookup n g _ Hg H3). done.
Qed.

(** An injective map that sends a finite set into itself permutes it. *)
Lemma closed_inj_image `{Countable A} (f : A → A) (D X : gset A) :
  (∀ x y, x ∈ D → y ∈ D → f x = f y → x = y) →
  X ⊆ D →
  (∀ x, x ∈ X → f x ∈ X) →
  set_map (D:=gset A) f X = X.
Proof.
  intros Hinj HXD Hcl. apply set_subseteq_size_eq.
  - intros y. rewrite elem_of_map. intros (z & -> & Hz). by apply Hcl.
  - unfold set_map. rewrite size_list_to_set.
    + rewrite length_fmap. done.
    + apply NoDup_fmap_2_strong; [|apply NoDup_elements].
      intros a b Ha Hb. apply Hinj; apply HXD; by apply elem_of_elements.
Qed.

(** Hence the set contains every preimage of its members. *)
Lemma closed_inj_preimage `{Countable A} (f : A → A) (D X : gset A) :
  (∀ x y, x ∈ D → y ∈ D → f x = f y → x = y) →
  X ⊆ D →
  (∀ x, x ∈ X → f x ∈ X) →
  ∀ x, x ∈ D → f x ∈ X → x ∈ X.
Proof.
  intros Hinj HXD Hcl x HxD Hfx.
  rewrite <- (closed_inj_image f D X Hinj HXD Hcl) in Hfx.
  apply elem_of_map in Hfx as (z & Hz & HzX).
  assert (x = z) as -> by (apply Hinj; auto). done.
Qed.

(** Counting along a permutation of the counted list. *)
Lemma filter_fmap_length {A} (f : A → A) (P : A → Prop)
    `{∀ x, Decision (P x)} (l : list A) :
  length (filter P (f <$> l)) = length (filter (λ x, P (f x)) l).
Proof.
  induction l as [|x l IH]; [done|].
  rewrite fmap_cons, !filter_cons.
  destruct (decide (P (f x))); rewrite ?length_cons, IH; done.
Qed.

Lemma filter_ext_length {A} (P Q : A → Prop)
    `{∀ x, Decision (P x)} `{∀ x, Decision (Q x)} (l : list A) :
  (∀ x, x ∈ l → P x ↔ Q x) → length (filter P l) = length (filter Q l).
Proof.
  induction l as [|x l IH]; intros Hext; [done|].
  rewrite !filter_cons.
  assert (P x ↔ Q x) as Hx by (apply Hext; set_solver).
  assert (length (filter P l) = length (filter Q l)) as Hl
    by (apply IH; intros y Hy; apply Hext; set_solver).
  destruct (decide (P x)), (decide (Q x)); simpl; try tauto; by rewrite Hl.
Qed.

Lemma count_along_permutation `{Countable A} (f : A → A) (D X : gset A)
    (P : A → Prop) `{∀ x, Decision (P x)} :
  (∀ x y, x ∈ D → y ∈ D → f x = f y → x = y) →
  X ⊆ D →
  (∀ x, x ∈ X → f x ∈ X) →
  length (filter P (elements X)) = length (filter (λ x, P (f x)) (elements X)).
Proof.
  intros Hinj HXD Hcl. rewrite <- (filter_fmap_length f P).
  apply Permutation_length, filter_Permutation.
  apply NoDup_Permutation.
  - apply NoDup_elements.
  - apply NoDup_fmap_2_strong; [|apply NoDup_elements].
    intros a b Ha Hb. apply Hinj; apply HXD; by apply elem_of_elements.
  - intros x. rewrite elem_of_elements.
    rewrite <- (closed_inj_image f D X Hinj HXD Hcl) at 1.
    rewrite elem_of_map, list_elem_of_fmap.
    split; intros (y & ? & ?); exists y; by rewrite ?elem_of_elements in *.
Qed.

(** ** findRepresentativeAuxs *)

Section aux_bfs.
Context (n : nat) (gens : list (list nat)).
Hypothesis Hgens : Forall (perm_gen n) gens.

Lemma gens_wf g : g ∈ gens → wf_gen n g.
Proof. rewrite Forall_forall in Hgens. intros Hg. by apply Hgens. Qed.

Lemma gens_perm g : g ∈ gens → perm_gen n g.
Proof. rewrite Forall_forall in Hgens. intros Hg. by apply Hgens. Qed.

Lemma aux_expand_spec (x : nat * nat * nat) (σ1 : AuxBfs) :
  x ∈ U3 n →
  a_tovisit σ1 ⊆ U3 n →
  a_tovisit σ1 ## a_visited σ1 →
  ∃ σ2, aux_expand gens x σ1 = Ok σ2
    ∧ a_visited σ2 = a_visited σ1
    ∧ a_autauxs σ2 = a_autauxs σ1
    ∧ a_groups σ2 = a_groups σ1
    ∧ a_repauxs σ2 = a_repauxs σ1
    ∧ a_tovisit σ1 ⊆ a_tovisit σ2
    ∧ a_tovisit σ2 ⊆ U3 n
    ∧ a_tovisit σ2 ## a_visited σ1
    ∧ ∀ g, g ∈ gens → act3 g x ∈ a_visited σ1 ∪ a_tovisit σ2.
Proof.
  intros Hx Htv Hfresh. unfold aux_expand.
  destruct (for_each_total
    (λ (σ : AuxBfs) (autmap : list nat),
       aaux ← applyGenerator3 x autmap;
       if decide (aaux ∈ a_visited σ) then Ok σ
       else
         Ok {| a_tovisit := a_tovisit σ ∪ {[aaux]};
               a_visited := a_visited σ;
               a_repauxs := a_repauxs σ;
               a_autauxs := a_autauxs σ;
               a_groups := a_groups σ;
               a_clock := a_clock σ |})
    (λ pre σ2,
       a_visited σ2 = a_visited σ1
       ∧ a_autauxs σ2 = a_autauxs σ1
       ∧ a_groups σ2 = a_groups σ1
       ∧ a_repauxs σ2 = a_repauxs σ1
       ∧ a_tovisit σ1 ⊆ a_tovisit σ2
       ∧ a_tovisit σ2 ⊆ U3 n
       ∧ a_tovisit σ2 ## a_visited σ1
       ∧ ∀ g, g ∈ pre → act3 g x ∈ a_visited σ1 ∪ a_tovisit σ2)
    gens σ1) as (σ2 & Hrun & Hinv).
  - repeat split; try done. intros g Hg. by apply elem_of_nil in Hg.
  - intros pre g post σ Hsplit (Hv & Ha & Hg & Hr & Hmono & Hrange & Hfr & Hdone).
    assert (g ∈ gens) as Hgin by (rewrite Hsplit; set_solver).
    rewrite (applyGenerator3_act n g x (gens_wf g Hgin) Hx). simpl.
    pose proof (act3_range n g x (gens_wf g Hgin) Hx) as Hy.
    destruct (decide (act3 g x ∈ a_visited σ)) as [Hin|Hnin].
    + exists σ. split; [done|]. repeat split; try done.
      intros g' Hg'. apply elem_of_app in Hg' as [Hg'|Hg'].
      * by apply Hdone.
      * apply list_elem_of_singleton in Hg' as ->. rewrite <- Hv. set_solver.
    + eexists. split; [done|]. simpl. repeat split; try done.
      * set_solver.
      * set_solver.
      * rewrite Hv in Hnin. set_solver.
      * intros g' Hg'. apply elem_of_app in Hg' as [Hg'|Hg'].
        -- specialize (Hdone g' Hg'). set_solver.
        -- apply list_elem_of_singleton in Hg' as ->. set_solver.
  - exists σ2. split; [done|]. done.
Qed.

Lemma aux_while_body_spec (V0 : gset (nat * nat * nat)) (r : nat * nat * nat)
    (pick : nat → list (nat * nat * nat) → nat) (σ0 σ : AuxBfs) :
  V0 ⊆ U3 n →
  (∀ g x, g ∈ gens → x ∈ U3 n → act3 g x ∈ V0 → x ∈ V0) →
  AuxInv n gens V0 r σ0 σ →
  aux_pending σ = true →
  ∃ σ', aux_while_body gens pick σ = Ok σ'
    ∧ AuxInv n gens V0 r σ0 σ'
    ∧ size (U3 n ∖ a_visited σ') < size (U3 n ∖ a_visited σ).
Proof.
  intros HV0 Hpre [Hgrp Hrep Htv Haut Hvis Hfresh Hnew Hseed Hclosing] Hpend.
  unfold aux_pending in Hpend. apply bool_decide_eq_true in Hpend.
  destruct (set_pop_total (pick (a_clock σ)) (a_tovisit σ) Hpend)
    as (x & Hx & Hpop).
  unfold aux_while_body. rewrite Hpop. simpl.
  assert (x ∈ U3 n) as HxU by set_solver.
  assert (x ∉ a_visited σ) as Hxnv by set_solver.
  destruct (aux_expand_spec x
    {| a_tovisit := a_tovisit σ ∖ {[x]};
       a_visited := a_visited σ ∪ {[x]};
       a_repauxs := a_repauxs σ;
       a_autauxs := a_autauxs σ ∪ {[x]};
       a_groups := a_groups σ;
       a_clock := S (a_clock σ) |})
    as (σ' & Hrun & Hv' & Ha' & Hg' & Hr' & Hmono & Hrange & Hfr' & Hall);
    simpl in *; [done|set_solver|set_solver|].
  exists σ'. split; [done|]. split.
  - constructor.
    + congruence.
    + congruence.
    + done.
    + rewrite Ha'. set_solver.
    + rewrite Hv', Ha', Hvis. set_solver.
    + rewrite Hv'. done.
    + rewrite Ha'. rewrite Hvis in Hxnv. set_solver.
    + rewrite Ha'. destruct (decide (r = x)) as [->|Hne]; set_solver.
    + intros y g Hy Hg. rewrite Ha' in Hy |- *.
      apply elem_of_union in Hy as [Hy|Hy].
      * specialize (Hclosing y g Hy Hg).
        destruct (decide (act3 g y = x)) as [->|Hne]; set_solver.
      * apply elem_of_singleton in Hy as ->.
        specialize (Hall g Hg). rewrite Hvis in Hall.
        assert (act3 g x ∉ V0).
        { intros Hin. apply Hxnv. rewrite Hvis.
          apply elem_of_union_l. by eapply Hpre. }
        set_solver.
  - rewrite Hv'. apply subset_size. split; [set_solver|].
    intros Hsub. specialize (Hsub x). set_solver.
Qed.

Lemma aux_while_spec (V0 : gset (nat * nat * nat)) (r : nat * nat * nat)
    (pick : nat → list (nat * nat * nat) → nat) (fuel : nat) (σ0 σ : AuxBfs) :
  V0 ⊆ U3 n →
  (∀ g x, g ∈ gens → x ∈ U3 n → act3 g x ∈ V0 → x ∈ V0) →
  AuxInv n gens V0 r σ0 σ →
  size (U3 n) ≤ fuel →
  ∃ σ', while aux_pending (aux_while_body gens pick) fuel σ = Ok σ'
    ∧ AuxInv n gens V0 r σ0 σ'
    ∧ a_tovisit σ' = ∅.
Proof.
  intros HV0 Hpre Hinv Hfuel.
  destruct (while_total aux_pending (aux_while_body gens pick)
              (AuxInv n gens V0 r σ0) (λ σ, size (U3 n ∖ a_visited σ))
              (λ s Hs Hc, aux_while_body_spec V0 r pick σ0 s HV0 Hpre Hs Hc)
              fuel σ Hinv)
    as (σ' & Hrun & Hinv' & Hcond).
  { etrans; [|exact Hfuel]. apply subseteq_size. set_solver. }
  exists σ'. split; [done|]. split; [done|].
  unfold aux_pending in Hcond. apply bool_decide_eq_false in Hcond.
  apply leibniz_equiv, size_empty_iff. lia.
Qed.

Lemma AuxOuter_preimage (seen : list (nat * nat * nat)) (σ : AuxBfs) :
  AuxOuter n gens seen σ →
  ∀ g x, g ∈ gens → x ∈ U3 n → act3 g x ∈ a_visited σ → x ∈ a_visited σ.
Proof.
  intros Hout g x Hg Hx Hin.
  apply (ao_cover _ _ _ _ Hout) in Hin as (r & G & Hr & HG & HinG).
  apply (ao_cover _ _ _ _ Hout). exists r, G. repeat split; try done.
  by apply (ao_closed _ _ _ _ Hout r G g x).
Qed.

Lemma aux_seed_spec (pick : nat → list (nat * nat * nat) → nat) (fuel : nat)
    (seen : list (nat * nat * nat)) (σ : AuxBfs) (r : nat * nat * nat) :
  size (U3 n) ≤ fuel →
  r ∈ U3 n →
  AuxOuter n gens seen σ →
  ∃ σ', aux_seed gens pick fuel σ r = Ok σ' ∧ AuxOuter n gens (seen ++ [r]) σ'.
Proof.
  intros Hfuel Hr Hout. unfold aux_seed.
  destruct (decide (r ∈ a_visited σ)) as [Hin|Hnin].
  { exists σ. split; [done|]. destruct Hout. constructor; try done.
    - intros x Hx. apply elem_of_app in Hx as [Hx|Hx]; [auto|].
      by apply list_elem_of_singleton in Hx as ->.
    - intros r' Hr'. apply elem_of_app. left. auto. }
  set (σ1 := {| a_tovisit := a_tovisit σ ∪ {[r]};
                a_visited := a_visited σ;
                a_repauxs := a_repauxs σ ∪ {[r]};
                a_autauxs := ∅;
                a_groups := a_groups σ;
                a_clock := a_clock σ |}).
  assert (r ∉ a_repauxs σ) as Hrnew.
  { intros Hc. destruct (ao_self _ _ _ _ Hout r Hc) as (G & HG & HrG).
    apply Hnin. apply (ao_cover _ _ _ _ Hout). by exists r, G. }
  destruct (aux_while_spec (a_visited σ) r pick fuel σ1 σ1)
    as (σ2 & Hrun & [Hgrp Hrep Htv Haut Hvis Hfresh Hnew Hseed Hclosing] & Hempty).
  { apply (ao_visited _ _ _ _ Hout). }
  { by apply (AuxOuter_preimage seen). }
  { constructor; simpl; rewrite ?(ao_tovisit _ _ _ _ Hout); try done; set_solver. }
  { done. }
  rewrite Hrun. simpl. eexists. split; [done|].
  simpl in Hgrp, Hrep. rewrite Hempty in *.
  assert (r ∈ a_autauxs σ2) as HrG by set_solver.
  assert (∀ r' G', r' ∈ a_repauxs σ → a_groups σ !! r' = Some G' →
            G' ⊆ a_visited σ) as Hold.
  { intros r' G' Hr' HG' x Hx. apply (ao_cover _ _ _ _ Hout). by exists r', G'. }
  constructor; simpl.
  - done.
  - rewrite Hvis. pose proof (ao_visited _ _ _ _ Hout). set_solver.
  - intros x Hx. rewrite Hvis. apply elem_of_app in Hx as [Hx|Hx].
    + apply elem_of_union_l. by apply (ao_seen _ _ _ _ Hout).
    + apply list_elem_of_singleton in Hx as ->. set_solver.
  - intros r' Hr'. rewrite Hrep in Hr'. apply elem_of_app.
    apply elem_of_union in Hr' as [Hr'|Hr'].
    + left. by apply (ao_reps _ _ _ _ Hout).
    + right. set_solver.
  - intros x. rewrite Hvis, Hrep, Hgrp. split.
    + intros Hx. apply elem_of_union in Hx as [Hx|Hx].
      * apply (ao_cover _ _ _ _ Hout) in Hx as (r' & G' & Hr' & HG' & Hx).
        exists r', G'. split; [set_solver|]. split; [|done].
        rewrite lookup_insert_ne; [done|]. by intros ->.
      * exists r, (a_autauxs σ2). split; [set_solver|].
        by rewrite lookup_insert_eq.
    + intros (r' & G' & Hr' & HG' & Hx).
      destruct (decide (r = r')) as [<-|Hne].
      * rewrite lookup_insert_eq in HG'. simplify_eq. set_solver.
      * rewrite lookup_insert_ne in HG' by done.
        apply elem_of_union_l. apply (Hold r' G'); [set_solver|done..].
  - intros r' Hr'. rewrite Hrep in Hr'. rewrite Hgrp.
    destruct (decide (r = r')) as [<-|Hne].
    + exists (a_autauxs σ2). by rewrite lookup_insert_eq.
    + rewrite lookup_insert_ne by done.
      apply (ao_self _ _ _ _ Hout). set_solver.
  - intros r1 r2 G1 G2 x Hr1 Hr2 HG1 HG2 Hx1 Hx2.
    rewrite Hrep in Hr1, Hr2. rewrite Hgrp in HG1, HG2.
    destruct (decide (r = r1)) as [<-|Hne1], (decide (r = r2)) as [<-|Hne2];
      [done| | |].
    + rewrite lookup_insert_eq in HG1. rewrite lookup_insert_ne in HG2 by done.
      simplify_eq. exfalso. apply (Hnew x Hx1).
      apply (Hold r2 G2); [set_solver|done..].
    + rewrite lookup_insert_eq in HG2. rewrite lookup_insert_ne in HG1 by done.
      simplify_eq. exfalso. apply (Hnew x Hx2).
      apply (Hold r1 G1); [set_solver|done..].
    + rewrite lookup_insert_ne in HG1, HG2 by done.
      apply (ao_disjoint _ _ _ _ Hout r1 r2 G1 G2 x); try done; set_solver.
  - intros r' G' g x Hr' HG' Hg Hx. rewrite Hrep in Hr'. rewrite Hgrp in HG'.
    destruct (decide (r = r')) as [<-|Hne].
    + rewrite lookup_insert_eq in HG'. simplify_eq. split.
      * intros HxG. specialize (Hclosing x g HxG Hg). set_solver.
      * apply (closed_inj_preimage (act3 g) (U3 n)); [|done| |done].
        -- intros a b Ha Hb. by apply (act3_inj n g a b (gens_perm g Hg)).
        -- intros a Ha. specialize (Hclosing a g Ha Hg). set_solver.
    + rewrite lookup_insert_ne in HG' by done.
      apply (ao_closed _ _ _ _ Hout r' G' g x); try done. set_solver.
Qed.

(** The seeds of the enumeration are the auxiliary indices. *)
Lemma elem_of_auxindice (self : Topology) (x : nat * nat * nat) :
  x ∈ auxindice self ↔ x.1.1 ∈ HostNodes self ∧ (x.1.2, x.2) ∈ DLinks self.
Proof.
  unfold auxindice. rewrite merge_sort_Permutation.
  rewrite list_elem_of_bind. split.
  - intros (u & Hx & Hu). apply list_elem_of_bind in Hx as (l & Hx & Hl).
    apply list_elem_of_singleton in Hx as ->. simpl.
    apply elem_of_elements in Hu, Hl. by destruct l.
  - intros [Hu Hl]. exists x.1.1. split; [|by apply elem_of_elements].
    apply list_elem_of_bind. exists (x.1.2, x.2).
    split; [|by apply elem_of_elements].
    destruct x as [[??]?]. simpl. by apply list_elem_of_singleton.
Qed.

Lemma aux_orbits_spec (pick : nat → list (nat * nat * nat) → nat) (fuel : nat)
    (self : Topology) (fs : Files) :
  Autgen self = gens →
  HostNodes self ⊆ U1 n →
  DLinks self ⊆ U2 n →
  size (U3 n) ≤ fuel →
  ∃ σ, aux_orbits pick fuel self fs = Ok σ
    ∧ AuxOuter n gens (auxindice self) σ.
Proof.
  intros Hag Hhosts Hlinks Hfuel. unfold aux_orbits. rewrite Hag.
  apply (for_each_total (aux_seed gens pick fuel) (AuxOuter n gens)).
  - constructor; simpl; try done; try set_solver.
  - intros pre r post σ Hsplit Hout.
    apply aux_seed_spec; [done| |done].
    assert (r ∈ auxindice self) as Hr by (rewrite Hsplit; set_solver).
    apply elem_of_auxindice in Hr as [Hu Hl].
    apply elem_of_U3. apply Hhosts, elem_of_U1 in Hu.
    apply Hlinks, elem_of_U2 in Hl. simpl in Hl. lia.
Qed.
End aux_bfs.

(** ** findRepresentativeAuxs and computeAuxReverseMap *)

Lemma findRepresentativeAuxs_spec (n : nat)
    (pick : nat → list (nat * nat * nat) → nat) (fuel : nat)
    (self : Topology) (fs : Files) :
  Forall (perm_gen n) (Autgen self) →
  HostNodes self ⊆ U1 n →
  DLinks self ⊆ U2 n →
  stage_findRepresentativeAuxs fs = None →
  size (U3 n) ≤ fuel →
  ∃ reps groups,
    findRepresentativeAuxs pick fuel self fs
      = Ok (set_RepAuxiliarys self reps,
            set_AuxiliaryGroup fs groups (Some reps))
    ∧ AuxClasses n (Autgen self) (set_RepAuxiliarys self reps) groups.
Proof.
  intros Hgens Hhosts Hlinks Hstage Hfuel.
  destruct (aux_orbits_spec n (Autgen self) Hgens pick fuel self fs)
    as (σ & Hrun & Hout); [done..|].
  exists (a_repauxs σ), (a_groups σ).
  unfold findRepresentativeAuxs. rewrite Hstage, Hrun. simpl.
  split; [done|]. constructor; simpl.
  - intros u l Hu Hl.
    assert ((u, l.1, l.2) ∈ a_visited σ) as Hv.
    { apply (ao_seen _ _ _ _ Hout). apply elem_of_auxindice. simpl.
      by destruct l. }
    apply (ao_cover _ _ _ _ Hout) in Hv. done.
  - apply (ao_self _ _ _ _ Hout).
  - intros r Hr. apply elem_of_auxindice. by apply (ao_reps _ _ _ _ Hout).
  - apply (ao_disjoint _ _ _ _ Hout).
  - apply (ao_closed _ _ _ _ Hout).
Qed.

Lemma auxtorep_fold_lookup (u : nat) (r : nat * nat * nat)
    (xs : list (nat * nat * nat)) (m : gmap (nat * nat) (nat * nat * nat))
    (l : nat * nat) (r' : nat * nat * nat) :
  (foldl (λ (m : gmap (nat * nat) (nat * nat * nat)) (nij : nat * nat * nat),
            if decide (nij.1.1 ≠ u) then m else <[(nij.1.2, nij.2) := r]> m)
         m xs) !! l = Some r'
  ↔ ((u, l.1, l.2) ∈ xs ∧ r' = r) ∨ (((u, l.1, l.2) ∉ xs) ∧ m !! l = Some r').
Proof.
  revert m. induction xs as [|x xs IH]; intros m; simpl.
  - rewrite elem_of_nil. tauto.
  - rewrite IH. rewrite !elem_of_cons. destruct x as [[a i] j]. simpl.
    destruct l as [l1 l2]. simpl.
    destruct (decide (a ≠ u)) as [Hne|Heq].
    + assert ((u, l1, l2) = (a, i, j) ↔ False) as ->
        by (split; [intros [=]; congruence|done]).
      tauto.
    + apply dec_stable in Heq as ->.
      destruct (decide ((i, j) = (l1, l2))) as [[= -> ->]|Hne].
      * rewrite lookup_insert_eq.
        assert ((u, l1, l2) = (u, l1, l2) ↔ True) as -> by done.
        destruct (decide ((u, l1, l2) ∈ xs)); split;
          intros [[? ?]|[? ?]]; simplify_eq; tauto.
      * rewrite lookup_insert_ne by done.
        assert ((u, l1, l2) = (u, i, j) ↔ False) as ->
          by (split; [intros [=]; congruence|done]).
        tauto.
Qed.

Lemma auxtorep_of_spec (n : nat) (gens : list (list nat)) (self : Topology)
    (groups : gmap (nat * nat * nat) (gset (nat * nat * nat))) (u : nat) :
  AuxClasses n gens self groups →
  ∃ m, auxtorep_of groups (elements (RepAuxiliarys self)) u = Ok m
    ∧ ∀ l r, m !! l = Some r ↔
        r ∈ RepAuxiliarys self ∧ ∃ G, groups !! r = Some G ∧ (u, l.1, l.2) ∈ G.
Proof.
  intros Hcls. unfold auxtorep_of.
  destruct (for_each_total
    (λ (auxtorep : gmap (nat * nat) (nat * nat * nat)) (repaux : nat * nat * nat),
       autauxs ← orRaise FileNotFoundError (groups !! repaux);
       Ok (foldl
             (λ (m : gmap (nat * nat) (nat * nat * nat)) (nij : nat * nat * nat),
                if decide (nij.1.1 ≠ u) then m
                else <[(nij.1.2, nij.2) := repaux]> m)
             auxtorep (elements autauxs)))
    (λ pre m, ∀ l r, m !! l = Some r ↔
        r ∈ pre ∧ ∃ G, groups !! r = Some G ∧ (u, l.1, l.2) ∈ G)
    (elements (RepAuxiliarys self)) ∅) as (m & Hrun & Hinv).
  - intros l r. rewrite lookup_empty. split; [done|].
    intros [H _]. by apply elem_of_nil in H.
  - intros pre r0 post m Hsplit Hinv.
    assert (r0 ∈ RepAuxiliarys self) as Hr0.
    { apply elem_of_elements. rewrite Hsplit. set_solver. }
    assert (∀ r, r ∈ pre → r ∈ RepAuxiliarys self) as Hpre.
    { intros r Hr. apply elem_of_elements. rewrite Hsplit. set_solver. }
    destruct (ac_defined _ _ _ _ Hcls r0 Hr0) as (G0 & HG0 & _).
    rewrite HG0. simpl. eexists. split; [done|].
    intros l r. rewrite auxtorep_fold_lookup, elem_of_elements, Hinv.
    rewrite elem_of_app, list_elem_of_singleton. split.
    + intros [[Hin ->]|[Hnin (Hr & G & HG & Hin)]].
      * split; [by right|]. by exists G0.
      * split; [by left|]. by exists G.
    + intros ([Hr| ->] & G & HG & Hin).
      * destruct (decide ((u, l.1, l.2) ∈ G0)) as [Hin0|Hnin0].
        -- left. split; [done|].
           by eapply (ac_disjoint _ _ _ _ Hcls r r0 G G0); eauto.
        -- right. split; [done|]. split; [done|]. by exists G.
      * left. split; [|done]. by simplify_eq.
  - exists m. split; [done|]. intros l r. rewrite Hinv, elem_of_elements. done.
Qed.

(** The class every host stores for a link after [computeAuxReverseMap]. *)
Lemma computeAuxReverseMap_spec (n : nat) (gens : list (list nat))
    (self : Topology) (fs : Files) :
  AuxClasses n gens self (AuxiliaryGroup fs) →
  ∃ fs', computeAuxReverseMap self fs = Ok fs'
    ∧ AuxiliaryGroup fs' = AuxiliaryGroup fs
    ∧ ∀ u l r, u ∈ HostNodes self →
        (aux_class fs' u l = Some r ↔
           r ∈ RepAuxiliarys self
           ∧ ∃ G, AuxiliaryGroup fs !! r = Some G ∧ (u, l.1, l.2) ∈ G).
Proof.
  intros Hcls. unfold computeAuxReverseMap.
  destruct (for_each_total
    (λ (fs : Files) (u : nat),
       auxtorep ← auxtorep_of (AuxiliaryGroup fs)
                    (elements (RepAuxiliarys self)) u;
       Ok (set_AuxToRep fs (<[u := auxtorep]> (AuxToRep fs))))
    (λ pre fs',
       AuxiliaryGroup fs' = AuxiliaryGroup fs
       ∧ ∀ u, u ∈ pre →
           ∃ m, auxtorep_of (AuxiliaryGroup fs)
                  (elements (RepAuxiliarys self)) u = Ok m
                ∧ AuxToRep fs' !! u = Some m)
    (elements (HostNodes self)) fs) as (fs' & Hrun & Hgrp & Hinv).
  - split; [done|]. intros u Hu. by apply elem_of_nil in Hu.
  - intros pre u post fs1 Hsplit [Hgrp Hinv].
    destruct (auxtorep_of_spec n gens self (AuxiliaryGroup fs) u Hcls)
      as (m & Hm & _).
    rewrite Hgrp, Hm. simpl. eexists. split; [done|]. simpl.
    split; [done|]. intros u' Hu'.
    destruct (decide (u = u')) as [<-|Hne].
    + exists m. by rewrite lookup_insert_eq.
    + rewrite lookup_insert_ne by done. apply Hinv.
      apply elem_of_app in Hu' as [?|Hu']; [done|].
      apply list_elem_of_singleton in Hu'. congruence.
  - exists fs'. split; [done|]. split; [done|].
    intros u l r Hu. apply elem_of_elements in Hu.
    destruct (Hinv u Hu) as (m & Hm & Hlook).
    destruct (auxtorep_of_spec n gens self (AuxiliaryGroup fs) u Hcls)
      as (m' & Hm' & Hspec).
    assert (m' = m) as -> by congruence.
    unfold aux_class. rewrite Hlook. simpl. apply Hspec.
Qed.

(** The outcome of the auxiliary step on a fresh precomputation
    directory, given enough fuel. *)
Lemma aux_stage_spec (n : nat) (pick : nat → list (nat * nat * nat) → nat)
    (fuel : nat) (self : Topology) (fs : Files) :
  Forall (perm_gen n) (Autgen self) →
  HostNodes self ⊆ U1 n →
  DLinks self ⊆ U2 n →
  stage_findRepresentativeAuxs fs = None →
  size (U3 n) ≤ fuel →
  ∃ reps fs',
    aux_stage pick fuel self fs = Ok (set_RepAuxiliarys self reps, fs')
    ∧ AuxClasses n (Autgen self) (set_RepAuxiliarys self reps)
        (AuxiliaryGroup fs')
    ∧ ∀ u l r, u ∈ HostNodes self →
        (aux_class fs' u l = Some r ↔
           r ∈ reps
           ∧ ∃ G, AuxiliaryGroup fs' !! r = Some G ∧ (u, l.1, l.2) ∈ G).
Proof.
  intros Hgens Hhosts Hlinks Hstage Hfuel.
  destruct (findRepresentativeAuxs_spec n pick fuel self fs)
    as (reps & groups & Hrun & Hcls); [done..|].
  destruct (computeAuxReverseMap_spec n (Autgen self)
              (set_RepAuxiliarys self reps)
              (set_AuxiliaryGroup fs groups (Some reps)) Hcls)
    as (fs' & Hrun' & Hgrp & Hclass).
  exists reps, fs'. unfold aux_stage. rewrite Hrun. simpl. rewrite Hrun'. simpl.
  split; [done|]. simpl in Hgrp. rewrite Hgrp. split; [done|].
  intros u l r Hu. apply (Hclass u l r Hu).
Qed.

(** ** encodeLinkConstraint *)

Lemma sig_list_ext reps cb cg cb' cg' :
  (∀ r, r ∈ reps → cb r = cb' r ∧ cg r = cg' r) →
  sig_list reps cb cg = sig_list reps cb' cg'.
Proof.
  unfold sig_list. induction reps as [|r reps IH]; intros Hext; [done|].
  simpl. destruct (Hext r) as [-> ->]; [set_solver|].
  do 2 f_equal. apply IH. intros r' Hr'. apply Hext. set_solver.
Qed.

Lemma sig_list_app reps1 reps2 cb cg :
  sig_list (reps1 ++ reps2) cb cg = sig_list reps1 cb cg ++ sig_list reps2 cb cg.
Proof. unfold sig_list. by rewrite bind_app. Qed.

Lemma dict_get_sig_list (t : bg) reps cb cg r0 :
  dict_get (t, r0) (sig_list reps cb cg)
  = if decide (r0 ∈ reps)
    then Some (match t with tag_b => cb r0 | tag_g => cg r0 end)
    else None.
Proof.
  induction reps as [|r reps IH].
  { simpl. by destruct (decide (r0 ∈ [])) as [H%elem_of_nil|]. }
  change (sig_list (r :: reps) cb cg)
    with ((tag_b, r, cb r) :: (tag_g, r, cg r) :: sig_list reps cb cg).
  simpl. rewrite IH.
  destruct t; repeat (case_decide; simplify_eq/=); try done; set_solver.
Qed.

Lemma dict_set_sig_list_b reps cb cg r0 v :
  NoDup reps → r0 ∈ reps →
  dict_set (tag_b, r0) v (sig_list reps cb cg)
  = sig_list reps (λ r, if decide (r = r0) then v else cb r) cg.
Proof.
  induction reps as [|r reps IH]; intros Hnd Hin; [by apply elem_of_nil in Hin|].
  apply NoDup_cons in Hnd as [Hr Hnd].
  change (sig_list (r :: reps) cb cg)
    with ((tag_b, r, cb r) :: (tag_g, r, cg r) :: sig_list reps cb cg).
  change (sig_list (r :: reps) ?f cg)
    with ((tag_b, r, f r) :: (tag_g, r, cg r) :: sig_list reps f cg).
  simpl. repeat (case_decide; simplify_eq/=).
  - do 2 f_equal. apply sig_list_ext. intros r' Hr'.
    rewrite decide_False; [done|]. by intros ->.
  - do 2 f_equal. apply IH; [done|]. set_solver.
Qed.

Lemma dict_set_sig_list_g reps cb cg r0 v :
  NoDup reps → r0 ∈ reps →
  dict_set (tag_g, r0) v (sig_list reps cb cg)
  = sig_list reps cb (λ r, if decide (r = r0) then v else cg r).
Proof.
  induction reps as [|r reps IH]; intros Hnd Hin; [by apply elem_of_nil in Hin|].
  apply NoDup_cons in Hnd as [Hr Hnd].
  change (sig_list (r :: reps) cb cg)
    with ((tag_b, r, cb r) :: (tag_g, r, cg r) :: sig_list reps cb cg).
  change (sig_list (r :: reps) cb ?f)
    with ((tag_b, r, cb r) :: (tag_g, r, f r) :: sig_list reps cb f).
  simpl. repeat (case_decide; simplify_eq/=).
  - do 2 f_equal. apply sig_list_ext. intros r' Hr'.
    rewrite decide_False; [done|]. by intros ->.
  - do 2 f_equal. apply IH; [done|]. set_solver.
Qed.

Lemma dict_set_fresh {K V} `{EqDecision K} (k : K) (v : V) (d : list (K * V)) :
  k ∉ d.*1 → dict_set k v d = d ++ [(k, v)].
Proof.
  induction d as [|kv d IH]; intros Hk; [done|].
  simpl. rewrite decide_False by set_solver. f_equal. apply IH. set_solver.
Qed.

Lemma sig_list_keys reps cb cg t r :
  (t, r) ∈ (sig_list reps cb cg).*1 → r ∈ reps.
Proof.
  unfold sig_list. rewrite list_elem_of_fmap. intros (x & Hx & Hin).
  apply list_elem_of_bind in Hin as (r' & Hin & Hr').
  rewrite !elem_of_cons, elem_of_nil in Hin.
  destruct Hin as [->|[->|[]]]; simpl in Hx; by simplify_eq.
Qed.

(** The dictionary after the initialisation loop. *)
Lemma count_init_sig_list (reps : list (nat * nat * nat)) :
  NoDup reps →
  foldl (λ count auxidx,
           dict_set (tag_g, auxidx) 0 (dict_set (tag_b, auxidx) 0 count))
        [] reps
  = sig_list reps (λ _, 0) (λ _, 0).
Proof.
  intros Hnd.
  assert (∀ post pre, NoDup (pre ++ post) →
    foldl (λ count auxidx,
             dict_set (tag_g, auxidx) 0 (dict_set (tag_b, auxidx) 0 count))
          (sig_list pre (λ _, 0) (λ _, 0)) post
    = sig_list (pre ++ post) (λ _, 0) (λ _, 0)) as Hgen.
  { induction post as [|r post IH]; intros pre Hnd'.
    - by rewrite app_nil_r.
    - simpl. apply NoDup_app in Hnd' as (Hpre & Hdisj & Hpost).
      assert (r ∉ pre) as Hr by (intros Hin; apply (Hdisj r Hin); set_solver).
      rewrite (dict_set_fresh (tag_b, r)).
      2:{ intros Hin. by apply sig_list_keys in Hin. }
      rewrite (dict_set_fresh (tag_g, r)).
      2:{ rewrite fmap_app. simpl. rewrite elem_of_app, list_elem_of_singleton.
          intros [Hin|[=]]. by apply sig_list_keys in Hin. }
      rewrite <- app_assoc. simpl.
      replace (sig_list pre (λ _, 0) (λ _, 0) ++ [(tag_b, r, 0); (tag_g, r, 0)])
        with (sig_list (pre ++ [r]) (λ _, 0) (λ _, 0))
        by (by rewrite sig_list_app).
      rewrite IH; [by rewrite <- app_assoc|].
      rewrite <- app_assoc. simpl. apply NoDup_app. done. }
  apply (Hgen reps []). done.
Qed.

Lemma dict_incr_sig_list_b reps cb cg r0 :
  NoDup reps →
  dict_incr (tag_b, r0) (sig_list reps cb cg)
  = if decide (r0 ∈ reps)
    then Ok (sig_list reps (λ r, if decide (r = r0) then cb r0 + 1 else cb r) cg)
    else Raise KeyError.
Proof.
  intros Hnd. unfold dict_incr. rewrite dict_get_sig_list.
  destruct (decide (r0 ∈ reps)) as [Hin|Hnin]; [|done].
  simpl. by rewrite dict_set_sig_list_b.
Qed.

Lemma dict_incr_sig_list_g reps cb cg r0 :
  NoDup reps →
  dict_incr (tag_g, r0) (sig_list reps cb cg)
  = if decide (r0 ∈ reps)
    then Ok (sig_list reps cb (λ r, if decide (r = r0) then cg r0 + 1 else cg r))
    else Raise KeyError.
Proof.
  intros Hnd. unfold dict_incr. rewrite dict_get_sig_list.
  destruct (decide (r0 ∈ reps)) as [Hin|Hnin]; [|done].
  simpl. by rewrite dict_set_sig_list_g.
Qed.

(** What one host contributes: both entries of its class move together. *)
Lemma count_step_sig_list reps cb cg r0 :
  NoDup reps →
  (dict_incr (tag_b, r0) (sig_list reps cb cg)
     ≫= λ count, dict_incr (tag_g, r0) count)
  = if decide (r0 ∈ reps)
    then Ok (sig_list reps
               (λ r, if decide (r = r0) then cb r0 + 1 else cb r)
               (λ r, if decide (r = r0) then cg r0 + 1 else cg r))
    else Raise KeyError.
Proof.
  intros Hnd. rewrite dict_incr_sig_list_b by done.
  destruct (decide (r0 ∈ reps)) as [Hin|Hnin]; [|done].
  simpl. rewrite dict_incr_sig_list_g by done. by rewrite decide_True.
Qed.

(** The shape of [count] whenever [encodeLinkConstraint] completes: per
    representative, the ['b'] and ['g'] entries both hold the number of
    hosts whose class on the link is that representative. *)
Lemma encodeLinkConstraint_count_shape (self : Topology) (fs : Files)
    (link : nat * nat) (count : list (bg * (nat * nat * nat) * nat)) :
  encodeLinkConstraint_count self fs link = Ok count →
  count = sig_list (elements (RepAuxiliarys self))
            (class_count self fs link) (class_count self fs link)
  ∧ ∀ u, u ∈ HostNodes self →
      ∃ r, r ∈ RepAuxiliarys self ∧ aux_class fs u link = Some r.
Proof.
  unfold encodeLinkConstraint_count. intros Hrun.
  set (reps := elements (RepAuxiliarys self)) in *.
  assert (NoDup reps) as Hnd by apply NoDup_elements.
  rewrite (count_init_sig_list reps Hnd) in Hrun.
  pose (cnt := λ (pre : list nat) (r : nat * nat * nat),
          length (filter (λ u, aux_class fs u link = Some r) pre)).
  apply (for_each_partial _
    (λ pre count,
       count = sig_list reps (cnt pre) (cnt pre)
       ∧ ∀ u, u ∈ pre → ∃ r, r ∈ reps ∧ aux_class fs u link = Some r))
    in Hrun.
  - destruct Hrun as [-> Hcls]. split; [done|].
    intros u Hu. destruct (Hcls u) as (r & Hr & Hc); [by apply elem_of_elements|].
    exists r. split; [by apply elem_of_elements|done].
  - split; [done|]. intros u Hu. by apply elem_of_nil in Hu.
  - intros pre u post c c1 Hsplit [-> Hcls] Hstep.
    unfold loadAuxToRep in Hstep.
    destruct (AuxToRep fs !! u) as [auxtorep|] eqn:Hload; [|done].
    simpl in Hstep.
    destruct (auxtorep !! link) as [auxidx|] eqn:Hidx; [|done].
    simpl in Hstep.
    assert (aux_class fs u link = Some auxidx) as Hclass.
    { unfold aux_class. rewrite Hload. done. }
    pose proof (count_step_sig_list reps (cnt pre) (cnt pre) auxidx Hnd) as Hs.
    rewrite Hs in Hstep. clear Hs.
    destruct (decide (auxidx ∈ reps)) as [Hin|]; [|done].
    simplify_eq. split.
    + apply sig_list_ext. intros r _. unfold cnt. rewrite filter_app.
      rewrite length_app. simpl.
      destruct (decide (r = auxidx)) as [->|Hne].
      * rewrite filter_cons_True by done. simpl. done.
      * rewrite filter_cons_False by congruence. simpl. split; lia.
    + intros u' Hu'. apply elem_of_app in Hu' as [Hu'|Hu']; [by apply Hcls|].
      apply list_elem_of_singleton in Hu' as ->. by exists auxidx.
Qed.

(** [encodeLinkConstraint] completes when every host has a stored class
    among the representatives. *)
Lemma encodeLinkConstraint_count_total (self : Topology) (fs : Files)
    (link : nat * nat) :
  (∀ u, u ∈ HostNodes self →
     ∃ r, r ∈ RepAuxiliarys self ∧ aux_class fs u link = Some r) →
  ∃ count, encodeLinkConstraint_count self fs link = Ok count.
Proof.
  intros Hcls. unfold encodeLinkConstraint_count.
  set (reps := elements (RepAuxiliarys self)) in *.
  assert (NoDup reps) as Hnd by apply NoDup_elements.
  rewrite (count_init_sig_list reps Hnd).
  destruct (for_each_total
    (λ (count : list (bg * (nat * nat * nat) * nat)) (u : nat),
       auxtorep ← loadAuxToRep fs u;
       auxidx ← orRaise KeyError (auxtorep !! link);
       count ← dict_incr (tag_b, auxidx) count;
       dict_incr (tag_g, auxidx) count)
    (λ pre count, ∃ c, count = sig_list reps c c)
    (elements (HostNodes self))
    (sig_list reps (λ _, 0) (λ _, 0))) as (count & Hrun & _).
  - by eexists.
  - intros pre u post count Hsplit [c ->].
    destruct (Hcls u) as (r & Hr & Hclass).
    { apply elem_of_elements. rewrite Hsplit. set_solver. }
    unfold aux_class in Hclass. unfold loadAuxToRep.
    destruct (AuxToRep fs !! u) as [auxtorep|]; [|done]. simpl in *.
    rewrite Hclass. simpl.
    pose proof (count_step_sig_list reps c c r Hnd) as Hs.
    rewrite decide_True in Hs by (by apply elem_of_elements).
    eexists. split; [exact Hs|]. by eexists.
  - by exists count.
Qed.

(** ** The auxiliary lookups of the constraint builders *)

Lemma addConstr_fields (c : Constr) (self : Optimization) :
  Topo (addConstr c self) = Topo self
  ∧ F (addConstr c self) = F self
  ∧ B (addConstr c self) = B self
  ∧ G (addConstr c self) = G self.
Proof. done. Qed.

Lemma aux_lookup_ok (fs : Files) (u : nat) (link : nat * nat)
    (r : nat * nat * nat) :
  aux_class fs u link = Some r →
  (loadAuxToRep fs u ≫= λ auxtorep, orRaise KeyError (auxtorep !! link)) = Ok r.
Proof.
  unfold aux_class, loadAuxToRep. intros Hc.
  destruct (AuxToRep fs !! u) as [m|]; [|done]. simpl in *. by rewrite Hc.
Qed.

Lemma setAuxThroughputConstraint_total (fs : Files) (self : Optimization) :
  (∀ u ij, u ∈ HostNodes (Topo self) → ij ∈ RepLinkConstrs (Topo self) →
     ∃ r, aux_class fs u ij = Some r
          ∧ is_Some (B self !! r) ∧ is_Some (G self !! r)) →
  ∃ self', setAuxThroughputConstraint fs self = Ok self'.
Proof.
  intros Hlook. unfold setAuxThroughputConstraint.
  destruct (for_each_total
    (λ (self : Optimization) (ij : nat * nat),
       lhs ← for_each
               (λ (lhs : list (Qc * Var)) (u : nat),
                  linkauxtorep ← loadAuxToRep fs u;
                  auxidx ← orRaise KeyError (linkauxtorep !! ij);
                  vb ← orRaise KeyError (B self !! auxidx);
                  vg ← orRaise KeyError (G self !! auxidx);
                  let w := Qc_of_Z (Z.of_nat (numServer (UG (Topo self)) u)) in
                  Ok (lhs ++ [(w, vb); (w, vg)]))
               (elements (HostNodes (Topo self))) [];
       Ok (addConstr {| cname := auxtc ij.1 ij.2;
                        lhs := {| terms := lhs; constant := 0%Qc |};
                        sense := LESS_EQUAL;
                        rhs := {| terms := [(1%Qc, Var_r)]; constant := 0%Qc |} |}
                     self))
    (λ _ self', Topo self' = Topo self ∧ B self' = B self ∧ G self' = G self)
    (elements (RepLinkConstrs (Topo self))) self) as (self' & Hrun & _).
  - done.
  - intros pre ij post s Hsplit (HT & HB & HG).
    assert (ij ∈ RepLinkConstrs (Topo self)) as Hij.
    { apply elem_of_elements. rewrite Hsplit. set_solver. }
    destruct (for_each_total
      (λ (lhs : list (Qc * Var)) (u : nat),
         linkauxtorep ← loadAuxToRep fs u;
         auxidx ← orRaise KeyError (linkauxtorep !! ij);
         vb ← orRaise KeyError (B s !! auxidx);
         vg ← orRaise KeyError (G s !! auxidx);
         let w := Qc_of_Z (Z.of_nat (numServer (UG (Topo s)) u)) in
         Ok (lhs ++ [(w, vb); (w, vg)]))
      (λ _ _, True)
      (elements (HostNodes (Topo s))) []) as (lhs & Hlhs & _).
    + done.
    + intros pre' u post' acc Hsplit' _.
      assert (u ∈ HostNodes (Topo self)) as Hu.
      { rewrite <- HT. apply elem_of_elements. rewrite Hsplit'. set_solver. }
      destruct (Hlook u ij Hu Hij) as (r & Hc & [vb Hvb] & [vg Hvg]).
      unfold aux_class, loadAuxToRep in *.
      destruct (AuxToRep fs !! u) as [m|]; [|done]. simpl in *.
      rewrite Hc. simpl. rewrite HB, HG, Hvb, Hvg. simpl. by eexists.
    + rewrite Hlhs. simpl. eexists. split; [done|]. done.
  - by exists self'.
Qed.

Lemma setAuxFlowConstraint_total (fs : Files) (self : Optimization) :
  (∀ repsd, repsd ∈ RepCommodities (Topo self) →
     ∃ links Frep,
       RepCommFlowLinks (Topo self) !! repsd = Some links
       ∧ F self !! repsd = Some Frep
       ∧ ∀ l, l ∈ links →
           is_Some (Frep !! l)
           ∧ (∃ cap, get_edge_data (UG (Topo self)) l.1 l.2 = Some cap
                     ∧ cap ≠ 0%Qc)
           ∧ (∃ r, aux_class fs repsd.1 l = Some r ∧ is_Some (B self !! r))
           ∧ (∃ r, aux_class fs repsd.2 l = Some r ∧ is_Some (G self !! r))) →
  ∃ self', setAuxFlowConstraint fs self = Ok self'.
Proof.
  intros Hlook. unfold setAuxFlowConstraint.
  destruct (for_each_total
    (λ (self : Optimization) (repsd : nat * nat),
       links ← orRaise KeyError (RepCommFlowLinks (Topo self) !! repsd);
       for_each
         (λ (self : Optimization) (repflowlink : nat * nat),
            linkcap ← orRaise TypeError
              (get_edge_data (UG (Topo self)) repflowlink.1 repflowlink.2);
            srclinkauxtorep ← loadAuxToRep fs repsd.1;
            bauxidx ← orRaise KeyError (srclinkauxtorep !! repflowlink);
            dstlinkauxtorep ← loadAuxToRep fs repsd.2;
            gauxidx ← orRaise KeyError (dstlinkauxtorep !! repflowlink);
            Frep ← orRaise KeyError (F self !! repsd);
            vf ← orRaise KeyError (Frep !! repflowlink);
            if decide (linkcap = 0%Qc) then Raise ZeroDivisionError
            else
              vb ← orRaise KeyError (B self !! bauxidx);
              vg ← orRaise KeyError (G self !! gauxidx);
              Ok (addConstr
                    {| cname := auxfc repsd.1 repsd.2 repflowlink.1 repflowlink.2;
                       lhs := {| terms := [((1 / linkcap)%Qc, vf);
                                           ((-1)%Qc, vb); ((-1)%Qc, vg)];
                                 constant := 0%Qc |};
                       sense := LESS_EQUAL;
                       rhs := {| terms := []; constant := 0%Qc |} |}
                    self))
         (elements links) self)
    (λ _ self', Topo self' = Topo self ∧ F self' = F self
                ∧ B self' = B self ∧ G self' = G self)
    (elements (RepCommodities (Topo self))) self) as (self' & Hrun & _).
  - done.
  - intros pre repsd post s Hsplit (HT & HF & HB & HG).
    assert (repsd ∈ RepCommodities (Topo self)) as Hsd.
    { apply elem_of_elements. rewrite Hsplit. set_solver. }
    destruct (Hlook repsd Hsd) as (links & Frep & Hlinks & HFrep & Hall).
    rewrite HT, Hlinks. simpl.
    apply (for_each_total _
      (λ _ self', Topo self' = Topo self ∧ F self' = F self
                  ∧ B self' = B self ∧ G self' = G self)).
    + done.
    + intros pre' l post' s' Hsplit' (HT' & HF' & HB' & HG').
      assert (l ∈ links) as Hl.
      { apply elem_of_elements. rewrite Hsplit'. set_solver. }
      destruct (Hall l Hl)
        as ([vf Hvf] & (cap & Hcap & Hcap0) & (rb & Hcb & [vb Hvb])
            & (rg & Hcg & [vg Hvg])).
      rewrite HT', Hcap. simpl.
      unfold aux_class, loadAuxToRep in *.
      destruct (AuxToRep fs !! repsd.1) as [m1|]; [|done]. simpl in *.
      rewrite Hcb. simpl.
      destruct (AuxToRep fs !! repsd.2) as [m2|]; [|done]. simpl in *.
      rewrite Hcg. simpl. rewrite HF', HFrep. simpl. rewrite Hvf. simpl.
      rewrite decide_False by done. rewrite HB', HG', Hvb, Hvg. simpl.
      eexists. split; [done|]. done.
  - by exists self'.
Qed.

(** What [createVariables] leaves in the dictionaries when it completes. *)
Lemma createVariables_spec (topo : Topology) (opt : Optimization) :
  createVariables topo = Ok opt →
  Topo opt = topo
  ∧ (∀ r, r ∈ RepAuxiliarys topo → B opt !! r = Some (Var_b r))
  ∧ (∀ r, r ∈ RepAuxiliarys topo → G opt !! r = Some (Var_g r))
  ∧ ∀ repsd, repsd ∈ RepCommodities topo →
      ∃ links Frep,
        RepCommFlowLinks topo !! repsd = Some links
        ∧ F opt !! repsd = Some Frep
        ∧ ∀ l, l ∈ links →
            Frep !! l = Some (Var_f repsd l)
            ∧ is_Some (get_edge_data (UG topo) l.1 l.2).
Proof.
  unfold createVariables. intros Hrun.
  apply bind_Ok in Hrun as (Fd & HF & Hrun). simplify_eq. simpl.
  split; [done|]. split; [|split].
  - intros r Hr. apply lookup_set_to_map; [by intros ?? _ _ [=]|]. eauto.
  - intros r Hr. apply lookup_set_to_map; [by intros ?? _ _ [=]|]. eauto.
  - intros repsd0 Hr0. apply elem_of_elements in Hr0. revert repsd0 Hr0.
    apply (for_each_partial _
      (λ pre (Fd : gmap (nat * nat) (gmap (nat * nat) Var)),
         ∀ repsd, repsd ∈ pre →
           ∃ links Frep,
             RepCommFlowLinks topo !! repsd = Some links
             ∧ Fd !! repsd = Some Frep
             ∧ ∀ l, l ∈ links →
                 Frep !! l = Some (Var_f repsd l)
                 ∧ is_Some (get_edge_data (UG topo) l.1 l.2)) _ _ _ HF).
    + intros repsd Hr. by apply elem_of_nil in Hr.
    + intros pre repsd post Fd0 Fd1 Hsplit Hinv Hstep.
      apply bind_Ok in Hstep as (links & Hlinks & Hstep).
      apply bind_Ok in Hstep as (row & Hrow & Hstep). simplify_eq.
      destruct (RepCommFlowLinks topo !! repsd) as [links'|] eqn:Hl; [|done].
      simpl in Hlinks. simplify_eq.
      assert (∀ l, l ∈ elements links →
                row !! l = Some (Var_f repsd l)
                ∧ is_Some (get_edge_data (UG topo) l.1 l.2)) as Hrow'.
      { apply (for_each_partial _
          (λ pre (row : gmap (nat * nat) Var),
             ∀ l, l ∈ pre →
               row !! l = Some (Var_f repsd l)
               ∧ is_Some (get_edge_data (UG topo) l.1 l.2)) _ _ _ Hrow).
        - intros l Hl'. by apply elem_of_nil in Hl'.
        - intros pre' l post' row0 row1 Hsplit' Hinv' Hstep'.
          apply bind_Ok in Hstep' as (cap & Hcap & Hstep'). simplify_eq.
          destruct (get_edge_data (UG topo) l.1 l.2) as [cap'|] eqn:Hc; [|done].
          intros l' Hl'. apply elem_of_app in Hl' as [Hl'|Hl'].
          + destruct (decide (l' = l)) as [->|Hne].
            * rewrite lookup_insert_eq, Hc. eauto.
            * rewrite lookup_insert_ne by done. by apply Hinv'.
          + apply list_elem_of_singleton in Hl' as ->.
            rewrite lookup_insert_eq, Hc. eauto. }
      intros repsd' Hr'. apply elem_of_app in Hr' as [Hr'|Hr'].
      * destruct (decide (repsd' = repsd)) as [->|Hne].
        -- exists links, row. rewrite lookup_insert_eq. repeat split; try done;
             apply Hrow'; by apply elem_of_elements.
        -- rewrite lookup_insert_ne by done. by apply Hinv.
      * apply list_elem_of_singleton in Hr' as ->.
        exists links, row. rewrite lookup_insert_eq. repeat split; try done;
          apply Hrow'; by apply elem_of_elements.
Qed.

(** C9: after the auxiliary step, every host's auxiliary-to-representative
    map has an entry for every directed link, the entry is a
    representative auxiliary index, and the lookups of that map in
    [encodeLinkConstraint], [setAuxThroughputConstraint] and
    [setAuxFlowConstraint] succeed. *)
Theorem auxtorep_total (n : nat) (pick : nat → list (nat * nat * nat) → nat)
    (fuel : nat) (self : Topology) (fs : Files) :
  Forall (perm_gen n) (Autgen self) →
  HostNodes self ⊆ U1 n →
  DLinks self ⊆ U2 n →
  stage_findRepresentativeAuxs fs = None →
  size (U3 n) ≤ fuel →
  ∃ self' fs',
    aux_stage pick fuel self fs = Ok (self', fs')
    ∧ HostNodes self' = HostNodes self
    ∧ DLinks self' = DLinks self
    ∧ (∀ u i j, u ∈ HostNodes self → (i, j) ∈ DLinks self →
         ∃ auxtorep r,
           loadAuxToRep fs' u = Ok auxtorep
           ∧ auxtorep !! (i, j) = Some r
           ∧ r ∈ RepAuxiliarys self')
    ∧ (∀ link, link ∈ DLinks self →
         ∃ e, encodeLinkConstraint self' fs' link = Ok (link, e))
    ∧ (∀ replinks opt,
         replinks ⊆ DLinks self →
         createVariables (set_RepLinkConstrs self' replinks) = Ok opt →
         ∃ opt', setAuxThroughputConstraint fs' opt = Ok opt')
    ∧ (∀ replinks opt,
         createVariables (set_RepLinkConstrs self' replinks) = Ok opt →
         (∀ repsd, repsd ∈ RepCommodities self →
            repsd.1 ∈ HostNodes self ∧ repsd.2 ∈ HostNodes self) →
         (∀ repsd links, RepCommFlowLinks self !! repsd = Some links →
            links ⊆ DLinks self) →
         (∀ l, l ∈ DLinks self →
            get_edge_data (UG self) l.1 l.2 ≠ Some 0%Qc) →
         ∃ opt', setAuxFlowConstraint fs' opt = Ok opt').
Proof.
  intros Hgens Hhosts Hlinks Hstage Hfuel.
  destruct (aux_stage_spec n pick fuel self fs)
    as (reps & fs' & Hrun & Hcls & Hclass); [done..|].
  exists (set_RepAuxiliarys self reps), fs'.
  assert (∀ u l, u ∈ HostNodes self → l ∈ DLinks self →
            ∃ r, r ∈ reps ∧ aux_class fs' u l = Some r) as Hdef.
  { intros u l Hu Hl.
    destruct (ac_cover _ _ _ _ Hcls u l Hu Hl) as (r & G & Hr & HG & Hin).
    exists r. split; [done|]. apply Hclass; [done|]. split; [done|]. eauto. }
  split; [done|]. split; [done|]. split; [done|]. split; [|split; [|split]].
  - intros u i j Hu Hl. destruct (Hdef u (i, j) Hu Hl) as (r & Hr & Hc).
    unfold aux_class in Hc. unfold loadAuxToRep.
    destruct (AuxToRep fs' !! u) as [m|]; [|done]. simpl in *.
    by exists m, r.
  - intros link Hl.
    destruct (encodeLinkConstraint_count_total (set_RepAuxiliarys self reps)
                fs' link) as (count & Hcount).
    { intros u Hu. by apply Hdef. }
    exists (dict_values count). unfold encodeLinkConstraint.
    by rewrite Hcount.
  - intros replinks opt Hsub Hopt.
    apply createVariables_spec in Hopt as (HT & HB & HG & _).
    apply setAuxThroughputConstraint_total. rewrite HT. simpl.
    intros u ij Hu Hij. destruct (Hdef u ij Hu (Hsub ij Hij)) as (r & Hr & Hc).
    exists r. split; [done|]. split; [rewrite HB|rewrite HG]; done.
  - intros replinks opt Hopt Hsd Hfl Hcap.
    apply createVariables_spec in Hopt as (HT & HB & HG & HF).
    apply setAuxFlowConstraint_total. rewrite HT. simpl.
    intros repsd Hrep. destruct (HF repsd Hrep) as (links & Frep & Hl & HFr & Hall).
    simpl in Hl. exists links, Frep. split; [done|]. split; [done|].
    intros l Hlin. destruct (Hall l Hlin) as [HFl [cap Hc]].
    destruct (Hsd repsd Hrep) as [Hs Hd].
    pose proof (Hfl repsd links Hl l Hlin) as HlD.
    split; [by rewrite HFl|]. split; [|split].
    + simpl in Hc. exists cap. split; [done|]. intros ->.
      by apply (Hcap l HlD).
    + destruct (Hdef repsd.1 l Hs HlD) as (r & Hr & Hcl).
      exists r. split; [done|]. by rewrite HB.
    + destruct (Hdef repsd.2 l Hd HlD) as (r & Hr & Hcl).
      exists r. split; [done|]. by rewrite HG.
Qed.

(** The values of a [count] dictionary in the layout of [sig_list]. *)
Lemma dict_values_sig_list reps c1 c2 :
  dict_values (sig_list reps c1 c1) = dict_values (sig_list reps c2 c2)
  ↔ ∀ r, r ∈ reps → c1 r = c2 r.
Proof.
  unfold dict_values, sig_list. induction reps as [|r reps IH].
  - split; [|done]. intros _ r Hr. by apply elem_of_nil in Hr.
  - simpl. split.
    + intros [= H1 H2]. intros r' Hr'.
      apply elem_of_cons in Hr' as [->|Hr']; [done|]. by apply IH.
    + intros Hall. rewrite (Hall r) by set_solver. do 2 f_equal.
      apply IH. intros r' Hr'. apply Hall. set_solver.
Qed.

(** C10: in the count-signature of a link, the ['b'] entry and the ['g']
    entry of every representative auxiliary index hold the same count (the
    number of hosts whose index on the link lies in that class), so two
    links have equal signatures exactly when these per-class host counts
    agree. *)
Theorem signature_halves_equal (self : Topology) (fs : Files)
    (link1 link2 : nat * nat)
    (count1 count2 : list (bg * (nat * nat * nat) * nat)) :
  encodeLinkConstraint_count self fs link1 = Ok count1 →
  encodeLinkConstraint_count self fs link2 = Ok count2 →
  (∀ auxidx, auxidx ∈ RepAuxiliarys self →
     dict_get (tag_b, auxidx) count1 = Some (class_count self fs link1 auxidx)
     ∧ dict_get (tag_g, auxidx) count1 = Some (class_count self fs link1 auxidx))
  ∧ encodeLinkConstraint self fs link1 = Ok (link1, dict_values count1)
  ∧ encodeLinkConstraint self fs link2 = Ok (link2, dict_values count2)
  ∧ (dict_values count1 = dict_values count2
     ↔ ∀ auxidx, auxidx ∈ RepAuxiliarys self →
         class_count self fs link1 auxidx = class_count self fs link2 auxidx).
Proof.
  intros H1 H2.
  destruct (encodeLinkConstraint_count_shape self fs link1 count1 H1) as [-> _].
  destruct (encodeLinkConstraint_count_shape self fs link2 count2 H2) as [-> _].
  split; [|split; [|split]].
  - intros auxidx Hin. rewrite !dict_get_sig_list.
    rewrite !decide_True by (by apply elem_of_elements). done.
  - unfold encodeLinkConstraint. by rewrite H1.
  - unfold encodeLinkConstraint. by rewrite H2.
  - rewrite dict_values_sig_list. split; intros H r Hr; apply H;
      by apply elem_of_elements.
Qed.

(** ** Signatures are constant on orbits *)

Section orbit_signature.
Context (n : nat) (self : Topology) (fs' : Files) (reps : gset (nat * nat * nat)).
Let self' := set_RepAuxiliarys self reps.
Hypothesis Hgens : Forall (perm_gen n) (Autgen self).
Hypothesis Hhosts : HostNodes self ⊆ U1 n.
Hypothesis Hpres : ∀ g u, g ∈ Autgen self → u ∈ HostNodes self →
  act g u ∈ HostNodes self.
Hypothesis Hcls : AuxClasses n (Autgen self) self' (AuxiliaryGroup fs').
Hypothesis Hclass : ∀ u l r, u ∈ HostNodes self →
  (aux_class fs' u l = Some r ↔
     r ∈ reps ∧ ∃ G, AuxiliaryGroup fs' !! r = Some G ∧ (u, l.1, l.2) ∈ G).

Lemma class_count_generator (g : list nat) (p : nat * nat) (r : nat * nat * nat) :
  g ∈ Autgen self → p ∈ U2 n →
  class_count self' fs' p r = class_count self' fs' (act2 g p) r.
Proof.
  intros Hg Hp. unfold class_count. simpl.
  assert (perm_gen n g) as Hperm.
  { rewrite Forall_forall in Hgens. by apply Hgens. }
  rewrite (count_along_permutation (act g) (U1 n) (HostNodes self)
             (λ v, aux_class fs' v (act2 g p) = Some r)).
  - apply filter_ext_length. intros u Hu. apply elem_of_elements in Hu.
    rewrite (Hclass u p r Hu), (Hclass (act g u) (act2 g p) r (Hpres g u Hg Hu)).
    split; intros (Hr & G & HG & Hin); (split; [done|]); exists G;
      (split; [done|]).
    + apply (ac_closed _ _ _ _ Hcls r G g (u, p.1, p.2) Hr HG Hg) in Hin; [done|].
      apply elem_of_U3. simpl. apply elem_of_U2 in Hp.
      apply Hhosts, elem_of_U1 in Hu. lia.
    + apply (ac_closed _ _ _ _ Hcls r G g (u, p.1, p.2) Hr HG Hg); [|done].
      apply elem_of_U3. simpl. apply elem_of_U2 in Hp.
      apply Hhosts, elem_of_U1 in Hu. lia.
  - intros x y Hx Hy. apply elem_of_U1 in Hx, Hy. by apply (act_inj n g).
  - done.
  - intros u Hu. by apply Hpres.
Qed.

Lemma class_count_orbit (l1 l2 : nat * nat) (r : nat * nat * nat) :
  same_orbit n (Autgen self) l1 l2 →
  class_count self' fs' l1 r = class_count self' fs' l2 r.
Proof.
  unfold same_orbit. intros Horb. induction Horb as [l|l1 l2 l3 Hstep _ IH].
  - done.
  - rewrite <- IH. destruct Hstep as [(Hin & g & Hg & ->)|(Hin & g & Hg & ->)].
    + by apply class_count_generator.
    + symmetry. by apply class_count_generator.
Qed.

End orbit_signature.

(** C5: two directed links in the same orbit of the group spanned by the
    automorphism generators receive the same count-signature from
    [encodeLinkConstraint]. *)
Theorem same_orbit_same_signature (n : nat)
    (pick : nat → list (nat * nat * nat) → nat) (fuel : nat)
    (self : Topology) (fs : Files) :
  Forall (perm_gen n) (Autgen self) →
  HostNodes self ⊆ U1 n →
  DLinks self ⊆ U2 n →
  (∀ g u, g ∈ Autgen self → u ∈ HostNodes self → act g u ∈ HostNodes self) →
  stage_findRepresentativeAuxs fs = None →
  size (U3 n) ≤ fuel →
  ∃ self' fs',
    aux_stage pick fuel self fs = Ok (self', fs')
    ∧ ∀ link1 link2,
        link1 ∈ DLinks self' → link2 ∈ DLinks self' →
        same_orbit n (Autgen self') link1 link2 →
        ∃ encode,
          encodeLinkConstraint self' fs' link1 = Ok (link1, encode)
          ∧ encodeLinkConstraint self' fs' link2 = Ok (link2, encode).
Proof.
  intros Hgens Hhosts Hlinks Hpres Hstage Hfuel.
  destruct (aux_stage_spec n pick fuel self fs)
    as (reps & fs' & Hrun & Hcls & Hclass); [done..|].
  exists (set_RepAuxiliarys self reps), fs'. split; [done|].
  intros link1 link2 Hl1 Hl2 Horb. simpl in Hl1, Hl2, Horb.
  assert (∀ l, l ∈ DLinks self →
            ∃ count, encodeLinkConstraint_count (set_RepAuxiliarys self reps)
                       fs' l = Ok count) as Htot.
  { intros l Hl. apply encodeLinkConstraint_count_total. simpl. intros u Hu.
    destruct (ac_cover _ _ _ _ Hcls u l Hu Hl) as (r & G & Hr & HG & Hin).
    exists r. split; [done|]. apply Hclass; [done|]. split; [done|]. eauto. }
  destruct (Htot link1 Hl1) as (count1 & H1).
  destruct (Htot link2 Hl2) as (count2 & H2).
  exists (dict_values count1). unfold encodeLinkConstraint.
  rewrite H1, H2. simpl. split; [done|]. do 2 f_equal.
  destruct (encodeLinkConstraint_count_shape _ _ _ _ H1) as [-> _].
  destruct (encodeLinkConstraint_count_shape _ _ _ _ H2) as [-> _].
  symmetry. apply dict_values_sig_list. intros auxidx _.
  by apply (class_count_orbit n self fs' reps).
Qed.

(** ** Stored commodity maps *)

Lemma applyGenerator_fmap (n : nat) (g f : list nat) :
  wf_gen n g → Forall (λ x, x < n) f →
  applyGenerator f g = Ok (act g <$> f).
Proof.
  intros Hg. induction f as [|x f IH]; intros Hf; [done|].
  apply Forall_cons in Hf as [Hx Hf]. simpl.
  rewrite (act_lookup n g x Hg Hx). simpl. rewrite (IH Hf). done.
Qed.

Lemma perm_gen_id (n : nat) : perm_gen n (seq 0 n).
Proof.
  split; [split|].
  - apply length_seq.
  - apply Forall_forall. intros x Hx. apply elem_of_seq in Hx. lia.
  - apply NoDup_seq.
Qed.

Lemma act_id (n i : nat) : i < n → act (seq 0 n) i = i.
Proof.
  intros Hi. unfold act. apply list_lookup_total_correct.
  by rewrite lookup_seq_lt.
Qed.

Lemma act_compose (n : nat) (g f : list nat) (i : nat) :
  wf_gen n f → i < n → act (act g <$> f) i = act g (act f i).
Proof.
  intros Hf Hi. unfold act at 1. apply list_lookup_total_correct.
  rewrite list_lookup_fmap, (act_lookup n f i Hf Hi). done.
Qed.

Lemma perm_gen_compose (n : nat) (g f : list nat) :
  perm_gen n g → perm_gen n f → perm_gen n (act g <$> f).
Proof.
  intros Hg [[Hlen Hall] Hnd]. split; [split|].
  - by rewrite length_fmap.
  - apply Forall_fmap. eapply Forall_impl; [exact Hall|].
    intros x Hx. simpl. apply (act_lt n g x); [apply Hg|done].
  - apply NoDup_fmap_2_strong; [|done]. intros x y Hx Hy.
    rewrite Forall_forall in Hall. apply (act_inj n g); auto.
Qed.

Lemma inverse_maps_id (n : nat) : inverse_maps n (seq 0 n) (Some <$> seq 0 n).
Proof.
  split; [by rewrite length_fmap, length_seq|].
  intros i Hi. rewrite act_id by done.
  rewrite list_lookup_fmap, lookup_seq_lt by done. done.
Qed.

(** The inversion loop of [saveCommodityAutomorphicMap] succeeds on a
    permutation and returns its inverse. *)
Lemma invert_map_spec (n : nat) (f : list nat) :
  perm_gen n f → ∃ rv, invert_map f = Ok rv ∧ inverse_maps n f rv.
Proof.
  intros Hf. pose proof Hf as [[Hlen Hall] Hnd]. unfold invert_map.
  destruct (for_each_total
    (λ (rmap : list (option nat)) (i : nat),
       x ← orRaise IndexError (f !! i);
       if decide (x < length rmap) then Ok (<[x := Some i]> rmap)
       else Raise IndexError)
    (λ pre rmap, length rmap = n
       ∧ ∀ i, i ∈ pre → rmap !! (act f i) = Some (Some i))
    (seq 0 (length f)) (replicate (length f) None)) as (rv & Hrun & Hl & Hinv).
  - split; [by rewrite length_replicate|]. intros i Hi. by apply elem_of_nil in Hi.
  - intros pre i post rmap Hsplit [Hl Hinv].
    assert (i < n) as Hi.
    { assert (i ∈ seq 0 (length f)) as Hin by (rewrite Hsplit; set_solver).
      apply elem_of_seq in Hin. lia. }
    rewrite (act_lookup n f i (proj1 Hf) Hi). simpl.
    pose proof (act_lt n f i (proj1 Hf) Hi) as Hlt.
    rewrite decide_True by lia. eexists. split; [done|].
    split; [by rewrite length_insert|].
    intros i' Hi'. apply elem_of_app in Hi' as [Hi'|Hi'].
    + assert (i' < n) as Hi'n.
      { assert (i' ∈ seq 0 (length f)) as Hin by (rewrite Hsplit; set_solver).
        apply elem_of_seq in Hin. lia. }
      assert (i' ≠ i) as Hne.
      { intros ->. pose proof (NoDup_seq 0 (length f)) as Hnds.
        rewrite Hsplit in Hnds. apply NoDup_app in Hnds as (_ & Hd & _).
        apply (Hd i Hi'). set_solver. }
      rewrite list_lookup_insert_ne; [by apply Hinv|].
      intros Heq. apply Hne. symmetry. by apply (act_inj n f).
    + apply list_elem_of_singleton in Hi' as ->.
      rewrite list_lookup_insert_eq by lia. done.
  - exists rv. split; [done|]. split; [done|].
    intros i Hi. apply Hinv. apply elem_of_seq. lia.
Qed.

(** The inverse really is one: it is defined everywhere and [f] undoes it. *)
Lemma inverse_maps_surj (n : nat) (f : list nat) (rv : list (option nat)) :
  perm_gen n f → inverse_maps n f rv →
  ∀ j, j < n → ∃ i, i < n ∧ rv !! j = Some (Some i) ∧ act f i = j.
Proof.
  intros Hf [Hlen Hinv] j Hj.
  assert (set_map (D:=gset nat) (act f) (U1 n) = U1 n) as Himg.
  { apply (closed_inj_image (act f) (U1 n) (U1 n)); [|done|].
    - intros x y Hx Hy. apply elem_of_U1 in Hx, Hy. by apply (act_inj n f).
    - intros x Hx. apply elem_of_U1 in Hx. apply elem_of_U1.
      apply (act_lt n f x); [apply Hf|done]. }
  assert (j ∈ set_map (D:=gset nat) (act f) (U1 n)) as Hin
    by (rewrite Himg; by apply elem_of_U1).
  apply elem_of_map in Hin as (i & -> & Hi). apply elem_of_U1 in Hi.
  exists i. split; [done|]. split; [by apply Hinv|done].
Qed.

(** Applying the stored reverse map to a member gives back the
    representative. *)
Lemma good_maps_reverse (n : nat) (r x : nat * nat)
    (fwd : gmap (nat * nat) (list nat))
    (rev : gmap (nat * nat) (list (option nat))) :
  r ∈ U2 n → good_maps n r x fwd rev →
  ∃ f rv, fwd !! x = Some f ∧ rev !! x = Some rv
    ∧ applyGenerator2 r f = Ok x
    ∧ applyGenerator2 x rv = Ok (Some r.1, Some r.2).
Proof.
  intros Hr (f & rv & Hf & Hrv & Hperm & Hact & [Hlen Hinv]).
  exists f, rv. split; [done|]. split; [done|].
  apply elem_of_U2 in Hr as [Hr1 Hr2]. split.
  - rewrite (applyGenerator2_act n f r); [by rewrite Hact|apply Hperm|].
    by apply elem_of_U2.
  - subst x. unfold applyGenerator2. simpl.
    rewrite (Hinv _ Hr1), (Hinv _ Hr2). done.
Qed.

Lemma saveCommodityAutomorphicMap_seed (n : nat) (r : nat * nat)
    (fwd : gmap (nat * nat) (list nat))
    (rev : gmap (nat * nat) (list (option nat))) :
  saveCommodityAutomorphicMap n r r None (fwd, rev)
  = Ok (<[r := seq 0 n]> fwd, <[r := Some <$> seq 0 n]> rev).
Proof. unfold saveCommodityAutomorphicMap. by rewrite decide_True. Qed.

Lemma good_maps_seed (n : nat) (r : nat * nat)
    (fwd : gmap (nat * nat) (list nat))
    (rev : gmap (nat * nat) (list (option nat))) :
  r ∈ U2 n →
  good_maps n r r (<[r := seq 0 n]> fwd) (<[r := Some <$> seq 0 n]> rev).
Proof.
  intros Hr. apply elem_of_U2 in Hr as [H1 H2].
  exists (seq 0 n), (Some <$> seq 0 n). rewrite !lookup_insert_eq.
  repeat split; try done; try apply perm_gen_id; try apply inverse_maps_id.
  unfold act2. rewrite !act_id by done. by destruct r.
Qed.

(** Saving the map of a newly reached commodity [act2 g x] from the good
    map of its parent [x]. *)
Lemma saveCommodityAutomorphicMap_child (n : nat) (g : list nat)
    (r x : nat * nat) (fwd : gmap (nat * nat) (list nat))
    (rev : gmap (nat * nat) (list (option nat))) :
  perm_gen n g → r ∈ U2 n → act2 g x ≠ x →
  good_maps n r x fwd rev →
  ∃ f rv,
    saveCommodityAutomorphicMap n (act2 g x) x (Some g) (fwd, rev)
      = Ok (<[act2 g x := f]> fwd, <[act2 g x := rv]> rev)
    ∧ good_maps n r (act2 g x) (<[act2 g x := f]> fwd) (<[act2 g x := rv]> rev).
Proof.
  intros Hg Hr Hne (f & rv & Hf & Hrv & Hperm & Hact & Hinv).
  unfold saveCommodityAutomorphicMap. rewrite decide_False by done.
  simpl. rewrite Hf. simpl.
  rewrite (applyGenerator_fmap n g f); [|apply Hg|apply Hperm]. simpl.
  pose proof (perm_gen_compose n g f Hg Hperm) as Hcomp.
  destruct (invert_map_spec n (act g <$> f) Hcomp) as (rv' & Hrun & Hinv').
  rewrite Hrun. simpl. exists (act g <$> f), rv'. split; [done|].
  exists (act g <$> f), rv'. rewrite !lookup_insert_eq.
  split; [done|]. split; [done|]. split; [done|]. split; [|done].
  apply elem_of_U2 in Hr as [H1 H2]. unfold act2.
  rewrite !(act_compose n) by (done || apply Hperm).
  rewrite <- Hact. done.
Qed.

(** ** findRepresentativeCommodities *)

Lemma elem_of_UU n xp : xp ∈ UU n ↔ xp.1 ∈ U2 n ∧ xp.2 ∈ U2 n.
Proof. unfold UU. by rewrite elem_of_gset_cprod. Qed.

Lemma good_maps_ext (n : nat) (r x : nat * nat)
    (fwd fwd' : gmap (nat * nat) (list nat))
    (rev rev' : gmap (nat * nat) (list (option nat))) :
  fwd' !! x = fwd !! x → rev' !! x = rev !! x →
  good_maps n r x fwd rev → good_maps n r x fwd' rev'.
Proof.
  intros Hf Hr (f & rv & ? & ? & ?). exists f, rv.
  rewrite Hf, Hr. done.
Qed.

Lemma good_maps_insert (n : nat) (r x y : nat * nat) (f : list nat)
    (rv : list (option nat)) (fwd : gmap (nat * nat) (list nat))
    (rev : gmap (nat * nat) (list (option nat))) :
  good_maps n r y (<[y := f]> fwd) (<[y := rv]> rev) →
  good_maps n r x fwd rev →
  good_maps n r x (<[y := f]> fwd) (<[y := rv]> rev).
Proof.
  intros Hy Hx. destruct (decide (x = y)) as [->|Hne]; [done|].
  eapply good_maps_ext; [| |exact Hx]; by rewrite lookup_insert_ne.
Qed.

Section comm_bfs.
Context (n : nat) (gens : list (list nat)) (D : gset (nat * nat)).
Hypothesis Hgens : Forall (perm_gen n) gens.
Hypothesis HD : D ⊆ U2 n.
Hypothesis HDcl : ∀ g x, g ∈ gens → x ∈ D → act2 g x ∈ D.

Lemma cgens_perm g : g ∈ gens → perm_gen n g.
Proof. rewrite Forall_forall in Hgens. intros Hg. by apply Hgens. Qed.

Lemma comm_expand_spec (r x : nat * nat) (σ1 : CommBfs) :
  r ∈ U2 n → x ∈ D →
  x ∈ c_visited σ1 →
  good_maps n r x (c_fwd σ1) (c_rev σ1) →
  ∃ σ2, comm_expand n gens x σ1 = Ok σ2
    ∧ c_visited σ2 = c_visited σ1
    ∧ c_autcomms σ2 = c_autcomms σ1
    ∧ c_groups σ2 = c_groups σ1
    ∧ c_repcomms σ2 = c_repcomms σ1
    ∧ c_tovisit σ1 ⊆ c_tovisit σ2
    ∧ (∀ xp, xp ∈ c_tovisit σ2 →
         xp ∈ c_tovisit σ1
         ∨ (xp.2 = x ∧ xp.1 ∈ D ∧ (xp.1 ∉ c_visited σ1)
            ∧ good_maps n r xp.1 (c_fwd σ2) (c_rev σ2)))
    ∧ (∀ g, g ∈ gens →
         act2 g x ∈ c_visited σ1 ∨ (act2 g x, x) ∈ c_tovisit σ2)
    ∧ (∀ y, y ∈ c_visited σ1 →
         c_fwd σ2 !! y = c_fwd σ1 !! y ∧ c_rev σ2 !! y = c_rev σ1 !! y)
    ∧ (∀ y, good_maps n r y (c_fwd σ1) (c_rev σ1) →
         good_maps n r y (c_fwd σ2) (c_rev σ2)).
Proof.
  intros Hr HxD Hxv Hgood. pose proof (HD x HxD) as Hx. unfold comm_expand.
  apply (for_each_total _
    (λ pre σ2,
       c_visited σ2 = c_visited σ1
       ∧ c_autcomms σ2 = c_autcomms σ1
       ∧ c_groups σ2 = c_groups σ1
       ∧ c_repcomms σ2 = c_repcomms σ1
       ∧ c_tovisit σ1 ⊆ c_tovisit σ2
       ∧ (∀ xp, xp ∈ c_tovisit σ2 →
            xp ∈ c_tovisit σ1
            ∨ (xp.2 = x ∧ xp.1 ∈ D ∧ (xp.1 ∉ c_visited σ1)
               ∧ good_maps n r xp.1 (c_fwd σ2) (c_rev σ2)))
       ∧ (∀ g, g ∈ pre →
            act2 g x ∈ c_visited σ1 ∨ (act2 g x, x) ∈ c_tovisit σ2)
       ∧ (∀ y, y ∈ c_visited σ1 →
            c_fwd σ2 !! y = c_fwd σ1 !! y ∧ c_rev σ2 !! y = c_rev σ1 !! y)
       ∧ (∀ y, good_maps n r y (c_fwd σ1) (c_rev σ1) →
            good_maps n r y (c_fwd σ2) (c_rev σ2)))).
  - split_and!; try done.
    + intros xp Hxp. by left.
    + intros g Hg. by apply elem_of_nil in Hg.
  - intros pre g post σ Hsplit
      (Hv & Ha & Hgr & Hrp & Hmono & Htv & Hdone & Hsame & Hkeep).
    assert (g ∈ gens) as Hgin by (rewrite Hsplit; set_solver).
    pose proof (cgens_perm g Hgin) as Hperm.
    rewrite (applyGenerator2_act n g x (proj1 Hperm) Hx). simpl.
    pose proof (HDcl g x Hgin HxD) as Hy.
    destruct (decide (act2 g x ∈ c_visited σ)) as [Hin|Hnin].
    + exists σ. split; [done|]. split_and!; try done.
      intros g' Hg'. apply elem_of_app in Hg' as [Hg'|Hg']; [by apply Hdone|].
      apply list_elem_of_singleton in Hg' as ->. left. by rewrite <- Hv.
    + assert (act2 g x ≠ x) as Hne by (intros Heq; rewrite Heq, Hv in Hnin; done).
      destruct (saveCommodityAutomorphicMap_child n g r x (c_fwd σ) (c_rev σ)
                  Hperm Hr Hne (Hkeep x Hgood)) as (f & rv & Hsave & Hnew).
      rewrite Hsave. simpl. eexists. split; [done|]. simpl.
      split; [done|]. split; [done|]. split; [done|]. split; [done|].
      split; [set_solver|]. split; [|split; [|split]].
      * intros xp Hxp. apply elem_of_union in Hxp as [Hxp|Hxp].
        -- destruct (Htv xp Hxp) as [?|(? & ? & ? & Hg')]; [by left|].
           right. repeat split; try done. by apply good_maps_insert.
        -- apply elem_of_singleton in Hxp as ->. right. simpl.
           rewrite Hv in Hnin. done.
      * intros g' Hg'. apply elem_of_app in Hg' as [Hg'|Hg'].
        -- destruct (Hdone g' Hg') as [?|?]; [by left|right; set_solver].
        -- apply list_elem_of_singleton in Hg' as ->. right. set_solver.
      * intros y Hyv. assert (y ≠ act2 g x) as Hney.
        { intros ->. by rewrite Hv in Hnin. }
        rewrite !lookup_insert_ne by done. by apply Hsame.
      * intros y Hgy. apply good_maps_insert; [done|]. by apply Hkeep.
Qed.

Lemma comm_while_body_spec (V0 : gset (nat * nat)) (r : nat * nat)
    (pick : nat → list ((nat * nat) * (nat * nat)) → nat) (σ0 σ : CommBfs) :
  r ∈ U2 n →
  V0 ⊆ U2 n →
  (∀ g x, g ∈ gens → x ∈ U2 n → act2 g x ∈ V0 → x ∈ V0) →
  CommInv n gens D V0 r σ0 σ →
  comm_pending σ = true →
  ∃ σ', comm_while_body n gens pick σ = Ok σ'
    ∧ CommInv n gens D V0 r σ0 σ'
    ∧ comm_measure n σ' < comm_measure n σ.
Proof.
  intros Hr HV0 Hpre
    [Hgrp Hrep Htv Haut Hvis Hnew Hseed Hsmaps Hclosing Hmaps Hold] Hpend.
  unfold comm_pending in Hpend. apply bool_decide_eq_true in Hpend.
  destruct (set_pop_total (pick (c_clock σ)) (c_tovisit σ) Hpend)
    as ([x p] & Hxp & Hpop).
  unfold comm_while_body. rewrite Hpop. simpl.
  destruct (Htv (x, p) Hxp) as (HxD & HpD & HxV0). simpl in HxD, HpD, HxV0.
  assert (good_maps n r x (c_fwd σ) (c_rev σ)) as Hgx.
  { apply Hmaps. right. by exists p. }
  destruct (comm_expand_spec r x
    {| c_tovisit := c_tovisit σ ∖ {[(x, p)]};
       c_visited := c_visited σ ∪ {[x]};
       c_repcomms := c_repcomms σ;
       c_autcomms := c_autcomms σ ∪ {[x]};
       c_fwd := c_fwd σ;
       c_rev := c_rev σ;
       c_groups := c_groups σ;
       c_clock := S (c_clock σ) |})
    as (σ' & Hrun & Hv' & Ha' & Hg' & Hr' & Hmono & Htv' & Hall & Hsame & Hkeep);
    simpl in *; [done|done|set_solver|done|].
  exists σ'. split; [done|].
  assert (r ∈ c_autcomms σ ∪ {[x]}) as Hrin.
  { destruct Hseed as [?|Heq]; [set_solver|].
    rewrite Heq in Hxp. apply elem_of_singleton in Hxp. simplify_eq. set_solver. }
  split.
  - constructor.
    + congruence.
    + congruence.
    + intros xp Hin. destruct (Htv' xp Hin) as [Hin'|(Hp & HU & Hnv & _)].
      * apply Htv. set_solver.
      * rewrite Hp. split; [done|]. split; [done|]. rewrite Hvis in Hnv. set_solver.
    + rewrite Ha'. set_solver.
    + rewrite Hv', Ha', Hvis. set_solver.
    + rewrite Ha'. set_solver.
    + left. by rewrite Ha'.
    + destruct (Hsame r) as [-> ->]; [rewrite Hvis; set_solver|done].
    + intros y g Hy Hg. rewrite Ha' in Hy |- *.
      apply elem_of_union in Hy as [Hy|Hy].
      * destruct (Hclosing y g Hy Hg) as [?|(p' & Hp')]; [left; set_solver|].
        destruct (decide ((act2 g y, p') = (x, p))) as [[= -> ->]|Hne].
        -- left. set_solver.
        -- right. exists p'. apply Hmono. set_solver.
      * apply elem_of_singleton in Hy as ->.
        destruct (Hall g Hg) as [Hin|Hin]; [|right; by exists x].
        left. rewrite Hvis in Hin.
        assert (act2 g x ∉ V0)
          by (intros Hc; apply HxV0; apply (Hpre g x); [done|by apply HD|done]).
        set_solver.
    + intros y Hy. rewrite Ha' in Hy. destruct Hy as [Hy|(p' & Hp')].
      * apply Hkeep. apply elem_of_union in Hy as [Hy|Hy].
        -- apply Hmaps. by left.
        -- by apply elem_of_singleton in Hy as ->.
      * destruct (Htv' (y, p') Hp') as [Hin|(_ & _ & _ & Hg'')]; [|done].
        apply Hkeep, Hmaps. right. exists p'. set_solver.
    + intros y Hy. destruct (Hsame y) as [-> ->]; [rewrite Hvis; set_solver|].
      by apply Hold.
  - unfold comm_measure. rewrite Hv'. apply subset_size. split.
    + intros xp Hin. apply elem_of_union in Hin as [Hin|Hin].
      * destruct (Htv' xp Hin) as [Hin'|(Hp & HU & Hnv & _)]; [set_solver|].
        apply elem_of_union_r, elem_of_filter. split; [set_solver|].
        apply elem_of_UU. rewrite Hp. split; by apply HD.
      * apply elem_of_filter in Hin as [Hnv HU].
        apply elem_of_union_r, elem_of_filter. split; [set_solver|done].
    + intros Hsub. specialize (Hsub (x, p)).
      assert ((x, p) ∈ c_tovisit σ' ∪
                filter (λ xp, xp.1 ∉ c_visited σ ∪ {[x]}) (UU n)) as Hin
        by (apply Hsub; set_solver).
      apply elem_of_union in Hin as [Hin|Hin].
      * destruct (Htv' (x, p) Hin) as [Hin'|(_ & _ & Hnv & _)]; set_solver.
      * apply elem_of_filter in Hin as [Hnv _]. set_solver.
Qed.

Lemma comm_while_spec (V0 : gset (nat * nat)) (r : nat * nat)
    (pick : nat → list ((nat * nat) * (nat * nat)) → nat) (fuel : nat)
    (σ0 σ : CommBfs) :
  r ∈ U2 n →
  V0 ⊆ U2 n →
  (∀ g x, g ∈ gens → x ∈ U2 n → act2 g x ∈ V0 → x ∈ V0) →
  CommInv n gens D V0 r σ0 σ →
  size (UU n) ≤ fuel →
  ∃ σ', while comm_pending (comm_while_body n gens pick) fuel σ = Ok σ'
    ∧ CommInv n gens D V0 r σ0 σ'
    ∧ c_tovisit σ' = ∅.
Proof.
  intros Hr HV0 Hpre Hinv Hfuel.
  destruct (while_total comm_pending (comm_while_body n gens pick)
              (CommInv n gens D V0 r σ0) (comm_measure n)
              (λ s Hs Hc, comm_while_body_spec V0 r pick σ0 s Hr HV0 Hpre Hs Hc)
              fuel σ Hinv)
    as (σ' & Hrun & Hinv' & Hcond).
  { etrans; [|exact Hfuel]. apply subseteq_size. unfold comm_measure.
    intros xp Hin. apply elem_of_union in Hin as [Hin|Hin].
    - destruct (ci_tovisit _ _ _ _ _ _ _ Hinv xp Hin) as (? & ? & _).
      apply elem_of_UU. split; by apply HD.
    - by apply elem_of_filter in Hin as [_ ?]. }
  exists σ'. split; [done|]. split; [done|].
  unfold comm_pending in Hcond. apply bool_decide_eq_false in Hcond.
  apply leibniz_equiv, size_empty_iff. lia.
Qed.
End comm_bfs.

Section comm_orbits.
Context (n : nat) (gens : list (list nat)) (D : gset (nat * nat)).
Hypothesis Hgens : Forall (perm_gen n) gens.
Hypothesis HD : D ⊆ U2 n.
Hypothesis HDcl : ∀ g x, g ∈ gens → x ∈ D → act2 g x ∈ D.

Lemma CommOuter_preimage (seen : list (nat * nat)) (σ : CommBfs) :
  CommOuter n gens D seen σ →
  ∀ g x, g ∈ gens → x ∈ U2 n → act2 g x ∈ c_visited σ → x ∈ c_visited σ.
Proof.
  intros Hout g x Hg Hx Hin.
  apply (co_cover _ _ _ _ _ Hout) in Hin as (r & G & Hr & HG & HinG).
  apply (co_cover _ _ _ _ _ Hout). exists r, G. repeat split; try done.
  by apply (co_closed _ _ _ _ _ Hout r G g x).
Qed.

Lemma comm_seed_spec (pick : nat → list ((nat * nat) * (nat * nat)) → nat)
    (fuel : nat) (seen : list (nat * nat)) (σ : CommBfs) (r : nat * nat) :
  size (UU n) ≤ fuel →
  r ∈ D →
  CommOuter n gens D seen σ →
  ∃ σ', comm_seed n gens pick fuel σ r = Ok σ'
    ∧ CommOuter n gens D (seen ++ [r]) σ'.
Proof.
  intros Hfuel HrD Hout. pose proof (HD r HrD) as Hr. unfold comm_seed.
  destruct (decide (r ∈ c_visited σ)) as [Hin|Hnin].
  { exists σ. split; [done|]. destruct Hout. constructor; try done.
    - intros x Hx. apply elem_of_app in Hx as [Hx|Hx]; [auto|].
      by apply list_elem_of_singleton in Hx as ->.
    - intros r' Hr'. apply elem_of_app. left. auto. }
  rewrite saveCommodityAutomorphicMap_seed. simpl.
  set (σ1 := {| c_tovisit := c_tovisit σ ∪ {[(r, r)]};
                c_visited := c_visited σ;
                c_repcomms := c_repcomms σ ∪ {[r]};
                c_autcomms := ∅;
                c_fwd := <[r := seq 0 n]> (c_fwd σ);
                c_rev := <[r := Some <$> seq 0 n]> (c_rev σ);
                c_groups := c_groups σ;
                c_clock := c_clock σ |}).
  assert (r ∉ c_repcomms σ) as Hrnew.
  { intros Hc. destruct (co_self _ _ _ _ _ Hout r Hc) as (G & HG & HrG).
    apply Hnin. apply (co_cover _ _ _ _ _ Hout). by exists r, G. }
  destruct (comm_while_spec n gens D Hgens HD HDcl (c_visited σ) r pick fuel σ1 σ1)
    as (σ2 & Hrun &
        [Hgrp Hrep Htv Haut Hvis Hnew Hseed Hsmaps Hclosing Hmaps Hold] & Hempty).
  { done. }
  { pose proof (co_visited _ _ _ _ _ Hout). set_solver. }
  { by apply (CommOuter_preimage seen). }
  { constructor; simpl; rewrite ?(co_tovisit _ _ _ _ _ Hout); try done.
    - intros xp Hxp. assert (xp = (r, r)) as -> by set_solver.
      done.
    - set_solver.
    - right. set_solver.
    - by rewrite !lookup_insert_eq.
    - intros x [Hx|(p & Hp)]; [set_solver|].
      assert (x = r) as -> by set_solver. by apply good_maps_seed. }
  { done. }
  rewrite Hrun. simpl. eexists. split; [done|].
  simpl in Hgrp, Hrep. rewrite Hempty in *.
  assert (r ∈ c_autcomms σ2) as HrG.
  { destruct Hseed as [?|Heq]; [done|]. exfalso.
    assert ((r, r) ∈ (∅ : gset ((nat * nat) * (nat * nat)))) as Hc
      by (rewrite Heq; set_solver).
    set_solver. }
  assert (∀ r' G', r' ∈ c_repcomms σ → c_groups σ !! r' = Some G' →
            G' ⊆ c_visited σ) as Hgold.
  { intros r' G' Hr' HG' x Hx. apply (co_cover _ _ _ _ _ Hout). by exists r', G'. }
  assert (∀ x, x ∈ c_visited σ →
            c_fwd σ2 !! x = c_fwd σ !! x ∧ c_rev σ2 !! x = c_rev σ !! x) as Hkept.
  { intros x Hx. destruct (Hold x Hx) as [-> ->]. simpl.
    rewrite !lookup_insert_ne; [done|by intros ->..]. }
  constructor; simpl.
  - done.
  - rewrite Hvis. pose proof (co_visited _ _ _ _ _ Hout). set_solver.
  - intros x Hx. rewrite Hvis. apply elem_of_app in Hx as [Hx|Hx].
    + apply elem_of_union_l. by apply (co_seen _ _ _ _ _ Hout).
    + apply list_elem_of_singleton in Hx as ->. set_solver.
  - intros r' Hr'. rewrite Hrep in Hr'. apply elem_of_app.
    apply elem_of_union in Hr' as [Hr'|Hr'].
    + left. by apply (co_reps _ _ _ _ _ Hout).
    + right. set_solver.
  - intros x. rewrite Hvis, Hrep, Hgrp. split.
    + intros Hx. apply elem_of_union in Hx as [Hx|Hx].
      * apply (co_cover _ _ _ _ _ Hout) in Hx as (r' & G' & Hr' & HG' & Hx).
        exists r', G'. split; [set_solver|]. split; [|done].
        rewrite lookup_insert_ne; [done|]. by intros ->.
      * exists r, (c_autcomms σ2). split; [set_solver|].
        by rewrite lookup_insert_eq.
    + intros (r' & G' & Hr' & HG' & Hx).
      destruct (decide (r = r')) as [<-|Hne].
      * rewrite lookup_insert_eq in HG'. simplify_eq. set_solver.
      * rewrite lookup_insert_ne in HG' by done.
        apply elem_of_union_l. apply (Hgold r' G'); [set_solver|done..].
  - intros r' Hr'. rewrite Hrep in Hr'. rewrite Hgrp.
    destruct (decide (r = r')) as [<-|Hne].
    + exists (c_autcomms σ2). by rewrite lookup_insert_eq.
    + rewrite lookup_insert_ne by done.
      apply (co_self _ _ _ _ _ Hout). set_solver.
  - intros r1 r2 G1 G2 x Hr1 Hr2 HG1 HG2 Hx1 Hx2.
    rewrite Hrep in Hr1, Hr2. rewrite Hgrp in HG1, HG2.
    destruct (decide (r = r1)) as [<-|Hne1], (decide (r = r2)) as [<-|Hne2];
      [done| | |].
    + rewrite lookup_insert_eq in HG1. rewrite lookup_insert_ne in HG2 by done.
      simplify_eq. exfalso. apply (Hnew x Hx1).
      apply (Hgold r2 G2); [set_solver|done..].
    + rewrite lookup_insert_eq in HG2. rewrite lookup_insert_ne in HG1 by done.
      simplify_eq. exfalso. apply (Hnew x Hx2).
      apply (Hgold r1 G1); [set_solver|done..].
    + rewrite lookup_insert_ne in HG1, HG2 by done.
      apply (co_disjoint _ _ _ _ _ Hout r1 r2 G1 G2 x); try done; set_solver.
  - intros r' G' g x Hr' HG' Hg Hx. rewrite Hrep in Hr'. rewrite Hgrp in HG'.
    assert (∀ a, a ∈ c_autcomms σ2 → act2 g a ∈ c_autcomms σ2) as Hcl.
    { intros a Ha. destruct (Hclosing a g Ha Hg) as [?|(p & Hp)]; [done|].
      set_solver. }
    destruct (decide (r = r')) as [<-|Hne].
    + rewrite lookup_insert_eq in HG'. simplify_eq. split; [by apply Hcl|].
      apply (closed_inj_preimage (act2 g) (U2 n)); [|set_solver|done|done].
      intros a b Ha Hb. apply (act2_inj n g a b); [|done..].
      rewrite Forall_forall in Hgens. by apply Hgens.
    + rewrite lookup_insert_ne in HG' by done.
      apply (co_closed _ _ _ _ _ Hout r' G' g x); try done. set_solver.
  - intros r' G' x Hr' HG' Hx. rewrite Hrep in Hr'. rewrite Hgrp in HG'.
    destruct (decide (r = r')) as [<-|Hne].
    + rewrite lookup_insert_eq in HG'. simplify_eq. apply Hmaps. by left.
    + rewrite lookup_insert_ne in HG' by done.
      assert (r' ∈ c_repcomms σ) as Hr'' by set_solver.
      destruct (Hkept x) as [Hf Hv]; [by apply (Hgold r' G')|].
      eapply good_maps_ext; [exact Hf|exact Hv|].
      by apply (co_maps _ _ _ _ _ Hout r' G').
  - intros r' Hr'. rewrite Hrep in Hr'.
    destruct (decide (r = r')) as [<-|Hne]; [done|].
    assert (r' ∈ c_repcomms σ) as Hr'' by set_solver.
    destruct (co_self _ _ _ _ _ Hout r' Hr'') as (G' & HG' & Hin).
    destruct (Hkept r') as [-> ->]; [by apply (Hgold r' G')|].
    by apply (co_rep_maps _ _ _ _ _ Hout).
Qed.

Lemma comm_orbits_spec (pick : nat → list ((nat * nat) * (nat * nat)) → nat)
    (fuel : nat) (self : Topology) (fs : Files) :
  Autgen self = gens →
  number_of_nodes (UG self) = n →
  Commodities self ⊆ D →
  size (UU n) ≤ fuel →
  ∃ σ, comm_orbits pick fuel self fs = Ok σ
    ∧ CommOuter n gens D (merge_sort pair_le (elements (Commodities self))) σ.
Proof.
  intros Hag Hn Hcomm Hfuel. unfold comm_orbits. rewrite Hag, Hn.
  apply (for_each_total (comm_seed n gens pick fuel) (CommOuter n gens D)).
  - constructor; simpl; try done; try set_solver.
  - intros pre r post σ Hsplit Hout.
    apply comm_seed_spec; [done| |done].
    apply Hcomm, elem_of_elements.
    rewrite <- (merge_sort_Permutation pair_le), Hsplit. set_solver.
Qed.
End comm_orbits.

(** The outcome of [findRepresentativeCommodities] on a fresh
    precomputation directory, given enough fuel. *)
Lemma findRepresentativeCommodities_spec (n : nat)
    (pick : nat → list ((nat * nat) * (nat * nat)) → nat) (fuel : nat)
    (self : Topology) (fs : Files) :
  Forall (perm_gen n) (Autgen self) →
  number_of_nodes (UG self) = n →
  Commodities self ⊆ U2 n →
  (∀ g c, g ∈ Autgen self → c ∈ Commodities self →
     act2 g c ∈ Commodities self) →
  stage_findRepresentativeCommodities fs = None →
  size (UU n) ≤ fuel →
  ∃ self' fs' σ,
    findRepresentativeCommodities pick fuel self fs = Ok (self', fs')
    ∧ RepCommodities self' = c_repcomms σ
    ∧ CommodityGroup fs' = c_groups σ
    ∧ AutomorphicMap_Forward fs' = c_fwd σ
    ∧ AutomorphicMap_Reverse fs' = c_rev σ
    ∧ CommOuter n (Autgen self) (Commodities self)
        (merge_sort pair_le (elements (Commodities self))) σ.
Proof.
  intros Hgens Hn Hrange Hclosed Hstage Hfuel.
  destruct (comm_orbits_spec n (Autgen self) (Commodities self) Hgens Hrange
              Hclosed pick fuel self fs) as (σ & Hrun & Hout); [done..|].
  unfold findRepresentativeCommodities. rewrite Hstage, Hrun. simpl.
  eexists _, _, σ. split; [done|]. simpl. done.
Qed.

(** C3: the orbit enumeration over commodities computes a partition of
    the commodity set (every commodity lies in the stored group of exactly
    one representative, and every group consists of commodities), and each
    group is closed under every automorphism generator. *)
Theorem commodity_orbits_partition (n : nat)
    (pick : nat → list ((nat * nat) * (nat * nat)) → nat) (fuel : nat)
    (self : Topology) (fs : Files) :
  Forall (perm_gen n) (Autgen self) →
  number_of_nodes (UG self) = n →
  Commodities self ⊆ U2 n →
  (∀ g c, g ∈ Autgen self → c ∈ Commodities self →
     act2 g c ∈ Commodities self) →
  stage_findRepresentativeCommodities fs = None →
  size (UU n) ≤ fuel →
  ∃ self' fs',
    findRepresentativeCommodities pick fuel self fs = Ok (self', fs')
    ∧ (∀ c, c ∈ Commodities self →
         ∃ r G, r ∈ RepCommodities self'
           ∧ CommodityGroup fs' !! r = Some G ∧ c ∈ G
           ∧ ∀ r' G', r' ∈ RepCommodities self' →
               CommodityGroup fs' !! r' = Some G' → c ∈ G' → r' = r)
    ∧ (∀ r, r ∈ RepCommodities self' →
         ∃ G, CommodityGroup fs' !! r = Some G ∧ r ∈ G
              ∧ G ⊆ Commodities self)
    ∧ (∀ r G g c, r ∈ RepCommodities self' →
         CommodityGroup fs' !! r = Some G → g ∈ Autgen self → c ∈ G →
         ∃ c', applyGenerator2 c g = Ok c' ∧ c' ∈ Commodities self ∧ c' ∈ G).
Proof.
  intros Hgens Hn Hrange Hclosed Hstage Hfuel.
  destruct (findRepresentativeCommodities_spec n pick fuel self fs)
    as (self' & fs' & σ & Hrun & Hreps & Hgrp & _ & _ & Hout); [done..|].
  exists self', fs'. split; [done|]. rewrite Hreps, Hgrp.
  assert (∀ r G, r ∈ c_repcomms σ → c_groups σ !! r = Some G →
            G ⊆ Commodities self) as Hsub.
  { intros r G Hr HG x Hx. apply (co_visited _ _ _ _ _ Hout).
    apply (co_cover _ _ _ _ _ Hout). by exists r, G. }
  split; [|split].
  - intros c Hc.
    assert (c ∈ c_visited σ) as Hv.
    { apply (co_seen _ _ _ _ _ Hout).
      rewrite merge_sort_Permutation. by apply elem_of_elements. }
    apply (co_cover _ _ _ _ _ Hout) in Hv as (r & G & Hr & HG & Hin).
    exists r, G. split; [done|]. split; [done|]. split; [done|].
    intros r' G' Hr' HG' Hin'.
    by apply (co_disjoint _ _ _ _ _ Hout r' r G' G c).
  - intros r Hr. destruct (co_self _ _ _ _ _ Hout r Hr) as (G & HG & Hin).
    exists G. split; [done|]. split; [done|]. by apply (Hsub r).
  - intros r G g c Hr HG Hg Hc.
    assert (c ∈ Commodities self) as HcC by (by apply (Hsub r G)).
    assert (perm_gen n g) as Hperm.
    { rewrite Forall_forall in Hgens. by apply Hgens. }
    exists (act2 g c). split; [|split].
    + apply (applyGenerator2_act n); [apply Hperm|by apply Hrange].
    + by apply Hclosed.
    + apply (co_closed _ _ _ _ _ Hout r G g c); [done..|by apply Hrange|done].
Qed.

(** C4: for every member [m] of the stored group of a representative [r],
    the stored forward map is a node permutation sending [r] to [m], the
    stored reverse map is its exact inverse and sends [m] back to [r]; for
    the representative itself both maps are the identity. *)
Theorem commodity_maps_round_trip (n : nat)
    (pick : nat → list ((nat * nat) * (nat * nat)) → nat) (fuel : nat)
    (self : Topology) (fs : Files) :
  Forall (perm_gen n) (Autgen self) →
  number_of_nodes (UG self) = n →
  Commodities self ⊆ U2 n →
  (∀ g c, g ∈ Autgen self → c ∈ Commodities self →
     act2 g c ∈ Commodities self) →
  stage_findRepresentativeCommodities fs = None →
  size (UU n) ≤ fuel →
  ∃ self' fs',
    findRepresentativeCommodities pick fuel self fs = Ok (self', fs')
    ∧ ∀ r G m, r ∈ RepCommodities self' →
        CommodityGroup fs' !! r = Some G → m ∈ G →
        ∃ f rv,
          AutomorphicMap_Forward fs' !! m = Some f
          ∧ AutomorphicMap_Reverse fs' !! m = Some rv
          ∧ f ≡ₚ seq 0 n
          ∧ length rv = n
          ∧ applyGenerator2 r f = Ok m
          ∧ applyGenerator2 m rv = Ok (Some r.1, Some r.2)
          ∧ (∀ i j, f !! i = Some j ↔ rv !! j = Some (Some i))
          ∧ (m = r → f = seq 0 n ∧ rv = Some <$> seq 0 n).
Proof.
  intros Hgens Hn Hrange Hclosed Hstage Hfuel.
  destruct (findRepresentativeCommodities_spec n pick fuel self fs)
    as (self' & fs' & σ & Hrun & Hreps & Hgrp & Hfwd & Hrev & Hout); [done..|].
  exists self', fs'. split; [done|]. rewrite Hreps, Hgrp, Hfwd, Hrev.
  intros r G m Hr HG Hm.
  assert (r ∈ U2 n) as HrU.
  { apply Hrange, (co_visited _ _ _ _ _ Hout), (co_cover _ _ _ _ _ Hout).
    destruct (co_self _ _ _ _ _ Hout r Hr) as (G' & HG' & Hin). by exists r, G'. }
  pose proof (co_maps _ _ _ _ _ Hout r G m Hr HG Hm) as Hgood.
  destruct (good_maps_reverse n r m _ _ HrU Hgood)
    as (f & rv & Hf & Hrv & Hfr & Hrm).
  destruct Hgood as (f' & rv' & Hf' & Hrv' & Hperm & Hact & Hinv).
  assert (f' = f) as -> by congruence. assert (rv' = rv) as -> by congruence.
  exists f, rv. split; [done|]. split; [done|].
  destruct Hperm as [[Hlen Hall] Hnd]. split; [|split; [|split; [|split; [|split]]]].
  - apply NoDup_Permutation; [done|apply NoDup_seq|].
    intros x. rewrite elem_of_seq. split.
    + intros Hx. rewrite Forall_forall in Hall. specialize (Hall x Hx). lia.
    + intros Hx.
      destruct (inverse_maps_surj n f rv (conj (conj Hlen Hall) Hnd) Hinv x)
        as (i & Hi & _ & <-); [lia|].
      apply list_elem_of_lookup. exists i.
      by apply (act_lookup n f i (conj Hlen Hall)).
  - apply Hinv.
  - done.
  - done.
  - intros i j. split.
    + intros Hij. assert (i < n) as Hi.
      { apply lookup_lt_Some in Hij. lia. }
      rewrite (act_lookup n f i (conj Hlen Hall) Hi) in Hij. simplify_eq.
      by apply Hinv.
    + intros Hji. assert (j < n) as Hj.
      { apply lookup_lt_Some in Hji. destruct Hinv as [Hl _]. lia. }
      destruct (inverse_maps_surj n f rv (conj (conj Hlen Hall) Hnd) Hinv j Hj)
        as (i' & Hi' & Hlook & Hact').
      assert (i' = i) as -> by congruence. rewrite <- Hact'.
      by apply (act_lookup n f i (conj Hlen Hall)).
  - intros ->. destruct (co_rep_maps _ _ _ _ _ Hout r Hr) as [Hf0 Hr0].
    split; congruence.
Qed.

(** ** verification.py *)

Lemma imap_traced_all {A B} (f : A → result B) (xs : list A) :
  (∀ x, x ∈ xs → ∃ y, f x = Ok y) →
  (imap_traced f xs).2 = xs.
Proof.
  induction xs as [|x xs IH]; intros Hall; [done|].
  simpl. destruct (Hall x) as [y Hy]; [set_solver|]. rewrite Hy. simpl.
  f_equal. apply IH. intros x' Hx'. apply Hall. set_solver.
Qed.

(** C1: when every call of [findMaxLinkLoad] returns and the pool runs
    each task once: without a cached value, [findMaxLinkLoad] is invoked
    exactly once for every directed link of the topology (all of
    [DLinks], representative or not); with a cached verified-throughput
    value no per-link program is solved and no file is written, and the
    call returns [None] -- unless the cached value is 0, where
    [1.0/verifiedThroughput] raises [ZeroDivisionError]. *)
Theorem verify_solves_every_directed_link
    (sched : list (nat * nat) → list (nat * nat))
    (solve : LinkLP → Status * Qc) (fs : Files) (self : Verification)
    (out : Output) :
  (∀ l, sched l ≡ₚ l) →
  (∀ link, link ∈ DLinks (vTopo self) →
     ∃ r, findMaxLinkLoad solve fs self link = Ok r) →
  (VerifiedThroughput out = None →
     solved_links (verifyAllLinkLoad sched solve fs self out)
       ≡ₚ elements (DLinks (vTopo self)))
  ∧ (∀ cached, VerifiedThroughput out = Some cached →
       solved_links (verifyAllLinkLoad sched solve fs self out) = []
       ∧ output_after (verifyAllLinkLoad sched solve fs self out) = out
       ∧ (cached ≠ 0%Qc →
            returned (verifyAllLinkLoad sched solve fs self out) = Ok None)
       ∧ (cached = 0%Qc →
            returned (verifyAllLinkLoad sched solve fs self out)
            = Raise ZeroDivisionError)).
Proof.
  intros Hsched Hok. split.
  - intros Hnone. unfold verifyAllLinkLoad. rewrite Hnone.
    assert ((imap_traced (findMaxLinkLoad solve fs self)
               (sched (elements (DLinks (vTopo self))))).2
            = sched (elements (DLinks (vTopo self)))) as Htrace.
    { apply imap_traced_all. intros x Hx. apply Hok.
      rewrite Hsched in Hx. by apply elem_of_elements. }
    match goal with
    | |- solved_links (match ?e with _ => _ end) ≡ₚ _ => destruct e
    end; simpl; rewrite Htrace; apply Hsched.
  - intros cached Hc. unfold verifyAllLinkLoad. rewrite Hc. simpl.
    split; [done|]. split; [done|]. split; intros Hz.
    + by rewrite decide_False.
    + by rewrite decide_True.
Qed.

(** ** optimization.py: solver outcomes *)

Lemma for_each_terminates {A S} (f : S → A → result S) (l : list A) (s : S) :
  (∀ s a, f s a ≠ OutOfFuel) → for_each f l s ≠ OutOfFuel.
Proof.
  intros Hf. revert s. induction l as [|a l IH]; intros s; [done|].
  simpl. destruct (f s a) as [s'| |] eqn:Hfa; simpl; [apply IH|done|].
  by apply Hf in Hfa.
Qed.

Lemma bind_terminates {A B} (m : result A) (k : A → result B) :
  m ≠ OutOfFuel → (∀ a, k a ≠ OutOfFuel) → m ≫= k ≠ OutOfFuel.
Proof. intros Hm Hk. destruct m; simpl; [apply Hk|done|done]. Qed.

Lemma orRaise_terminates {A} (e : exn) (o : option A) : orRaise e o ≠ OutOfFuel.
Proof. by destruct o. Qed.

Lemma set_flow_terminates i j repsd flow g : set_flow i j repsd flow g ≠ OutOfFuel.
Proof.
  unfold set_flow. apply bind_terminates; [apply orRaise_terminates|done].
Qed.

Lemma var_X_terminates (sol : Solved) (v : Var) : var_X sol v ≠ OutOfFuel.
Proof. unfold var_X. by case_decide. Qed.

Lemma expand_routing_terminates (fs : Files) (self : Optimization) (sol : Solved) :
  expand_routing fs self sol ≠ OutOfFuel.
Proof.
  unfold expand_routing. apply for_each_terminates. intros g e.
  apply for_each_terminates. intros g' repsd.
  unfold loadCommodityFlowLinkMap.
  repeat (apply bind_terminates;
          [first [apply orRaise_terminates|apply var_X_terminates]|intros ?]).
  apply bind_terminates.
  - case_decide; [apply set_flow_terminates|done].
  - intros g''. case_decide; [apply set_flow_terminates|done].
Qed.

(** C2: whenever the solver stops on its time limit,
    [computeOptimalSolution] ends in an exception (the unbound name [M] in
    [saveIntermediateRouting], unless the expansion itself failed before),
    so it does not return [None]; [IntermediateSolution] is never
    written.  The confirmed-optimal artifacts are left untouched. *)
Theorem time_limit_run_aborts (fs : Files) (self : Optimization)
    (vars : list Var) (solcount : nat) (objval : Qc) (x : Var → Qc)
    (out : Output) :
  let sol := {| status := TIME_LIMIT; SolCount := solcount; ObjVal := objval;
                X := x; getVars := vars |} in
  let r := computeOptimalSolution fs self sol out in
  (∃ e, r.1 = Raise e)
  ∧ (∀ g, expand_routing fs self sol = Ok g →
       r = (Raise (NameError "M"), set_IntermediateRouting out g))
  ∧ IntermediateSolution r.2 = IntermediateSolution out
  ∧ OptimalRouting r.2 = OptimalRouting out
  ∧ ComputedThroughput r.2 = ComputedThroughput out.
Proof.
  simpl. unfold computeOptimalSolution, saveIntermediateRouting. simpl.
  pose proof (expand_routing_terminates fs self
    {| status := TIME_LIMIT; SolCount := solcount; ObjVal := objval; X := x;
       getVars := vars |})
    as Hterm.
  destruct (expand_routing fs self _) as [g|e|] eqn:Hexp; [| |done].
  - vm_compute resolve. simpl. split_and!; eauto. by intros g' [= <-].
  - simpl. split_and!; eauto. done.
Qed.

(** ** setFlowConservationConstraint *)

Lemma flow_sum_spec (Fd : gmap (nat * nat) (gmap (nat * nat) Var))
    (repsd : nat * nat) (Frep : gmap (nat * nat) Var)
    (flowmap : gmap (nat * nat) (nat * nat)) (link_of : nat → nat * nat)
    (hs : list nat) :
  Fd !! repsd = Some Frep →
  (∀ h, h ∈ hs → ∃ l v, flowmap !! link_of h = Some l ∧ Frep !! l = Some v) →
  ∃ vs, flow_sum Fd repsd flowmap link_of hs = Ok ((λ v, (1%Qc, v)) <$> vs)
    ∧ Forall2 (λ h v, ∃ l, flowmap !! link_of h = Some l ∧ Frep !! l = Some v)
        hs vs.
Proof.
  intros HF Hall. unfold flow_sum.
  destruct (for_each_total
    (λ (acc : list (Qc * Var)) (h : nat),
       Frep ← orRaise KeyError (Fd !! repsd);
       replink ← orRaise KeyError (flowmap !! link_of h);
       v ← orRaise KeyError (Frep !! replink);
       Ok (acc ++ [(1%Qc, v)]))
    (λ pre acc, ∃ vs, acc = (λ v, (1%Qc, v)) <$> vs
       ∧ Forall2 (λ h v, ∃ l, flowmap !! link_of h = Some l ∧ Frep !! l = Some v)
           pre vs)
    hs []) as (acc & Hrun & vs & -> & Hvs).
  - exists []. split; [done|]. constructor.
  - intros pre h post acc Hsplit (vs & -> & Hvs).
    destruct (Hall h) as (l & v & Hl & Hv); [rewrite Hsplit; set_solver|].
    rewrite HF. simpl. rewrite Hl. simpl. rewrite Hv. simpl.
    eexists. split; [done|].
    exists (vs ++ [v]). split; [by rewrite fmap_app|].
    apply Forall2_app; [done|]. constructor; [by exists l|constructor].
  - by exists vs.
Qed.

Lemma flow_conservation_at_spec (fs : Files) (self : Optimization)
    (flowmap : gmap (nat * nat) (nat * nat)) (Frep : gmap (nat * nat) Var)
    (repsd : nat * nat) (n : nat) (hs : list nat) :
  FlowLinkMap fs !! repsd = Some flowmap →
  F self !! repsd = Some Frep →
  neighbors (UG (Topo self)) n = Ok hs →
  hs ≠ [] →
  (∀ h, h ∈ hs →
     (∃ l v, flowmap !! (h, n) = Some l ∧ Frep !! l = Some v)
     ∧ (∃ l v, flowmap !! (n, h) = Some l ∧ Frep !! l = Some v)) →
  ∃ c, flow_conservation_at self flowmap repsd n = Ok c
       ∧ fc_spec fs self (repsd, n) c.
Proof.
  intros Hfm HF Hnb Hne Hall. unfold flow_conservation_at.
  rewrite Hnb. simpl.
  destruct (flow_sum_spec (F self) repsd Frep flowmap (λ h, (h, n)) hs HF)
    as (vin & Hin & Hvin).
  { intros h Hh. by apply Hall. }
  destruct (flow_sum_spec (F self) repsd Frep flowmap (λ h, (n, h)) hs HF)
    as (vout & Hout & Hvout).
  { intros h Hh. by apply Hall. }
  rewrite Hin. simpl. rewrite Hout.
  destruct vin as [|v vin].
  { apply Forall2_nil_inv_r in Hvin. done. }
  simpl. eexists. split; [done|].
  exists flowmap, Frep, hs, (v :: vin), vout. done.
Qed.


Lemma fc_spec_addConstr (fs : Files) (self : Optimization) (c0 : Constr)
    (key : (nat * nat) * nat) (c : Constr) :
  fc_spec fs (addConstr c0 self) key c ↔ fc_spec fs self key c.
Proof. done. Qed.









(** ** solution_grouping.py *)

Lemma size_pos_member `{Countable A} (x : A) (X : gset A) : x ∈ X → 0 < size X.
Proof.
  intros Hx. assert (size X ≠ 0); [|lia].
  apply size_non_empty_iff. set_solver.
Qed.

Lemma commsplit_add_inhabited commsplit code autsd m :
  groups_inhabited commsplit →
  commsplit_add commsplit code autsd = Ok m →
  groups_inhabited m.
Proof.
  intros Hinh. unfold commsplit_add.
  destruct (commsplit !! code) as [members|] eqn:Hc.
  - rewrite Hc. intros [= <-] code' members' Hl.
    destruct (decide (code = code')) as [<-|Hne].
    + rewrite lookup_insert_eq in Hl. simplify_eq.
      apply (size_pos_member autsd). set_solver.
    + rewrite lookup_insert_ne in Hl by done. by eapply Hinh.
  - rewrite lookup_insert_eq. intros [= <-] code' members' Hl.
    destruct (decide (code = code')) as [<-|Hne].
    + rewrite lookup_insert_eq in Hl. simplify_eq.
      apply (size_pos_member autsd). set_solver.
    + rewrite !lookup_insert_ne in Hl by done. by eapply Hinh.
Qed.

Lemma commsplit_of_inhabited fs self node repsd autcomms m :
  commsplit_of fs self node repsd autcomms = Ok m → groups_inhabited m.
Proof.
  unfold commsplit_of. intros Hrun.
  apply (for_each_partial _ (λ _ m, groups_inhabited m) _ _ _ Hrun).
  - intros code members Hl. by rewrite lookup_empty in Hl.
  - intros pre autsd post m0 m1 _ Hinh Hstep.
    destruct (encodeFlows fs self node repsd autsd) as [code| |]; [|done..].
    by eapply commsplit_add_inhabited.
Qed.

Lemma groupSolutionAtNode_inhabited fs self node splitgroups :
  groupSolutionAtNode fs self node = Ok splitgroups →
  ∀ repsd commsplit, splitgroups !! repsd = Some commsplit →
    groups_inhabited commsplit.
Proof.
  unfold groupSolutionAtNode. intros Hrun.
  apply (for_each_partial _
    (λ _ (sg : gmap (nat * nat)
             (gmap (list ((nat * nat) * (nat * nat) * Qc)) (gset (nat * nat)))),
       ∀ repsd commsplit, sg !! repsd = Some commsplit →
         groups_inhabited commsplit) _ _ _ Hrun).
  - intros repsd commsplit Hl. by rewrite lookup_empty in Hl.
  - intros pre repsd post sg0 sg1 _ Hinh Hstep.
    destruct (loadCommodityGroup fs repsd) as [autcomms| |]; [|done..].
    destruct (commsplit_of fs self node repsd autcomms) as [m| |] eqn:Hm;
      [|done..].
    simplify_eq. intros repsd' commsplit Hl.
    destruct (decide (repsd = repsd')) as [<-|Hne].
    + rewrite lookup_insert_eq in Hl. simplify_eq.
      by eapply commsplit_of_inhabited.
    + rewrite lookup_insert_ne in Hl by done. by eapply Hinh.
Qed.




(** ** Map-then-merge stages *)

Lemma imap_unordered_ok {A B} (sched : list A → list A) (f : A → result B)
    (d : B) (xs : list A) :
  (∀ x, x ∈ sched xs → ∃ y, f x = Ok y) →
  imap_unordered sched f xs = Ok ((λ x, returned_or d (f x)) <$> sched xs).
Proof.
  intros Hall. unfold imap_unordered.
  destruct (for_each_total
    (λ (acc : list B) (x : A), y ← f x; Ok (acc ++ [y]))
    (λ pre acc, acc = (λ x, returned_or d (f x)) <$> pre)
    (sched xs) []) as (acc & Hrun & ->); [done| |done].
  intros pre x post acc Hsplit ->.
  destruct (Hall x) as [y Hy]; [rewrite Hsplit; set_solver|].
  cbv beta. rewrite Hy. simpl. eexists. split; [done|].
  rewrite fmap_app. simpl. by rewrite Hy.
Qed.

(** Inserting records with distinct keys commutes. *)
Lemma foldl_insert_permutation `{Countable K} {V A} (k : A → K) (v : A → V)
    (l1 l2 : list A) :
  l1 ≡ₚ l2 → NoDup (k <$> l1) →
  ∀ m : gmap K V,
    foldl (λ m r, <[k r := v r]> m) m l1 = foldl (λ m r, <[k r := v r]> m) m l2.
Proof.
  induction 1 as [|x l l' Hp IH|x y l|l l' l'' Hp1 IH1 Hp2 IH2]; intros Hnd m.
  - done.
  - simpl. apply IH. by apply NoDup_cons in Hnd as [_ ?].
  - simpl. rewrite insert_insert_ne; [done|].
    rewrite !fmap_cons in Hnd. apply NoDup_cons in Hnd as [Hy _].
    set_solver.
  - rewrite IH1 by done. apply IH2. by rewrite <- Hp1.
Qed.

Lemma merge_flowlinks_folds done acc :
  merge_flowlinks done acc
  = (foldl (λ m r, <[r.1.1 := r.1.2]> m) acc.1 done,
     foldl (λ m r, <[r.1.1 := r.2]> m) acc.2 done).
Proof.
  unfold merge_flowlinks. revert acc.
  induction done as [|r done IH]; intros acc; [by destruct acc|].
  simpl. by rewrite IH.
Qed.

Lemma flowlinks_task_key pick fuel self repsd r :
  findRepresentativeCommodityFlowLinksByCommodity pick fuel self repsd = Ok r →
  r.1.1 = repsd.
Proof.
  unfold findRepresentativeCommodityFlowLinksByCommodity. intros Hrun.
  apply bind_Ok in Hrun as (autgen & _ & Hrun).
  apply bind_Ok in Hrun as (σ & _ & Hrun). by simplify_eq.
Qed.

(** The merge of [findRepresentativeCommodityFlowLinks] does not depend on
    the order in which the per-commodity tasks complete. *)
Lemma flowlinks_merge_order_independent
    (sched1 sched2 : list (nat * nat) → list (nat * nat))
    (pick : nat * nat → nat → list (nat * nat) → nat) (fuel : nat)
    (self : Topology) (fs : Files) :
  (∀ l, sched1 l ≡ₚ l) → (∀ l, sched2 l ≡ₚ l) →
  (∀ repsd, repsd ∈ RepCommodities self →
     ∃ r, findRepresentativeCommodityFlowLinksByCommodity pick fuel self repsd
          = Ok r) →
  findRepresentativeCommodityFlowLinks sched1 pick fuel self fs
  = findRepresentativeCommodityFlowLinks sched2 pick fuel self fs
  ∧ ∃ r, findRepresentativeCommodityFlowLinks sched1 pick fuel self fs = Ok r.
Proof.
  intros Hs1 Hs2 Hall. unfold findRepresentativeCommodityFlowLinks.
  destruct (stage_findRepresentativeCommodityFlowLinks fs); [eauto|].
  set (task := findRepresentativeCommodityFlowLinksByCommodity pick fuel self).
  set (xs := elements (RepCommodities self)).
  set (d := ((0, 0), (∅ : gset (nat * nat)), (∅ : gmap (nat * nat) (nat * nat)))).
  rewrite (imap_unordered_ok sched1 task d xs).
  2:{ intros x Hx. apply Hall. rewrite Hs1 in Hx. by apply elem_of_elements. }
  rewrite (imap_unordered_ok sched2 task d xs).
  2:{ intros x Hx. apply Hall. rewrite Hs2 in Hx. by apply elem_of_elements. }
  simpl. split; [|eauto].
  assert (merge_flowlinks ((λ x, returned_or d (task x)) <$> sched1 xs)
            (∅, FlowLinkMap fs)
          = merge_flowlinks ((λ x, returned_or d (task x)) <$> sched2 xs)
              (∅, FlowLinkMap fs)) as Heq; [|by rewrite Heq].
  rewrite !merge_flowlinks_folds. simpl.
  assert ((λ x, returned_or d (task x)) <$> sched1 xs
          ≡ₚ (λ x, returned_or d (task x)) <$> sched2 xs) as Hperm.
  { apply fmap_Permutation. by rewrite Hs1, Hs2. }
  assert (NoDup ((λ r : (nat * nat) * gset (nat * nat)
                        * gmap (nat * nat) (nat * nat), r.1.1)
                   <$> ((λ x, returned_or d (task x)) <$> sched1 xs))) as Hnd.
  { rewrite <- list_fmap_compose.
    assert (((λ r : (nat * nat) * gset (nat * nat)
                    * gmap (nat * nat) (nat * nat), r.1.1)
               ∘ (λ x, returned_or d (task x))) <$> sched1 xs = sched1 xs)
      as ->.
    { rewrite <- (list_fmap_id (sched1 xs)) at 2.
      apply list_fmap_ext. intros i x Hx. simpl.
      destruct (Hall x) as [r Hr].
      { apply elem_of_elements. fold xs. rewrite <- (Hs1 xs).
        by eapply list_elem_of_lookup_2. }
      unfold task. rewrite Hr. simpl. by eapply flowlinks_task_key. }
    rewrite Hs1. apply NoDup_elements. }
  f_equal.
  - by apply (foldl_insert_permutation (λ r, r.1.1) (λ r, r.1.2)).
  - by apply (foldl_insert_permutation (λ r, r.1.1) (λ r, r.2)).
Qed.

(** ** Insertion-ordered dictionaries with distinct keys *)

Lemma dict_get_Some {K V} `{EqDecision K} (k : K) (v : V) (d : list (K * V)) :
  NoDup d.*1 → dict_get k d = Some v ↔ (k, v) ∈ d.
Proof.
  induction d as [|[k' v'] d IH]; intros Hnd; simpl.
  - split; [done|]. by intros ?%elem_of_nil.
  - apply NoDup_cons in Hnd as [Hk Hnd]. rewrite elem_of_cons.
    destruct (decide (k = k')) as [->|Hne].
    + split; [intros [= ->]; by left|].
      intros [[= ->]|Hin]; [done|]. exfalso. apply Hk.
      apply list_elem_of_fmap. by exists (k', v).
    + rewrite IH by done. split; [by right|]. intros [[= ??]|?]; [done|done].
Qed.

Lemma dict_get_None {K V} `{EqDecision K} (k : K) (d : list (K * V)) :
  dict_get k d = None ↔ k ∉ d.*1.
Proof.
  induction d as [|[k' v'] d IH]; simpl.
  - split; [intros _; apply not_elem_of_nil|done].
  - rewrite not_elem_of_cons. destruct (decide (k = k')) as [->|Hne].
    + split; [done|]. by intros [? _].
    + rewrite IH. tauto.
Qed.

Lemma dict_set_keys {K V} `{EqDecision K} (k : K) (v : V) (d : list (K * V)) :
  k ∈ d.*1 → (dict_set k v d).*1 = d.*1.
Proof.
  induction d as [|[k' v'] d IH]; intros Hin; [by apply elem_of_nil in Hin|].
  simpl. destruct (decide (k = k')) as [->|Hne]; [done|].
  simpl. f_equal. apply IH. set_solver.
Qed.

Lemma dict_set_elem_of {K V} `{EqDecision K} (k : K) (v : V) (d : list (K * V))
    (k' : K) (v' : V) :
  NoDup d.*1 → k ∈ d.*1 →
  (k', v') ∈ dict_set k v d ↔ (k' = k ∧ v' = v) ∨ (k' ≠ k ∧ (k', v') ∈ d).
Proof.
  induction d as [|[k0 v0] d IH]; intros Hnd Hin; [by apply elem_of_nil in Hin|].
  apply NoDup_cons in Hnd as [Hk Hnd]. simpl.
  destruct (decide (k = k0)) as [->|Hne].
  - rewrite !elem_of_cons. split.
    + intros [[= -> ->]|Hin']; [by left|]. right. split; [|by right].
      intros ->. apply Hk. apply list_elem_of_fmap. by exists (k0, v').
    + intros [[-> ->]|[Hne [[= ??]|?]]]; [by left|done|by right].
  - rewrite !elem_of_cons, IH; [|done|set_solver]. split.
    + intros [[= -> ->]|[[-> ->]|[? ?]]]; [right|by left|right]; split; auto.
    + intros [[-> ->]|[? [[= -> ->]|?]]]; [right; by left|by left|].
      right. right. done.
Qed.

(** ** findRepresentativeLinkConstrs *)

Lemma elem_of_hset_add {T} `{EqDecision T} (x y : T) (s : list T) :
  y ∈ hset_add x s ↔ y = x ∨ y ∈ s.
Proof.
  unfold hset_add. destruct (decide (x ∈ s)); [|set_solver].
  split; [by right|]. by intros [->|?].
Qed.

Lemma chosen_member {T} (pop : list T → nat) (s : list T) :
  s ≠ [] → ∃ x, chosen pop s = Some x ∧ x ∈ s.
Proof.
  intros Hne. unfold chosen.
  destruct (lookup_lt_is_Some_2 s (pop s `mod` length s)) as [x Hx].
  { apply Nat.mod_upper_bound. by destruct s. }
  exists x. split; [done|]. by eapply list_elem_of_lookup_2.
Qed.

Section signature_classes.
Context (enc : nat * nat → list nat).

Lemma group_by_encode_grouped (done : list ((nat * nat) * list nat)) :
  grouped done (group_by_encode done).
Proof.
  unfold group_by_encode.
  assert (∀ post pre d, grouped pre d →
    grouped (pre ++ post)
      (foldl
         (λ (repgroups : list (list nat * list (nat * nat))) r,
            let repgroups :=
              match dict_get r.2 repgroups with
              | None => dict_set r.2 [] repgroups
              | Some _ => repgroups
              end in
            match dict_get r.2 repgroups with
            | Some links => dict_set r.2 (hset_add r.1 links) repgroups
            | None => repgroups
            end) d post)) as Hgen.
  { induction post as [|[l e] post IH]; intros pre d Hd.
    { by rewrite app_nil_r. }
    simpl. replace (pre ++ (l, e) :: post) with ((pre ++ [(l, e)]) ++ post)
      by (by rewrite <- app_assoc).
    apply IH. clear IH. destruct Hd as (Hnd & Hgrp & Hkeys).
    set (d1 := match dict_get e d with
               | None => dict_set e [] d
               | Some _ => d
               end).
    assert (NoDup d1.*1 ∧ e ∈ d1.*1
            ∧ (∀ e' ls, (e', ls) ∈ d1 ↔
                 (e', ls) ∈ d ∨ ((e ∉ d.*1) ∧ e' = e ∧ ls = []))) as (Hnd1 & He1 & Hd1).
    { unfold d1. destruct (dict_get e d) as [ls0|] eqn:Hget.
      - apply dict_get_Some in Hget; [|done]. split; [done|].
        assert (e ∈ d.*1) as Hin by (apply list_elem_of_fmap; by exists (e, ls0)).
        split; [done|]. intros e' ls. split; [by left|]. intros [?|[? _]]; done.
      - apply dict_get_None in Hget. rewrite dict_set_fresh by done.
        rewrite fmap_app. simpl. split; [|split].
        + apply NoDup_app. split; [done|]. split; [|apply NoDup_singleton].
          intros x Hx Hx'. apply list_elem_of_singleton in Hx' as ->. done.
        + set_solver.
        + intros e' ls. rewrite elem_of_app, list_elem_of_singleton.
          split; [intros [?|[= -> ->]]; [by left|by right]|].
          intros [?|(_ & -> & ->)]; [by left|by right]. }
    destruct (dict_get e d1) as [links|] eqn:Hget1.
    2:{ apply dict_get_None in Hget1. done. }
    apply dict_get_Some in Hget1; [|done].
    split; [|split].
    - by rewrite dict_set_keys.
    - intros e' ls Hin. apply dict_set_elem_of in Hin; [|done..].
      destruct Hin as [[-> ->]|[Hne Hin]].
      + split.
        { unfold hset_add. case_decide as Hc; [|by destruct links].
          intros ->. by apply elem_of_nil in Hc. }
        intros l'. rewrite elem_of_hset_add, elem_of_app, list_elem_of_singleton.
        assert ((l', e) = (l, e) ↔ l' = l) as ->
          by (split; [by intros [= ->]|by intros ->]).
        apply Hd1 in Hget1 as [Hold|(Hfresh & _ & ->)].
        * destruct (Hgrp e links Hold) as [_ Hmem]. rewrite Hmem. tauto.
        * rewrite elem_of_nil. split; [intros [?|[]]; by right|].
          intros [Hin|?]; [|by left]. apply Hkeys in Hin. done.
      + apply Hd1 in Hin as [Hold|(_ & -> & _)]; [|done].
        destruct (Hgrp e' ls Hold) as [Hne' Hmem]. split; [done|].
        intros l'. rewrite Hmem, elem_of_app, list_elem_of_singleton.
        split; [by left|]. intros [?|[= _ ?]]; [done|]. by subst.
    - intros l' e' Hin. rewrite dict_set_keys by done.
      apply elem_of_app in Hin as [Hin|Hin].
      + apply Hkeys in Hin. apply list_elem_of_fmap in Hin as ([e0 ls0] & -> & Hin).
        apply list_elem_of_fmap. exists (e0, ls0). split; [done|].
        apply Hd1. by left.
      + apply list_elem_of_singleton in Hin. by simplify_eq. }
  apply (Hgen done [] []). split; [constructor|].
  split; [by intros ?? ?%elem_of_nil|by intros ?? ?%elem_of_nil].
Qed.

Lemma pop_representatives_spec (pop : list (nat * nat) → nat)
    (d : list (list nat * list (nat * nat))) :
  (∀ e ls, (e, ls) ∈ d → ls ≠ []) →
  ∃ replinks, pop_representatives pop d = Ok replinks
    ∧ ∀ x, x ∈ replinks ↔ ∃ e ls, (e, ls) ∈ d ∧ chosen pop ls = Some x.
Proof.
  intros Hne. unfold pop_representatives, dict_values.
  destruct (for_each_total
    (λ (replinks : gset (nat * nat)) (links : list (nat * nat)),
       popped ← hset_pop pop links;
       Ok (replinks ∪ {[popped.1]}))
    (λ pre replinks, ∀ x, x ∈ replinks ↔ ∃ ls, ls ∈ pre ∧ chosen pop ls = Some x)
    (d.*2) ∅) as (replinks & Hrun & Hinv).
  - intros x. split; [set_solver|]. intros (ls & Hin & _). by apply elem_of_nil in Hin.
  - intros pre ls post R Hsplit Hinv.
    assert (ls ∈ d.*2) as Hls by (rewrite Hsplit; set_solver).
    apply list_elem_of_fmap in Hls as ([e ls'] & -> & Hin). simpl in *.
    destruct (chosen_member pop ls' (Hne e ls' Hin)) as (x & Hx & _).
    unfold hset_pop. unfold chosen in Hx. rewrite Hx. simpl.
    eexists. split; [done|]. intros y. rewrite elem_of_union, elem_of_singleton.
    rewrite Hinv. split.
    + intros [(ls0 & Hl0 & Hc0)| ->].
      * exists ls0. split; [set_solver|done].
      * exists ls'. split; [set_solver|done].
    + intros (ls0 & Hl0 & Hc0). apply elem_of_app in Hl0 as [Hl0|Hl0].
      * left. by exists ls0.
      * apply list_elem_of_singleton in Hl0 as ->. right.
        unfold chosen in Hc0. congruence.
  - exists replinks. split; [done|]. intros x. rewrite Hinv. split.
    + intros (ls & Hin & Hc). apply list_elem_of_fmap in Hin as ([e ls'] & -> & Hin).
      by exists e, ls'.
    + intros (e & ls & Hin & Hc). exists ls. split; [|done].
      apply list_elem_of_fmap. by exists (e, ls).
Qed.

(** One representative per signature class, whatever the arrival order
    and whichever member [pop()] hands out. *)
Lemma representatives_per_class (pop : list (nat * nat) → nat)
    (xs : list (nat * nat)) :
  ∃ replinks,
    pop_representatives pop (group_by_encode ((λ l, (l, enc l)) <$> xs))
      = Ok replinks
    ∧ (∀ r, r ∈ replinks → r ∈ xs)
    ∧ ∀ l, l ∈ xs →
        ∃ r, r ∈ replinks ∧ enc r = enc l
             ∧ ∀ r', r' ∈ replinks → enc r' = enc l → r' = r.
Proof.
  set (done := (λ l, (l, enc l)) <$> xs).
  destruct (group_by_encode_grouped done) as (Hnd & Hgrp & Hkeys).
  assert (∀ l e, (l, e) ∈ done ↔ l ∈ xs ∧ e = enc l) as Hdone.
  { intros l e. unfold done. rewrite list_elem_of_fmap. split.
    - by intros (l' & [= -> ->] & ?).
    - intros [? ->]. by exists l. }
  destruct (pop_representatives_spec pop (group_by_encode done))
    as (replinks & Hrun & Hreps).
  { intros e ls Hin. by apply (Hgrp e ls). }
  exists replinks. split; [done|].
  assert (∀ r, r ∈ replinks →
            ∃ ls, (enc r, ls) ∈ group_by_encode done ∧ chosen pop ls = Some r
                  ∧ r ∈ xs) as Hrep.
  { intros r Hr. apply Hreps in Hr as (e & ls & Hin & Hc).
    assert (r ∈ ls) as Hrl.
    { unfold chosen in Hc. by eapply list_elem_of_lookup_2. }
    apply (Hgrp e ls Hin), Hdone in Hrl as [? ->]. by exists ls. }
  split.
  - intros r Hr. by destruct (Hrep r Hr) as (? & _ & _ & ?).
  - intros l Hl.
    assert (enc l ∈ (group_by_encode done).*1) as Hk
      by (apply (Hkeys l), Hdone; done).
    apply list_elem_of_fmap in Hk as ([e ls] & He & Hin). simpl in He. subst e.
    destruct (Hgrp (enc l) ls Hin) as [Hne Hmem].
    destruct (chosen_member pop ls Hne) as (r & Hc & Hrl).
    apply Hmem, Hdone in Hrl as [Hrx Hre].
    exists r. split; [apply Hreps; by exists (enc l), ls|]. split; [done|].
    intros r' Hr' Henc. destruct (Hrep r' Hr') as (ls' & Hin' & Hc' & _).
    rewrite Henc in Hin'.
    assert (ls' = ls) as ->.
    { apply (dict_get_Some (enc l)) in Hin, Hin'; [|done..]. congruence. }
    congruence.
Qed.
End signature_classes.

Lemma encodeLinkConstraint_link self fs link r :
  encodeLinkConstraint self fs link = Ok r → r.1 = link.
Proof.
  unfold encodeLinkConstraint. intros Hrun.
  apply bind_Ok in Hrun as (count & _ & Hrun). by simplify_eq.
Qed.

Lemma findRepresentativeLinkConstrs_spec
    (sched : list (nat * nat) → list (nat * nat))
    (pop : list (nat * nat) → nat) (self : Topology) (fs : Files) :
  (∀ l, sched l ≡ₚ l) →
  (∀ link, link ∈ DLinks self →
     ∃ e, encodeLinkConstraint self fs link = Ok (link, e)) →
  stage_findRepresentativeLinkConstrs fs = None →
  ∃ replinks,
    findRepresentativeLinkConstrs sched pop self fs
      = Ok (set_RepLinkConstrs self replinks,
            set_stage_LinkConstrs fs (Some replinks))
    ∧ one_per_class self fs replinks.
Proof.
  intros Hsched Henc Hstage. unfold findRepresentativeLinkConstrs.
  rewrite Hstage.
  set (xs := elements (DLinks self)).
  set (d := ((0, 0), ([] : list nat))).
  rewrite (imap_unordered_ok sched (encodeLinkConstraint self fs) d xs).
  2:{ intros x Hx. rewrite Hsched in Hx. apply elem_of_elements in Hx.
      destruct (Henc x Hx) as [e He]. eauto. }
  simpl.
  set (enc := λ l, (returned_or d (encodeLinkConstraint self fs l)).2).
  assert ((λ x, returned_or d (encodeLinkConstraint self fs x)) <$> sched xs
          = (λ l, (l, enc l)) <$> sched xs) as ->.
  { apply list_fmap_ext. intros i x Hx.
    assert (x ∈ DLinks self) as HxD.
    { apply elem_of_elements. fold xs. rewrite <- (Hsched xs).
      by eapply list_elem_of_lookup_2. }
    unfold enc. destruct (Henc x HxD) as [e He]. rewrite He. done. }
  destruct (representatives_per_class enc pop (sched xs))
    as (replinks & Hrun & Hsub & Hcls).
  rewrite Hrun. simpl. exists replinks. split; [done|].
  assert (∀ l, l ∈ DLinks self →
            encodeLinkConstraint self fs l = Ok (l, enc l)) as Hencl.
  { intros l Hl. unfold enc. destruct (Henc l Hl) as [e He]. by rewrite He. }
  split.
  - intros r Hr. apply Hsub in Hr. rewrite Hsched in Hr.
    by apply elem_of_elements in Hr.
  - intros link Hl.
    destruct (Hcls link) as (rep & Hrep & Heq & Huniq).
    { rewrite Hsched. by apply elem_of_elements. }
    assert (rep ∈ DLinks self) as HrepD.
    { apply Hsub in Hrep. rewrite Hsched in Hrep. by apply elem_of_elements in Hrep. }
    exists rep. split; [done|]. split.
    + exists (enc link). rewrite (Hencl rep HrepD), (Hencl link Hl), Heq. done.
    + intros rep' Hrep' (e & He1 & He2). apply Huniq; [done|].
      unfold enc. by rewrite He1, He2.
Qed.

(** The sample states are the outcomes of complete runs of the pipeline. *)
Lemma pair_aux_run_ok : pair_aux_run = Ok (pair_aux_topo, pair_aux_files).
Proof. vm_compute. reflexivity. Qed.

Lemma pair_run_ok : pair_run = Ok (pair_topo, pair_files).
Proof. vm_compute. reflexivity. Qed.

Lemma pendant_run_ok : pendant_run = Ok (pendant_topo, pendant_files).
Proof. vm_compute. reflexivity. Qed.

Lemma pair_opt_ok : createVariables pair_topo = Ok pair_opt.
Proof. vm_compute. reflexivity. Qed.

Lemma pair_route_ok :
  expand_routing pair_files pair_opt (solved OPTIMAL [Var_r]) = Ok pair_route.
Proof. vm_compute. reflexivity. Qed.

Lemma pendant_route_ok :
  expand_routing pendant_files pendant_opt (solved OPTIMAL [Var_r])
  = Ok pendant_route.
Proof. vm_compute. reflexivity. Qed.

(** C1, counterexample: on the two-host topology the only representative
    link constraint is (0, 1), yet the per-link program is also solved for
    (1, 0); and with a cached value the call returns nothing. *)
Lemma verify_solves_non_representative_link :
  let v := verifyAllLinkLoad id sum_solver pair_files pair_verification
             no_output in
  RepLinkConstrs (vTopo pair_verification) = {[(0, 1)]}
  ∧ solved_links v = [(0, 1); (1, 0)]
  ∧ ¬ (∀ link, link ∈ solved_links v →
         link ∈ RepLinkConstrs (vTopo pair_verification))
  ∧ returned (verifyAllLinkLoad id sum_solver pair_files pair_verification
                (set_VerifiedThroughput no_output 1%Qc)) = Ok None
  ∧ returned (verifyAllLinkLoad id sum_solver pair_files pair_verification
                (set_VerifiedThroughput no_output 1%Qc)) ≠ Ok (Some (1%Qc, 1%Qc)).
Proof.
  cbv zeta. split; [by_compute|]. split; [vm_compute; reflexivity|]. split.
  - intros Hall. specialize (Hall (1, 0)).
    assert ((1, 0) ∉ RepLinkConstrs (vTopo pair_verification)) as Hn
      by by_compute.
    apply Hn, Hall.
    assert (solved_links (verifyAllLinkLoad id sum_solver pair_files
                            pair_verification no_output) = [(0, 1); (1, 0)])
      as -> by (vm_compute; reflexivity).
    set_solver.
  - split; [vm_compute; reflexivity|]. vm_compute. intros Heq. discriminate Heq.
Qed.

Lemma verify_solves_every_directed_link_witness :
  ((VerifiedThroughput no_output = None →
      solved_links (verifyAllLinkLoad id sum_solver pair_files
                      pair_verification no_output)
        ≡ₚ elements (DLinks (vTopo pair_verification)))
   ∧ (∀ cached, VerifiedThroughput no_output = Some cached →
        solved_links (verifyAllLinkLoad id sum_solver pair_files
                        pair_verification no_output) = []
        ∧ output_after (verifyAllLinkLoad id sum_solver pair_files
                          pair_verification no_output) = no_output
        ∧ (cached ≠ 0%Qc →
             returned (verifyAllLinkLoad id sum_solver pair_files
                         pair_verification no_output) = Ok None)
        ∧ (cached = 0%Qc →
             returned (verifyAllLinkLoad id sum_solver pair_files
                         pair_verification no_output)
             = Raise ZeroDivisionError)))
  ∧ ((VerifiedThroughput (set_VerifiedThroughput no_output 1%Qc) = None →
        solved_links (verifyAllLinkLoad id sum_solver pair_files
                        pair_verification
                        (set_VerifiedThroughput no_output 1%Qc))
          ≡ₚ elements (DLinks (vTopo pair_verification)))
     ∧ (∀ cached,
          VerifiedThroughput (set_VerifiedThroughput no_output 1%Qc)
          = Some cached →
          solved_links (verifyAllLinkLoad id sum_solver pair_files
                          pair_verification
                          (set_VerifiedThroughput no_output 1%Qc)) = []
          ∧ output_after (verifyAllLinkLoad id sum_solver pair_files
                            pair_verification
                            (set_VerifiedThroughput no_output 1%Qc))
            = set_VerifiedThroughput no_output 1%Qc
          ∧ (cached ≠ 0%Qc →
               returned (verifyAllLinkLoad id sum_solver pair_files
                           pair_verification
                           (set_VerifiedThroughput no_output 1%Qc))
               = Ok None)
          ∧ (cached = 0%Qc →
               returned (verifyAllLinkLoad id sum_solver pair_files
                           pair_verification
                           (set_VerifiedThroughput no_output 1%Qc))
               = Raise ZeroDivisionError))).
Proof.
  split.
  - apply (verify_solves_every_directed_link id sum_solver pair_files
             pair_verification no_output).
    + done.
    + intros link Hin. members Hin; eexists; vm_compute; reflexivity.
  - apply (verify_solves_every_directed_link id sum_solver pair_files
             pair_verification (set_VerifiedThroughput no_output 1%Qc)).
    + done.
    + intros link Hin. members Hin; eexists; vm_compute; reflexivity.
Defined.

(** C2 at a concrete run: two hosts, solver stopped on its time limit. *)
Lemma time_limit_on_pair_topology :
  (computeOptimalSolution pair_files pair_opt (solved TIME_LIMIT [Var_r])
     no_output).1 = Raise (NameError "M")
  ∧ IntermediateSolution
      (computeOptimalSolution pair_files pair_opt (solved TIME_LIMIT [Var_r])
         no_output).2 = None.
Proof. split; vm_compute; reflexivity. Qed.

Lemma signature_halves_equal_witness :
  ∃ count1 count2,
    encodeLinkConstraint_count pair_topo pair_files (0, 1) = Ok count1
    ∧ encodeLinkConstraint_count pair_topo pair_files (1, 0) = Ok count2
    ∧ (∀ auxidx, auxidx ∈ RepAuxiliarys pair_topo →
         dict_get (tag_b, auxidx) count1
           = Some (class_count pair_topo pair_files (0, 1) auxidx)
         ∧ dict_get (tag_g, auxidx) count1
           = Some (class_count pair_topo pair_files (0, 1) auxidx))
    ∧ (dict_values count1 = dict_values count2
       ↔ ∀ auxidx, auxidx ∈ RepAuxiliarys pair_topo →
           class_count pair_topo pair_files (0, 1) auxidx
           = class_count pair_topo pair_files (1, 0) auxidx).
Proof.
  eexists _, _. split; [vm_compute; reflexivity|].
  split; [vm_compute; reflexivity|].
  refine (let H := signature_halves_equal pair_topo pair_files (0, 1) (1, 0)
                     _ _ _ _ in conj (proj1 H) (proj2 (proj2 (proj2 H))));
    vm_compute; reflexivity.
Defined.

Lemma pair_closed_commodities g c :
  g ∈ Autgen pair_start → c ∈ Commodities pair_start →
  act2 g c ∈ Commodities pair_start.
Proof. intros Hg Hc. list_members Hg. members Hc; by_compute. Qed.

Lemma pair_closed_hosts g u :
  g ∈ Autgen pair_start → u ∈ HostNodes pair_start →
  act g u ∈ HostNodes pair_start.
Proof. intros Hg Hu. list_members Hg. members Hu; by_compute. Qed.

Lemma commodity_orbits_partition_witness :
  ∃ self' fs',
    findRepresentativeCommodities (λ _ _, 0) 100 pair_start no_files
      = Ok (self', fs')
    ∧ (∀ c, c ∈ Commodities pair_start →
         ∃ r G, r ∈ RepCommodities self'
           ∧ CommodityGroup fs' !! r = Some G ∧ c ∈ G
           ∧ ∀ r' G', r' ∈ RepCommodities self' →
               CommodityGroup fs' !! r' = Some G' → c ∈ G' → r' = r)
    ∧ (∀ r, r ∈ RepCommodities self' →
         ∃ G, CommodityGroup fs' !! r = Some G ∧ r ∈ G
              ∧ G ⊆ Commodities pair_start)
    ∧ (∀ r G g c, r ∈ RepCommodities self' →
         CommodityGroup fs' !! r = Some G → g ∈ Autgen pair_start → c ∈ G →
         ∃ c', applyGenerator2 c g = Ok c' ∧ c' ∈ Commodities pair_start
               ∧ c' ∈ G).
Proof.
  apply (commodity_orbits_partition 2 (λ _ _, 0) 100 pair_start no_files).
  - by_compute.
  - reflexivity.
  - by_compute.
  - apply pair_closed_commodities.
  - reflexivity.
  - by_compute.
Defined.

Lemma commodity_maps_round_trip_witness :
  ∃ self' fs',
    findRepresentativeCommodities (λ _ _, 0) 100 pair_start no_files
      = Ok (self', fs')
    ∧ ∀ r G m, r ∈ RepCommodities self' →
        CommodityGroup fs' !! r = Some G → m ∈ G →
        ∃ f rv,
          AutomorphicMap_Forward fs' !! m = Some f
          ∧ AutomorphicMap_Reverse fs' !! m = Some rv
          ∧ f ≡ₚ seq 0 2
          ∧ length rv = 2
          ∧ applyGenerator2 r f = Ok m
          ∧ applyGenerator2 m rv = Ok (Some r.1, Some r.2)
          ∧ (∀ i j, f !! i = Some j ↔ rv !! j = Some (Some i))
          ∧ (m = r → f = seq 0 2 ∧ rv = Some <$> seq 0 2).
Proof.
  apply (commodity_maps_round_trip 2 (λ _ _, 0) 100 pair_start no_files).
  - by_compute.
  - reflexivity.
  - by_compute.
  - apply pair_closed_commodities.
  - reflexivity.
  - by_compute.
Defined.

Lemma same_orbit_same_signature_witness :
  ∃ self' fs',
    aux_stage (λ _ _, 0) 100 pair_start no_files = Ok (self', fs')
    ∧ ∀ link1 link2,
        link1 ∈ DLinks self' → link2 ∈ DLinks self' →
        same_orbit 2 (Autgen self') link1 link2 →
        ∃ encode,
          encodeLinkConstraint self' fs' link1 = Ok (link1, encode)
          ∧ encodeLinkConstraint self' fs' link2 = Ok (link2, encode).
Proof.
  apply (same_orbit_same_signature 2 (λ _ _, 0) 100 pair_start no_files).
  - by_compute.
  - by_compute.
  - by_compute.
  - apply pair_closed_hosts.
  - reflexivity.
  - by_compute.
Defined.

Lemma auxtorep_total_witness :
  ∃ self' fs',
    aux_stage (λ _ _, 0) 100 pair_start no_files = Ok (self', fs')
    ∧ HostNodes self' = HostNodes pair_start
    ∧ DLinks self' = DLinks pair_start
    ∧ (∀ u i j, u ∈ HostNodes pair_start → (i, j) ∈ DLinks pair_start →
         ∃ auxtorep r,
           loadAuxToRep fs' u = Ok auxtorep
           ∧ auxtorep !! (i, j) = Some r
           ∧ r ∈ RepAuxiliarys self')
    ∧ (∀ link, link ∈ DLinks pair_start →
         ∃ e, encodeLinkConstraint self' fs' link = Ok (link, e))
    ∧ (∀ replinks opt,
         replinks ⊆ DLinks pair_start →
         createVariables (set_RepLinkConstrs self' replinks) = Ok opt →
         ∃ opt', setAuxThroughputConstraint fs' opt = Ok opt')
    ∧ (∀ replinks opt,
         createVariables (set_RepLinkConstrs self' replinks) = Ok opt →
         (∀ repsd, repsd ∈ RepCommodities pair_start →
            repsd.1 ∈ HostNodes pair_start ∧ repsd.2 ∈ HostNodes pair_start) →
         (∀ repsd links, RepCommFlowLinks pair_start !! repsd = Some links →
            links ⊆ DLinks pair_start) →
         (∀ l, l ∈ DLinks pair_start →
            get_edge_data (UG pair_start) l.1 l.2 ≠ Some 0%Qc) →
         ∃ opt', setAuxFlowConstraint fs' opt = Ok opt').
Proof.
  apply (auxtorep_total 2 (λ _ _, 0) 100 pair_start no_files).
  - by_compute.
  - by_compute.
  - by_compute.
  - reflexivity.
  - by_compute.
Defined.

(** ** setUGraph *)

Lemma setUGraph_Ok (ugraph : Graph) (autgen : list (list nat)) (self : Topology) :
  setUGraph ugraph autgen = Ok self →
  list_to_set (nodes ugraph) =@{gset nat} U1 (number_of_nodes ugraph)
  ∧ UG self = ugraph
  ∧ Autgen self = autgen
  ∧ RouteNodes self
    = list_to_set (filter (λ n, routing ugraph n = true) (nodes ugraph))
  ∧ NonRouteNodes self
    = list_to_set (filter (λ n, routing ugraph n = false) (nodes ugraph))
  ∧ AllNodes self = RouteNodes self ∪ NonRouteNodes self
  ∧ HostNodes self
    = list_to_set (filter (λ n, 0 < numServer ugraph n) (nodes ugraph))
  ∧ Commodities self
    = list_to_set (s ← elements (HostNodes self);
                   d ← elements (HostNodes self);
                   if decide (s = d) then [] else [(s, d)])
  ∧ ULinks self = list_to_set (fst <$> edges ugraph)
  ∧ DLinks self
    = ULinks self ∪ set_map (λ l : nat * nat, (l.2, l.1)) (ULinks self).
Proof.
  unfold setUGraph. case_decide as Hn; [|done]. intros [= <-]. simpl.
  split; [|done].
  rewrite Hn. unfold U1. apply set_eq. intros x.
  rewrite elem_of_list_to_set, elem_of_set_seq, elem_of_seq. lia.
Qed.

Lemma list_to_set_seq_U1 (n : nat) : list_to_set (seq 0 n) =@{gset nat} U1 n.
Proof.
  unfold U1. apply set_eq. intros x.
  rewrite elem_of_list_to_set, elem_of_set_seq, elem_of_seq. lia.
Qed.

(** X1: run without a stage file, [setUGraph] raises [AssertionError]
    exactly when the node labels
    are not [0 .. n-1] for [n] the number of nodes.  Otherwise it returns,
    [AllNodes] is [{0, .., n-1}] and is split into [RouteNodes] and
    [NonRouteNodes]: the two are disjoint, a node is in [RouteNodes] iff
    its [routing] attribute is true, and in [HostNodes] iff its
    [numServer] attribute is positive. *)
Theorem setUGraph_node_sets (ugraph : Graph) (autgen : list (list nat)) :
  let n := number_of_nodes ugraph in
  (list_to_set (nodes ugraph) ≠@{gset nat} U1 n →
     setUGraph ugraph autgen = Raise AssertionError)
  ∧ (list_to_set (nodes ugraph) =@{gset nat} U1 n →
     ∃ self, setUGraph ugraph autgen = Ok self
       ∧ AllNodes self = U1 n
       ∧ RouteNodes self ∪ NonRouteNodes self = AllNodes self
       ∧ RouteNodes self ## NonRouteNodes self
       ∧ (∀ v, v ∈ RouteNodes self ↔ v < n ∧ routing ugraph v = true)
       ∧ (∀ v, v ∈ HostNodes self ↔ v < n ∧ 0 < numServer ugraph v)).
Proof.
  intros n. split.
  - intros Hne. unfold setUGraph. case_decide as Hn; [|done].
    exfalso. apply Hne. rewrite Hn. apply list_to_set_seq_U1.
  - intros Heq.
    assert (∀ v, v ∈ nodes ugraph ↔ v < n) as Hnodes.
    { intros v. rewrite <- (elem_of_list_to_set (C:=gset nat)), Heq.
      apply elem_of_U1. }
    unfold setUGraph. case_decide as Hn.
    2:{ exfalso. apply Hn. rewrite Heq. symmetry. apply list_to_set_seq_U1. }
    eexists. split; [done|]. simpl. split_and!.
    + apply set_eq. intros v. rewrite elem_of_union, !elem_of_list_to_set,
        !list_elem_of_filter, elem_of_U1, !Hnodes.
      destruct (routing ugraph v); naive_solver.
    + done.
    + intros v. rewrite !elem_of_list_to_set, !list_elem_of_filter.
      intros [Ht _] [Hf _]. congruence.
    + intros v. rewrite elem_of_list_to_set, list_elem_of_filter, Hnodes.
      naive_solver.
    + intros v. rewrite elem_of_list_to_set, list_elem_of_filter, Hnodes.
      naive_solver.
Qed.

Lemma elem_of_distinct_pairs (l : list nat) (s d : nat) :
  (s, d) ∈ (s ← l; d ← l; if decide (s = d) then [] else [(s, d)])
  ↔ s ∈ l ∧ d ∈ l ∧ s ≠ d.
Proof.
  rewrite list_elem_of_bind. split.
  - intros (s' & Hin & Hs). apply list_elem_of_bind in Hin as (d' & Hin & Hd).
    case_decide; [by apply elem_of_nil in Hin|].
    apply list_elem_of_singleton in Hin. by simplify_eq.
  - intros (Hs & Hd & Hne). exists s. split; [|done].
    apply list_elem_of_bind. exists d. split; [|done].
    case_decide; [done|]. by apply list_elem_of_singleton.
Qed.

Lemma length_distinct_from (l : list nat) (s : nat) :
  NoDup l → s ∈ l →
  length (d ← l; if decide (s = d) then [] else [(s, d)]) = length l - 1.
Proof.
  assert (∀ k, s ∉ k →
    length (d ← k; if decide (s = d) then [] else [(s, d)]) = length k) as Hout.
  { induction k as [|b k IH]; intros Hb; [done|]. rewrite bind_cons, length_app.
    rewrite IH by set_solver. case_decide; [set_solver|done]. }
  induction l as [|a l IH]; intros Hnd Hs; [by apply elem_of_nil in Hs|].
  apply NoDup_cons in Hnd as [Ha Hnd]. rewrite bind_cons, length_app.
  destruct (decide (s = a)) as [->|Hne].
  - rewrite Hout by done. simpl. lia.
  - apply elem_of_cons in Hs as [?|Hs]; [done|]. rewrite IH by done.
    destruct l; [by apply elem_of_nil in Hs|simpl; lia].
Qed.

Lemma NoDup_distinct_pairs (l : list nat) :
  NoDup l → NoDup (s ← l; d ← l; if decide (s = d) then [] else [(s, d)]).
Proof.
  intros Hnd. apply NoDup_bind; [| |done].
  - intros s1 s2 p _ _ H1 H2.
    apply list_elem_of_bind in H1 as (d1 & H1 & _).
    apply list_elem_of_bind in H2 as (d2 & H2 & _).
    repeat case_decide; try (by apply elem_of_nil in H1);
      try (by apply elem_of_nil in H2).
    apply list_elem_of_singleton in H1, H2. by simplify_eq.
  - intros s _. apply NoDup_bind; [| |done].
    + intros d1 d2 p _ _ H1 H2.
      repeat case_decide; try (by apply elem_of_nil in H1);
        try (by apply elem_of_nil in H2).
      apply list_elem_of_singleton in H1, H2. by simplify_eq.
    + intros d _. case_decide; [constructor|apply NoDup_singleton].
Qed.

Lemma length_distinct_pairs (l : list nat) :
  NoDup l →
  length (s ← l; d ← l; if decide (s = d) then [] else [(s, d)])
  = length l * (length l - 1).
Proof.
  intros Hnd.
  assert (∀ k, k ⊆ l →
    length (s ← k; d ← l; if decide (s = d) then [] else [(s, d)])
    = length k * (length l - 1)) as Hgen.
  { induction k as [|a k IH]; intros Hsub; [done|].
    rewrite bind_cons, length_app, IH by set_solver.
    rewrite length_distinct_from; [simpl; lia|done|set_solver]. }
  by apply Hgen.
Qed.

(** X2: after [setUGraph] (run without a stage file), [Commodities] is
    exactly the set of ordered
    pairs of distinct host nodes, so there are [h * (h - 1)] commodities
    for [h] host nodes. *)
Theorem setUGraph_commodities (ugraph : Graph) (autgen : list (list nat))
    (self : Topology) :
  setUGraph ugraph autgen = Ok self →
  (∀ s d, (s, d) ∈ Commodities self
          ↔ s ∈ HostNodes self ∧ d ∈ HostNodes self ∧ s ≠ d)
  ∧ size (Commodities self)
    = size (HostNodes self) * (size (HostNodes self) - 1).
Proof.
  intros Hrun. apply setUGraph_Ok in Hrun
    as (_ & _ & _ & _ & _ & _ & _ & Hc & _). rewrite Hc. split.
  - intros s d. rewrite elem_of_list_to_set, elem_of_distinct_pairs.
    by rewrite !elem_of_elements.
  - rewrite size_list_to_set by apply NoDup_distinct_pairs, NoDup_elements.
    by rewrite length_distinct_pairs by apply NoDup_elements.
Qed.

Lemma setUGraph_commodities_witness :
  (∀ s d, (s, d) ∈ Commodities pair_start
          ↔ s ∈ HostNodes pair_start ∧ d ∈ HostNodes pair_start ∧ s ≠ d)
  ∧ size (Commodities pair_start)
    = size (HostNodes pair_start) * (size (HostNodes pair_start) - 1).
Proof.
  apply (setUGraph_commodities pair_graph pair_autgen pair_start).
  vm_compute. reflexivity.
Defined.

(** *** Directed links, edge data and neighbours *)

Lemma get_edge_data_is_Some (G : Graph) (i j : nat) :
  is_Some (get_edge_data G i j)
  ↔ ∃ e, e ∈ edges G ∧ (e.1 = (i, j) ∨ e.1 = (j, i)).
Proof.
  unfold get_edge_data.
  destruct (list_find _ (edges G)) as [[k e]|] eqn:Hfind.
  - apply list_find_Some in Hfind as (Hk & He & _). split; [|by eauto].
    intros _. exists e. split; [|done]. by eapply list_elem_of_lookup_2.
  - apply list_find_None in Hfind. rewrite Forall_forall in Hfind. split.
    + by intros [? ?].
    + intros (e & He & Hor). by apply Hfind in He.
Qed.

Lemma elem_of_adj (G : Graph) (i j : nat) :
  j ∈ adj G i ↔ ∃ e, e ∈ edges G ∧ (e.1 = (i, j) ∨ e.1 = (j, i)).
Proof.
  unfold adj. rewrite elem_of_remove_dups, list_elem_of_omap. split.
  - intros (e & He & Hsel). exists e. split; [done|].
    destruct e as [[a b] c]. simpl in *.
    repeat case_decide; simplify_eq; auto.
  - intros (e & He & Hor). exists e. split; [done|].
    destruct e as [[a b] c]. simpl in *.
    repeat case_decide; destruct Hor; simplify_eq; auto.
Qed.

Lemma neighbors_Ok (G : Graph) (i : nat) (hs : list nat) :
  neighbors G i = Ok hs ↔ i ∈ nodes G ∧ hs = adj G i.
Proof.
  unfold neighbors. case_decide; split.
  - intros [= <-]. done.
  - intros [_ ->]. done.
  - done.
  - intros [? _]. done.
Qed.

Lemma neighbors_in_graph (G : Graph) (i : nat) :
  i ∈ nodes G → neighbors G i = Ok (adj G i).
Proof. intros Hi. by apply neighbors_Ok. Qed.

Lemma elem_of_neighbors (G : Graph) (i j : nat) :
  graph_ok G →
  (∃ hs, neighbors G i = Ok hs ∧ j ∈ hs)
  ↔ ∃ e, e ∈ edges G ∧ (e.1 = (i, j) ∨ e.1 = (j, i)).
Proof.
  intros Hok. split.
  - intros (hs & Hnb & Hj). apply neighbors_Ok in Hnb as [_ ->].
    by apply elem_of_adj.
  - intros (e & He & Hor). exists (adj G i). split.
    + apply neighbors_in_graph. destruct (Hok e He) as [H1 H2].
      destruct Hor as [Heq|Heq]; rewrite Heq in *; done.
    + apply elem_of_adj. eauto.
Qed.

Lemma elem_of_DLinks (ugraph : Graph) (autgen : list (list nat))
    (self : Topology) (i j : nat) :
  setUGraph ugraph autgen = Ok self →
  (i, j) ∈ DLinks self
  ↔ ∃ e, e ∈ edges ugraph ∧ (e.1 = (i, j) ∨ e.1 = (j, i)).
Proof.
  intros Hrun. apply setUGraph_Ok in Hrun
    as (_ & _ & _ & _ & _ & _ & _ & _ & Hu & Hd). rewrite Hd, Hu.
  rewrite elem_of_union, elem_of_map. setoid_rewrite elem_of_list_to_set.
  setoid_rewrite list_elem_of_fmap. split.
  - intros [(e & He & Hin)|(l & Hl & (e & He & Hin))].
    + exists e. split; [done|]. by left.
    + exists e. split; [done|]. right. destruct l. by simplify_eq/=.
  - intros (e & Hin & [He|He]).
    + left. by exists e.
    + right. exists (j, i). split; [done|]. by exists e.
Qed.

(** X3: after [setUGraph] (run without a stage file) on a graph whose
    edges join nodes of the
    graph, [DLinks] contains [ULinks], lies within the node range and is
    symmetric; a pair [(i, j)] is a directed link exactly when
    [UG.get_edge_data(i, j)] is defined, and exactly when
    [UG.neighbors(i)] returns and [j] is among the nodes it yields. *)
Theorem setUGraph_directed_links (ugraph : Graph) (autgen : list (list nat))
    (self : Topology) :
  graph_ok ugraph →
  setUGraph ugraph autgen = Ok self →
  ULinks self ⊆ DLinks self
  ∧ DLinks self ⊆ U2 (number_of_nodes ugraph)
  ∧ ∀ i j,
      ((i, j) ∈ DLinks self ↔ (j, i) ∈ DLinks self)
      ∧ ((i, j) ∈ DLinks self ↔ is_Some (get_edge_data (UG self) i j))
      ∧ ((i, j) ∈ DLinks self
         ↔ ∃ hs, neighbors (UG self) i = Ok hs ∧ j ∈ hs).
Proof.
  intros Hok Hrun.
  pose proof (setUGraph_Ok _ _ _ Hrun)
    as (Hnodes & HUG & _ & _ & _ & _ & _ & _ & Hu & Hd).
  split; [rewrite Hd; set_solver|]. split.
  - intros [i j] Hin. apply (elem_of_DLinks _ _ _ i j Hrun) in Hin
      as (e & He & Hor).
    destruct (Hok e He) as [H1 H2].
    rewrite <- (elem_of_list_to_set (C:=gset nat)), Hnodes, elem_of_U1 in H1, H2.
    apply elem_of_U2. simpl. destruct Hor as [Heq|Heq]; rewrite Heq in *;
      simpl in *; lia.
  - intros i j. rewrite HUG, get_edge_data_is_Some, (elem_of_neighbors _ _ _ Hok).
    rewrite !(elem_of_DLinks _ _ _ _ _ Hrun). split_and!; [|done..].
    split; intros (e & He & Hor); exists e; (split; [done|]); tauto.
Qed.

Lemma setUGraph_directed_links_witness :
  ULinks pair_start ⊆ DLinks pair_start
  ∧ DLinks pair_start ⊆ U2 (number_of_nodes pair_graph)
  ∧ ∀ i j,
      ((i, j) ∈ DLinks pair_start ↔ (j, i) ∈ DLinks pair_start)
      ∧ ((i, j) ∈ DLinks pair_start
         ↔ is_Some (get_edge_data (UG pair_start) i j))
      ∧ ((i, j) ∈ DLinks pair_start
         ↔ ∃ hs, neighbors (UG pair_start) i = Ok hs ∧ j ∈ hs).
Proof.
  apply (setUGraph_directed_links pair_graph pair_autgen pair_start).
  - by_compute.
  - vm_compute. reflexivity.
Defined.

(** ** findRepresentativeCommodityFlowLinksByCommodity *)

Lemma involve_act (n : nat) (g : list nat) (x : nat) :
  wf_gen n g → x < n → involve x g = Ok (bool_decide (act g x ≠ x)).
Proof.
  intros Hg Hx. unfold involve. by rewrite (act_lookup n g x Hg Hx).
Qed.

Lemma for_each_cons {A S} (f : S → A → result S) (a : A) (l : list A) (s : S) :
  for_each f (a :: l) s = f s a ≫= for_each f l.
Proof. done. Qed.

Lemma result_bind_Ok {A B} (a : A) (f : A → result B) : Ok a ≫= f = f a.
Proof. done. Qed.

Lemma orRaise_Some_bind {A C} (e : exn) (a : A) (k : A → result C) :
  orRaise e (Some a) ≫= k = k a.
Proof. done. Qed.

Lemma orRaise_Ok {A} (e : exn) (o : option A) (a : A) :
  orRaise e o = Ok a → o = Some a.
Proof. destruct o; simpl; congruence. Qed.

Lemma stabilizer_spec (n : nat) (gens : list (list nat)) (repsd : nat * nat) :
  Forall (wf_gen n) gens → repsd ∈ U2 n →
  stabilizer gens repsd = Ok (filter (fixes repsd) gens).
Proof.
  intros Hgens Hr. apply elem_of_U2 in Hr as [Hs Hd]. unfold stabilizer.
  assert (∀ acc,
    for_each
      (λ (acc : list (list nat)) (autmap : list nat),
         involve repsd.1 autmap ≫= λ i0 : bool,
         if i0 then Ok acc
         else
           involve repsd.2 autmap ≫= λ i1 : bool,
           if i1 then Ok acc else Ok (acc ++ [autmap]))
      gens acc = Ok (acc ++ filter (fixes repsd) gens)) as Hgen;
    [|exact (Hgen [])].
  induction Hgens as [|g gens Hg _ IH]; intros acc.
  { by rewrite app_nil_r. }
  rewrite for_each_cons, (involve_act n g _ Hg Hs), result_bind_Ok.
  rewrite filter_cons. unfold fixes at 2.
  destruct (decide (act g repsd.1 = repsd.1)) as [H1|H1].
  - rewrite bool_decide_eq_false_2 by naive_solver.
    rewrite (involve_act n g _ Hg Hd), result_bind_Ok.
    destruct (decide (act g repsd.2 = repsd.2)) as [H2|H2].
    + rewrite bool_decide_eq_false_2 by naive_solver.
      rewrite decide_True by done. rewrite result_bind_Ok, IH.
      by rewrite <- app_assoc.
    + rewrite bool_decide_eq_true_2 by done.
      rewrite decide_False by naive_solver. rewrite result_bind_Ok. apply IH.
  - rewrite bool_decide_eq_true_2 by done.
    rewrite decide_False by naive_solver. rewrite result_bind_Ok. apply IH.
Qed.

Section flow_bfs.
Context (n : nat) (gens : list (list nat)).
Hypothesis Hgens : Forall (perm_gen n) gens.

Lemma fgens_perm g : g ∈ gens → perm_gen n g.
Proof. rewrite Forall_forall in Hgens. intros Hg. by apply Hgens. Qed.

Lemma fgens_wf g : g ∈ gens → wf_gen n g.
Proof. intros Hg. by apply fgens_perm. Qed.

Lemma same_orbit_step (r x : nat * nat) (g : list nat) :
  x ∈ U2 n → g ∈ gens → same_orbit n gens r x → same_orbit n gens r (act2 g x).
Proof.
  intros Hx Hg Hr. unfold same_orbit in *. eapply rtc_r; [exact Hr|].
  left. split; [done|]. by exists g.
Qed.

Lemma flow_expand_spec (r x : nat * nat) (σ1 : FlowBfs) :
  x ∈ U2 n →
  x ∈ l_visited σ1 →
  l_flowlinkmap σ1 !! x = Some r →
  l_tovisit σ1 ⊆ U2 n →
  l_tovisit σ1 ## l_visited σ1 →
  ∃ σ2, flow_expand gens x σ1 = Ok σ2
    ∧ l_visited σ2 = l_visited σ1
    ∧ l_repflowlinks σ2 = l_repflowlinks σ1
    ∧ l_tovisit σ1 ⊆ l_tovisit σ2
    ∧ l_tovisit σ2 ⊆ U2 n
    ∧ l_tovisit σ2 ## l_visited σ1
    ∧ (∀ g, g ∈ gens → act2 g x ∈ l_visited σ1 ∪ l_tovisit σ2)
    ∧ (∀ y, y ∈ l_tovisit σ2 →
         y ∈ l_tovisit σ1
         ∨ (l_flowlinkmap σ2 !! y = Some r ∧ ∃ g, g ∈ gens ∧ y = act2 g x))
    ∧ (∀ y, y ∈ l_tovisit σ1 → l_flowlinkmap σ1 !! y = Some r →
         l_flowlinkmap σ2 !! y = Some r)
    ∧ (∀ y, y ∈ l_visited σ1 →
         l_flowlinkmap σ2 !! y = l_flowlinkmap σ1 !! y)
    ∧ (∀ y, is_Some (l_flowlinkmap σ2 !! y) →
         is_Some (l_flowlinkmap σ1 !! y) ∨ y ∈ l_tovisit σ2).
Proof.
  intros Hx Hxv Hmap Htv Hfresh. unfold flow_expand.
  destruct (for_each_total
    (λ (σ : FlowBfs) (autmap : list nat),
       alink ← applyGenerator2 x autmap;
       if decide (alink ∈ l_visited σ) then Ok σ
       else
         rep ← orRaise KeyError (l_flowlinkmap σ !! x);
         Ok {| l_tovisit := l_tovisit σ ∪ {[alink]};
               l_visited := l_visited σ;
               l_repflowlinks := l_repflowlinks σ;
               l_flowlinkmap := <[alink := rep]> (l_flowlinkmap σ);
               l_clock := l_clock σ |})
    (λ pre σ2,
       l_visited σ2 = l_visited σ1
       ∧ l_repflowlinks σ2 = l_repflowlinks σ1
       ∧ l_tovisit σ1 ⊆ l_tovisit σ2
       ∧ l_tovisit σ2 ⊆ U2 n
       ∧ l_tovisit σ2 ## l_visited σ1
       ∧ (∀ g, g ∈ pre → act2 g x ∈ l_visited σ1 ∪ l_tovisit σ2)
       ∧ (∀ y, y ∈ l_tovisit σ2 →
            y ∈ l_tovisit σ1
            ∨ (l_flowlinkmap σ2 !! y = Some r ∧ ∃ g, g ∈ gens ∧ y = act2 g x))
       ∧ (∀ y, y ∈ l_tovisit σ1 → l_flowlinkmap σ1 !! y = Some r →
            l_flowlinkmap σ2 !! y = Some r)
       ∧ (∀ y, y ∈ l_visited σ1 →
            l_flowlinkmap σ2 !! y = l_flowlinkmap σ1 !! y)
       ∧ (∀ y, is_Some (l_flowlinkmap σ2 !! y) →
            is_Some (l_flowlinkmap σ1 !! y) ∨ y ∈ l_tovisit σ2))
    gens σ1) as (σ2 & Hrun & Hinv).
  - split_and!; try done; set_solver.
  - intros pre g post σ Hsplit
      (Hv & Hr & Hmono & Hrange & Hfr & Hdone & Hnew & Hkeep & Hvis & Hdom).
    assert (g ∈ gens) as Hgin by (rewrite Hsplit; set_solver).
    rewrite (applyGenerator2_act n g x (fgens_wf g Hgin) Hx). simpl.
    pose proof (act2_range n g x (fgens_wf g Hgin) Hx) as Hy.
    destruct (decide (act2 g x ∈ l_visited σ)) as [Hin|Hnin].
    + exists σ. split; [done|]. split_and!; try done.
      intros g' Hg'. apply elem_of_app in Hg' as [Hg'|Hg'].
      * by apply Hdone.
      * apply list_elem_of_singleton in Hg' as ->. rewrite <- Hv. set_solver.
    + rewrite (Hvis x Hxv), Hmap. simpl.
      eexists. split; [done|]. simpl. rewrite Hv in Hnin.
      assert (act2 g x ≠ x) as Hne by (intros Heq; rewrite Heq in Hnin; done).
      split_and!; try done.
      * set_solver.
      * set_solver.
      * set_solver.
      * intros g' Hg'. apply elem_of_app in Hg' as [Hg'|Hg'].
        -- specialize (Hdone g' Hg'). set_solver.
        -- apply list_elem_of_singleton in Hg' as ->. set_solver.
      * intros y Hyin. destruct (decide (y = act2 g x)) as [->|Hney].
        -- right. rewrite lookup_insert_eq. split; [done|]. by exists g.
        -- rewrite lookup_insert_ne by done.
           apply elem_of_union in Hyin as [Hyin|Hyin]; [by apply Hnew|].
           set_solver.
      * intros y Hyin Hymap. destruct (decide (y = act2 g x)) as [->|Hney].
        -- by rewrite lookup_insert_eq.
        -- rewrite lookup_insert_ne by done. by apply Hkeep.
      * intros y Hyin. rewrite lookup_insert_ne; [by apply Hvis|].
        intros <-. done.
      * intros y Hsome. destruct (decide (y = act2 g x)) as [->|Hney].
        -- right. set_solver.
        -- rewrite lookup_insert_ne in Hsome by done.
           destruct (Hdom y Hsome); [by left|right; set_solver].
  - exists σ2. split; [done|]. done.
Qed.

Lemma flow_while_body_spec (V0 : gset (nat * nat)) (r : nat * nat)
    (pick : nat → list (nat * nat) → nat) (σ0 σ : FlowBfs) :
  (∀ g x, g ∈ gens → x ∈ U2 n → act2 g x ∈ V0 → x ∈ V0) →
  FlowInv n gens V0 r σ0 σ →
  flow_pending σ = true →
  ∃ σ', flow_while_body gens pick σ = Ok σ'
    ∧ FlowInv n gens V0 r σ0 σ'
    ∧ size (U2 n ∖ l_visited σ') < size (U2 n ∖ l_visited σ).
Proof.
  intros Hpre [Hrep Htv Hold Hvis Hfresh Hseed Hnew Holdmap Hdom Hclosing Hreach]
    Hpend.
  unfold flow_pending in Hpend. apply bool_decide_eq_true in Hpend.
  destruct (set_pop_total (pick (l_clock σ)) (l_tovisit σ) Hpend)
    as (x & Hx & Hpop).
  unfold flow_while_body. rewrite Hpop. simpl.
  assert (x ∈ U2 n) as HxU by set_solver.
  assert (x ∉ l_visited σ) as Hxnv by set_solver.
  assert (x ∉ V0) as HxV0 by set_solver.
  destruct (flow_expand_spec r x
    {| l_tovisit := l_tovisit σ ∖ {[x]};
       l_visited := l_visited σ ∪ {[x]};
       l_repflowlinks := l_repflowlinks σ;
       l_flowlinkmap := l_flowlinkmap σ;
       l_clock := S (l_clock σ) |})
    as (σ' & Hrun & Hv' & Hr' & Hmono & Hrange & Hfr' & Hall & Hnew' & Hkeep
        & Hvis' & Hdom');
    simpl in *; [done|set_solver|apply Hnew; set_solver|set_solver|set_solver|].
  exists σ'. split; [done|]. split.
  - constructor.
    + congruence.
    + done.
    + rewrite Hv'. set_solver.
    + rewrite Hv'. set_solver.
    + rewrite Hv'. done.
    + rewrite Hv'. destruct (decide (r = x)) as [->|Hne]; set_solver.
    + intros y Hy. rewrite Hv' in Hy.
      apply elem_of_union in Hy as [Hy|Hy].
      * rewrite Hvis' by set_solver. apply Hnew.
        destruct (decide (y = x)) as [->|Hne]; set_solver.
      * destruct (Hnew' y Hy) as [Hy1|[Hy1 _]]; [|done].
        apply Hkeep; [done|]. apply Hnew. set_solver.
    + intros y Hy. rewrite Hvis' by set_solver. by apply Holdmap.
    + intros y Hsome. destruct (Hdom' y Hsome) as [Hs|Hs].
      * destruct (Hdom y Hs) as [?|Hin]; [by left|]. right. rewrite Hv'.
        destruct (decide (y = x)) as [->|Hne]; set_solver.
      * right. set_solver.
    + intros y g Hy Hg. rewrite Hv' in Hy |- *.
      assert (y ∈ l_visited σ ∖ V0 ∨ y = x) as [Hy'| ->] by set_solver.
      * specialize (Hclosing y g Hy' Hg).
        destruct (decide (act2 g y = x)) as [->|Hne]; set_solver.
      * specialize (Hall g Hg).
        assert (act2 g x ∉ V0) by (intros Hin; apply HxV0; by eapply Hpre).
        set_solver.
    + intros y Hy. rewrite Hv' in Hy.
      assert (y ∈ (l_visited σ ∖ V0) ∪ l_tovisit σ ∨ y ∈ l_tovisit σ')
        as [Hy'|Hy'].
      { destruct (decide (y = x)) as [->|Hne]; set_solver. }
      * by apply Hreach.
      * destruct (Hnew' y Hy') as [Hy1|[_ (g & Hg & Heq)]].
        -- apply Hreach. set_solver.
        -- rewrite Heq. apply same_orbit_step; [done..|]. apply Hreach. set_solver.
  - rewrite Hv'. apply subset_size. split; [set_solver|].
    intros Hsub. specialize (Hsub x). set_solver.
Qed.

Lemma flow_while_spec (V0 : gset (nat * nat)) (r : nat * nat)
    (pick : nat → list (nat * nat) → nat) (fuel : nat) (σ0 σ : FlowBfs) :
  (∀ g x, g ∈ gens → x ∈ U2 n → act2 g x ∈ V0 → x ∈ V0) →
  FlowInv n gens V0 r σ0 σ →
  size (U2 n) ≤ fuel →
  ∃ σ', while flow_pending (flow_while_body gens pick) fuel σ = Ok σ'
    ∧ FlowInv n gens V0 r σ0 σ'
    ∧ l_tovisit σ' = ∅.
Proof.
  intros Hpre Hinv Hfuel.
  destruct (while_total flow_pending (flow_while_body gens pick)
              (FlowInv n gens V0 r σ0) (λ σ, size (U2 n ∖ l_visited σ))
              (λ s Hs Hc, flow_while_body_spec V0 r pick σ0 s Hpre Hs Hc)
              fuel σ Hinv)
    as (σ' & Hrun & Hinv' & Hcond).
  { etrans; [|exact Hfuel]. apply subseteq_size. set_solver. }
  exists σ'. split; [done|]. split; [done|].
  unfold flow_pending in Hcond. apply bool_decide_eq_false in Hcond.
  apply leibniz_equiv, size_empty_iff. lia.
Qed.

Lemma FlowOuter_preimage (seen : list (nat * nat)) (σ : FlowBfs) :
  FlowOuter n gens seen σ →
  ∀ g x, g ∈ gens → x ∈ U2 n → act2 g x ∈ l_visited σ → x ∈ l_visited σ.
Proof.
  intros Hout g x Hg Hx Hin.
  apply (closed_inj_preimage (act2 g) (U2 n) (l_visited σ)); try done.
  - intros a b Ha Hb. by apply (act2_inj n g a b (fgens_perm g Hg)).
  - apply (fo_visited _ _ _ _ Hout).
  - intros a Ha. by apply (fo_closed _ _ _ _ Hout).
Qed.
End flow_bfs.

Section flow_orbits.
Context (n : nat) (gens : list (list nat)).
Hypothesis Hgens : Forall (perm_gen n) gens.

Lemma flow_seed_spec (pick : nat → list (nat * nat) → nat) (fuel : nat)
    (seen : list (nat * nat)) (σ : FlowBfs) (r : nat * nat) :
  size (U2 n) ≤ fuel →
  r ∈ U2 n →
  FlowOuter n gens seen σ →
  ∃ σ', flow_seed gens pick fuel σ r = Ok σ'
    ∧ FlowOuter n gens (seen ++ [r]) σ'.
Proof.
  intros Hfuel Hr Hout. unfold flow_seed.
  destruct (decide (r ∈ l_visited σ)) as [Hin|Hnin].
  { exists σ. split; [done|].
    destruct Hout as [Ho1 Ho2 Ho3 Ho4 Ho5 Ho6 Ho7]. constructor; try done.
    - intros x Hx. apply elem_of_app in Hx as [Hx|Hx]; [auto|].
      by apply list_elem_of_singleton in Hx as ->.
    - intros r' Hr'. destruct (Ho4 r' Hr'). split; [|done].
      apply elem_of_app. by left. }
  set (σ1 := {| l_tovisit := l_tovisit σ ∪ {[r]};
                l_visited := l_visited σ;
                l_repflowlinks := l_repflowlinks σ ∪ {[r]};
                l_flowlinkmap := <[r := r]> (l_flowlinkmap σ);
                l_clock := l_clock σ |}).
  pose proof (fo_tovisit _ _ _ _ Hout) as Htv0.
  assert (l_flowlinkmap σ !! r = None) as Hrnone.
  { destruct (l_flowlinkmap σ !! r) eqn:Hl; [|done]. exfalso. apply Hnin.
    apply (fo_dom _ _ _ _ Hout). by rewrite Hl. }
  destruct (flow_while_spec n gens Hgens (l_visited σ) r pick fuel σ1 σ1)
    as (σ2 & Hrun &
        [Hrep Htv Hold Hvis Hfresh Hseed Hnew Holdmap Hdom Hclosing Hreach]
        & Hempty).
  { by apply (FlowOuter_preimage n gens Hgens seen). }
  { constructor; simpl; rewrite ?Htv0; try done.
    - set_solver.
    - apply (fo_visited _ _ _ _ Hout).
    - set_solver.
    - set_solver.
    - intros x Hx. assert (x = r) as -> by set_solver.
      by rewrite lookup_insert_eq.
    - intros x Hs. by left.
    - set_solver.
    - intros x Hx. assert (x = r) as -> by set_solver. unfold same_orbit.
      reflexivity. }
  { done. }
  rewrite Hrun. exists σ2. split; [done|].
  simpl in Hrep, Holdmap, Hdom. rewrite Hempty in *.
  assert (∀ x, x ∈ l_visited σ →
            l_flowlinkmap σ2 !! x = l_flowlinkmap σ !! x) as Hsame.
  { intros x Hx. rewrite Holdmap by done. rewrite lookup_insert_ne; [done|].
    intros <-. done. }
  assert (∀ x, x ∈ l_visited σ2 → x ∉ l_visited σ →
            l_flowlinkmap σ2 !! x = Some r) as Hfresh'.
  { intros x Hx Hnx. apply Hnew. set_solver. }
  constructor.
  - done.
  - done.
  - intros x Hx. apply elem_of_app in Hx as [Hx|Hx].
    + apply Hold. by apply (fo_seen _ _ _ _ Hout).
    + apply list_elem_of_singleton in Hx as ->. set_solver.
  - intros r' Hr'. rewrite Hrep in Hr'.
    apply elem_of_union in Hr' as [Hr'|Hr'].
    + destruct (fo_reps _ _ _ _ Hout r' Hr') as [Hs Hm]. split.
      * apply elem_of_app. by left.
      * rewrite Hsame; [done|]. apply (fo_dom _ _ _ _ Hout). by rewrite Hm.
    + apply elem_of_singleton in Hr' as ->. split.
      * apply elem_of_app. right. by apply list_elem_of_singleton.
      * apply Hnew. set_solver.
  - intros x. split.
    + intros Hx. destruct (decide (x ∈ l_visited σ)) as [Hxo|Hxn].
      * rewrite Hsame by done. by apply (fo_dom _ _ _ _ Hout).
      * by rewrite Hfresh'.
    + intros Hs. destruct (Hdom x Hs) as [Hs0|Hin]; [|set_solver].
      destruct (decide (x = r)) as [->|Hne]; [set_solver|].
      rewrite lookup_insert_ne in Hs0 by done.
      apply Hold. by apply (fo_dom _ _ _ _ Hout).
  - intros x y Hxy. rewrite Hrep.
    destruct (decide (x ∈ l_visited σ)) as [Hxo|Hxn].
    + rewrite Hsame in Hxy by done.
      destruct (fo_rep _ _ _ _ Hout x y Hxy). split; [set_solver|done].
    + assert (x ∈ l_visited σ2) as Hx2.
      { destruct (Hdom x) as [Hs0|Hin]; [by rewrite Hxy| |set_solver].
        destruct (decide (x = r)) as [->|Hne]; [set_solver|].
        rewrite lookup_insert_ne in Hs0 by done. exfalso. apply Hxn.
        by apply (fo_dom _ _ _ _ Hout). }
      rewrite Hfresh' in Hxy by done. simplify_eq. split; [set_solver|].
      apply Hreach. set_solver.
  - intros x g Hx Hg. destruct (decide (x ∈ l_visited σ)) as [Hxo|Hxn].
    + destruct (fo_closed _ _ _ _ Hout x g Hxo Hg) as [Hin Heq].
      split; [by apply Hold|]. by rewrite !Hsame.
    + assert (act2 g x ∈ l_visited σ2 ∖ l_visited σ) as Hy.
      { specialize (Hclosing x g). set_solver. }
      split; [set_solver|]. rewrite !Hfresh'; set_solver.
Qed.

Lemma flow_orbits_spec (pick : nat → list (nat * nat) → nat) (fuel : nat)
    (links : list (nat * nat)) :
  size (U2 n) ≤ fuel →
  (∀ l, l ∈ links → l ∈ U2 n) →
  ∃ σ, for_each (flow_seed gens pick fuel) links
         {| l_tovisit := ∅; l_visited := ∅; l_repflowlinks := ∅;
            l_flowlinkmap := ∅; l_clock := 0 |} = Ok σ
    ∧ FlowOuter n gens links σ.
Proof.
  intros Hfuel Hlinks.
  apply (for_each_total (flow_seed gens pick fuel) (FlowOuter n gens)).
  - constructor; simpl; try done; try set_solver.
    + intros x. rewrite lookup_empty. split; [set_solver|by intros [? ?]].
  - intros pre r post σ Hsplit Hout.
    apply flow_seed_spec; [done| |done].
    apply Hlinks. rewrite Hsplit. set_solver.
Qed.

(** Links in one orbit of the generators share their image under the
    flow-link map. *)
Lemma FlowOuter_orbit (seen : list (nat * nat)) (σ : FlowBfs)
    (x y : nat * nat) :
  FlowOuter n gens seen σ →
  same_orbit n gens x y →
  x ∈ l_visited σ →
  y ∈ l_visited σ ∧ l_flowlinkmap σ !! y = l_flowlinkmap σ !! x.
Proof.
  intros Hout Horb. unfold same_orbit, rtsc in Horb.
  induction Horb as [x|x z y Hstep _ IH]; intros Hx; [done|].
  assert (z ∈ l_visited σ ∧ l_flowlinkmap σ !! z = l_flowlinkmap σ !! x)
    as [Hz Hzm].
  { destruct Hstep as [(HxU & g & Hg & ->)|(HzU & g & Hg & ->)].
    - by apply (fo_closed _ _ _ _ Hout).
    - assert (z ∈ l_visited σ) as Hz
        by by apply (FlowOuter_preimage n gens Hgens seen σ Hout g z).
      split; [done|]. symmetry. by apply (fo_closed _ _ _ _ Hout). }
  destruct (IH Hz) as [Hy Hym]. split; [done|]. by rewrite Hym.
Qed.
End flow_orbits.

Lemma filter_perm_gen (n : nat) (P : list nat → Prop)
    `{∀ g, Decision (P g)} (gens : list (list nat)) :
  Forall (perm_gen n) gens → Forall (perm_gen n) (filter P gens).
Proof.
  rewrite !Forall_forall. intros Hall g Hg.
  apply list_elem_of_filter in Hg as [_ Hg]. by apply Hall.
Qed.

Lemma flowlinks_task_spec (n : nat)
    (pick : nat * nat → nat → list (nat * nat) → nat) (fuel : nat)
    (self : Topology) (repsd : nat * nat) :
  Forall (perm_gen n) (Autgen self) →
  DLinks self ⊆ U2 n →
  repsd ∈ U2 n →
  size (U2 n) ≤ fuel →
  ∃ σ,
    findRepresentativeCommodityFlowLinksByCommodity pick fuel self repsd
      = Ok (repsd, l_repflowlinks σ, l_flowlinkmap σ)
    ∧ FlowOuter n (filter (fixes repsd) (Autgen self))
        (merge_sort pair_le (elements (DLinks self))) σ.
Proof.
  intros Hgens Hlinks Hr Hfuel.
  unfold findRepresentativeCommodityFlowLinksByCommodity.
  rewrite (stabilizer_spec n); [|by eapply Forall_impl; [done|intros ? []]|done].
  destruct (flow_orbits_spec n (filter (fixes repsd) (Autgen self))
              (filter_perm_gen n _ _ Hgens) (pick repsd) fuel
              (merge_sort pair_le (elements (DLinks self))))
    as (σ & Hrun & Hout); [done| |].
  { intros l. rewrite merge_sort_Permutation, elem_of_elements. apply Hlinks. }
  exists σ. split; [|done]. rewrite result_bind_Ok, Hrun. done.
Qed.

(** X4: for generators that are permutations of the [n] nodes and
    enough iterations, the per-commodity task
    [findRepresentativeCommodityFlowLinksByCommodity] returns.  Its
    representative flow links are directed links and are mapped to
    themselves; its flow-link map is defined on every directed link with
    a representative as value; and two directed links have the same
    image exactly when one is carried to the other by the generators
    that fix both endpoints of the commodity. *)
Theorem flow_link_map_classes (n : nat)
    (pick : nat * nat → nat → list (nat * nat) → nat) (fuel : nat)
    (self : Topology) (repsd : nat * nat) :
  Forall (perm_gen n) (Autgen self) →
  DLinks self ⊆ U2 n →
  repsd ∈ U2 n →
  size (U2 n) ≤ fuel →
  ∃ repflowlinks flowlinkmap,
    findRepresentativeCommodityFlowLinksByCommodity pick fuel self repsd
      = Ok (repsd, repflowlinks, flowlinkmap)
    ∧ repflowlinks ⊆ DLinks self
    ∧ (∀ r, r ∈ repflowlinks → flowlinkmap !! r = Some r)
    ∧ (∀ l, l ∈ DLinks self →
         ∃ r, flowlinkmap !! l = Some r ∧ r ∈ repflowlinks)
    ∧ (∀ l1 l2, l1 ∈ DLinks self → l2 ∈ DLinks self →
         flowlinkmap !! l1 = flowlinkmap !! l2
         ↔ same_orbit n (filter (fixes repsd) (Autgen self)) l1 l2).
Proof.
  intros Hgens Hlinks Hr Hfuel.
  destruct (flowlinks_task_spec n pick fuel self repsd)
    as (σ & Hrun & Hout); [done..|].
  exists (l_repflowlinks σ), (l_flowlinkmap σ). split; [done|].
  assert (∀ l, l ∈ DLinks self → l ∈ l_visited σ) as Hvis.
  { intros l Hl. apply (fo_seen _ _ _ _ Hout).
    by rewrite merge_sort_Permutation, elem_of_elements. }
  assert (∀ l, l ∈ DLinks self →
            ∃ r, l_flowlinkmap σ !! l = Some r ∧ r ∈ l_repflowlinks σ) as Htot.
  { intros l Hl. apply Hvis, (fo_dom _ _ _ _ Hout) in Hl as [r Hlr].
    exists r. split; [done|]. by apply (fo_rep _ _ _ _ Hout l r). }
  split_and!.
  - intros r Hin. apply (fo_reps _ _ _ _ Hout) in Hin as [Hin _].
    by rewrite merge_sort_Permutation, elem_of_elements in Hin.
  - intros r Hin. by apply (fo_reps _ _ _ _ Hout).
  - done.
  - intros l1 l2 Hl1 Hl2. split.
    + intros Heq. destruct (Htot l1 Hl1) as (r & Hr1 & _).
      rewrite Hr1 in Heq. symmetry in Heq.
      apply (fo_rep _ _ _ _ Hout) in Hr1 as [_ H1], Heq as [_ H2].
      unfold same_orbit in *. etrans; [|exact H2]. by symmetry.
    + intros Horb.
      destruct (FlowOuter_orbit n _ (filter_perm_gen n _ _ Hgens) _ σ l1 l2
                  Hout Horb (Hvis l1 Hl1)) as [_ Heq].
      done.
Qed.

Lemma flow_link_map_classes_witness :
  ∃ repflowlinks flowlinkmap,
    findRepresentativeCommodityFlowLinksByCommodity (λ _ _ _, 0) 100
      pair_start (0, 1)
      = Ok ((0, 1), repflowlinks, flowlinkmap)
    ∧ repflowlinks ⊆ DLinks pair_start
    ∧ (∀ r, r ∈ repflowlinks → flowlinkmap !! r = Some r)
    ∧ (∀ l, l ∈ DLinks pair_start →
         ∃ r, flowlinkmap !! l = Some r ∧ r ∈ repflowlinks)
    ∧ (∀ l1 l2, l1 ∈ DLinks pair_start → l2 ∈ DLinks pair_start →
         flowlinkmap !! l1 = flowlinkmap !! l2
         ↔ same_orbit 2 (filter (fixes (0, 1)) (Autgen pair_start)) l1 l2).
Proof.
  apply (flow_link_map_classes 2 (λ _ _ _, 0) 100 pair_start (0, 1)).
  - by_compute.
  - by_compute.
  - by_compute.
  - by_compute.
Defined.

(** ** The constraint builders only extend the model *)

Lemma extends_refl self : extends self self.
Proof. repeat split. exists []. by rewrite app_nil_r. Qed.

Lemma extends_trans s1 s2 s3 : extends s1 s2 → extends s2 s3 → extends s1 s3.
Proof.
  intros (HT & HF & HB & HG & cs & Hc) (HT' & HF' & HB' & HG' & cs' & Hc').
  repeat split; try congruence. exists (cs ++ cs'). rewrite Hc', Hc.
  by rewrite app_assoc.
Qed.

Lemma extends_addConstr c self : extends self (addConstr c self).
Proof. repeat split. by exists [c]. Qed.

Lemma for_each_extends {A} (f : Optimization → A → result Optimization)
    (l : list A) (self self' : Optimization) :
  (∀ s a s', a ∈ l → f s a = Ok s' → extends s s') →
  for_each f l self = Ok self' → extends self self'.
Proof.
  intros Hstep Hrun.
  apply (for_each_partial f (λ _ s, extends self s) l self self' Hrun).
  - apply extends_refl.
  - intros pre a post s s1 Hsplit Hs Hf. eapply extends_trans; [done|].
    eapply Hstep; [|done]. rewrite Hsplit. set_solver.
Qed.

Lemma setFlowConservationConstraint_extends fs self self' :
  setFlowConservationConstraint fs self = Ok self' → extends self self'.
Proof.
  apply for_each_extends. intros s repsd s' _ Hrun.
  apply bind_Ok in Hrun as (flowmap & _ & Hrun).
  revert Hrun. apply for_each_extends. intros s1 n s2 _ Hrun.
  apply bind_Ok in Hrun as (c & _ & Hrun). simplify_eq.
  apply extends_addConstr.
Qed.

Lemma setAdditionalFlowConstraint_extends self self' :
  setAdditionalFlowConstraint self = Ok self' → extends self self'.
Proof.
  unfold setAdditionalFlowConstraint. intros Hrun.
  apply bind_Ok in Hrun as (s1 & Hrun1 & Hrun2).
  apply (extends_trans _ s1).
  - revert Hrun1. apply for_each_extends. intros s repsd s' _ Hrun.
    apply bind_Ok in Hrun as (links & _ & Hrun).
    revert Hrun. apply for_each_extends. intros sa ij sb _ Hrun.
    apply bind_Ok in Hrun as (Frep & _ & Hrun).
    apply bind_Ok in Hrun as (v & _ & Hrun). simplify_eq.
    apply extends_addConstr.
  - revert Hrun2. apply for_each_extends. intros s repsd s' _ Hrun.
    apply bind_Ok in Hrun as (links & _ & Hrun).
    revert Hrun. apply for_each_extends. intros sa ij sb _ Hrun.
    case_decide; [|simplify_eq; apply extends_refl].
    apply bind_Ok in Hrun as (Frep & _ & Hrun).
    apply bind_Ok in Hrun as (v & _ & Hrun). simplify_eq.
    apply extends_addConstr.
Qed.

Lemma setAuxThroughputConstraint_extends fs self self' :
  setAuxThroughputConstraint fs self = Ok self' → extends self self'.
Proof.
  apply for_each_extends. intros s ij s' _ Hrun.
  apply bind_Ok in Hrun as (lhs & _ & Hrun). simplify_eq.
  apply extends_addConstr.
Qed.

Lemma setAuxFlowConstraint_extends fs self self' :
  setAuxFlowConstraint fs self = Ok self' → extends self self'.
Proof.
  apply for_each_extends. intros s repsd s' _ Hrun.
  apply bind_Ok in Hrun as (links & _ & Hrun).
  revert Hrun. apply for_each_extends. intros sa l sb _ Hrun.
  repeat (apply bind_Ok in Hrun as (? & _ & Hrun)).
  case_decide; [done|].
  repeat (apply bind_Ok in Hrun as (? & _ & Hrun)). simplify_eq.
  apply extends_addConstr.
Qed.

(** X5: when the model-building calls of [optimize] all return, the
    model is built on the given topology, starts from [createVariables]
    without constraints, and each of the four constraint builders keeps
    the topology and the variable dictionaries [F], [B], [G] and only
    appends to the constraints of the step before it. *)
Theorem builders_only_append (fs : Files) (topo : Topology)
    (self : Optimization) :
  build_model fs topo = Ok self →
  Topo self = topo
  ∧ ∃ s0 s1 s2 s3,
      createVariables topo = Ok s0 ∧ constrs s0 = []
      ∧ setFlowConservationConstraint fs s0 = Ok s1
      ∧ setAdditionalFlowConstraint s1 = Ok s2
      ∧ setAuxThroughputConstraint fs s2 = Ok s3
      ∧ setAuxFlowConstraint fs s3 = Ok self
      ∧ extends s0 s1 ∧ extends s1 s2 ∧ extends s2 s3 ∧ extends s3 self.
Proof.
  unfold build_model. intros Hrun.
  apply bind_Ok in Hrun as (s0 & H0 & Hrun).
  apply bind_Ok in Hrun as (s1 & H1 & Hrun).
  apply bind_Ok in Hrun as (s2 & H2 & Hrun).
  apply bind_Ok in Hrun as (s3 & H3 & H4).
  pose proof (setFlowConservationConstraint_extends _ _ _ H1) as E1.
  pose proof (setAdditionalFlowConstraint_extends _ _ H2) as E2.
  pose proof (setAuxThroughputConstraint_extends _ _ _ H3) as E3.
  pose proof (setAuxFlowConstraint_extends _ _ _ H4) as E4.
  pose proof (createVariables_spec _ _ H0) as (HT & _).
  split.
  - destruct E1 as [T1 _], E2 as [T2 _], E3 as [T3 _], E4 as [T4 _].
    congruence.
  - exists s0, s1, s2, s3. split_and!; try done.
    unfold createVariables in H0. apply bind_Ok in H0 as (Fd & _ & H0).
    simpl in H0. injection H0 as <-. done.
Qed.

(** ** findRepresentativeCommodityFlowLinks *)

Lemma foldl_insert_lookup_ne `{Countable K} {V A} (k : A → K) (v : A → V)
    (l : list A) (m : gmap K V) (key : K) :
  key ∉ k <$> l →
  foldl (λ m r, <[k r := v r]> m) m l !! key = m !! key.
Proof.
  revert m. induction l as [|a l IH]; intros m Hnin; [done|]. simpl.
  rewrite IH by set_solver. rewrite lookup_insert_ne; [done|]. set_solver.
Qed.

Lemma foldl_insert_lookup `{Countable K} {V A} (k : A → K) (v : A → V)
    (l : list A) (m : gmap K V) (r : A) :
  NoDup (k <$> l) → r ∈ l →
  foldl (λ m r, <[k r := v r]> m) m l !! k r = Some (v r).
Proof.
  revert m. induction l as [|a l IH]; intros m Hnd Hr.
  { by apply elem_of_nil in Hr. }
  rewrite fmap_cons in Hnd. apply NoDup_cons in Hnd as [Ha Hnd]. simpl.
  apply elem_of_cons in Hr as [->|Hr]; [|by apply IH].
  rewrite foldl_insert_lookup_ne by done. by rewrite lookup_insert_eq.
Qed.

Lemma findRepresentativeCommodityFlowLinks_spec (n : nat)
    (sched : list (nat * nat) → list (nat * nat))
    (pick : nat * nat → nat → list (nat * nat) → nat) (fuel : nat)
    (self : Topology) (fs : Files) :
  (∀ l, sched l ≡ₚ l) →
  Forall (perm_gen n) (Autgen self) →
  DLinks self ⊆ U2 n →
  RepCommodities self ⊆ U2 n →
  stage_findRepresentativeCommodityFlowLinks fs = None →
  size (U2 n) ≤ fuel →
  ∃ M FM,
    findRepresentativeCommodityFlowLinks sched pick fuel self fs
      = Ok (set_RepCommFlowLinks self M, set_FlowLinkMap fs FM (Some M))
    ∧ ∀ repsd, repsd ∈ RepCommodities self →
        ∃ σ, M !! repsd = Some (l_repflowlinks σ)
             ∧ FM !! repsd = Some (l_flowlinkmap σ)
             ∧ FlowOuter n (filter (fixes repsd) (Autgen self))
                 (merge_sort pair_le (elements (DLinks self))) σ.
Proof.
  intros Hs Hgens Hlinks Hreps Hstage Hfuel.
  unfold findRepresentativeCommodityFlowLinks. rewrite Hstage.
  set (task := findRepresentativeCommodityFlowLinksByCommodity pick fuel self).
  set (xs := elements (RepCommodities self)).
  set (d := ((0, 0), (∅ : gset (nat * nat)), (∅ : gmap (nat * nat) (nat * nat)))).
  assert (∀ x, x ∈ xs → ∃ σ,
            task x = Ok (x, l_repflowlinks σ, l_flowlinkmap σ)
            ∧ FlowOuter n (filter (fixes x) (Autgen self))
                (merge_sort pair_le (elements (DLinks self))) σ) as Htask.
  { intros x Hx. apply (flowlinks_task_spec n pick fuel self x); try done.
    apply Hreps. by apply elem_of_elements. }
  rewrite (imap_unordered_ok sched task d xs).
  2:{ intros x Hx. rewrite Hs in Hx. destruct (Htask x Hx) as (σ & Hr & _).
      eauto. }
  rewrite result_bind_Ok, merge_flowlinks_folds. cbn [fst snd].
  set (done := (λ x, returned_or d (task x)) <$> sched xs).
  assert ((λ r : (nat * nat) * gset (nat * nat)
                 * gmap (nat * nat) (nat * nat), r.1.1) <$> done = sched xs)
    as Hkeys.
  { unfold done. rewrite <- list_fmap_compose.
    rewrite <- (list_fmap_id (sched xs)) at 2.
    apply list_fmap_ext. intros i x Hx. simpl.
    destruct (Htask x) as (σ & Hr & _).
    { rewrite <- (Hs xs). by eapply list_elem_of_lookup_2. }
    by rewrite Hr. }
  assert (NoDup ((λ r : (nat * nat) * gset (nat * nat)
                        * gmap (nat * nat) (nat * nat), r.1.1) <$> done))
    as Hnd.
  { rewrite Hkeys, Hs. apply NoDup_elements. }
  eexists _, _. split; [done|].
  intros repsd Hrep. destruct (Htask repsd) as (σ & Hr & Hout).
  { by apply elem_of_elements. }
  exists σ. split_and!; [| |done].
  - assert ((repsd, l_repflowlinks σ, l_flowlinkmap σ) ∈ done) as Hin.
    { unfold done. apply list_elem_of_fmap. exists repsd.
      rewrite Hr. split; [done|]. rewrite Hs. by apply elem_of_elements. }
    apply (foldl_insert_lookup (λ r, r.1.1) (λ r, r.1.2) done ∅ _ Hnd Hin).
  - assert ((repsd, l_repflowlinks σ, l_flowlinkmap σ) ∈ done) as Hin.
    { unfold done. apply list_elem_of_fmap. exists repsd.
      rewrite Hr. split; [done|]. rewrite Hs. by apply elem_of_elements. }
    apply (foldl_insert_lookup (λ r, r.1.1) (λ r, r.2) done _ _ Hnd Hin).
Qed.

(** ** Sizes of the index ranges *)

Lemma size_gset_cprod `{Countable K1} `{Countable K2}
    (X : gset K1) (Y : gset K2) :
  size (cprod X Y) = size X * size Y.
Proof.
  assert (cprod X Y
          = list_to_set (x ← elements X; (λ y, (x, y)) <$> elements Y)) as ->.
  { apply set_eq. intros [a b].
    rewrite elem_of_gset_cprod, elem_of_list_to_set, list_elem_of_bind. simpl.
    split.
    - intros [Ha Hb]. exists a. rewrite elem_of_elements. split; [|done].
      apply list_elem_of_fmap. exists b. by rewrite elem_of_elements.
    - intros (x & Hin & Hx). apply list_elem_of_fmap in Hin as (y & Heq & Hy).
      simplify_eq. by rewrite !elem_of_elements in *. }
  rewrite size_list_to_set.
  - unfold size, set_size. simpl.
    generalize (elements X) as l. induction l as [|x l IH]; [done|].
    rewrite bind_cons, length_app, length_fmap, IH. simpl. done.
  - apply NoDup_bind; [| |apply NoDup_elements].
    + intros x1 x2 p _ _ H1 H2.
      apply list_elem_of_fmap in H1 as (? & ? & _), H2 as (? & ? & _).
      by simplify_eq.
    + intros x _. apply NoDup_fmap_2; [|apply NoDup_elements].
      by intros ?? [=].
Qed.

Lemma size_U1 n : size (U1 n) = n.
Proof. unfold U1. apply size_set_seq. Qed.

Lemma size_U2 n : size (U2 n) = n * n.
Proof. unfold U2. by rewrite size_gset_cprod, size_U1. Qed.

Lemma size_U3 n : size (U3 n) = n * n * n.
Proof. unfold U3. by rewrite size_gset_cprod, size_U2, size_U1. Qed.

Lemma size_UU n : size (UU n) = n * n * (n * n).
Proof. unfold UU. by rewrite size_gset_cprod, size_U2. Qed.

(** ** Topology.__init__ runs to completion *)

Lemma setUGraph_facts (ugraph : Graph) (autgen : list (list nat)) :
  let n := number_of_nodes ugraph in
  list_to_set (nodes ugraph) =@{gset nat} U1 n →
  graph_ok ugraph →
  ∃ self, setUGraph ugraph autgen = Ok self
    ∧ UG self = ugraph ∧ Autgen self = autgen
    ∧ AllNodes self = U1 n
    ∧ (∀ v, v ∈ HostNodes self ↔ v < n ∧ 0 < numServer ugraph v)
    ∧ (∀ s d, (s, d) ∈ Commodities self
         ↔ s ∈ HostNodes self ∧ d ∈ HostNodes self ∧ s ≠ d)
    ∧ (∀ i j, (i, j) ∈ DLinks self
         ↔ ∃ e, e ∈ edges ugraph ∧ (e.1 = (i, j) ∨ e.1 = (j, i)))
    ∧ DLinks self ⊆ U2 n.
Proof.
  intros n Heq Hok.
  assert (∀ v, v ∈ nodes ugraph ↔ v < n) as Hnodes.
  { intros v. rewrite <- (elem_of_list_to_set (C:=gset nat)), Heq.
    apply elem_of_U1. }
  destruct (setUGraph ugraph autgen) as [self| |] eqn:Hrun.
  2,3: unfold setUGraph in Hrun; case_decide as Hn; [done|];
       exfalso; apply Hn; rewrite Heq; symmetry; apply list_to_set_seq_U1.
  exists self. split; [done|].
  pose proof (setUGraph_Ok _ _ _ Hrun)
    as (_ & HUG & HA & HR & HN & HAll & HH & HC & HU & HD).
  assert (∀ i j, (i, j) ∈ DLinks self
            ↔ ∃ e, e ∈ edges ugraph ∧ (e.1 = (i, j) ∨ e.1 = (j, i))) as Hl.
  { intros i j. by apply (elem_of_DLinks ugraph autgen). }
  split_and!; try done.
  - rewrite HAll, HR, HN. apply set_eq. intros v.
    rewrite elem_of_union, !elem_of_list_to_set, !list_elem_of_filter,
      elem_of_U1, !Hnodes.
    destruct (routing ugraph v); naive_solver.
  - intros v. rewrite HH, elem_of_list_to_set, list_elem_of_filter, Hnodes.
    naive_solver.
  - intros s d. rewrite HC, elem_of_list_to_set, elem_of_distinct_pairs.
    by rewrite !elem_of_elements.
  - intros [i j] Hin. apply Hl in Hin as (e & He & Hor).
    destruct (Hok e He) as [H1 H2]. rewrite Hnodes in H1, H2.
    apply elem_of_U2. simpl.
    destruct Hor as [Hx|Hx]; rewrite Hx in *; simpl in *; lia.
Qed.

(** [computeAuxReverseMap] writes the [AuxToRep] files only. *)
Lemma computeAuxReverseMap_frame (self : Topology) (fs fs' : Files) :
  computeAuxReverseMap self fs = Ok fs' →
  CommodityGroup fs' = CommodityGroup fs
  ∧ AutomorphicMap_Forward fs' = AutomorphicMap_Forward fs
  ∧ AutomorphicMap_Reverse fs' = AutomorphicMap_Reverse fs
  ∧ FlowLinkMap fs' = FlowLinkMap fs
  ∧ AuxiliaryGroup fs' = AuxiliaryGroup fs
  ∧ stage_findRepresentativeCommodities fs'
    = stage_findRepresentativeCommodities fs
  ∧ stage_findRepresentativeCommodityFlowLinks fs'
    = stage_findRepresentativeCommodityFlowLinks fs
  ∧ stage_findRepresentativeAuxs fs' = stage_findRepresentativeAuxs fs
  ∧ stage_findRepresentativeLinkConstrs fs'
    = stage_findRepresentativeLinkConstrs fs.
Proof.
  intros Hrun. unfold computeAuxReverseMap in Hrun.
  apply (for_each_partial _
    (λ _ fs',
       CommodityGroup fs' = CommodityGroup fs
       ∧ AutomorphicMap_Forward fs' = AutomorphicMap_Forward fs
       ∧ AutomorphicMap_Reverse fs' = AutomorphicMap_Reverse fs
       ∧ FlowLinkMap fs' = FlowLinkMap fs
       ∧ AuxiliaryGroup fs' = AuxiliaryGroup fs
       ∧ stage_findRepresentativeCommodities fs'
         = stage_findRepresentativeCommodities fs
       ∧ stage_findRepresentativeCommodityFlowLinks fs'
         = stage_findRepresentativeCommodityFlowLinks fs
       ∧ stage_findRepresentativeAuxs fs' = stage_findRepresentativeAuxs fs
       ∧ stage_findRepresentativeLinkConstrs fs'
         = stage_findRepresentativeLinkConstrs fs) _ _ _ Hrun).
  - done.
  - intros pre u post s s1 _ Hs Hstep.
    apply bind_Ok in Hstep as (auxtorep & _ & Hstep). simplify_eq. simpl.
    done.
Qed.

Lemma aux_stage_frame (pick : nat → list (nat * nat * nat) → nat) (fuel : nat)
    (self self' : Topology) (fs fs' : Files) :
  stage_findRepresentativeAuxs fs = None →
  aux_stage pick fuel self fs = Ok (self', fs') →
  CommodityGroup fs' = CommodityGroup fs
  ∧ AutomorphicMap_Forward fs' = AutomorphicMap_Forward fs
  ∧ AutomorphicMap_Reverse fs' = AutomorphicMap_Reverse fs
  ∧ FlowLinkMap fs' = FlowLinkMap fs
  ∧ stage_findRepresentativeCommodities fs'
    = stage_findRepresentativeCommodities fs
  ∧ stage_findRepresentativeCommodityFlowLinks fs'
    = stage_findRepresentativeCommodityFlowLinks fs
  ∧ stage_findRepresentativeLinkConstrs fs'
    = stage_findRepresentativeLinkConstrs fs.
Proof.
  intros Hstage Hrun. unfold aux_stage in Hrun.
  apply bind_Ok in Hrun as (r & Hr & Hrun).
  apply bind_Ok in Hrun as (fs1 & Hc & Hrun). simplify_eq.
  unfold findRepresentativeAuxs in Hr. rewrite Hstage in Hr.
  apply bind_Ok in Hr as (σ & _ & Hr). simplify_eq. simpl in Hc.
  apply computeAuxReverseMap_frame in Hc
    as (H1 & H2 & H3 & H4 & _ & H6 & H7 & _ & H9).
  simpl in *. done.
Qed.

Lemma Topology_init_ready (o : Oracles) (fuel : nat) (ugraph : Graph)
    (autgen : list (list nat)) (fs : Files) :
  let n := number_of_nodes ugraph in
  list_to_set (nodes ugraph) =@{gset nat} U1 n →
  graph_ok ugraph →
  Forall (perm_gen n) autgen →
  host_preserving ugraph autgen →
  (∀ l, sched_flow o l ≡ₚ l) →
  (∀ l, sched_link o l ≡ₚ l) →
  stage_findRepresentativeCommodities fs = None →
  stage_findRepresentativeCommodityFlowLinks fs = None →
  stage_findRepresentativeAuxs fs = None →
  stage_findRepresentativeLinkConstrs fs = None →
  n * n * (n * n) ≤ fuel →
  ∃ topo fs', Topology_init o fuel ugraph autgen fs = Ok (topo, fs')
    ∧ Ready n ugraph autgen topo fs'.
Proof.
  intros n Hnodes Hok Hgens Hhp Hsf Hsl Hst1 Hst2 Hst3 Hst4 Hfuel.
  assert (size (UU n) ≤ fuel) as HfUU by by rewrite size_UU.
  assert (size (U3 n) ≤ fuel) as HfU3 by (rewrite size_U3; nia).
  assert (size (U2 n) ≤ fuel) as HfU2 by (rewrite size_U2; nia).
  assert (∀ v, v ∈ nodes ugraph ↔ v < n) as Hnd.
  { intros v. rewrite <- (elem_of_list_to_set (C:=gset nat)), Hnodes.
    apply elem_of_U1. }
  destruct (setUGraph_facts ugraph autgen Hnodes Hok)
    as (self0 & Hrun0 & HUG & HA & HAll & Hhosts & Hcomm & Hlinks & Hrange).
  unfold Topology_init, Topology_init_aux. rewrite Hrun0, !result_bind_Ok.
  (* commodities *)
  assert (Commodities self0 ⊆ U2 n) as HcU.
  { intros [s d] Hin. apply Hcomm in Hin as (Hs & Hd & _).
    apply Hhosts in Hs, Hd. apply elem_of_U2. simpl. lia. }
  assert (∀ g c, g ∈ autgen → c ∈ Commodities self0 →
            act2 g c ∈ Commodities self0) as Hccl.
  { intros g [s d] Hg Hin. apply Hcomm in Hin as (Hs & Hd & Hne).
    apply Hhosts in Hs as [Hs Hs'], Hd as [Hd Hd'].
    rewrite Forall_forall in Hgens. pose proof (Hgens g Hg) as Hperm.
    unfold act2. simpl. apply Hcomm. rewrite !Hhosts. split_and!.
    - by apply (act_lt n g s (proj1 Hperm)).
    - apply Hhp; [done|by apply Hnd|done].
    - by apply (act_lt n g d (proj1 Hperm)).
    - apply Hhp; [done|by apply Hnd|done].
    - intros Heq. apply Hne. by apply (act_inj n g s d Hperm). }
  destruct (comm_orbits_spec n autgen (Commodities self0) Hgens HcU Hccl
              (pick_comm o) fuel self0 fs)
    as (σc & Hrunc & Hco); [done|by rewrite HUG|done|done|].
  unfold findRepresentativeCommodities at 1. rewrite Hst1, Hrunc.
  rewrite !result_bind_Ok. cbn [fst snd].
  set (self1 := set_RepCommodities self0 (c_repcomms σc)).
  set (fs1 := {| CommodityGroup := c_groups σc;
                 AutomorphicMap_Forward := c_fwd σc;
                 AutomorphicMap_Reverse := c_rev σc;
                 FlowLinkMap := FlowLinkMap fs;
                 AuxiliaryGroup := AuxiliaryGroup fs;
                 AuxToRep := AuxToRep fs;
                 stage_findRepresentativeCommodities := Some (c_repcomms σc);
                 stage_findRepresentativeCommodityFlowLinks :=
                   stage_findRepresentativeCommodityFlowLinks fs;
                 stage_findRepresentativeAuxs := stage_findRepresentativeAuxs fs;
                 stage_findRepresentativeLinkConstrs :=
                   stage_findRepresentativeLinkConstrs fs |}).
  assert (∀ r, r ∈ c_repcomms σc → r ∈ Commodities self0) as Hrepc.
  { intros r Hr. apply (co_reps _ _ _ _ _ Hco) in Hr.
    by rewrite merge_sort_Permutation, elem_of_elements in Hr. }
  (* flow links *)
  destruct (findRepresentativeCommodityFlowLinks_spec n (sched_flow o)
              (pick_flow o) fuel self1 fs1)
    as (M & FM & Hrunf & Hflow); try done.
  { simpl. by rewrite HA. }
  { intros r Hr. apply HcU. by apply Hrepc. }
  rewrite Hrunf, !result_bind_Ok. cbn [fst snd].
  set (self2 := set_RepCommFlowLinks self1 M).
  set (fs2 := set_FlowLinkMap fs1 FM (Some M)).
  (* auxiliaries *)
  assert (HostNodes self0 ⊆ U1 n) as HhU.
  { intros v Hv. apply Hhosts in Hv. apply elem_of_U1. lia. }
  destruct (aux_stage_spec n (pick_aux o) fuel self2 fs2)
    as (reps & fs3 & Hruna & Hcls & Hclass); try done.
  { simpl. by rewrite HA. }
  pose proof (aux_stage_frame _ _ self2 _ fs2 _ Hst3 Hruna)
    as (F1 & F2 & F3 & F4 & F5 & F6 & F7).
  rewrite Hruna, !result_bind_Ok. cbn [fst snd].
  set (self3 := set_RepAuxiliarys self2 reps).
  assert (∀ u l, u ∈ HostNodes self0 → l ∈ DLinks self0 →
            ∃ r, r ∈ reps ∧ aux_class fs3 u l = Some r) as Hdef.
  { intros u l Hu Hl.
    destruct (ac_cover _ _ _ _ Hcls u l Hu Hl) as (r & G & Hr & HG & Hin).
    exists r. split; [done|]. apply Hclass; [done|]. split; [done|]. eauto. }
  (* link constraints *)
  destruct (findRepresentativeLinkConstrs_spec (sched_link o) (pop_link o)
              self3 fs3) as (replinks & Hrunl & Hone); try done.
  { intros link Hl.
    destruct (encodeLinkConstraint_count_total self3 fs3 link)
      as (count & Hcount).
    { intros u Hu. by apply Hdef. }
    exists (dict_values count). unfold encodeLinkConstraint.
    by rewrite Hcount. }
  { by rewrite F7. }
  rewrite Hrunl. eexists _, _. split; [done|].
  constructor; simpl; try done.
  - intros c Hc.
    assert (c ∈ c_visited σc) as Hv.
    { apply (co_seen _ _ _ _ _ Hco).
      by rewrite merge_sort_Permutation, elem_of_elements. }
    apply (co_cover _ _ _ _ _ Hco) in Hv. by rewrite F1.
  - intros r Hr. split; [by apply Hrepc|]. rewrite F1. simpl.
    destruct (co_self _ _ _ _ _ Hco r Hr) as (G & HG & HrG).
    exists G. split; [done|]. split; [done|].
    intros x Hx. apply (co_visited _ _ _ _ _ Hco).
    apply (co_cover _ _ _ _ _ Hco). by exists r, G.
  - rewrite F1. simpl. apply (co_disjoint _ _ _ _ _ Hco).
  - rewrite F1, F2, F3. simpl. apply (co_maps _ _ _ _ _ Hco).
  - intros repsd Hrep. rewrite F4. simpl.
    destruct (Hflow repsd Hrep) as (σ & HM & HFM & Hout).
    simpl in Hout. rewrite HA in Hout.
    exists (l_repflowlinks σ), (l_flowlinkmap σ).
    assert (∀ l, l ∈ DLinks self0 → l ∈ l_visited σ) as Hvis.
    { intros l Hl. apply (fo_seen _ _ _ _ Hout).
      by rewrite merge_sort_Permutation, elem_of_elements. }
    split_and!; try done.
    + intros r Hin. apply (fo_reps _ _ _ _ Hout) in Hin as [Hin _].
      by rewrite merge_sort_Permutation, elem_of_elements in Hin.
    + intros r Hin. by apply (fo_reps _ _ _ _ Hout).
    + intros l Hl. apply Hvis, (fo_dom _ _ _ _ Hout) in Hl as [r Hlr].
      exists r. split; [done|]. by apply (fo_rep _ _ _ _ Hout l r).
    + intros l r Hlr. by apply (fo_rep _ _ _ _ Hout l r).
Qed.

(** ** The model is built without a failed lookup *)

Lemma createVariables_total (topo : Topology) :
  (∀ repsd, repsd ∈ RepCommodities topo →
     ∃ links, RepCommFlowLinks topo !! repsd = Some links
       ∧ ∀ l, l ∈ links → is_Some (get_edge_data (UG topo) l.1 l.2)) →
  ∃ opt, createVariables topo = Ok opt.
Proof.
  intros Hall. unfold createVariables.
  destruct (for_each_total
    (λ (Fd : gmap (nat * nat) (gmap (nat * nat) Var)) (repsd : nat * nat),
       links ← orRaise KeyError (RepCommFlowLinks topo !! repsd);
       row ← for_each
               (λ (row : gmap (nat * nat) Var) (repflowlink : nat * nat),
                  linkcap ← orRaise TypeError
                    (get_edge_data (UG topo) repflowlink.1 repflowlink.2);
                  Ok (<[repflowlink := Var_f repsd repflowlink]> row))
               (elements links) ∅;
       Ok (<[repsd := row]> Fd))
    (λ _ _, True) (elements (RepCommodities topo)) ∅)
    as (Fd & Hrun & _); [done| |].
  - intros pre repsd post Fd Hsplit _.
    destruct (Hall repsd) as (links & Hl & Hcap).
    { apply elem_of_elements. rewrite Hsplit. set_solver. }
    rewrite Hl, orRaise_Some_bind.
    destruct (for_each_total
      (λ (row : gmap (nat * nat) Var) (repflowlink : nat * nat),
         linkcap ← orRaise TypeError
           (get_edge_data (UG topo) repflowlink.1 repflowlink.2);
         Ok (<[repflowlink := Var_f repsd repflowlink]> row))
      (λ _ _, True) (elements links) ∅) as (row & Hrow & _); [done| |].
    + intros pre' l post' row Hsplit' _.
      destruct (Hcap l) as [cap Hc].
      { apply elem_of_elements. rewrite Hsplit'. set_solver. }
      rewrite Hc, orRaise_Some_bind. eauto.
    + rewrite Hrow, result_bind_Ok. eauto.
  - rewrite Hrun. simpl. eauto.
Qed.

Lemma setFlowConservationConstraint_total (fs : Files) (self : Optimization) :
  (∀ repsd, repsd ∈ RepCommodities (Topo self) →
     ∃ flowmap Frep,
       FlowLinkMap fs !! repsd = Some flowmap ∧ F self !! repsd = Some Frep
       ∧ ∀ n, n ∈ AllNodes (Topo self) →
           ∃ hs, neighbors (UG (Topo self)) n = Ok hs ∧ hs ≠ []
             ∧ ∀ h, h ∈ hs →
                 (∃ l v, flowmap !! (h, n) = Some l ∧ Frep !! l = Some v)
                 ∧ (∃ l v, flowmap !! (n, h) = Some l ∧ Frep !! l = Some v)) →
  ∃ self', setFlowConservationConstraint fs self = Ok self'.
Proof.
  intros Hall. unfold setFlowConservationConstraint.
  destruct (for_each_total
    (λ (self : Optimization) (repsd : nat * nat),
       flowmap ← loadCommodityFlowLinkMap fs repsd;
       for_each
         (λ (self : Optimization) (n : nat),
            c ← flow_conservation_at self flowmap repsd n;
            Ok (addConstr c self))
         (elements (AllNodes (Topo self))) self)
    (λ _ σ, Topo σ = Topo self ∧ F σ = F self)
    (elements (RepCommodities (Topo self))) self)
    as (self' & Hrun & _); [done| |by eauto].
  intros pre repsd post σ Hsplit (HT & HF).
  destruct (Hall repsd) as (flowmap & Frep & Hfm & HFr & Hnb).
  { apply elem_of_elements. rewrite Hsplit. set_solver. }
  unfold loadCommodityFlowLinkMap. rewrite Hfm. simpl. rewrite HT.
  apply (for_each_total
    (λ (self0 : Optimization) (n : nat),
       c ← flow_conservation_at self0 flowmap repsd n;
       Ok (addConstr c self0))
    (λ _ σ', Topo σ' = Topo self ∧ F σ' = F self)); [done|].
  intros pre' n post' σ1 Hsplit' (HT1 & HF1).
  destruct (Hnb n) as (hs & Hhs & Hne & Hlook).
  { apply elem_of_elements. rewrite Hsplit'. set_solver. }
  destruct (flow_conservation_at_spec fs σ1 flowmap Frep repsd n hs)
    as (c & Hc & _); [done|by rewrite HF1|by rewrite HT1|done|done|].
  rewrite Hc. simpl. eauto.
Qed.

Lemma setAdditionalFlowConstraint_total (self : Optimization) :
  (∀ repsd, repsd ∈ RepCommodities (Topo self) →
     ∃ links Frep,
       RepCommFlowLinks (Topo self) !! repsd = Some links
       ∧ F self !! repsd = Some Frep
       ∧ ∀ l, l ∈ links → is_Some (Frep !! l)) →
  ∃ self', setAdditionalFlowConstraint self = Ok self'.
Proof.
  intros Hall. unfold setAdditionalFlowConstraint.
  assert (∀ (body : nat * nat → Optimization → nat * nat → result Optimization)
            (sel : nat * nat → gset (nat * nat) → list (nat * nat)) s0,
    F s0 = F self →
    (∀ repsd links Frep s ij, F s = F self →
       RepCommFlowLinks (Topo self) !! repsd = Some links →
       F self !! repsd = Some Frep → ij ∈ sel repsd links →
       is_Some (Frep !! ij) →
       ∃ s', body repsd s ij = Ok s' ∧ F s' = F self) →
    (∀ repsd links ij, ij ∈ sel repsd links → ij ∈ links) →
    ∃ s1, for_each
      (λ (s : Optimization) (repsd : nat * nat),
         links ← orRaise KeyError (RepCommFlowLinks (Topo self) !! repsd);
         for_each (body repsd) (sel repsd links) s)
      (elements (RepCommodities (Topo self))) s0 = Ok s1
      ∧ F s1 = F self) as Hloop.
  { intros body sel s0 HF0 Hbody Hsel.
    apply (for_each_total _ (λ _ s, F s = F self)); [done|].
    intros pre repsd post s Hsplit HFs.
    destruct (Hall repsd) as (links & Frep & Hl & HFr & Hin).
    { apply elem_of_elements. rewrite Hsplit. set_solver. }
    rewrite Hl, orRaise_Some_bind.
    apply (for_each_total _ (λ _ s, F s = F self)); [done|].
    intros pre' ij post' s' Hsplit' HFs'.
    assert (ij ∈ sel repsd links) as Hij by (rewrite Hsplit'; set_solver).
    apply (Hbody repsd links Frep); try done. apply Hin. by eapply Hsel. }
  destruct (Hloop
    (λ repsd s ij,
       Frep ← orRaise KeyError (F s !! repsd);
       v ← orRaise KeyError (Frep !! ij);
       Ok (addConstr (pin_zero (afa repsd.1 repsd.2 ij.1 ij.2) v) s))
    (λ repsd links,
       elements (links ∩ cprod (AllNodes (Topo self))
                                (NonRouteNodes (Topo self) ∖ {[repsd.2]})))
    self) as (s1 & Hrun1 & HF1); [done| | |].
  { intros repsd links Frep s ij HFs _ HFr _ [v Hv].
    rewrite HFs, HFr, orRaise_Some_bind, Hv, orRaise_Some_bind. eauto. }
  { intros repsd links ij Hin. apply elem_of_elements in Hin. set_solver. }
  rewrite Hrun1, result_bind_Ok.
  destruct (Hloop
    (λ repsd s ij,
       if decide (ij.2 = repsd.1 ∨ ij.1 = repsd.2) then
         Frep ← orRaise KeyError (F s !! repsd);
         v ← orRaise KeyError (Frep !! ij);
         Ok (addConstr (pin_zero (afc repsd.1 repsd.2 ij.1 ij.2) v) s)
       else Ok s)
    (λ repsd links, elements links) s1) as (s2 & Hrun2 & HF2); [done| | |].
  { intros repsd links Frep s ij HFs _ HFr _ [v Hv].
    case_decide; [|by eauto].
    rewrite HFs, HFr, orRaise_Some_bind, Hv, orRaise_Some_bind. eauto. }
  { intros repsd links ij Hin. by apply elem_of_elements in Hin. }
  eauto.
Qed.

Lemma get_edge_data_edge (G : Graph) (i j : nat) (cap : Qc) :
  get_edge_data G i j = Some cap → ∃ e, e ∈ edges G ∧ e.2 = cap.
Proof.
  unfold get_edge_data.
  destruct (list_find _ (edges G)) as [[k e]|] eqn:Hfind; [|done].
  intros [= <-]. apply list_find_Some in Hfind as (Hk & _ & _).
  exists e. split; [|done]. by eapply list_elem_of_lookup_2.
Qed.

Lemma build_model_total (n : nat) (ugraph : Graph) (autgen : list (list nat))
    (topo : Topology) (fs : Files) :
  Ready n ugraph autgen topo fs →
  (∀ e, e ∈ edges ugraph → e.2 ≠ 0%Qc) →
  (RepCommodities topo ≠ ∅ → no_isolated_node ugraph) →
  ∃ model, build_model fs topo = Ok model.
Proof.
  intros Hrd Hcap Hiso. unfold build_model.
  assert (∀ l, l ∈ DLinks topo →
            ∃ cap, get_edge_data (UG topo) l.1 l.2 = Some cap ∧ cap ≠ 0%Qc)
    as Hedge.
  { intros [i j] Hl. apply (rd_links _ _ _ _ _ Hrd) in Hl.
    rewrite (rd_UG _ _ _ _ _ Hrd). simpl.
    apply get_edge_data_is_Some in Hl as [cap Hc]. exists cap.
    split; [done|]. apply get_edge_data_edge in Hc as (e & He & <-).
    by apply Hcap. }
  destruct (createVariables_total topo) as (s0 & H0).
  { intros repsd Hrep.
    destruct (rd_flow _ _ _ _ _ Hrd repsd Hrep)
      as (links & flowmap & Hl & _ & Hsub & _).
    exists links. split; [done|]. intros l Hin.
    destruct (Hedge l (Hsub l Hin)) as (cap & Hc & _). by rewrite Hc. }
  rewrite H0, result_bind_Ok.
  pose proof (createVariables_spec _ _ H0) as (HT & HB & HG & HF).
  assert (∀ repsd, repsd ∈ RepCommodities topo →
            ∃ links flowmap Frep,
              RepCommFlowLinks topo !! repsd = Some links
              ∧ FlowLinkMap fs !! repsd = Some flowmap
              ∧ F s0 !! repsd = Some Frep
              ∧ links ⊆ DLinks topo
              ∧ (∀ l, l ∈ links → Frep !! l = Some (Var_f repsd l))
              ∧ (∀ l, l ∈ DLinks topo →
                   ∃ r, flowmap !! l = Some r ∧ r ∈ links)) as Hvars.
  { intros repsd Hrep.
    destruct (rd_flow _ _ _ _ _ Hrd repsd Hrep)
      as (links & flowmap & Hl & Hfm & Hsub & _ & Htot & _).
    destruct (HF repsd Hrep) as (links' & Frep & Hl' & HFr & Hrow).
    rewrite Hl in Hl'. injection Hl' as <-.
    exists links, flowmap, Frep. split_and!; try done.
    intros l Hin. by apply Hrow. }
  destruct (setFlowConservationConstraint_total fs s0) as (s1 & H1).
  { rewrite HT. intros repsd Hrep.
    destruct (Hvars repsd Hrep)
      as (links & flowmap & Frep & _ & Hfm & HFr & _ & Hrow & Htot).
    exists flowmap, Frep. split; [done|]. split; [done|].
    intros v Hv. rewrite (rd_AllNodes _ _ _ _ _ Hrd), elem_of_U1 in Hv.
    apply (rd_nodes _ _ _ _ _ Hrd) in Hv.
    rewrite (rd_UG _ _ _ _ _ Hrd). exists (adj ugraph v).
    split; [by apply neighbors_in_graph|]. split.
    { destruct (Hiso ltac:(set_solver) v Hv) as (e & He & Hor).
      assert (∃ j, j ∈ adj ugraph v) as [j Hj].
      { destruct e as [[a b] c]. simpl in Hor. destruct Hor as [<-|<-].
        - exists b. apply elem_of_adj. exists (a, b, c). auto.
        - exists a. apply elem_of_adj. exists (a, b, c). auto. }
      intros Heq. rewrite Heq in Hj. by apply elem_of_nil in Hj. }
    intros h Hh. apply elem_of_adj in Hh.
    assert ((h, v) ∈ DLinks topo ∧ (v, h) ∈ DLinks topo) as [Hhv Hvh].
    { rewrite !(rd_links _ _ _ _ _ Hrd). destruct Hh as (e & He & Hor).
      split; exists e; (split; [done|]); tauto. }
    split.
    - destruct (Htot _ Hhv) as (r & Hr & Hin). exists r, (Var_f repsd r).
      split; [done|]. by apply Hrow.
    - destruct (Htot _ Hvh) as (r & Hr & Hin). exists r, (Var_f repsd r).
      split; [done|]. by apply Hrow. }
  rewrite H1, result_bind_Ok.
  pose proof (setFlowConservationConstraint_extends _ _ _ H1)
    as (T1 & F1 & B1 & G1 & _).
  destruct (setAdditionalFlowConstraint_total s1) as (s2 & H2).
  { rewrite T1, HT, F1. intros repsd Hrep.
    destruct (Hvars repsd Hrep)
      as (links & flowmap & Frep & Hl & _ & HFr & _ & Hrow & _).
    exists links, Frep. split; [done|]. split; [done|].
    intros l Hin. by rewrite Hrow. }
  rewrite H2, result_bind_Ok.
  pose proof (setAdditionalFlowConstraint_extends _ _ H2)
    as (T2 & F2 & B2 & G2 & _).
  destruct (rd_replinks _ _ _ _ _ Hrd) as [Hrl _].
  destruct (setAuxThroughputConstraint_total fs s2) as (s3 & H3).
  { rewrite T2, T1, HT, B2, B1, G2, G1. intros u ij Hu Hij.
    destruct (rd_aux _ _ _ _ _ Hrd u ij Hu (Hrl ij Hij)) as (r & Hr & Hc).
    exists r. split; [done|]. split; [rewrite HB|rewrite HG]; done. }
  rewrite H3, result_bind_Ok.
  pose proof (setAuxThroughputConstraint_extends _ _ _ H3)
    as (T3 & F3 & B3 & G3 & _).
  apply setAuxFlowConstraint_total.
  rewrite T3, T2, T1, HT, F3, F2, F1, B3, B2, B1, G3, G2, G1.
  intros repsd Hrep.
  destruct (Hvars repsd Hrep)
    as (links & flowmap & Frep & Hl & _ & HFr & Hsub & Hrow & _).
  exists links, Frep. split; [done|]. split; [done|].
  intros l Hin. pose proof (Hsub l Hin) as HlD.
  destruct (rd_groups _ _ _ _ _ Hrd repsd Hrep) as [Hc _].
  destruct repsd as [s d]. apply (rd_commodities _ _ _ _ _ Hrd) in Hc
    as (Hs & Hd & _).
  split; [by rewrite Hrow|]. split; [by apply Hedge|]. split.
  - destruct (rd_aux _ _ _ _ _ Hrd s l Hs HlD) as (r & Hr & Hcl).
    exists r. split; [done|]. by rewrite HB.
  - destruct (rd_aux _ _ _ _ _ Hrd d l Hd HlD) as (r & Hr & Hcl).
    exists r. split; [done|]. by rewrite HG.
Qed.

(** X6: on a graph with nodes [0 .. n-1] whose edges join nodes of the
    graph, with generators that are permutations of the nodes and map
    hosts to hosts, pools that run every task once, no stage file yet
    and [n^4] loop iterations allowed, [Topology.__init__] runs through
    all of its steps without an exception, and leaves the files and
    fields the later steps read: total class, flow-link and auxiliary
    maps (the record [Ready]). *)
Theorem topology_init_completes (o : Oracles) (fuel : nat) (ugraph : Graph)
    (autgen : list (list nat)) (fs : Files) :
  let n := number_of_nodes ugraph in
  list_to_set (nodes ugraph) =@{gset nat} U1 n →
  graph_ok ugraph →
  Forall (perm_gen n) autgen →
  host_preserving ugraph autgen →
  (∀ l, sched_flow o l ≡ₚ l) →
  (∀ l, sched_link o l ≡ₚ l) →
  stage_findRepresentativeCommodities fs = None →
  stage_findRepresentativeCommodityFlowLinks fs = None →
  stage_findRepresentativeAuxs fs = None →
  stage_findRepresentativeLinkConstrs fs = None →
  n * n * (n * n) ≤ fuel →
  ∃ topo fs', Topology_init o fuel ugraph autgen fs = Ok (topo, fs')
    ∧ Ready n ugraph autgen topo fs'.
Proof. apply Topology_init_ready. Qed.

Lemma pair_host_preserving : host_preserving pair_graph pair_autgen.
Proof. intros g u Hg Hu _. simpl. lia. Qed.

Lemma topology_init_completes_witness :
  ∃ topo fs',
    Topology_init first_oracles 100 pair_graph pair_autgen no_files
      = Ok (topo, fs')
    ∧ Ready 2 pair_graph pair_autgen topo fs'.
Proof.
  apply (topology_init_completes first_oracles 100 pair_graph pair_autgen
           no_files).
  - by_compute.
  - by_compute.
  - by_compute.
  - apply pair_host_preserving.
  - done.
  - done.
  - reflexivity.
  - reflexivity.
  - reflexivity.
  - reflexivity.
  - simpl. lia.
Defined.

(** X7: under the conditions of X6, with no edge of capacity zero and
    every node an end of some edge, [Topology.__init__] followed by the
    model-building calls of [optimize] ([createVariables] and the four
    constraint builders) completes without an exception, and the model
    is built on the topology just computed. *)
Theorem model_construction_completes (o : Oracles) (fuel : nat)
    (ugraph : Graph) (autgen : list (list nat)) (fs : Files) :
  let n := number_of_nodes ugraph in
  list_to_set (nodes ugraph) =@{gset nat} U1 n →
  graph_ok ugraph →
  no_isolated_node ugraph →
  (∀ e, e ∈ edges ugraph → e.2 ≠ 0%Qc) →
  Forall (perm_gen n) autgen →
  host_preserving ugraph autgen →
  (∀ l, sched_flow o l ≡ₚ l) →
  (∀ l, sched_link o l ≡ₚ l) →
  stage_findRepresentativeCommodities fs = None →
  stage_findRepresentativeCommodityFlowLinks fs = None →
  stage_findRepresentativeAuxs fs = None →
  stage_findRepresentativeLinkConstrs fs = None →
  n * n * (n * n) ≤ fuel →
  ∃ topo fs' model,
    Topology_init o fuel ugraph autgen fs = Ok (topo, fs')
    ∧ build_model fs' topo = Ok model
    ∧ Topo model = topo.
Proof.
  intros n Hnodes Hok Hiso Hcap Hgens Hhp Hsf Hsl Hst1 Hst2 Hst3 Hst4 Hfuel.
  destruct (Topology_init_ready o fuel ugraph autgen fs)
    as (topo & fs' & Hrun & Hrd); try done.
  destruct (build_model_total _ _ _ _ _ Hrd Hcap (λ _, Hiso)) as (model & Hm).
  exists topo, fs', model. split; [done|]. split; [done|].
  unfold build_model in Hm.
  apply bind_Ok in Hm as (s0 & H0 & Hm).
  apply bind_Ok in Hm as (s1 & H1 & Hm).
  apply bind_Ok in Hm as (s2 & H2 & Hm).
  apply bind_Ok in Hm as (s3 & H3 & H4).
  destruct (setFlowConservationConstraint_extends _ _ _ H1) as [T1 _].
  destruct (setAdditionalFlowConstraint_extends _ _ H2) as [T2 _].
  destruct (setAuxThroughputConstraint_extends _ _ _ H3) as [T3 _].
  destruct (setAuxFlowConstraint_extends _ _ _ H4) as [T4 _].
  destruct (createVariables_spec _ _ H0) as [HT _]. congruence.
Qed.

Lemma model_construction_completes_witness :
  ∃ topo fs' model,
    Topology_init first_oracles 100 pair_graph pair_autgen no_files
      = Ok (topo, fs')
    ∧ build_model fs' topo = Ok model
    ∧ Topo model = topo.
Proof.
  apply (model_construction_completes first_oracles 100 pair_graph
           pair_autgen no_files).
  - by_compute.
  - by_compute.
  - by_compute.
  - intros e He. list_members He. by_compute.
  - by_compute.
  - apply pair_host_preserving.
  - done.
  - done.
  - reflexivity.
  - reflexivity.
  - reflexivity.
  - reflexivity.
  - simpl. lia.
Defined.

Lemma builders_only_append_witness :
  Topo (opt_of (build_model pair_files pair_topo) pair_topo) = pair_topo
  ∧ ∃ s0 s1 s2 s3,
      createVariables pair_topo = Ok s0 ∧ constrs s0 = []
      ∧ setFlowConservationConstraint pair_files s0 = Ok s1
      ∧ setAdditionalFlowConstraint s1 = Ok s2
      ∧ setAuxThroughputConstraint pair_files s2 = Ok s3
      ∧ setAuxFlowConstraint pair_files s3
        = Ok (opt_of (build_model pair_files pair_topo) pair_topo)
      ∧ extends s0 s1 ∧ extends s1 s2 ∧ extends s2 s3
      ∧ extends s3 (opt_of (build_model pair_files pair_topo) pair_topo).
Proof.
  apply (builders_only_append pair_files pair_topo).
  vm_compute. reflexivity.
Defined.

(** ** The routing graph written by saveOptimalRouting *)

Lemma edge_flow_add_edge (i j : nat) (g : Routing) (link repsd : nat * nat) :
  edge_flow (add_edge i j g) link repsd = edge_flow g link repsd.
Proof.
  unfold edge_flow, add_edge. simpl.
  destruct (r_edges g !! (i, j)) as [a|] eqn:Hij; [done|].
  destruct (decide (link = (i, j))) as [->|Hne].
  - by rewrite lookup_insert_eq, Hij.
  - by rewrite lookup_insert_ne.
Qed.

Lemma keys_add_edge (i j : nat) (g : Routing) (link : nat * nat) :
  is_Some (r_edges (add_edge i j g) !! link)
  ↔ link = (i, j) ∨ is_Some (r_edges g !! link).
Proof.
  unfold add_edge. simpl.
  destruct (r_edges g !! (i, j)) as [a|] eqn:Hij.
  - split; [by right|]. intros [->|Hs]; [by rewrite Hij|done].
  - destruct (decide (link = (i, j))) as [->|Hne].
    + rewrite lookup_insert_eq. split; [by left|by eauto].
    + rewrite lookup_insert_ne by done. naive_solver.
Qed.

Lemma set_flow_Ok (i j : nat) (repsd : nat * nat) (flow : Qc) (g g' : Routing) :
  set_flow i j repsd flow g = Ok g' →
  is_Some (r_edges g !! (i, j))
  ∧ r_nodes g' = r_nodes g
  ∧ (∀ link, is_Some (r_edges g' !! link) ↔ is_Some (r_edges g !! link))
  ∧ ∀ link r, edge_flow g' link r
      = if decide (link = (i, j) ∧ r = repsd) then Some flow
        else edge_flow g link r.
Proof.
  unfold set_flow. intros Hrun.
  apply bind_Ok in Hrun as (attrs & Ha & Hrun).
  destruct (r_edges g !! (i, j)) as [a|] eqn:Hij; [|done].
  simpl in Ha. simplify_eq. simpl. split; [by eauto|]. split; [done|]. split.
  - intros link. destruct (decide (link = (i, j))) as [->|Hne].
    + rewrite lookup_insert_eq, Hij. split; eauto.
    + by rewrite lookup_insert_ne.
  - intros link r. unfold edge_flow. simpl.
    destruct (decide (link = (i, j))) as [->|Hne].
    + rewrite lookup_insert_eq, Hij. simpl.
      destruct (decide (r = repsd)) as [->|Hner].
      * rewrite lookup_insert_eq. by rewrite decide_True.
      * rewrite lookup_insert_ne by done. rewrite decide_False; naive_solver.
    + rewrite lookup_insert_ne by done. rewrite decide_False; naive_solver.
Qed.

Lemma set_flow_total (i j : nat) (repsd : nat * nat) (flow : Qc) (g : Routing) :
  is_Some (r_edges g !! (i, j)) → ∃ g', set_flow i j repsd flow g = Ok g'.
Proof. intros [a Ha]. unfold set_flow. rewrite Ha. simpl. eauto. Qed.

Lemma var_X_Ok (sol : Solved) (v : Var) (x : Qc) :
  var_X sol v = Ok x → SolCount sol ≠ 0 ∧ x = X sol v.
Proof. unfold var_X. case_decide; [done|]. by intros [= <-]. Qed.

Lemma var_X_solved (sol : Solved) (v : Var) :
  SolCount sol ≠ 0 → var_X sol v = Ok (X sol v).
Proof. intros Hn. unfold var_X. by rewrite decide_False. Qed.

Section expand.
Context (fs : Files) (self : Optimization) (sol : Solved).

(** What one commodity contributes on the two directions of an edge. *)
Lemma expand_step (i j : nat) (repsd : nat * nat) (g g' : Routing) :
  (flowmap ← loadCommodityFlowLinkMap fs repsd;
   Frep ← orRaise KeyError (F self !! repsd);
   lij ← orRaise KeyError (flowmap !! (i, j));
   vij ← orRaise KeyError (Frep !! lij);
   flowij ← var_X sol vij;
   Frep ← orRaise KeyError (F self !! repsd);
   lji ← orRaise KeyError (flowmap !! (j, i));
   vji ← orRaise KeyError (Frep !! lji);
   flowji ← var_X sol vji;
   g ← (if decide (0 < flowij)%Qc then set_flow i j repsd flowij g
        else Ok g);
   if decide (0 < flowji)%Qc then set_flow j i repsd flowji g
   else Ok g) = Ok g' →
  ∃ fij fji,
    routed_flow fs self sol repsd (i, j) = Some fij
    ∧ routed_flow fs self sol repsd (j, i) = Some fji
    ∧ r_nodes g' = r_nodes g
    ∧ (∀ link, is_Some (r_edges g' !! link) ↔ is_Some (r_edges g !! link))
    ∧ ∀ link r, edge_flow g' link r
        = if decide (link = (j, i) ∧ r = repsd ∧ (0 < fji)%Qc) then Some fji
          else if decide (link = (i, j) ∧ r = repsd ∧ (0 < fij)%Qc)
               then Some fij
               else edge_flow g link r.
Proof.
  intros Hrun. unfold loadCommodityFlowLinkMap in Hrun.
  apply bind_Ok in Hrun as (flowmap & Hfm & Hrun).
  apply bind_Ok in Hrun as (Frep & HFr & Hrun).
  apply bind_Ok in Hrun as (lij & Hlij & Hrun).
  apply bind_Ok in Hrun as (vij & Hvij & Hrun).
  apply bind_Ok in Hrun as (flowij & Hxij & Hrun).
  apply bind_Ok in Hrun as (Frep' & HFr' & Hrun).
  apply bind_Ok in Hrun as (lji & Hlji & Hrun).
  apply bind_Ok in Hrun as (vji & Hvji & Hrun).
  apply bind_Ok in Hrun as (flowji & Hxji & Hrun).
  apply bind_Ok in Hrun as (g1 & H1 & H2).
  apply var_X_Ok in Hxij as [_ ->], Hxji as [_ ->].
  apply orRaise_Ok in Hfm, HFr, Hlij, Hvij, HFr', Hlji, Hvji.
  rewrite HFr in HFr'. injection HFr' as <-.
  exists (X sol vij), (X sol vji).
  assert (routed_flow fs self sol repsd (i, j) = Some (X sol vij)) as R1.
  { unfold routed_flow. rewrite Hfm, HFr. simpl. rewrite Hlij. simpl.
    by rewrite Hvij. }
  assert (routed_flow fs self sol repsd (j, i) = Some (X sol vji)) as R2.
  { unfold routed_flow. rewrite Hfm, HFr. simpl. rewrite Hlji. simpl.
    by rewrite Hvji. }
  split; [done|]. split; [done|].
  assert (r_nodes g1 = r_nodes g
          ∧ (∀ link, is_Some (r_edges g1 !! link) ↔ is_Some (r_edges g !! link))
          ∧ ∀ link r, edge_flow g1 link r
              = if decide (link = (i, j) ∧ r = repsd ∧ (0 < X sol vij)%Qc)
                then Some (X sol vij) else edge_flow g link r) as (N1 & K1 & E1).
  { destruct (decide (0 < X sol vij)%Qc) as [Hpos|Hnpos].
    - apply set_flow_Ok in H1 as (_ & N & K & E). split; [done|].
      split; [done|]. intros link r. rewrite E.
      repeat case_decide; naive_solver.
    - simplify_eq. split; [done|]. split; [done|]. intros link r.
      rewrite decide_False; naive_solver. }
  destruct (decide (0 < X sol vji)%Qc) as [Hpos|Hnpos].
  - apply set_flow_Ok in H2 as (_ & N & K & E). split; [congruence|].
    split; [intros link; by rewrite K, K1|]. intros link r. rewrite E, E1.
    repeat case_decide; naive_solver.
  - simplify_eq. split; [done|]. split; [done|]. intros link r. rewrite E1.
    rewrite (decide_False (P := _ ∧ _ ∧ (0 < X sol vji)%Qc)); naive_solver.
Qed.
End expand.

Section expand_routing.
Context (fs : Files) (self : Optimization) (sol : Solved).

Let reps := RepCommodities (Topo self).

Let sound := sound_routing fs self sol.

Lemma expand_inner (i j : nat) (g g' : Routing) :
  sound g →
  for_each
    (λ (g : Routing) (repsd : nat * nat),
       flowmap ← loadCommodityFlowLinkMap fs repsd;
       Frep ← orRaise KeyError (F self !! repsd);
       lij ← orRaise KeyError (flowmap !! (i, j));
       vij ← orRaise KeyError (Frep !! lij);
       flowij ← var_X sol vij;
       Frep ← orRaise KeyError (F self !! repsd);
       lji ← orRaise KeyError (flowmap !! (j, i));
       vji ← orRaise KeyError (Frep !! lji);
       flowji ← var_X sol vji;
       g ← (if decide (0 < flowij)%Qc then set_flow i j repsd flowij g
            else Ok g);
       if decide (0 < flowji)%Qc then set_flow j i repsd flowji g
       else Ok g)
    (elements reps) g = Ok g' →
  r_nodes g' = r_nodes g
  ∧ (∀ link, is_Some (r_edges g' !! link) ↔ is_Some (r_edges g !! link))
  ∧ sound g'
  ∧ (∀ link r f, routed_flow fs self sol r link = Some f →
       edge_flow g link r = Some f → edge_flow g' link r = Some f)
  ∧ (∀ r link, r ∈ reps → link = (i, j) ∨ link = (j, i) →
       ∃ f, routed_flow fs self sol r link = Some f
            ∧ ((0 < f)%Qc → edge_flow g' link r = Some f)).
Proof.
  intros Hsound Hrun.
  cut (r_nodes g' = r_nodes g
       ∧ (∀ link : nat * nat,
            is_Some (r_edges g' !! link) ↔ is_Some (r_edges g !! link))
       ∧ sound g'
       ∧ (∀ link r f, routed_flow fs self sol r link = Some f →
            edge_flow g link r = Some f → edge_flow g' link r = Some f)
       ∧ (∀ r link, r ∈ elements reps → link = (i, j) ∨ link = (j, i) →
            ∃ f, routed_flow fs self sol r link = Some f
                 ∧ ((0 < f)%Qc → edge_flow g' link r = Some f))).
  { intros (N & K & S & St & C). split_and!; try done. intros r link Hr.
    apply C. by apply elem_of_elements. }
  apply (for_each_partial _
    (λ pre gk,
       r_nodes gk = r_nodes g
       ∧ (∀ link : nat * nat,
            is_Some (r_edges gk !! link) ↔ is_Some (r_edges g !! link))
       ∧ sound gk
       ∧ (∀ link r f, routed_flow fs self sol r link = Some f →
            edge_flow g link r = Some f → edge_flow gk link r = Some f)
       ∧ (∀ r link, r ∈ pre → link = (i, j) ∨ link = (j, i) →
            ∃ f, routed_flow fs self sol r link = Some f
                 ∧ ((0 < f)%Qc → edge_flow gk link r = Some f)))
    _ _ _ Hrun).
  - split_and!; try done. intros r link Hr. by apply elem_of_nil in Hr.
  - clear Hrun.
    intros pre repsd post gk gk' Hsplit (N & K & S & St & C) Hstep.
    assert (repsd ∈ reps) as Hrep.
    { apply elem_of_elements. rewrite Hsplit. set_solver. }
    apply expand_step in Hstep
      as (fij & fji & Rij & Rji & N' & K' & E').
    split_and!.
    + congruence.
    + intros link. by rewrite K', K.
    + intros link r f. rewrite E'.
      repeat case_decide;
        first [intros [= <-]; destruct_and!; by simplify_eq | apply S].
    + intros link r f Hr Hg. rewrite E'.
      repeat case_decide; try destruct_and!; simplify_eq;
        first [congruence | by apply St].
    + intros r link Hr Hlink. apply elem_of_app in Hr as [Hr|Hr].
      * destruct (C r link Hr Hlink) as (f & Rf & Hf). exists f.
        split; [done|]. intros Hpos. rewrite E'.
        repeat case_decide; try destruct_and!; simplify_eq;
          first [congruence | by apply Hf].
      * apply list_elem_of_singleton in Hr as ->.
        destruct Hlink as [->| ->].
        -- exists fij. split; [done|]. intros Hpos. rewrite E'.
           repeat case_decide; try destruct_and!; simplify_eq;
             first [congruence | naive_solver].
        -- exists fji. split; [done|]. intros Hpos. rewrite E'.
           repeat case_decide; try destruct_and!; simplify_eq;
             first [congruence | naive_solver].
Qed.

Lemma expand_routing_spec (g : Routing) :
  expand_routing fs self sol = Ok g →
  (∀ v, v ∈ nodes (UG (Topo self)) → v ∈ r_nodes g)
  ∧ (∀ link, is_Some (r_edges g !! link) ↔ is_link (UG (Topo self)) link)
  ∧ sound g
  ∧ (∀ r link, r ∈ reps → is_link (UG (Topo self)) link →
       ∃ f, routed_flow fs self sol r link = Some f
            ∧ ((0 < f)%Qc → edge_flow g link r = Some f)).
Proof.
  unfold expand_routing. intros Hrun. unfold is_link.
  apply (for_each_partial _
    (λ pre gk,
       (∀ v, v ∈ nodes (UG (Topo self)) → v ∈ r_nodes gk)
       ∧ (∀ link : nat * nat, is_Some (r_edges gk !! link)
            ↔ ∃ e, e ∈ pre ∧ (e.1 = link ∨ e.1 = (link.2, link.1)))
       ∧ sound gk
       ∧ (∀ r link, r ∈ reps →
            (∃ e, e ∈ pre ∧ (e.1 = link ∨ e.1 = (link.2, link.1))) →
            ∃ f, routed_flow fs self sol r link = Some f
                 ∧ ((0 < f)%Qc → edge_flow gk link r = Some f)))
    _ _ _ Hrun).
  - simpl. split_and!.
    + intros v. by rewrite elem_of_list_to_set.
    + intros link. rewrite lookup_empty. split; [by intros [? ?]|].
      intros (e & He & _). by apply elem_of_nil in He.
    + intros link r f. unfold edge_flow. simpl. by rewrite lookup_empty.
    + intros r link _ (e & He & _). by apply elem_of_nil in He.
  - clear Hrun.
    intros pre e post gk gk' Hsplit (N & K & S & C) Hstep.
    set (i := e.1.1) in *. set (j := e.1.2) in *.
    assert (e.1 = (i, j)) as He by by destruct e as [[??]?].
    assert (sound (add_edge j i (add_edge i j gk))) as S1.
    { intros link r f. rewrite !edge_flow_add_edge. apply S. }
    apply (expand_inner i j _ _ S1) in Hstep as (N' & K' & S' & St & Cur).
    assert (∀ link, (∃ e0, e0 ∈ pre ++ [e]
                      ∧ (e0.1 = link ∨ e0.1 = (link.2, link.1)))
              ↔ link = (j, i) ∨ link = (i, j)
                ∨ ∃ e0, e0 ∈ pre ∧ (e0.1 = link ∨ e0.1 = (link.2, link.1)))
      as Hmem.
    { intros [a b]. simpl. split.
      - intros (e0 & Hin & Hor). apply elem_of_app in Hin as [Hin|Hin].
        + right. right. by exists e0.
        + apply list_elem_of_singleton in Hin as ->. rewrite He in Hor.
          destruct Hor as [Hor|Hor]; simplify_eq; auto.
      - intros [Heq|[Heq|(e0 & Hin & Hor)]].
        + exists e. split; [set_solver|]. rewrite He. right. by simplify_eq.
        + exists e. split; [set_solver|]. rewrite He. by left.
        + exists e0. split; [set_solver|done]. }
    split_and!.
    + intros v Hv. rewrite N'. simpl. set_solver.
    + intros link. rewrite K', !keys_add_edge, K, Hmem. tauto.
    + done.
    + intros r link Hr Hin. apply Hmem in Hin as [Heq|[Heq|Hin]].
      * apply Cur; auto.
      * apply Cur; auto.
      * destruct (C r link Hr Hin) as (f & Rf & Hf). exists f.
        split; [done|]. intros Hpos. apply St; [done|].
        rewrite !edge_flow_add_edge. by apply Hf.
Qed.
End expand_routing.

(** X8: when [saveOptimalRouting] returns, the only file it has
    written is [OptimalRouting].  The stored graph has an edge for a pair
    exactly when the pair is an edge of the topology in either
    orientation, and an edge carries a flow [f] for a commodity exactly
    when the commodity is a representative one, [f] is the value of its
    flow variable on the representative of that link, and [f > 0]. *)
Theorem optimal_routing_positive_flows (fs : Files) (self : Optimization)
    (sol : Solved) (out out' : Output) :
  saveOptimalRouting fs self sol out = (Ok (), out') →
  ∃ g, out' = set_OptimalRouting out g
    ∧ (∀ link, is_Some (r_edges g !! link) ↔ is_link (UG (Topo self)) link)
    ∧ (∀ link repsd f,
         edge_flow g link repsd = Some f
         ↔ is_link (UG (Topo self)) link
           ∧ repsd ∈ RepCommodities (Topo self)
           ∧ routed_flow fs self sol repsd link = Some f
           ∧ (0 < f)%Qc).
Proof.
  unfold saveOptimalRouting. intros Hrun.
  destruct (expand_routing fs self sol) as [g| |] eqn:Hg;
    simplify_eq. exists g. split; [done|].
  apply expand_routing_spec in Hg as (_ & K & S & C). split; [done|].
  intros link repsd f. split.
  - intros Hf. destruct (S link repsd f Hf) as (Hr & HR & Hpos).
    split_and!; try done. apply K. unfold edge_flow in Hf.
    destruct (r_edges g !! link); [by eauto|done].
  - intros (Hl & Hr & HR & Hpos). destruct (C repsd link Hr Hl) as (f' & HR' & Hf').
    rewrite HR in HR'. injection HR' as <-. by apply Hf'.
Qed.

Lemma optimal_routing_positive_flows_witness :
  ∃ g, set_OptimalRouting no_output pair_route = set_OptimalRouting no_output g
    ∧ (∀ link, is_Some (r_edges g !! link)
         ↔ is_link (UG (Topo pair_opt)) link)
    ∧ (∀ link repsd f,
         edge_flow g link repsd = Some f
         ↔ is_link (UG (Topo pair_opt)) link
           ∧ repsd ∈ RepCommodities (Topo pair_opt)
           ∧ routed_flow pair_files pair_opt (solved OPTIMAL [Var_r]) repsd link
             = Some f
           ∧ (0 < f)%Qc).
Proof.
  apply (optimal_routing_positive_flows pair_files pair_opt
           (solved OPTIMAL [Var_r]) no_output).
  vm_compute. reflexivity.
Defined.

(** ** verifyAllLinkLoad: the reported value *)

Lemma py_max_spec (vs : list Qc) (m : Qc) :
  py_max vs = Ok m → m ∈ vs ∧ ∀ v, v ∈ vs → (v <= m)%Qc.
Proof.
  destruct vs as [|v0 vs]; [done|]. simpl. intros [= <-].
  assert (∀ acc,
    let m := foldl (λ m x, if decide (m < x)%Qc then x else m) acc vs in
    (m = acc ∨ m ∈ vs) ∧ (acc <= m)%Qc ∧ ∀ v, v ∈ vs → (v <= m)%Qc) as Hgen.
  { induction vs as [|x vs IH]; intros acc; simpl.
    - split; [by left|]. split; [apply Qcle_refl|].
      intros v Hv. by apply elem_of_nil in Hv.
    - destruct (IH (if decide (acc < x)%Qc then x else acc))
        as (Hmem & Hge & Hall).
      split; [|split].
      + destruct Hmem as [->|Hin]; [|right; set_solver].
        case_decide; [right; set_solver|by left].
      + etrans; [|exact Hge]. case_decide; [by apply Qclt_le_weak|].
        apply Qcle_refl.
      + intros v Hv. apply elem_of_cons in Hv as [->|Hv]; [|by apply Hall].
        etrans; [|exact Hge]. case_decide; [apply Qcle_refl|].
        by apply Qcnot_lt_le. }
  destruct (Hgen v0) as (Hmem & Hge & Hall). split.
  - destruct Hmem as [->|Hin]; set_solver.
  - intros v Hv. apply elem_of_cons in Hv as [->|Hv]; [done|by apply Hall].
Qed.

Lemma imap_traced_Ok {A C} (f : A → result C) (xs : list A) (ys : list C) :
  (imap_traced f xs).1 = Ok ys → Forall2 (λ x y, f x = Ok y) xs ys.
Proof.
  revert ys. induction xs as [|x xs IH]; intros ys; simpl.
  - intros [= <-]. constructor.
  - destruct (f x) as [y| |] eqn:Hfx; [|done..]. simpl.
    destruct (imap_traced f xs).1 as [ys'| |]; [|done..]. simpl.
    intros [= <-]. constructor; [done|]. by apply IH.
Qed.

Lemma findMaxLinkLoad_link solve fs self link r :
  findMaxLinkLoad solve fs self link = Ok r → r.1 = link.
Proof.
  unfold findMaxLinkLoad. intros Hrun.
  apply bind_Ok in Hrun as (load & _ & Hrun).
  destruct (solve _).1; by simplify_eq.
Qed.

(** The dictionary [linkload] built from the finished tasks. *)
Lemma linkload_spec (solve : LinkLP → Status * Qc) (fs : Files)
    (self : Verification)
    (links : list (nat * nat)) (done : list ((nat * nat) * Qc))
    (linkload : gmap (nat * nat) Qc) :
  NoDup links →
  Forall2 (λ x y, findMaxLinkLoad solve fs self x = Ok y) links done →
  for_each
    (λ (linkload : gmap (nat * nat) Qc) (r : (nat * nat) * Qc),
       cap ← orRaise TypeError (get_edge_data (UG (vTopo self)) r.1.1 r.1.2);
       if decide (cap = 0%Qc) then Raise ZeroDivisionError
       else Ok (<[r.1 := (r.2 / cap)%Qc]> linkload))
    done ∅ = Ok linkload →
  ∀ link v, linkload !! link = Some v
    ↔ link ∈ links ∧ relative_load solve fs self link v.
Proof.
  intros Hnd Hdone Hrun.
  cut (∀ link v, linkload !! link = Some v
         ↔ ∃ r, r ∈ done ∧ r.1 = link
             ∧ ∃ cap, get_edge_data (UG (vTopo self)) link.1 link.2 = Some cap
                 ∧ cap ≠ 0%Qc ∧ v = (r.2 / cap)%Qc).
  { intros Hcut link v. rewrite Hcut. split.
    - intros (r & Hr & <- & cap & Hc & Hne & ->).
      apply list_elem_of_lookup in Hr as [k Hk].
      destruct (Forall2_lookup_r _ _ _ _ _ Hdone Hk) as (x & Hx & Hfx).
      pose proof (findMaxLinkLoad_link _ _ _ _ _ Hfx) as <-.
      split; [by eapply list_elem_of_lookup_2|].
      exists r.2, cap. by destruct r.
    - intros (Hin & load & cap & Hf & Hc & Hne & ->).
      apply list_elem_of_lookup in Hin as [k Hk].
      destruct (Forall2_lookup_l _ _ _ _ _ Hdone Hk) as (y & Hy & Hfy).
      rewrite Hf in Hfy. injection Hfy as <-.
      exists (link, load). split; [by eapply list_elem_of_lookup_2|].
      split; [done|]. by exists cap. }
  assert (NoDup done.*1) as Hkeys.
  { assert (done.*1 = links) as ->; [|done]. clear Hrun Hnd.
    induction Hdone as [|x y xs ys Hxy _ IH]; [done|].
    rewrite fmap_cons, IH. by rewrite (findMaxLinkLoad_link _ _ _ _ _ Hxy). }
  clear Hdone Hnd.
  apply (for_each_partial _
    (λ pre m, ∀ link v, m !! link = Some v
        ↔ ∃ r, r ∈ pre ∧ r.1 = link
            ∧ ∃ cap, get_edge_data (UG (vTopo self)) link.1 link.2 = Some cap
                ∧ cap ≠ 0%Qc ∧ v = (r.2 / cap)%Qc)
    _ _ _ Hrun).
  - intros link v. rewrite lookup_empty. split; [done|].
    intros (r & Hr & _). by apply elem_of_nil in Hr.
  - clear Hrun. intros pre r post m m' Hsplit Hinv Hstep.
    apply bind_Ok in Hstep as (cap & Hc & Hstep). apply orRaise_Ok in Hc.
    case_decide as Hz; [done|]. injection Hstep as <-.
    assert (∀ r', r' ∈ pre → r'.1 ≠ r.1) as Hfresh.
    { intros r' Hr' Heq. rewrite Hsplit, fmap_app, fmap_cons in Hkeys.
      apply NoDup_app in Hkeys as (_ & Hdisj & _).
      apply (Hdisj r'.1); [by apply list_elem_of_fmap_2|].
      rewrite Heq. set_solver. }
    intros link v. destruct (decide (link = r.1)) as [->|Hne].
    + rewrite lookup_insert_eq. split.
      * intros [= <-]. exists r. split; [set_solver|]. split; [done|].
        by exists cap.
      * intros (r' & Hr' & Heq & cap' & Hc' & _ & ->).
        apply elem_of_app in Hr' as [Hr'|Hr'].
        -- by destruct (Hfresh r' Hr').
        -- apply list_elem_of_singleton in Hr' as ->. congruence.
    + rewrite lookup_insert_ne by done. rewrite Hinv. split.
      * intros (r' & Hr' & Hrest). exists r'. split; [set_solver|done].
      * intros (r' & Hr' & Heq & Hrest).
        apply elem_of_app in Hr' as [Hr'|Hr']; [by exists r'|].
        apply list_elem_of_singleton in Hr' as ->. done.
Qed.

Lemma linkload_caps (G : Graph) (results : list ((nat * nat) * Qc))
    (linkload : gmap (nat * nat) Qc) :
  for_each
    (λ (linkload : gmap (nat * nat) Qc) (r : (nat * nat) * Qc),
       cap ← orRaise TypeError (get_edge_data G r.1.1 r.1.2);
       if decide (cap = 0%Qc) then Raise ZeroDivisionError
       else Ok (<[r.1 := (r.2 / cap)%Qc]> linkload))
    results ∅ = Ok linkload →
  ∀ r, r ∈ results →
    ∃ cap, get_edge_data G r.1.1 r.1.2 = Some cap ∧ cap ≠ 0%Qc.
Proof.
  intros Hrun.
  apply (for_each_partial _
    (λ pre _, ∀ r, r ∈ pre →
       ∃ cap, get_edge_data G r.1.1 r.1.2 = Some cap ∧ cap ≠ 0%Qc)
    _ _ _ Hrun).
  - intros r Hr. by apply elem_of_nil in Hr.
  - clear Hrun. intros pre r post m m' _ Hinv Hstep r' Hr'.
    apply elem_of_app in Hr' as [Hr'|Hr']; [by apply Hinv|].
    apply list_elem_of_singleton in Hr' as ->.
    apply bind_Ok in Hstep as (cap & Hc & Hstep). apply orRaise_Ok in Hc.
    case_decide; [done|]. by exists cap.
Qed.

(** X9: when [verifyAllLinkLoad] finds no cached value, its pool runs
    every task once and it returns [(maxload, verifiedThroughput)], then [verifiedThroughput] is
    [1 / maxload] with [maxload] non-zero, every directed link was solved
    and its load relative to its capacity is at most [maxload], some
    directed link attains [maxload], and the only file written is
    [VerifiedThroughput] (or [VerifiedIntermediateThroughput] for an
    intermediate run), holding [verifiedThroughput]. *)
Theorem verified_throughput_is_worst_link
    (sched : list (nat * nat) → list (nat * nat))
    (solve : LinkLP → Status * Qc) (fs : Files) (self : Verification)
    (out : Output) (maxload vt : Qc) :
  (∀ l, sched l ≡ₚ l) →
  VerifiedThroughput out = None →
  returned (verifyAllLinkLoad sched solve fs self out)
    = Ok (Some (maxload, vt)) →
  vt = (1 / maxload)%Qc
  ∧ maxload ≠ 0%Qc
  ∧ (∀ link, link ∈ DLinks (vTopo self) →
       ∃ v, relative_load solve fs self link v ∧ (v <= maxload)%Qc)
  ∧ (∃ link, link ∈ DLinks (vTopo self)
       ∧ relative_load solve fs self link maxload)
  ∧ output_after (verifyAllLinkLoad sched solve fs self out)
    = (if intermediate self
       then set_VerifiedIntermediateThroughput out vt
       else set_VerifiedThroughput out vt).
Proof.
  intros Hs Hnone Hret. unfold verifyAllLinkLoad in *. rewrite Hnone in *.
  set (links := sched (elements (DLinks (vTopo self)))) in *.
  destruct (imap_traced (findMaxLinkLoad solve fs self) links).1
    as [results| |] eqn:Hres; simpl in Hret |- *; [|done..].
  apply imap_traced_Ok in Hres.
  destruct (for_each _ results ∅) as [linkload| |] eqn:Hll;
    simpl in Hret |- *; [|done..].
  destruct (py_max (snd <$> map_to_list linkload)) as [m| |] eqn:Hmax;
    simpl in Hret |- *; [|done..].
  destruct (decide (m = 0%Qc)) as [Hz|Hnz]; simpl in Hret |- *; [done|].
  injection Hret as <- <-.
  assert (NoDup links) as Hnd
    by (unfold links; rewrite Hs; apply NoDup_elements).
  pose proof (linkload_spec solve fs self links results linkload Hnd Hres Hll)
    as Hspec.
  pose proof (linkload_caps _ _ _ Hll) as Hcaps.
  apply py_max_spec in Hmax as [Hmem Hbound].
  assert (∀ link, link ∈ links ↔ link ∈ DLinks (vTopo self)) as Hlinks.
  { intros link. unfold links. by rewrite Hs, elem_of_elements. }
  split_and!; try done.
  - intros link Hl. apply Hlinks in Hl. pose proof Hl as Hl'.
    apply list_elem_of_lookup in Hl as [k Hk].
    destruct (Forall2_lookup_l _ _ _ _ _ Hres Hk) as ([l load] & Hy & Hfy).
    pose proof (findMaxLinkLoad_link _ _ _ _ _ Hfy) as Heq. simpl in Heq.
    subst l.
    destruct (Hcaps (link, load)) as (cap & Hc & Hne).
    { by eapply list_elem_of_lookup_2. }
    simpl in Hc. exists (load / cap)%Qc.
    assert (relative_load solve fs self link (load / cap)%Qc) as Hrel
      by by exists load, cap.
    split; [done|]. apply Hbound.
    apply list_elem_of_fmap. exists (link, (load / cap)%Qc). split; [done|].
    apply elem_of_map_to_list. by apply Hspec.
  - apply list_elem_of_fmap in Hmem as ([link v] & -> & Hin).
    apply elem_of_map_to_list, Hspec in Hin as [Hin Hrel].
    exists link. split; [by apply Hlinks|done].
Qed.

Lemma verified_throughput_is_worst_link_witness :
  1%Qc = (1 / 1)%Qc
  ∧ 1%Qc ≠ 0%Qc
  ∧ (∀ link, link ∈ DLinks (vTopo pair_verification) →
       ∃ v, relative_load sum_solver pair_files pair_verification link v
            ∧ (v <= 1)%Qc)
  ∧ (∃ link, link ∈ DLinks (vTopo pair_verification)
       ∧ relative_load sum_solver pair_files pair_verification link 1%Qc)
  ∧ output_after (verifyAllLinkLoad id sum_solver pair_files
                    pair_verification no_output)
    = (if intermediate pair_verification
       then set_VerifiedIntermediateThroughput no_output 1%Qc
       else set_VerifiedThroughput no_output 1%Qc).
Proof.
  apply (verified_throughput_is_worst_link id sum_solver pair_files
           pair_verification no_output 1%Qc 1%Qc).
  - done.
  - reflexivity.
  - vm_compute. reflexivity.
Defined.

(** ** Verification of an intermediate solution *)

(** A stored reverse map sends every in-range link to an in-range link,
    the preimage under the forward permutation. *)
Lemma applyGenerator2_reverse (n : nat) (f : list nat) (rv : list (option nat))
    (link : nat * nat) :
  perm_gen n f → inverse_maps n f rv → link ∈ U2 n →
  ∃ a b, applyGenerator2 link rv = Ok (Some a, Some b)
    ∧ (a, b) ∈ U2 n ∧ act2 f (a, b) = link.
Proof.
  intros Hf Hinv Hl. apply elem_of_U2 in Hl as [H1 H2].
  destruct (inverse_maps_surj n f rv Hf Hinv _ H1) as (a & Ha & Hra & Hfa).
  destruct (inverse_maps_surj n f rv Hf Hinv _ H2) as (b & Hb & Hrb & Hfb).
  exists a, b. split; [|split].
  - unfold applyGenerator2. simpl. by rewrite Hra, Hrb.
  - apply elem_of_U2. simpl. lia.
  - unfold act2. simpl. rewrite Hfa, Hfb. by destruct link.
Qed.

Lemma for_each_raise_first {A S} (f : S → A → result S) (a : A) (l : list A)
    (s : S) (e : exn) :
  f s a = Raise e → for_each f (a :: l) s = Raise e.
Proof. intros Hf. simpl. by rewrite Hf. Qed.

Lemma elements_nonempty `{Countable K} (X : gset K) (x : K) :
  x ∈ X → ∃ y l, elements X = y :: l ∧ y ∈ X.
Proof.
  intros Hx. destruct (elements X) as [|y l] eqn:He.
  - apply elements_empty_inv in He. set_solver.
  - exists y, l. split; [done|]. apply elem_of_elements. rewrite He. set_solver.
Qed.

(** X10: a [Verification] object created with [intermediate=True]
    holds the pickled variable dictionary, which has no edge data.  On a
    completed topology with at least one commodity and one link, every
    call of [findMaxLinkLoad] then raises [AttributeError], so
    [verifyAllLinkLoad] (finding no cached value) ends with that
    exception and writes no file. *)
Theorem intermediate_verification_fails (n : nat) (ugraph : Graph)
    (autgen : list (list nat)) (topo : Topology) (fs : Files)
    (out : Output) (self : Verification)
    (sched : list (nat * nat) → list (nat * nat))
    (solve : LinkLP → Status * Qc) :
  Ready n ugraph autgen topo fs →
  RepCommodities topo ≠ ∅ →
  DLinks topo ≠ ∅ →
  (∀ l, sched l ≡ₚ l) →
  VerifiedThroughput out = None →
  Verification_init true (Some topo) out = Ok self →
  (∀ link, link ∈ DLinks topo →
     findMaxLinkLoad solve fs self link = Raise AttributeError)
  ∧ returned (verifyAllLinkLoad sched solve fs self out) = Raise AttributeError
  ∧ output_after (verifyAllLinkLoad sched solve fs self out) = out.
Proof.
  intros Hrd Hreps Hlinks Hs Hnone Hinit.
  unfold Verification_init in Hinit. simpl in Hinit.
  apply bind_Ok in Hinit as (d & _ & Hinit). injection Hinit as <-.
  assert (∀ link, link ∈ DLinks topo →
            findMaxLinkLoad solve fs
              {| intermediate := true; vTopo := topo; vRoute := RouteDict d |}
              link = Raise AttributeError) as Hfail.
  { intros link Hl. apply (rd_links_range _ _ _ _ _ Hrd) in Hl.
    unfold findMaxLinkLoad, link_objective. simpl.
    apply set_choose_L in Hreps as [r0 Hr0].
    destruct (elements_nonempty _ _ Hr0) as (r & rest & -> & Hr).
    erewrite for_each_raise_first; [done|].
    destruct (rd_groups _ _ _ _ _ Hrd r Hr) as (_ & G & HG & HrG & _).
    unfold loadCommodityGroup. rewrite HG, orRaise_Some_bind.
    destruct (elements_nonempty _ _ HrG) as (sd & rest' & -> & Hsd).
    apply for_each_raise_first.
    destruct (rd_maps _ _ _ _ _ Hrd r G sd Hr HG Hsd)
      as (f & rv & _ & Hrv & Hf & _ & Hinv).
    unfold loadCommodityAutomorphicMap_Reverse.
    rewrite Hrv, orRaise_Some_bind.
    destruct (applyGenerator2_reverse n f rv link Hf Hinv Hl)
      as (a & b & -> & _). done. }
  split; [done|].
  unfold verifyAllLinkLoad. rewrite Hnone. simpl.
  apply set_choose_L in Hlinks as [l0 Hl0].
  assert (l0 ∈ sched (elements (DLinks topo))) as Hin
    by by rewrite Hs, elem_of_elements.
  destruct (sched (elements (DLinks topo))) as [|l1 ls] eqn:Hsched.
  { by apply elem_of_nil in Hin. }
  assert (l1 ∈ DLinks topo) as Hl1.
  { apply elem_of_elements. rewrite <- (Hs (elements (DLinks topo))), Hsched.
    set_solver. }
  simpl. rewrite (Hfail l1 Hl1). done.
Qed.

(** ** Stored forward maps are automorphisms of the link set *)

Lemma while_partial {S} (cond : S → bool) (body : S → result S)
    (I : S → Prop) (fuel : nat) (s s' : S) :
  while cond body fuel s = Ok s' →
  I s →
  (∀ s s1, I s → cond s = true → body s = Ok s1 → I s1) →
  I s' ∧ cond s' = false.
Proof.
  intros Hrun Hs Hstep. revert s Hrun Hs.
  induction fuel as [|fuel IH]; intros s Hrun Hs; simpl in Hrun.
  - destruct (cond s) eqn:Hc; [done|]. by simplify_eq.
  - destruct (cond s) eqn:Hc; [|by simplify_eq].
    apply bind_Ok in Hrun as (s1 & Hb & Hrun).
    apply (IH s1 Hrun). by eapply Hstep.
Qed.

Section fwd_maps.
Context (n : nat) (D : gset (nat * nat)) (gens : list (list nat)).
Hypothesis Hwf : Forall (wf_gen n) gens.
Hypothesis HD : D ⊆ U2 n.
Hypothesis Hlp : link_preserving D gens.

Lemma link_map_id : link_map n D (seq 0 n).
Proof.
  split; [apply perm_gen_id|]. intros [a b] Hl.
  pose proof (HD _ Hl) as HU. apply elem_of_U2 in HU as [Ha Hb].
  unfold act2. simpl in *. by rewrite !(act_id n).
Qed.

Lemma link_map_compose (g f f' : list nat) :
  g ∈ gens → link_map n D f → applyGenerator f g = Ok f' → link_map n D f'.
Proof.
  intros Hg [Hf Hfl] Hrun.
  rewrite Forall_forall in Hwf. pose proof (Hwf g Hg) as Hgw.
  rewrite (applyGenerator_fmap n g f Hgw (proj2 Hf)) in Hrun.
  injection Hrun as <-. split.
  - split; [rewrite length_fmap; apply Hf|].
    apply Forall_fmap. destruct Hf as [_ Hf]. rewrite Forall_forall in Hf |- *.
    intros x Hx. simpl. apply (act_lt n g x Hgw). by apply Hf.
  - intros [a b] Hl. pose proof (HD _ Hl) as HU.
    apply elem_of_U2 in HU as [Ha Hb]. simpl in *.
    unfold act2. simpl. rewrite !(act_compose n g f) by done.
    apply (Hlp g (act f a, act f b) Hg). by apply (Hfl (a, b)).
Qed.

Lemma comm_expand_fwd (sd : nat * nat) (σ σ' : CommBfs) :
  comm_expand n gens sd σ = Ok σ' →
  sd ∈ c_visited σ →
  fwd_link_maps n D σ → fwd_link_maps n D σ' ∧ c_visited σ' = c_visited σ.
Proof.
  intros Hrun Hsd Hinv. unfold comm_expand in Hrun.
  apply (for_each_partial _
    (λ _ σk, fwd_link_maps n D σk ∧ c_visited σk = c_visited σ)
    _ _ _ Hrun); [done|].
  clear Hrun. intros pre g post σk σk' Hsplit [Hk Hv] Hstep.
  assert (g ∈ gens) as Hg by (rewrite Hsplit; set_solver).
  apply bind_Ok in Hstep as (asd & Hasd & Hstep).
  case_decide as Hvis; [by simplify_eq|].
  apply bind_Ok in Hstep as (maps & Hsave & Hstep). injection Hstep as <-.
  split; [|done]. unfold saveCommodityAutomorphicMap in Hsave.
  case_decide as Heq.
  { subst asd. rewrite Hv in Hvis. done. }
  apply bind_Ok in Hsave as (pf & Hpf & Hsave). apply orRaise_Ok in Hpf.
  apply bind_Ok in Hsave as (fmap & Hfm & Hsave).
  apply bind_Ok in Hsave as (rmap & _ & Hsave). injection Hsave as <-.
  simpl in Hpf. intros x f Hx Hf. simpl in Hx, Hf.
  destruct (decide (x = asd)) as [->|Hne].
  - rewrite lookup_insert_eq in Hf. injection Hf as <-.
    apply (link_map_compose g pf fmap Hg); [|done].
    apply (Hk sd pf); [left; by rewrite Hv|done].
  - rewrite lookup_insert_ne in Hf by done. apply (Hk x f); [|done].
    destruct Hx as [Hx|[p Hx]]; [by left|]. right. exists p. set_solver.
Qed.

Lemma comm_seed_fwd (pick : nat → list ((nat * nat) * (nat * nat)) → nat)
    (fuel : nat) (σ σ' : CommBfs) (repsd : nat * nat) :
  comm_seed n gens pick fuel σ repsd = Ok σ' →
  fwd_link_maps n D σ → fwd_link_maps n D σ'.
Proof.
  unfold comm_seed. intros Hrun Hinv. case_decide as Hvis; [by simplify_eq|].
  rewrite saveCommodityAutomorphicMap_seed, result_bind_Ok in Hrun.
  apply bind_Ok in Hrun as (σ1 & Hwhile & Hrun). injection Hrun as <-.
  cbn [fst snd] in Hwhile.
  apply (while_partial _ _ (fwd_link_maps n D)) in Hwhile as [Hinv' _].
  - intros x f Hx Hf. by apply (Hinv' x f).
  - intros x f Hx Hf. simpl in Hx, Hf.
    destruct (decide (x = repsd)) as [->|Hne].
    + rewrite lookup_insert_eq in Hf. injection Hf as <-. apply link_map_id.
    + rewrite lookup_insert_ne in Hf by done. apply (Hinv x f); [|done].
      destruct Hx as [Hx|[p Hx]]; [by left|]. right. exists p. set_solver.
  - clear Hwhile. intros s s1 Hs _ Hbody. unfold comm_while_body in Hbody.
    apply bind_Ok in Hbody as (popped & Hpop & Hbody).
    unfold set_pop in Hpop.
    destruct (elements (c_tovisit s) !! _) as [xp|] eqn:Hlk; [|done].
    injection Hpop as <-. simpl in Hbody.
    apply list_elem_of_lookup_2, elem_of_elements in Hlk.
    apply comm_expand_fwd in Hbody as [Hinv' _]; [done|simpl; set_solver|].
    intros x f Hx Hf. simpl in Hx, Hf. apply (Hs x f); [|done].
    destruct Hx as [Hx|[p Hx]].
    + apply elem_of_union in Hx as [Hx|Hx]; [by left|].
      apply elem_of_singleton in Hx as ->. right. exists xp.2.
      by destruct xp.
    + right. exists p. set_solver.
Qed.

Lemma comm_orbits_fwd (pick : nat → list ((nat * nat) * (nat * nat)) → nat)
    (fuel : nat) (self : Topology) (fs : Files) (σ : CommBfs) :
  Autgen self = gens →
  number_of_nodes (UG self) = n →
  comm_orbits pick fuel self fs = Ok σ →
  fwd_link_maps n D σ.
Proof.
  intros HA Hn Hrun. unfold comm_orbits in Hrun. rewrite HA, Hn in Hrun.
  apply (for_each_partial _ (λ _ σk, fwd_link_maps n D σk) _ _ _ Hrun).
  - intros x f [Hx|[p Hx]]; simpl in Hx; set_solver.
  - intros pre r post s s1 _ Hs Hstep. by eapply comm_seed_fwd.
Qed.
End fwd_maps.

(** ** The files a completed initialisation leaves for the later steps *)

Lemma Topology_init_commodity_files (o : Oracles) (fuel : nat) (ugraph : Graph)
    (autgen : list (list nat)) (fs fs' : Files) (topo : Topology) :
  stage_findRepresentativeCommodities fs = None →
  stage_findRepresentativeCommodityFlowLinks fs = None →
  stage_findRepresentativeAuxs fs = None →
  stage_findRepresentativeLinkConstrs fs = None →
  Topology_init o fuel ugraph autgen fs = Ok (topo, fs') →
  ∃ self0 σ,
    setUGraph ugraph autgen = Ok self0
    ∧ comm_orbits (pick_comm o) fuel self0 fs = Ok σ
    ∧ DLinks topo = DLinks self0
    ∧ RepCommodities topo = c_repcomms σ
    ∧ CommodityGroup fs' = c_groups σ
    ∧ AutomorphicMap_Forward fs' = c_fwd σ.
Proof.
  intros Hst1 Hst2 Hst3 Hst4 Hrun. unfold Topology_init, Topology_init_aux in Hrun.
  apply bind_Ok in Hrun as ([self3 fs3] & Hrun & Hlink).
  apply bind_Ok in Hrun as (self0 & H0 & Hrun).
  apply bind_Ok in Hrun as ([self1 fs1] & Hc & Hrun).
  apply bind_Ok in Hrun as ([self2 fs2] & Hf & Ha).
  cbn [fst snd] in *.
  unfold findRepresentativeCommodities in Hc. rewrite Hst1 in Hc.
  apply bind_Ok in Hc as (σ & Hσ & Hc). injection Hc as <- <-.
  unfold findRepresentativeCommodityFlowLinks in Hf. simpl in Hf.
  rewrite Hst2 in Hf.
  apply bind_Ok in Hf as (results & _ & Hf). injection Hf as <- <-.
  pose proof Ha as Ha'.
  apply aux_stage_frame in Ha' as (F1 & F2 & F3 & F4 & F5 & F6 & F7);
    [|exact Hst3].
  assert (self3 = set_RepAuxiliarys
            (set_RepCommFlowLinks (set_RepCommodities self0 (c_repcomms σ))
               (merge_flowlinks results (∅, FlowLinkMap fs)).1)
            (RepAuxiliarys self3)) as Hs3.
  { unfold aux_stage in Ha. apply bind_Ok in Ha as (r & Hr & Ha).
    apply bind_Ok in Ha as (fsx & _ & Ha). injection Ha as <- <-.
    unfold findRepresentativeAuxs in Hr. simpl in Hr. rewrite Hst3 in Hr.
    apply bind_Ok in Hr as (σa & _ & Hr). by injection Hr as <-. }
  unfold findRepresentativeLinkConstrs in Hlink.
  rewrite F7 in Hlink. simpl in Hlink. rewrite Hst4 in Hlink.
  apply bind_Ok in Hlink as (results' & _ & Hlink).
  apply bind_Ok in Hlink as (replinks & _ & Hlink). injection Hlink as <- <-.
  exists self0, σ. rewrite Hs3. simpl. rewrite F1, F2. done.
Qed.

Lemma setUGraph_graph_links (ugraph : Graph) (autgen : list (list nat))
    (self : Topology) :
  setUGraph ugraph autgen = Ok self → DLinks self = graph_links ugraph.
Proof.
  intros Hrun. apply setUGraph_Ok in Hrun
    as (_ & _ & _ & _ & _ & _ & _ & _ & Hu & Hd).
  by rewrite Hd, Hu.
Qed.

Lemma Topology_init_served (o : Oracles) (fuel : nat) (ugraph : Graph)
    (autgen : list (list nat)) (fs : Files) :
  let n := number_of_nodes ugraph in
  list_to_set (nodes ugraph) =@{gset nat} U1 n →
  graph_ok ugraph →
  Forall (perm_gen n) autgen →
  host_preserving ugraph autgen →
  link_preserving (graph_links ugraph) autgen →
  (∀ l, sched_flow o l ≡ₚ l) →
  (∀ l, sched_link o l ≡ₚ l) →
  stage_findRepresentativeCommodities fs = None →
  stage_findRepresentativeCommodityFlowLinks fs = None →
  stage_findRepresentativeAuxs fs = None →
  stage_findRepresentativeLinkConstrs fs = None →
  n * n * (n * n) ≤ fuel →
  ∃ topo fs', Topology_init o fuel ugraph autgen fs = Ok (topo, fs')
    ∧ Ready n ugraph autgen topo fs'
    ∧ class_maps_preserve_links n topo fs'.
Proof.
  intros n Hnodes Hok Hgens Hhp Hlp Hsf Hsl Hst1 Hst2 Hst3 Hst4 Hfuel.
  destruct (Topology_init_ready o fuel ugraph autgen fs)
    as (topo & fs' & Hrun & Hrd); try done.
  exists topo, fs'. split; [done|]. split; [done|].
  destruct (Topology_init_commodity_files _ _ _ _ _ _ _ Hst1 Hst2 Hst3 Hst4 Hrun)
    as (self0 & σ & H0 & Hσ & HD & HR & HG & HF).
  pose proof (setUGraph_graph_links _ _ _ H0) as HDL.
  pose proof (setUGraph_Ok _ _ _ H0) as (_ & HUG & HA & _).
  assert (fwd_link_maps n (DLinks topo) σ) as Hfwd.
  { apply (comm_orbits_fwd n (DLinks topo) autgen) with (pick_comm o) fuel
      self0 fs; try done.
    - eapply Forall_impl; [exact Hgens|]. by intros ? [].
    - apply (rd_links_range _ _ _ _ _ Hrd).
    - by rewrite HD, HDL.
    - by rewrite HUG. }
  intros r G x f Hr HGr Hx Hf. rewrite HF in Hf. apply (Hfwd x f); [|done].
  left.
  (* every member of a stored class was visited *)
  assert (Commodities self0 ⊆ U2 n) as HcU.
  { intros c Hc.
    destruct (setUGraph_facts ugraph autgen Hnodes Hok)
      as (s0 & Hs0 & _ & _ & _ & Hh & Hcm & _).
    rewrite H0 in Hs0. injection Hs0 as <-.
    destruct c as [s d]. apply Hcm in Hc as (Hs & Hd & _).
    apply Hh in Hs, Hd. apply elem_of_U2. simpl. lia. }
  rewrite HR in Hr. rewrite HG in HGr.
  destruct (comm_orbits_spec n autgen (U2 n) Hgens) with (pick_comm o) fuel
    self0 fs as (σ' & Hσ' & Hco); try done.
  { intros g c Hg Hc. rewrite Forall_forall in Hgens.
    by apply (act2_range n g c (proj1 (Hgens g Hg))). }
  { by rewrite HUG. }
  { by rewrite size_UU. }
  rewrite Hσ in Hσ'. injection Hσ' as <-.
  apply (co_cover _ _ _ _ _ Hco). by exists r, G.
Qed.

(** ** The lookups of verification and grouping *)

Section served.
Context (n : nat) (ugraph : Graph) (autgen : list (list nat))
  (topo : Topology) (fs : Files).
Hypothesis Hrd : Ready n ugraph autgen topo fs.
Hypothesis Hmaps : class_maps_preserve_links n topo fs.

(** The stored reverse map of a class member sends links to links. *)
Lemma reverse_link (r x : nat * nat) (G : gset (nat * nat))
    (link : nat * nat) :
  r ∈ RepCommodities topo → CommodityGroup fs !! r = Some G → x ∈ G →
  link ∈ DLinks topo →
  ∃ rv a b, AutomorphicMap_Reverse fs !! x = Some rv
    ∧ applyGenerator2 link rv = Ok (Some a, Some b)
    ∧ (a, b) ∈ DLinks topo.
Proof.
  intros Hr HG Hx Hl.
  destruct (rd_maps _ _ _ _ _ Hrd r G x Hr HG Hx)
    as (f & rv & Hf & Hrv & Hperm & _ & Hinv).
  pose proof (rd_links_range _ _ _ _ _ Hrd) as HDU.
  destruct (applyGenerator2_reverse n f rv link Hperm Hinv (HDU _ Hl))
    as (a & b & Happ & Hab & Hact).
  exists rv, a, b. split; [done|]. split; [done|].
  destruct (Hmaps r G x f Hr HG Hx Hf) as [_ Hcl].
  apply (closed_inj_preimage (act2 f) (U2 n) (DLinks topo)); try done.
  - intros p q Hp Hq. by apply (act2_inj n f p q Hperm).
  - by rewrite Hact.
Qed.

Lemma link_objective_total (flag : bool) (g : Routing) (link : nat * nat) :
  (∀ l, l ∈ DLinks topo → is_Some (r_edges g !! l)) →
  link ∈ DLinks topo →
  ∃ load,
    link_objective fs
      {| intermediate := flag; vTopo := topo; vRoute := RouteGraph g |} link
    = Ok load.
Proof.
  intros Hkeys Hl. unfold link_objective. simpl.
  destruct (for_each_total
    (λ (load : list ((nat * nat) * Qc)) (repsd : nat * nat),
       autcomms ← loadCommodityGroup fs repsd;
       for_each
         (λ (load : list ((nat * nat) * Qc)) (sd : nat * nat),
            rmap ← loadCommodityAutomorphicMap_Reverse fs sd;
            alink ← applyGenerator2 link rmap;
            attrs ← route_edge_data (RouteGraph g) alink;
            match attrs !! repsd with
            | Some flow =>
                if decide (sd ∈ Commodities topo)
                then Ok (load ++ [(sd, flow)]) else Raise KeyError
            | None => Ok load
            end)
         (elements autcomms) load)
    (λ _ _, True) (elements (RepCommodities topo)) [])
    as (load & Hrun & _); [done| |by eauto].
  intros pre repsd post load Hsplit _.
  assert (repsd ∈ RepCommodities topo) as Hrep.
  { apply elem_of_elements. rewrite Hsplit. set_solver. }
  destruct (rd_groups _ _ _ _ _ Hrd repsd Hrep) as (_ & G & HG & _ & Hsub).
  unfold loadCommodityGroup. rewrite HG, orRaise_Some_bind.
  destruct (for_each_total
    (λ (load : list ((nat * nat) * Qc)) (sd : nat * nat),
       rmap ← loadCommodityAutomorphicMap_Reverse fs sd;
       alink ← applyGenerator2 link rmap;
       attrs ← route_edge_data (RouteGraph g) alink;
       match attrs !! repsd with
       | Some flow =>
           if decide (sd ∈ Commodities topo)
           then Ok (load ++ [(sd, flow)]) else Raise KeyError
       | None => Ok load
       end)
    (λ _ _, True) (elements G) load) as (load' & Hrun' & _);
    [done| |by eauto].
  intros pre' sd post' load1 Hsplit' _.
  assert (sd ∈ G) as Hsd.
  { apply elem_of_elements. rewrite Hsplit'. set_solver. }
  destruct (reverse_link repsd sd G link Hrep HG Hsd Hl)
    as (rv & a & b & Hrv & Happ & Hab).
  unfold loadCommodityAutomorphicMap_Reverse.
  rewrite Hrv, orRaise_Some_bind, Happ, result_bind_Ok.
  destruct (Hkeys _ Hab) as [attrs Hattrs]. simpl. rewrite Hattrs. simpl.
  destruct (attrs !! repsd); [|by eauto].
  rewrite decide_True by by apply Hsub. eauto.
Qed.

Lemma encodeFlows_total (g : Routing) (node : nat) (repsd sd : nat * nat)
    (G : gset (nat * nat)) :
  (∀ l, l ∈ DLinks topo → is_Some (r_edges g !! l)) →
  node < n →
  repsd ∈ RepCommodities topo → CommodityGroup fs !! repsd = Some G →
  sd ∈ G →
  ∃ code, encodeFlows fs {| gTopo := topo; gRoute := RouteGraph g |} node
            repsd sd = Ok code.
Proof.
  intros Hkeys Hnode Hrep HG Hsd. unfold encodeFlows. simpl.
  destruct (rd_flow _ _ _ _ _ Hrd repsd Hrep)
    as (links & flowmap & _ & Hfm & Hsub & _ & Htot & _).
  unfold loadCommodityFlowLinkMap. rewrite Hfm, orRaise_Some_bind. cbv beta.
  rewrite (rd_UG _ _ _ _ _ Hrd).
  rewrite (neighbors_in_graph ugraph node), result_bind_Ok
    by by apply (rd_nodes _ _ _ _ _ Hrd).
  match goal with
  | |- ∃ c, ?m ≫= ?k = Ok c => assert (∃ a, m = Ok a) as [a ->]
  end; [|by eauto].
  cut (∃ a, for_each
    (λ (code : list ((nat * nat) * (nat * nat) * Qc)) (nh : nat),
       let link := (node, nh) in
       rmap ← loadCommodityAutomorphicMap_Reverse fs sd;
       alink ← applyGenerator2 link rmap;
       repflowlink ← match alink with
                     | (Some i, Some j) => orRaise KeyError (flowmap !! (i, j))
                     | _ => Raise KeyError
                     end;
       attrs ← route_edge_data (RouteGraph g)
                 (Some repflowlink.1, Some repflowlink.2);
       match attrs !! repsd with
       | Some flow => Ok (code ++ [(link, repflowlink, flow)])
       | None => Ok code
       end)
    (adj ugraph node) [] = Ok a ∧ True).
  { intros (a & Ha & _). by exists a. }
  apply (for_each_total _ (λ _ _, True)); [done|].
  intros pre nh post code Hsplit _.
  assert ((node, nh) ∈ DLinks topo) as Hl.
  { apply (rd_links _ _ _ _ _ Hrd). apply elem_of_adj.
    rewrite Hsplit. set_solver. }
  destruct (reverse_link repsd sd G (node, nh) Hrep HG Hsd Hl)
    as (rv & a & b & Hrv & Happ & Hab).
  unfold loadCommodityAutomorphicMap_Reverse. cbv zeta.
  rewrite Hrv, orRaise_Some_bind, Happ, result_bind_Ok.
  destruct (Htot _ Hab) as (rl & Hrl & Hin).
  rewrite Hrl, orRaise_Some_bind.
  destruct (Hkeys _ (Hsub _ Hin)) as [attrs Hattrs].
  simpl. destruct rl as [i j]. simpl. rewrite Hattrs. simpl.
  destruct (attrs !! repsd); eauto.
Qed.
End served.

(** ** groupSolutionAtNode splits every class by signature *)

Lemma commsplit_add_eq commsplit code autsd :
  commsplit_add commsplit code autsd
  = Ok (<[code := default ∅ (commsplit !! code) ∪ {[autsd]}]> commsplit).
Proof.
  unfold commsplit_add. destruct (commsplit !! code) as [ms|] eqn:Hc.
  - by rewrite Hc.
  - rewrite lookup_insert_eq. simpl. by rewrite insert_insert_eq.
Qed.

Lemma commsplit_of_spec (fs : Files) (self : SolutionGrouping) (node : nat)
    (repsd : nat * nat) (autcomms : gset (nat * nat)) m :
  commsplit_of fs self node repsd autcomms = Ok m →
  splits_by_signature fs self node repsd autcomms m.
Proof.
  intros Hrun. unfold commsplit_of in Hrun.
  cut ((∀ sd, sd ∈ elements autcomms →
          ∃ code members, encodeFlows fs self node repsd sd = Ok code
            ∧ m !! code = Some members ∧ sd ∈ members)
       ∧ (∀ code members sd, m !! code = Some members → sd ∈ members →
            sd ∈ elements autcomms
            ∧ encodeFlows fs self node repsd sd = Ok code)).
  { intros [H1 H2]. split.
    - intros sd Hsd. apply H1. by apply elem_of_elements.
    - intros code members sd Hm Hsd. rewrite <- elem_of_elements. eauto. }
  apply (for_each_partial _
    (λ pre mk,
       (∀ sd, sd ∈ pre →
          ∃ code members, encodeFlows fs self node repsd sd = Ok code
            ∧ mk !! code = Some members ∧ sd ∈ members)
       ∧ (∀ code members sd, mk !! code = Some members → sd ∈ members →
            sd ∈ pre ∧ encodeFlows fs self node repsd sd = Ok code))
    _ _ _ Hrun).
  - split; [intros sd Hsd; by apply elem_of_nil in Hsd|].
    intros code members sd Hm. by rewrite lookup_empty in Hm.
  - clear Hrun. intros pre sd post mk mk' _ [H1 H2] Hstep.
    destruct (encodeFlows fs self node repsd sd) as [code| |] eqn:Hcode;
      [|done..].
    rewrite commsplit_add_eq in Hstep. injection Hstep as <-. split.
    + intros sd' Hsd'. apply elem_of_app in Hsd' as [Hsd'|Hsd'].
      * destruct (H1 sd' Hsd') as (code' & members & Hc' & Hm & Hin).
        exists code'. destruct (decide (code' = code)) as [->|Hne].
        -- eexists. rewrite lookup_insert_eq. split; [done|]. split; [done|].
           rewrite Hm. simpl. set_solver.
        -- exists members. by rewrite lookup_insert_ne.
      * apply list_elem_of_singleton in Hsd' as ->. exists code.
        eexists. rewrite lookup_insert_eq. split; [done|]. split; [done|].
        set_solver.
    + intros code' members sd' Hm Hin.
      destruct (decide (code' = code)) as [->|Hne].
      * rewrite lookup_insert_eq in Hm. injection Hm as <-.
        apply elem_of_union in Hin as [Hin|Hin].
        -- destruct (mk !! code) as [ms|] eqn:Hms; [|set_solver].
           destruct (H2 code ms sd' Hms Hin) as [Hp Hc]. split; [set_solver|done].
        -- apply elem_of_singleton in Hin as ->. split; [set_solver|done].
      * rewrite lookup_insert_ne in Hm by done.
        destruct (H2 code' members sd' Hm Hin) as [Hp Hc].
        split; [set_solver|done].
Qed.

Lemma groupSolutionAtNode_spec (fs : Files) (self : SolutionGrouping)
    (node : nat) splitgroups :
  groupSolutionAtNode fs self node = Ok splitgroups →
  ∀ repsd, repsd ∈ RepCommodities (gTopo self) →
    ∃ G commsplit,
      CommodityGroup fs !! repsd = Some G
      ∧ splitgroups !! repsd = Some commsplit
      ∧ splits_by_signature fs self node repsd G commsplit.
Proof.
  intros Hrun repsd Hrep. apply elem_of_elements in Hrep.
  revert repsd Hrep. unfold groupSolutionAtNode in Hrun.
  apply (for_each_partial _
    (λ pre sg, ∀ repsd, repsd ∈ pre →
       ∃ G commsplit,
         CommodityGroup fs !! repsd = Some G
         ∧ sg !! repsd = Some commsplit
         ∧ splits_by_signature fs self node repsd G commsplit)
    _ _ _ Hrun).
  - intros repsd Hr. by apply elem_of_nil in Hr.
  - clear Hrun. intros pre r post sg sg' _ Hinv Hstep repsd Hr.
    unfold loadCommodityGroup in Hstep.
    destruct (CommodityGroup fs !! r) as [G|] eqn:HG; [|done]. simpl in Hstep.
    destruct (commsplit_of fs self node r G) as [m| |] eqn:Hm; [|done..].
    injection Hstep as <-.
    destruct (decide (repsd = r)) as [->|Hne].
    + exists G, m. rewrite lookup_insert_eq. split; [done|]. split; [done|].
      by apply commsplit_of_spec.
    + rewrite lookup_insert_ne by done. apply Hinv. set_solver.
Qed.

(** X11: when [groupSolutionAtNode] completes for a node, the
    dictionary it builds has, for every representative commodity, a
    [commsplit] entry that partitions the commodity's class by
    forwarding signature: every commodity of the class is filed under
    its own [encodeFlows] code, no group is empty, and the members of the
    group of a code are exactly the commodities of the class with that
    code. *)
Theorem split_groups_partition (fs : Files) (self : SolutionGrouping)
    (node : nat) splitgroups :
  groupSolutionAtNode fs self node = Ok splitgroups →
  ∀ repsd, repsd ∈ RepCommodities (gTopo self) →
    ∃ G commsplit,
      CommodityGroup fs !! repsd = Some G
      ∧ splitgroups !! repsd = Some commsplit
      ∧ (∀ sd, sd ∈ G →
           ∃ code members, encodeFlows fs self node repsd sd = Ok code
             ∧ commsplit !! code = Some members ∧ sd ∈ members)
      ∧ (∀ code members, commsplit !! code = Some members →
           members ≠ ∅
           ∧ ∀ sd, sd ∈ members
               ↔ sd ∈ G ∧ encodeFlows fs self node repsd sd = Ok code).
Proof.
  intros Hrun repsd Hrep.
  destruct (groupSolutionAtNode_spec fs self node splitgroups Hrun repsd Hrep)
    as (G & m & HG & Hm & H1 & H2).
  exists G, m. split; [done|]. split; [done|]. split; [done|].
  intros code members Hc. split.
  - pose proof (groupSolutionAtNode_inhabited _ _ _ _ Hrun repsd m Hm
                  code members Hc) as Hpos.
    intros ->. rewrite size_empty in Hpos. lia.
  - intros sd. split; [by apply H2|]. intros [Hsd Hcode].
    destruct (H1 sd Hsd) as (code' & members' & Hc' & Hm' & Hin).
    rewrite Hcode in Hc'. injection Hc' as <-. rewrite Hc in Hm'.
    by injection Hm' as <-.
Qed.

Lemma split_groups_partition_witness :
  ∃ G commsplit,
    CommodityGroup pendant_files !! (0, 1) = Some G
    ∧ returned_or ∅ (groupSolutionAtNode pendant_files pendant_grouping 0)
        !! (0, 1) = Some commsplit
    ∧ (∀ sd, sd ∈ G →
         ∃ code members,
           encodeFlows pendant_files pendant_grouping 0 (0, 1) sd = Ok code
           ∧ commsplit !! code = Some members ∧ sd ∈ members)
    ∧ (∀ code members, commsplit !! code = Some members →
         members ≠ ∅
         ∧ ∀ sd, sd ∈ members
             ↔ sd ∈ G
               ∧ encodeFlows pendant_files pendant_grouping 0 (0, 1) sd
                 = Ok code).
Proof.
  apply (split_groups_partition pendant_files pendant_grouping 0).
  - vm_compute. reflexivity.
  - by_compute.
Defined.

(** ** From the built model to the stored routing *)

(** The variables the finished model holds: one per representative
    commodity and representative flow link. *)
Lemma build_model_vars (n : nat) (ugraph : Graph) (autgen : list (list nat))
    (topo : Topology) (fs : Files) (model : Optimization) :
  Ready n ugraph autgen topo fs →
  build_model fs topo = Ok model →
  Topo model = topo
  ∧ ∀ repsd, repsd ∈ RepCommodities topo →
      ∃ (links : gset (nat * nat)) flowmap Frep,
        FlowLinkMap fs !! repsd = Some flowmap
        ∧ F model !! repsd = Some Frep
        ∧ (∀ l, l ∈ links → Frep !! l = Some (Var_f repsd l))
        ∧ (∀ l, l ∈ DLinks topo → ∃ r, flowmap !! l = Some r ∧ r ∈ links).
Proof.
  intros Hrd Hm. unfold build_model in Hm.
  apply bind_Ok in Hm as (s0 & H0 & Hm).
  apply bind_Ok in Hm as (s1 & H1 & Hm).
  apply bind_Ok in Hm as (s2 & H2 & Hm).
  apply bind_Ok in Hm as (s3 & H3 & H4).
  destruct (setFlowConservationConstraint_extends _ _ _ H1) as (T1 & F1 & _).
  destruct (setAdditionalFlowConstraint_extends _ _ H2) as (T2 & F2 & _).
  destruct (setAuxThroughputConstraint_extends _ _ _ H3) as (T3 & F3 & _).
  destruct (setAuxFlowConstraint_extends _ _ _ H4) as (T4 & F4 & _).
  destruct (createVariables_spec _ _ H0) as (HT & _ & _ & HF).
  split; [congruence|]. intros repsd Hrep.
  destruct (rd_flow _ _ _ _ _ Hrd repsd Hrep)
    as (links & flowmap & Hl & Hfm & _ & _ & Htot & _).
  destruct (HF repsd Hrep) as (links' & Frep & Hl' & HFr & Hrow).
  rewrite Hl in Hl'. injection Hl' as <-.
  exists links, flowmap, Frep. split; [done|].
  split; [by rewrite F4, F3, F2, F1|]. split; [|done].
  intros l Hin. by apply Hrow.
Qed.

Lemma set_flow_keys (i j : nat) (repsd : nat * nat) (flow : Qc)
    (g g' : Routing) (l : nat * nat) :
  set_flow i j repsd flow g = Ok g' →
  is_Some (r_edges g !! l) → is_Some (r_edges g' !! l).
Proof.
  intros Hrun Hl. apply set_flow_Ok in Hrun as (_ & _ & K & _). by apply K.
Qed.

(** The expansion of a solution never fails on a finished model. *)
Lemma expand_routing_total (n : nat) (ugraph : Graph)
    (autgen : list (list nat)) (topo : Topology) (fs : Files)
    (model : Optimization) (sol : Solved) :
  Ready n ugraph autgen topo fs →
  build_model fs topo = Ok model →
  SolCount sol ≠ 0 →
  ∃ g, expand_routing fs model sol = Ok g.
Proof.
  intros Hrd Hm Hsol.
  destruct (build_model_vars _ _ _ _ _ _ Hrd Hm) as (HT & Hvars).
  unfold expand_routing. rewrite HT.
  match goal with
  | |- ∃ g, for_each ?f ?l ?s = Ok g =>
      destruct (for_each_total f (λ _ _, True) l s) as (g & Hg & _);
        [done| |by eauto]
  end.
  intros pre e post g Hsplit _.
  set (i := e.1.1). set (j := e.1.2).
  assert ((i, j) ∈ DLinks topo ∧ (j, i) ∈ DLinks topo) as [Hij Hji].
  { rewrite !(rd_links _ _ _ _ _ Hrd), <- (rd_UG _ _ _ _ _ Hrd).
    assert (e ∈ edges (UG topo)) as He by (rewrite Hsplit; set_solver).
    assert (e.1 = (i, j)) as Heq by by destruct e as [[??]?].
    split; exists e; (split; [done|]); [by left|by right]. }
  match goal with
  | |- ∃ g, for_each ?f ?l ?s = Ok g ∧ True =>
      destruct (for_each_total f
        (λ _ g, is_Some (r_edges g !! (i, j)) ∧ is_Some (r_edges g !! (j, i)))
        l s) as (g' & Hg' & _); [| |by eauto]
  end.
  - rewrite !keys_add_edge. auto.
  - intros pre' repsd post' g1 Hsplit' [K1 K2].
    assert (repsd ∈ RepCommodities topo) as Hrep.
    { apply elem_of_elements. rewrite Hsplit'. set_solver. }
    destruct (Hvars repsd Hrep) as (links & flowmap & Frep & Hfm & HFr & Hrow & Htot).
    unfold loadCommodityFlowLinkMap. rewrite Hfm, orRaise_Some_bind.
    rewrite HFr, orRaise_Some_bind.
    destruct (Htot _ Hij) as (rij & Hrij & Hinij).
    destruct (Htot _ Hji) as (rji & Hrji & Hinji).
    rewrite Hrij, orRaise_Some_bind, (Hrow _ Hinij), orRaise_Some_bind.
    rewrite (var_X_solved _ _ Hsol), result_bind_Ok.
    rewrite orRaise_Some_bind.
    rewrite Hrji, orRaise_Some_bind, (Hrow _ Hinji), orRaise_Some_bind.
    rewrite (var_X_solved _ _ Hsol), result_bind_Ok.
    destruct (decide (0 < X sol (Var_f repsd rij))%Qc).
    + destruct (set_flow_total i j repsd (X sol (Var_f repsd rij)) g1 K1)
        as (g2 & H2).
      rewrite H2, result_bind_Ok.
      pose proof (set_flow_keys _ _ _ _ _ _ _ H2 K1) as K1'.
      pose proof (set_flow_keys _ _ _ _ _ _ _ H2 K2) as K2'.
      destruct (decide (0 < X sol (Var_f repsd rji))%Qc).
      * destruct (set_flow_total j i repsd (X sol (Var_f repsd rji)) g2 K2')
          as (g3 & H3).
        exists g3. split; [done|].
        split; by eapply set_flow_keys.
      * eauto.
    + rewrite result_bind_Ok.
      destruct (decide (0 < X sol (Var_f repsd rji))%Qc).
      * destruct (set_flow_total j i repsd (X sol (Var_f repsd rji)) g1 K2)
          as (g3 & H3).
        exists g3. split; [done|].
        split; by eapply set_flow_keys.
      * eauto.
Qed.

(** X12: under the conditions of X7 (among them: every node is an end
    of some edge) the model is built, and for a run that finds no
    [ComputedThroughput] file the outcome of [optimize] follows the
    solver status.  With status [OPTIMAL], a solution at hand
    ([SolCount > 0], as the solver has it with that status) and a
    non-zero objective it returns having written [ComputedThroughput]
    [= 1 / ObjVal], [OptimizationTime] and an [OptimalRouting] graph with
    an edge for exactly the directed links, and nothing else.  With
    status [OPTIMAL], a solution at hand and objective zero it raises
    [ZeroDivisionError], with a status other than [OPTIMAL] and
    [TIME_LIMIT] it raises [AssertionError]; in both cases no file is
    written. *)
Theorem optimize_stores_optimal_result (o : Oracles) (fuel : nat)
    (ugraph : Graph) (autgen : list (list nat)) (fs : Files) :
  let n := number_of_nodes ugraph in
  list_to_set (nodes ugraph) =@{gset nat} U1 n →
  graph_ok ugraph →
  no_isolated_node ugraph →
  (∀ e, e ∈ edges ugraph → e.2 ≠ 0%Qc) →
  Forall (perm_gen n) autgen →
  host_preserving ugraph autgen →
  (∀ l, sched_flow o l ≡ₚ l) →
  (∀ l, sched_link o l ≡ₚ l) →
  stage_findRepresentativeCommodities fs = None →
  stage_findRepresentativeCommodityFlowLinks fs = None →
  stage_findRepresentativeAuxs fs = None →
  stage_findRepresentativeLinkConstrs fs = None →
  n * n * (n * n) ≤ fuel →
  ∃ topo fs' model,
    Topology_init o fuel ugraph autgen fs = Ok (topo, fs')
    ∧ build_model fs' topo = Ok model
    ∧ ∀ (solve : Optimization → Solved) (opttime : Qc) (out : OptOutput),
        ComputedThroughput (oo_out out) = None →
        (status (solve model) = OPTIMAL → SolCount (solve model) ≠ 0 →
         ObjVal (solve model) ≠ 0%Qc →
           ∃ g,
             optimize solve opttime fs' topo out
             = (Ok (),
                {| oo_out :=
                     set_OptimalRouting
                       (set_ComputedThroughput (oo_out out)
                          (1 / ObjVal (solve model))%Qc) g;
                   OptimizationTime := Some opttime |})
             ∧ (∀ l, is_Some (r_edges g !! l) ↔ l ∈ DLinks topo))
        ∧ (status (solve model) = OPTIMAL → SolCount (solve model) ≠ 0 →
           ObjVal (solve model) = 0%Qc →
             optimize solve opttime fs' topo out
             = (Raise ZeroDivisionError, out))
        ∧ (status (solve model) ≠ OPTIMAL →
           status (solve model) ≠ TIME_LIMIT →
             optimize solve opttime fs' topo out
             = (Raise AssertionError, out)).
Proof.
  intros n Hnodes Hok Hiso Hcap Hgens Hhp Hsf Hsl Hst1 Hst2 Hst3 Hst4 Hfuel.
  destruct (Topology_init_ready o fuel ugraph autgen fs)
    as (topo & fs' & Hrun & Hrd); try done.
  destruct (build_model_total _ _ _ _ _ Hrd Hcap (λ _, Hiso)) as (model & Hm).
  exists topo, fs', model. split; [done|]. split; [done|].
  intros solve opttime [out ot] Hnone. simpl in Hnone.
  unfold optimize. simpl. rewrite Hnone, Hm.
  unfold computeOptimalSolution, model_ObjVal. split_and!.
  - intros Hst Hsol Hobj.
    rewrite Hst, (decide_False (P := SolCount _ = 0)) by done.
    rewrite decide_False by done.
    destruct (expand_routing_total _ _ _ _ _ _ (solve model) Hrd Hm Hsol)
      as (g & Hg).
    exists g. unfold saveOptimalRouting. rewrite Hg. split; [done|].
    intros l. apply expand_routing_spec in Hg as (_ & K & _).
    rewrite K. destruct (build_model_vars _ _ _ _ _ _ Hrd Hm) as [-> _].
    rewrite (rd_UG _ _ _ _ _ Hrd). destruct l as [i j].
    rewrite (rd_links _ _ _ _ _ Hrd). unfold is_link. simpl.
    split; intros (e & He & Hor); exists e; (split; [done|]); done.
  - intros Hst Hsol Hobj.
    rewrite Hst, (decide_False (P := SolCount _ = 0)) by done.
    by rewrite decide_True.
  - intros H1 H2. by destruct (status (solve model)).
Qed.

Lemma optimize_stores_optimal_result_witness :
  ∃ topo fs' model,
    Topology_init first_oracles 100 pair_graph pair_autgen no_files
      = Ok (topo, fs')
    ∧ build_model fs' topo = Ok model
    ∧ ∀ (solve : Optimization → Solved) (opttime : Qc) (out : OptOutput),
        ComputedThroughput (oo_out out) = None →
        (status (solve model) = OPTIMAL → SolCount (solve model) ≠ 0 →
         ObjVal (solve model) ≠ 0%Qc →
           ∃ g,
             optimize solve opttime fs' topo out
             = (Ok (),
                {| oo_out :=
                     set_OptimalRouting
                       (set_ComputedThroughput (oo_out out)
                          (1 / ObjVal (solve model))%Qc) g;
                   OptimizationTime := Some opttime |})
             ∧ (∀ l, is_Some (r_edges g !! l) ↔ l ∈ DLinks topo))
        ∧ (status (solve model) = OPTIMAL → SolCount (solve model) ≠ 0 →
           ObjVal (solve model) = 0%Qc →
             optimize solve opttime fs' topo out
             = (Raise ZeroDivisionError, out))
        ∧ (status (solve model) ≠ OPTIMAL →
           status (solve model) ≠ TIME_LIMIT →
             optimize solve opttime fs' topo out
             = (Raise AssertionError, out)).
Proof.
  apply (optimize_stores_optimal_result first_oracles 100 pair_graph
           pair_autgen no_files).
  - by_compute.
  - by_compute.
  - by_compute.
  - intros e He. list_members He. by_compute.
  - by_compute.
  - apply pair_host_preserving.
  - done.
  - done.
  - reflexivity.
  - reflexivity.
  - reflexivity.
  - reflexivity.
  - simpl. lia.
Defined.

(** ** Verification and grouping find every file and key they read *)

(** X13: under the conditions of X6 and with generators that map
    links to links, a [Verification] object over an [OptimalRouting]
    graph with an edge for every directed link is created, and for every
    directed link [findMaxLinkLoad] builds its objective without a
    failed file or key lookup: the call either returns the link with the
    solver's value or fails its assertion on the solver status. *)
Theorem verification_lookups_succeed (o : Oracles) (fuel : nat)
    (ugraph : Graph) (autgen : list (list nat)) (fs : Files) :
  let n := number_of_nodes ugraph in
  list_to_set (nodes ugraph) =@{gset nat} U1 n →
  graph_ok ugraph →
  Forall (perm_gen n) autgen →
  host_preserving ugraph autgen →
  link_preserving (graph_links ugraph) autgen →
  (∀ l, sched_flow o l ≡ₚ l) →
  (∀ l, sched_link o l ≡ₚ l) →
  stage_findRepresentativeCommodities fs = None →
  stage_findRepresentativeCommodityFlowLinks fs = None →
  stage_findRepresentativeAuxs fs = None →
  stage_findRepresentativeLinkConstrs fs = None →
  n * n * (n * n) ≤ fuel →
  ∃ topo fs',
    Topology_init o fuel ugraph autgen fs = Ok (topo, fs')
    ∧ ∀ (g : Routing) (out : Output) (solve : LinkLP → Status * Qc),
        OptimalRouting out = Some g →
        (∀ l, l ∈ DLinks topo → is_Some (r_edges g !! l)) →
        ∃ self,
          Verification_init false (Some topo) out = Ok self
          ∧ ∀ link, link ∈ DLinks topo →
              ∃ load,
                link_objective fs' self link = Ok load
                ∧ (findMaxLinkLoad solve fs' self link
                     = Raise AssertionError
                   ∨ ∃ v, findMaxLinkLoad solve fs' self link = Ok (link, v)).
Proof.
  intros n Hnodes Hok Hgens Hhp Hlp Hsf Hsl Hst1 Hst2 Hst3 Hst4 Hfuel.
  destruct (Topology_init_served o fuel ugraph autgen fs)
    as (topo & fs' & Hrun & Hrd & Hmaps); try done.
  exists topo, fs'. split; [done|]. intros g out solve Hg Hkeys.
  eexists. split.
  { unfold Verification_init. simpl. rewrite Hg. simpl. done. }
  intros link Hl.
  destruct (link_objective_total _ _ _ _ _ Hrd Hmaps false g link Hkeys Hl)
    as (load & Hload).
  exists load. split; [done|]. unfold findMaxLinkLoad.
  rewrite Hload, result_bind_Ok. cbv zeta.
  match goal with |- context [(solve ?m).1] => destruct (solve m).1 end;
    eauto.
Qed.

Lemma pair_link_preserving :
  link_preserving (graph_links pair_graph) pair_autgen.
Proof.
  intros g l Hg Hl. list_members Hg. members Hl; by_compute.
Qed.

Lemma verification_lookups_succeed_witness :
  ∃ topo fs',
    Topology_init first_oracles 100 pair_graph pair_autgen no_files
      = Ok (topo, fs')
    ∧ ∀ (g : Routing) (out : Output) (solve : LinkLP → Status * Qc),
        OptimalRouting out = Some g →
        (∀ l, l ∈ DLinks topo → is_Some (r_edges g !! l)) →
        ∃ self,
          Verification_init false (Some topo) out = Ok self
          ∧ ∀ link, link ∈ DLinks topo →
              ∃ load,
                link_objective fs' self link = Ok load
                ∧ (findMaxLinkLoad solve fs' self link
                     = Raise AssertionError
                   ∨ ∃ v, findMaxLinkLoad solve fs' self link = Ok (link, v)).
Proof.
  apply (verification_lookups_succeed first_oracles 100 pair_graph
           pair_autgen no_files).
  - by_compute.
  - by_compute.
  - by_compute.
  - apply pair_host_preserving.
  - apply pair_link_preserving.
  - done.
  - done.
  - reflexivity.
  - reflexivity.
  - reflexivity.
  - reflexivity.
  - simpl. lia.
Defined.

(** ** What the counts of a node count *)

Section count_fold.
Context {K A : Type} `{Countable K} `{Countable A}.

Let nonempty (grp : list K * gset A) : Prop := length grp.1 ≠ 0.

Lemma count_fold_classes (grps : list (list K * gset A)) (cnt : nat * nat) :
  NoDup grps.*1 →
  (∀ k v k' v', (k, v) ∈ grps → (k', v') ∈ grps → k ≠ k' → v ## v') →
  foldl (λ (cnt : nat * nat) (grp : list K * gset A),
           if decide (length grp.1 = 0) then cnt
           else (cnt.1 + size grp.2, cnt.2 + 1))
        cnt grps
  = (cnt.1 + size (⋃ (snd <$> filter nonempty grps)),
     cnt.2 + size (list_to_set (fst <$> filter nonempty grps)
                     : gset (list K))).
Proof.
  revert cnt. induction grps as [|[k v] grps IH]; intros cnt Hnd Hdisj.
  { destruct cnt. cbn. rewrite !size_empty. f_equal; lia. }
  apply NoDup_cons in Hnd as [Hk Hnd]. simpl in Hk. cbn [foldl].
  rewrite IH; [|done|intros; eapply Hdisj; set_solver].
  rewrite filter_cons. cbn [fst snd].
  destruct (decide (length k = 0)) as [Hz|Hnz].
  - rewrite decide_False; [done|]. unfold nonempty. simpl. lia.
  - rewrite decide_True by done. cbn [fmap list_fmap fst snd].
    cbn [list_to_set foldr union_list]. fold (union_list (A := gset A)).
    rewrite !size_union, size_singleton.
    + f_equal; lia.
    + intros x Hx Hin. apply elem_of_singleton in Hx as ->.
      apply elem_of_list_to_set, list_elem_of_fmap in Hin
        as ([k' v'] & -> & Hin).
      apply list_elem_of_filter in Hin as [_ Hin].
      apply Hk. apply list_elem_of_fmap. by exists (k', v').
    + intros x Hx Hin. apply elem_of_union_list in Hin as (X & HX & Hin).
      apply list_elem_of_fmap in HX as ([k' v'] & -> & HX).
      apply list_elem_of_filter in HX as [_ HX].
      assert (k ≠ k') as Hne.
      { intros <-. apply Hk. apply list_elem_of_fmap. by exists (k, v'). }
      apply (Hdisj k v k' v' ltac:(set_solver) ltac:(set_solver) Hne x Hx Hin).
Qed.
End count_fold.

Lemma signature_at_Some (fs : Files) (self : SolutionGrouping) (node : nat)
    (repsd sd : nat * nat) code :
  signature_at fs self node repsd sd = Some code
  ↔ encodeFlows fs self node repsd sd = Ok code ∧ length code ≠ 0.
Proof.
  unfold signature_at.
  destruct (encodeFlows fs self node repsd sd) as [[|c cs]| |];
    split; intros Hs;
    first [ done
          | by simplify_eq
          | destruct Hs as [Hs Hne]; simplify_eq; simpl in *; done ].
Qed.

(** The counts one class contributes at a node. *)
Lemma class_counts (fs : Files) (self : SolutionGrouping) (node : nat)
    (repsd : nat * nat) (G : gset (nat * nat))
    (commsplit : gmap (list ((nat * nat) * (nat * nat) * Qc))
                   (gset (nat * nat)))
    (cnt : nat * nat) :
  CommodityGroup fs !! repsd = Some G →
  splits_by_signature fs self node repsd G commsplit →
  groups_inhabited commsplit →
  foldl (λ (cnt : nat * nat)
           (grp : list ((nat * nat) * (nat * nat) * Qc) * gset (nat * nat)),
           if decide (length grp.1 = 0) then cnt
           else (cnt.1 + size grp.2, cnt.2 + 1))
        cnt (map_to_list commsplit)
  = (cnt.1 + size (crossing fs self node repsd),
     cnt.2 + size (signatures fs self node repsd)).
Proof.
  intros HG [H1 H2] Hinh. rewrite count_fold_classes.
  - unfold crossing, signatures. rewrite HG. simpl. f_equal; f_equal; f_equal.
    + apply set_eq. intros x. rewrite elem_of_union_list, elem_of_filter.
      split.
      * intros (X & HX & Hx).
        apply list_elem_of_fmap in HX as ([code members] & -> & HX).
        apply list_elem_of_filter in HX as [Hne HX].
        apply elem_of_map_to_list in HX. simpl in *.
        destruct (H2 code members x HX Hx) as [HxG Hcode].
        split; [|done]. exists code. by apply signature_at_Some.
      * intros [[code Hs] HxG]. apply signature_at_Some in Hs as [Hcode Hne].
        destruct (H1 x HxG) as (code' & members & Hc' & Hm & Hin).
        rewrite Hcode in Hc'. injection Hc' as <-.
        exists members. split; [|done].
        apply list_elem_of_fmap. exists (code, members). split; [done|].
        apply list_elem_of_filter. split; [done|].
        by apply elem_of_map_to_list.
    + apply set_eq. intros code.
      rewrite elem_of_list_to_set, list_elem_of_fmap, elem_of_set_omap.
      split.
      * intros ([code' members] & -> & HX).
        apply list_elem_of_filter in HX as [Hne HX].
        apply elem_of_map_to_list in HX. simpl in *.
        pose proof (Hinh code' members HX) as Hpos.
        destruct (size_pos_elem_of members) as [x Hx]; [lia|].
        destruct (H2 code' members x HX Hx) as [HxG Hcode].
        exists x. split; [done|]. by apply signature_at_Some.
      * intros (x & HxG & Hs). apply signature_at_Some in Hs as [Hcode Hne].
        destruct (H1 x HxG) as (code' & members & Hc' & Hm & Hin).
        rewrite Hcode in Hc'. injection Hc' as <-.
        exists (code, members). split; [done|].
        apply list_elem_of_filter. split; [done|].
        by apply elem_of_map_to_list.
  - apply NoDup_fst_map_to_list.
  - intros k v k' v' Hk Hk' Hne x Hx Hx'.
    apply elem_of_map_to_list in Hk, Hk'.
    destruct (H2 k v x Hk Hx) as [_ E1].
    destruct (H2 k' v' x Hk' Hx') as [_ E2]. congruence.
Qed.

(** The two counts as sums over the representative commodities. *)
Lemma node_counts_sums (fs : Files) (self : SolutionGrouping)
    (node : nat) (all compact : nat) :
  node_counts fs self node = Ok (all, compact) →
  all = sum_list_with (λ repsd, size (crossing fs self node repsd))
          (elements (RepCommodities (gTopo self)))
  ∧ compact = sum_list_with (λ repsd, size (signatures fs self node repsd))
                (elements (RepCommodities (gTopo self))).
Proof.
  unfold node_counts. intros Hrun.
  apply bind_Ok in Hrun as (splitgroups & Hgrp & Hcnt).
  pose proof (groupSolutionAtNode_spec fs self node splitgroups Hgrp) as Hspec.
  pose proof (groupSolutionAtNode_inhabited fs self node splitgroups Hgrp)
    as Hinh.
  unfold countRouteInfoAtNode in Hcnt.
  cut ((all, compact).1
         = sum_list_with (λ repsd, size (crossing fs self node repsd))
             (elements (RepCommodities (gTopo self)))
       ∧ (all, compact).2
         = sum_list_with (λ repsd, size (signatures fs self node repsd))
             (elements (RepCommodities (gTopo self)))); [done|].
  apply (for_each_partial _
    (λ pre (cnt : nat * nat),
       cnt.1 = sum_list_with (λ repsd, size (crossing fs self node repsd)) pre
       ∧ cnt.2
         = sum_list_with (λ repsd, size (signatures fs self node repsd)) pre)
    _ _ _ Hcnt); [done|].
  clear Hcnt. intros pre repsd post c0 c1 Hsplit [E1 E2] Hstep.
  assert (repsd ∈ RepCommodities (gTopo self)) as Hrep.
  { apply elem_of_elements. rewrite Hsplit. set_solver. }
  destruct (Hspec repsd Hrep) as (G & m & HG & Hm & Hsp).
  rewrite Hm, orRaise_Some_bind in Hstep. injection Hstep as <-.
  rewrite (class_counts fs self node repsd G m c0 HG Hsp (Hinh repsd m Hm)).
  rewrite !sum_list_with_app. simpl. lia.
Qed.

(** X14: the counts reported for a node are sums over the
    representative commodities: [all] adds up, per class, the number of
    commodities with a non-empty forwarding signature at the node, and
    [compact] adds up, per class, the number of distinct non-empty
    signatures. *)
Theorem counts_are_class_sizes (fs : Files) (self : SolutionGrouping)
    (node : nat) (all compact : nat) :
  node_counts fs self node = Ok (all, compact) →
  all = sum_list_with (λ repsd, size (crossing fs self node repsd))
          (elements (RepCommodities (gTopo self)))
  ∧ compact = sum_list_with (λ repsd, size (signatures fs self node repsd))
                (elements (RepCommodities (gTopo self))).
Proof. apply node_counts_sums. Qed.

Lemma counts_are_class_sizes_witness :
  1 = sum_list_with (λ repsd, size (crossing pendant_files pendant_grouping 0 repsd))
        (elements (RepCommodities (gTopo pendant_grouping)))
  ∧ 1 = sum_list_with
          (λ repsd, size (signatures pendant_files pendant_grouping 0 repsd))
          (elements (RepCommodities (gTopo pendant_grouping))).
Proof.
  apply (counts_are_class_sizes pendant_files pendant_grouping 0 1 1).
  vm_compute. reflexivity.
Defined.

(** ** Grouping a stored routing never fails on a lookup *)

Lemma node_counts_total (n : nat) (ugraph : Graph) (autgen : list (list nat))
    (topo : Topology) (fs : Files) (g : Routing) (node : nat) :
  Ready n ugraph autgen topo fs →
  class_maps_preserve_links n topo fs →
  (∀ l, l ∈ DLinks topo → is_Some (r_edges g !! l)) →
  node < n →
  ∃ cnt, node_counts fs {| gTopo := topo; gRoute := RouteGraph g |} node
         = Ok cnt.
Proof.
  intros Hrd Hmaps Hkeys Hnode. unfold node_counts.
  set (self := {| gTopo := topo; gRoute := RouteGraph g |}).
  assert (∃ sg, groupSolutionAtNode fs self node = Ok sg) as [sg Hsg].
  { unfold groupSolutionAtNode.
    match goal with
    | |- ∃ sg, for_each ?f ?l ?s = Ok sg =>
        destruct (for_each_total f (λ _ _, True) l s) as (sg & Hsg & _);
          [done| |by eauto]
    end.
    intros pre repsd post sg Hsplit _.
    assert (repsd ∈ RepCommodities topo) as Hrep.
    { apply elem_of_elements. simpl in Hsplit. rewrite Hsplit. set_solver. }
    destruct (rd_groups _ _ _ _ _ Hrd repsd Hrep) as (_ & G & HG & _).
    unfold loadCommodityGroup. rewrite HG. simpl.
    assert (∃ m, commsplit_of fs self node repsd G = Ok m) as [m ->];
      [|by eauto].
    unfold commsplit_of.
    match goal with
    | |- ∃ m, for_each ?f ?l ?s = Ok m =>
        destruct (for_each_total f (λ _ _, True) l s) as (m & Hm & _);
          [done| |by eauto]
    end.
    intros pre' sd post' m Hsplit' _.
    assert (sd ∈ G) as Hsd.
    { apply elem_of_elements. rewrite Hsplit'. set_solver. }
    destruct (encodeFlows_total _ _ _ _ _ Hrd Hmaps g node repsd sd G
                Hkeys Hnode Hrep HG Hsd) as (code & Hcode).
    fold self in Hcode. cbv beta. rewrite Hcode, commsplit_add_eq. eauto. }
  rewrite Hsg, result_bind_Ok.
  pose proof (groupSolutionAtNode_spec fs self node sg Hsg) as Hspec.
  unfold countRouteInfoAtNode.
  match goal with
  | |- ∃ c, for_each ?f ?l ?s = Ok c =>
      destruct (for_each_total f (λ _ _, True) l s) as (c & Hc & _);
        [done| |by eauto]
  end.
  intros pre repsd post c Hsplit _.
  assert (repsd ∈ RepCommodities (gTopo self)) as Hrep.
  { apply elem_of_elements. rewrite Hsplit. set_solver. }
  destruct (Hspec repsd Hrep) as (G & m & _ & Hm & _).
  rewrite Hm, orRaise_Some_bind. eauto.
Qed.

(** X15: under the conditions of X13, for every node of the graph the
    grouping of an [OptimalRouting] graph with an edge for every directed
    link completes: [groupSolutionAtNode] and the [countRouteInfoAtNode]
    call it makes return the two counts without an exception. *)
Theorem grouping_lookups_succeed (o : Oracles) (fuel : nat)
    (ugraph : Graph) (autgen : list (list nat)) (fs : Files) :
  let n := number_of_nodes ugraph in
  list_to_set (nodes ugraph) =@{gset nat} U1 n →
  graph_ok ugraph →
  Forall (perm_gen n) autgen →
  host_preserving ugraph autgen →
  link_preserving (graph_links ugraph) autgen →
  (∀ l, sched_flow o l ≡ₚ l) →
  (∀ l, sched_link o l ≡ₚ l) →
  stage_findRepresentativeCommodities fs = None →
  stage_findRepresentativeCommodityFlowLinks fs = None →
  stage_findRepresentativeAuxs fs = None →
  stage_findRepresentativeLinkConstrs fs = None →
  n * n * (n * n) ≤ fuel →
  ∃ topo fs',
    Topology_init o fuel ugraph autgen fs = Ok (topo, fs')
    ∧ ∀ (g : Routing) (node : nat),
        node < n →
        (∀ l, l ∈ DLinks topo → is_Some (r_edges g !! l)) →
        ∃ all compact,
          node_counts fs' {| gTopo := topo; gRoute := RouteGraph g |} node
          = Ok (all, compact).
Proof.
  intros n Hnodes Hok Hgens Hhp Hlp Hsf Hsl Hst1 Hst2 Hst3 Hst4 Hfuel.
  destruct (Topology_init_served o fuel ugraph autgen fs)
    as (topo & fs' & Hrun & Hrd & Hmaps); try done.
  exists topo, fs'. split; [done|]. intros g node Hnode Hkeys.
  destruct (node_counts_total _ _ _ _ _ g node Hrd Hmaps Hkeys Hnode)
    as ([all compact] & Hc).
  by exists all, compact.
Qed.

Lemma grouping_lookups_succeed_witness :
  ∃ topo fs',
    Topology_init first_oracles 100 pair_graph pair_autgen no_files
      = Ok (topo, fs')
    ∧ ∀ (g : Routing) (node : nat),
        node < 2 →
        (∀ l, l ∈ DLinks topo → is_Some (r_edges g !! l)) →
        ∃ all compact,
          node_counts fs' {| gTopo := topo; gRoute := RouteGraph g |} node
          = Ok (all, compact).
Proof.
  apply (grouping_lookups_succeed first_oracles 100 pair_graph pair_autgen
           no_files).
  - by_compute.
  - by_compute.
  - by_compute.
  - apply pair_host_preserving.
  - apply pair_link_preserving.
  - done.
  - done.
  - reflexivity.
  - reflexivity.
  - reflexivity.
  - reflexivity.
  - simpl. lia.
Defined.

(** ** The sample run is a completed initialisation *)

Lemma pair_ready : Ready 2 pair_graph pair_autgen pair_topo pair_files.
Proof.
  destruct (Topology_init_ready first_oracles 100 pair_graph pair_autgen
              no_files) as (topo & fs' & Hrun & Hrd).
  - by_compute.
  - by_compute.
  - by_compute.
  - apply pair_host_preserving.
  - done.
  - done.
  - reflexivity.
  - reflexivity.
  - reflexivity.
  - reflexivity.
  - simpl. lia.
  - pose proof pair_run_ok as Hok. unfold pair_run in Hok.
    rewrite Hok in Hrun. by injection Hrun as <- <-.
Qed.

Lemma intermediate_verification_fails_witness :
  (∀ link, link ∈ DLinks pair_topo →
     findMaxLinkLoad sum_solver pair_files
       {| intermediate := true; vTopo := pair_topo; vRoute := RouteDict [] |}
       link = Raise AttributeError)
  ∧ returned
      (verifyAllLinkLoad id sum_solver pair_files
         {| intermediate := true; vTopo := pair_topo; vRoute := RouteDict [] |}
         (set_IntermediateSolution no_output []))
    = Raise AttributeError
  ∧ output_after
      (verifyAllLinkLoad id sum_solver pair_files
         {| intermediate := true; vTopo := pair_topo; vRoute := RouteDict [] |}
         (set_IntermediateSolution no_output []))
    = set_IntermediateSolution no_output [].
Proof.
  apply (intermediate_verification_fails 2 pair_graph pair_autgen pair_topo
           pair_files (set_IntermediateSolution no_output [])
           {| intermediate := true; vTopo := pair_topo; vRoute := RouteDict [] |}
           id sum_solver).
  - apply pair_ready.
  - by_compute.
  - by_compute.
  - done.
  - reflexivity.
  - reflexivity.
Defined.

(** ** Running the initialisation again over its own files *)

Lemma for_each_fixed {A S} (f : S → A → result S) (l : list A) (s : S) :
  (∀ a, a ∈ l → f s a = Ok s) → for_each f l s = Ok s.
Proof.
  induction l as [|a l IH]; intros Hf; [done|].
  rewrite for_each_cons, (Hf a), result_bind_Ok by set_solver.
  apply IH. intros b Hb. apply Hf. set_solver.
Qed.

Lemma set_AuxToRep_id (fs : Files) : set_AuxToRep fs (AuxToRep fs) = fs.
Proof. by destruct fs. Qed.

(** What [computeAuxReverseMap] leaves behind for each host. *)
Lemma computeAuxReverseMap_stored (self : Topology) (fs fs' : Files) :
  computeAuxReverseMap self fs = Ok fs' →
  ∀ u, u ∈ HostNodes self →
    ∃ auxtorep,
      auxtorep_of (AuxiliaryGroup fs) (elements (RepAuxiliarys self)) u
        = Ok auxtorep
      ∧ AuxToRep fs' !! u = Some auxtorep.
Proof.
  intros Hrun u Hu. apply elem_of_elements in Hu. revert u Hu.
  unfold computeAuxReverseMap in Hrun.
  cut (AuxiliaryGroup fs' = AuxiliaryGroup fs
       ∧ ∀ u, u ∈ elements (HostNodes self) →
           ∃ auxtorep,
             auxtorep_of (AuxiliaryGroup fs) (elements (RepAuxiliarys self)) u
               = Ok auxtorep
             ∧ AuxToRep fs' !! u = Some auxtorep); [by intros [_ ?]|].
  apply (for_each_partial _
    (λ pre fk,
       AuxiliaryGroup fk = AuxiliaryGroup fs
       ∧ ∀ u, u ∈ pre →
           ∃ auxtorep,
             auxtorep_of (AuxiliaryGroup fs) (elements (RepAuxiliarys self)) u
               = Ok auxtorep
             ∧ AuxToRep fk !! u = Some auxtorep)
    _ _ _ Hrun).
  - split; [done|]. intros u Hu. by apply elem_of_nil in Hu.
  - clear Hrun. intros pre u post fk fk' _ [HG Hinv] Hstep.
    apply bind_Ok in Hstep as (a & Ha & Hstep). injection Hstep as <-.
    rewrite HG in Ha. simpl. split; [done|]. intros u' Hu'.
    destruct (decide (u' = u)) as [->|Hne].
    + exists a. by rewrite lookup_insert_eq.
    + rewrite lookup_insert_ne by done. apply Hinv. set_solver.
Qed.

(** Run again over files that already hold its result, the step
    rewrites every [AuxToRep] file with the content it has. *)
Lemma computeAuxReverseMap_again (self : Topology) (fs fs' fs2 : Files) :
  computeAuxReverseMap self fs = Ok fs' →
  AuxiliaryGroup fs2 = AuxiliaryGroup fs →
  AuxToRep fs2 = AuxToRep fs' →
  computeAuxReverseMap self fs2 = Ok fs2.
Proof.
  intros Hrun HG HA. unfold computeAuxReverseMap.
  apply for_each_fixed. intros u Hu. apply elem_of_elements in Hu.
  destruct (computeAuxReverseMap_stored _ _ _ Hrun u Hu) as (a & Ha & Hl).
  rewrite HG, Ha, result_bind_Ok. f_equal.
  rewrite insert_id by by rewrite HA. apply set_AuxToRep_id.
Qed.

(** X16: a second [Topology.__init__] on the same graph and
    generators, over the files a completed first run left behind, loads
    every stage instead of enumerating again (it needs no loop iteration
    and asks no [pop]), and ends with the same topology object and the
    same files. *)
Theorem rerun_reloads_the_same_state (o o' : Oracles) (fuel fuel' : nat)
    (ugraph : Graph) (autgen : list (list nat)) (fs fs' : Files)
    (topo : Topology) :
  stage_findRepresentativeCommodities fs = None →
  stage_findRepresentativeCommodityFlowLinks fs = None →
  stage_findRepresentativeAuxs fs = None →
  stage_findRepresentativeLinkConstrs fs = None →
  Topology_init o fuel ugraph autgen fs = Ok (topo, fs') →
  Topology_init o' fuel' ugraph autgen fs' = Ok (topo, fs').
Proof.
  intros Hst1 Hst2 Hst3 Hst4 Hrun.
  unfold Topology_init, Topology_init_aux in Hrun.
  apply bind_Ok in Hrun as ([self3 fs3] & Hrun & Hlink).
  apply bind_Ok in Hrun as (self0 & H0 & Hrun).
  apply bind_Ok in Hrun as ([self1 fs1] & Hc & Hrun).
  apply bind_Ok in Hrun as ([self2 fs2] & Hf & Ha).
  cbn [fst snd] in *.
  unfold findRepresentativeCommodities in Hc. rewrite Hst1 in Hc.
  apply bind_Ok in Hc as (σ & _ & Hc). injection Hc as <- <-.
  unfold findRepresentativeCommodityFlowLinks in Hf. simpl in Hf.
  rewrite Hst2 in Hf.
  apply bind_Ok in Hf as (results & _ & Hf). injection Hf as <- <-.
  unfold aux_stage in Ha.
  apply bind_Ok in Ha as ([self3a fs3a] & Hr & Ha).
  apply bind_Ok in Ha as (fs3b & Hrev & Ha). cbn [fst snd] in *.
  injection Ha as <- <-.
  unfold findRepresentativeAuxs in Hr. simpl in Hr. rewrite Hst3 in Hr.
  apply bind_Ok in Hr as (σa & _ & Hr). injection Hr as <- <-.
  pose proof (computeAuxReverseMap_frame _ _ _ Hrev)
    as (F1 & F2 & F3 & F4 & F5 & F6 & F7 & F8 & F9).
  unfold findRepresentativeLinkConstrs in Hlink.
  rewrite F9 in Hlink. simpl in Hlink. rewrite Hst4 in Hlink.
  apply bind_Ok in Hlink as (results' & _ & Hlink).
  apply bind_Ok in Hlink as (replinks & _ & Hlink).
  injection Hlink as <- <-.
  simpl in F5, F6, F7, F8.
  assert (stage_findRepresentativeCommodities
            (set_stage_LinkConstrs fs3b (Some replinks))
          = Some (c_repcomms σ)) as S1 by (simpl; by rewrite F6).
  assert (stage_findRepresentativeCommodityFlowLinks
            (set_stage_LinkConstrs fs3b (Some replinks))
          = Some (merge_flowlinks results (∅, FlowLinkMap fs)).1) as S2
    by (simpl; by rewrite F7).
  assert (stage_findRepresentativeAuxs
            (set_stage_LinkConstrs fs3b (Some replinks))
          = Some (a_repauxs σa)) as S3 by (simpl; by rewrite F8).
  assert (stage_findRepresentativeLinkConstrs
            (set_stage_LinkConstrs fs3b (Some replinks))
          = Some replinks) as S4 by done.
  assert (computeAuxReverseMap
            (set_RepAuxiliarys
               (set_RepCommFlowLinks
                  (set_RepCommodities self0 (c_repcomms σ))
                  (merge_flowlinks results (∅, FlowLinkMap fs)).1)
               (a_repauxs σa))
            (set_stage_LinkConstrs fs3b (Some replinks))
          = Ok (set_stage_LinkConstrs fs3b (Some replinks))) as S5.
  { apply (computeAuxReverseMap_again _ _ _ _ Hrev); [|done].
    simpl. by rewrite F5. }
  revert S1 S2 S3 S4 S5.
  generalize (set_stage_LinkConstrs fs3b (Some replinks)). intros fsF.
  intros S1 S2 S3 S4 S5.
  unfold Topology_init, Topology_init_aux.
  rewrite H0, result_bind_Ok.
  unfold findRepresentativeCommodities. rewrite S1, result_bind_Ok.
  cbn [fst snd].
  unfold findRepresentativeCommodityFlowLinks. rewrite S2, result_bind_Ok.
  cbn [fst snd].
  unfold aux_stage, findRepresentativeAuxs. rewrite S3, result_bind_Ok.
  cbn [fst snd]. rewrite S5, !result_bind_Ok. cbn [fst snd].
  unfold findRepresentativeLinkConstrs. by rewrite S4.
Qed.

Lemma rerun_reloads_the_same_state_witness :
  Topology_init first_oracles 0 pair_graph pair_autgen pair_files
  = Ok (pair_topo, pair_files).
Proof.
  apply (rerun_reloads_the_same_state first_oracles first_oracles 100 0
           pair_graph pair_autgen no_files pair_files pair_topo).
  - reflexivity.
  - reflexivity.
  - reflexivity.
  - reflexivity.
  - apply pair_run_ok.
Defined.

(** ** The constraints [setAdditionalFlowConstraint] adds *)

(** A loop whose every step appends the constraints [spec] describes for
    its item appends, in all, the constraints of all items. *)
Lemma for_each_appends {A} (I : Optimization → Prop)
    (f : Optimization → A → result Optimization) (spec : A → Constr → Prop)
    (l : list A) (self self' : Optimization) :
  I self →
  (∀ σ a σ', a ∈ l → I σ → f σ a = Ok σ' →
     I σ' ∧ ∃ cs, constrs σ' = constrs σ ++ cs ∧ ∀ c, c ∈ cs ↔ spec a c) →
  for_each f l self = Ok self' →
  I self'
  ∧ ∃ cs, constrs self' = constrs self ++ cs
      ∧ ∀ c, c ∈ cs ↔ ∃ a, a ∈ l ∧ spec a c.
Proof.
  intros HI Hstep Hrun.
  apply (for_each_partial f
    (λ pre σ, I σ ∧ ∃ cs, constrs σ = constrs self ++ cs
                ∧ ∀ c, c ∈ cs ↔ ∃ a, a ∈ pre ∧ spec a c)
    l self self' Hrun).
  - split; [done|]. exists []. rewrite app_nil_r. split; [done|].
    intros c. split; [by intros ?%elem_of_nil|].
    by intros (a & ?%elem_of_nil & _).
  - intros pre a post σ σ' Hsplit (Hσ & cs & Hcs & Hmem) Hf.
    destruct (Hstep σ a σ') as (Hσ' & cs' & Hcs' & Hmem'); [|done..|].
    { rewrite Hsplit. set_solver. }
    split; [done|]. exists (cs ++ cs').
    split; [by rewrite Hcs', Hcs, app_assoc|].
    intros c. rewrite elem_of_app, Hmem, Hmem'. split.
    + intros [(a' & Ha' & Hs)|Hs]; [exists a'|exists a]; set_solver.
    + intros (a' & [Ha'|Ha']%elem_of_app & Hs); [left; by exists a'|].
      apply list_elem_of_singleton in Ha' as ->. by right.
Qed.

(** X17: when [setAdditionalFlowConstraint] returns, it has only
    appended constraints, and the appended ones are exactly these, each
    pinning the flow variable of a representative commodity [(s, d)] on
    one of its representative flow links [(i, j)] to zero: [afa_s_d_i_j]
    when [j] is a routing-incapable node other than [d], and
    [afc_s_d_i_j] when the link enters the source ([j = s]) or leaves the
    destination ([i = d]). *)
Theorem additional_flow_constraints (self self' : Optimization) :
  setAdditionalFlowConstraint self = Ok self' →
  ∃ cs, constrs self' = constrs self ++ cs
    ∧ ∀ c, c ∈ cs ↔
        ∃ s d i j links Frep v,
          (s, d) ∈ RepCommodities (Topo self)
          ∧ RepCommFlowLinks (Topo self) !! (s, d) = Some links
          ∧ (i, j) ∈ links
          ∧ F self !! (s, d) = Some Frep
          ∧ Frep !! (i, j) = Some v
          ∧ ((i ∈ AllNodes (Topo self) ∧ j ∈ NonRouteNodes (Topo self)
              ∧ j ≠ d ∧ c = pin_zero (afa s d i j) v)
             ∨ ((j = s ∨ i = d) ∧ c = pin_zero (afc s d i j) v)).
Proof.
  set (I := λ σ : Optimization, Topo σ = Topo self ∧ F σ = F self).
  set (afa_spec := λ (repsd ij : nat * nat) (c : Constr),
         ∃ links Frep v,
           RepCommFlowLinks (Topo self) !! repsd = Some links
           ∧ ij ∈ links
           ∧ F self !! repsd = Some Frep ∧ Frep !! ij = Some v
           ∧ ij.1 ∈ AllNodes (Topo self)
           ∧ ij.2 ∈ NonRouteNodes (Topo self) ∧ ij.2 ≠ repsd.2
           ∧ c = pin_zero (afa repsd.1 repsd.2 ij.1 ij.2) v).
  set (afc_spec := λ (repsd ij : nat * nat) (c : Constr),
         ∃ links Frep v,
           RepCommFlowLinks (Topo self) !! repsd = Some links
           ∧ ij ∈ links
           ∧ F self !! repsd = Some Frep ∧ Frep !! ij = Some v
           ∧ (ij.2 = repsd.1 ∨ ij.1 = repsd.2)
           ∧ c = pin_zero (afc repsd.1 repsd.2 ij.1 ij.2) v).
  unfold setAdditionalFlowConstraint. intros Hrun.
  apply bind_Ok in Hrun as (s1 & Hrun1 & Hrun2).
  apply (for_each_appends I _
    (λ repsd c, ∃ ij, afa_spec repsd ij c)) in Hrun1
    as ([HT1 HF1] & cs1 & Hcs1 & Hmem1); [|done|].
  2:{ intros σ repsd σ' _ [HT HF] Hstep.
      apply bind_Ok in Hstep as (links & Hl & Hstep). apply orRaise_Ok in Hl.
      apply (for_each_appends I _ (afa_spec repsd)) in Hstep
        as (HI & cs & Hcs & Hmem); [|done|].
      - split; [done|]. exists cs. split; [done|]. intros c.
        rewrite Hmem. split.
        + intros (ij & _ & Hs). by exists ij.
        + intros (ij & Hs). exists ij. split; [|done].
          destruct Hs as (links' & Frep & v & Hl' & Hin & _ & _ & Ha & Hn & Hd & _).
          rewrite Hl in Hl'. injection Hl' as <-.
          apply elem_of_elements, elem_of_intersection. split; [done|].
          destruct ij as [i j]. apply elem_of_gset_cprod. simpl in *.
          split; [done|]. set_solver.
      - intros σa ij σb Hin [HTa HFa] Hf.
        apply bind_Ok in Hf as (Frep & HFr & Hf). apply orRaise_Ok in HFr.
        apply bind_Ok in Hf as (v & Hv & Hf). apply orRaise_Ok in Hv.
        injection Hf as <-. split; [done|]. eexists [_]. split; [done|].
        intros c. rewrite list_elem_of_singleton.
        apply elem_of_elements, elem_of_intersection in Hin as [Hin Hav].
        destruct ij as [i j]. apply elem_of_gset_cprod in Hav as [Ha Hn].
        simpl in *. rewrite HFa in HFr. split.
        + intros ->. exists links, Frep, v. split_and!; try done; set_solver.
        + intros (links' & Frep' & v' & _ & _ & HFr' & Hv' & _ & _ & _ & ->).
          rewrite HFr in HFr'. injection HFr' as <-.
          rewrite Hv in Hv'. by injection Hv' as <-. }
  apply (for_each_appends I _
    (λ repsd c, ∃ ij, afc_spec repsd ij c)) in Hrun2
    as (_ & cs2 & Hcs2 & Hmem2); [|done|].
  2:{ intros σ repsd σ' _ [HT HF] Hstep.
      apply bind_Ok in Hstep as (links & Hl & Hstep). apply orRaise_Ok in Hl.
      apply (for_each_appends I _ (afc_spec repsd)) in Hstep
        as (HI & cs & Hcs & Hmem); [|done|].
      - split; [done|]. exists cs. split; [done|]. intros c.
        rewrite Hmem. split.
        + intros (ij & _ & Hs). by exists ij.
        + intros (ij & Hs). exists ij. split; [|done].
          destruct Hs as (links' & Frep & v & Hl' & Hin & _).
          rewrite Hl in Hl'. injection Hl' as <-.
          by apply elem_of_elements.
      - intros σa ij σb Hin [HTa HFa] Hf.
        apply elem_of_elements in Hin.
        case_decide as Hcond.
        + apply bind_Ok in Hf as (Frep & HFr & Hf). apply orRaise_Ok in HFr.
          apply bind_Ok in Hf as (v & Hv & Hf). apply orRaise_Ok in Hv.
          injection Hf as <-. split; [done|]. eexists [_]. split; [done|].
          intros c. rewrite list_elem_of_singleton.
          rewrite HFa in HFr. split.
          * intros ->. exists links, Frep, v. split_and!; done.
          * intros (links' & Frep' & v' & _ & _ & HFr' & Hv' & _ & ->).
            rewrite HFr in HFr'. injection HFr' as <-.
            rewrite Hv in Hv'. by injection Hv' as <-.
        + injection Hf as <-. split; [done|]. exists [].
          rewrite app_nil_r. split; [done|]. intros c. split.
          * by intros ?%elem_of_nil.
          * intros (links' & Frep' & v' & _ & _ & _ & _ & Hc & _). done. }
  exists (cs1 ++ cs2). split; [by rewrite Hcs2, Hcs1, app_assoc|].
  intros c. rewrite elem_of_app, Hmem1, Hmem2.
  setoid_rewrite elem_of_elements. split.
  - intros [([s d] & Hrep & [i j] & Hs)|([s d] & Hrep & [i j] & Hs)].
    + destruct Hs as (links & Frep & v & Hl & Hin & HFr & Hv & Ha & Hn & Hd & ->).
      exists s, d, i, j, links, Frep, v. split_and!; try done. by left.
    + destruct Hs as (links & Frep & v & Hl & Hin & HFr & Hv & Hc & ->).
      exists s, d, i, j, links, Frep, v. split_and!; try done. by right.
  - intros (s & d & i & j & links & Frep & v & Hrep & Hl & Hin & HFr & Hv
            & [(Ha & Hn & Hd & ->)|(Hc & ->)]).
    + left. exists (s, d). split; [done|]. exists (i, j).
      exists links, Frep, v. split_and!; done.
    + right. exists (s, d). split; [done|]. exists (i, j).
      exists links, Frep, v. split_and!; done.
Qed.

Lemma additional_flow_constraints_witness :
  ∃ cs,
    constrs (opt_of (setAdditionalFlowConstraint pair_opt) pair_topo)
    = constrs pair_opt ++ cs
    ∧ ∀ c, c ∈ cs ↔
        ∃ s d i j links Frep v,
          (s, d) ∈ RepCommodities (Topo pair_opt)
          ∧ RepCommFlowLinks (Topo pair_opt) !! (s, d) = Some links
          ∧ (i, j) ∈ links
          ∧ F pair_opt !! (s, d) = Some Frep
          ∧ Frep !! (i, j) = Some v
          ∧ ((i ∈ AllNodes (Topo pair_opt) ∧ j ∈ NonRouteNodes (Topo pair_opt)
              ∧ j ≠ d ∧ c = pin_zero (afa s d i j) v)
             ∨ ((j = s ∨ i = d) ∧ c = pin_zero (afc s d i j) v)).
Proof.
  apply (additional_flow_constraints pair_opt
           (opt_of (setAdditionalFlowConstraint pair_opt) pair_topo)).
  vm_compute. reflexivity.
Defined.

(** ** The clique topology of the generator *)

Lemma elem_of_combinations2_seq (a n i j : nat) :
  (i, j) ∈ combinations2 (seq a n) ↔ a ≤ i ∧ i < j ∧ j < a + n.
Proof.
  revert a. induction n as [|n IH]; intros a; simpl.
  { split; [by intros ?%elem_of_nil|lia]. }
  rewrite elem_of_app, list_elem_of_fmap, IH. split.
  - intros [(y & [= -> ->] & Hy)|H]; [|lia].
    apply elem_of_seq in Hy. lia.
  - intros (Ha & Hij & Hj). destruct (decide (i = a)) as [->|Hne].
    + left. exists j. split; [done|]. apply elem_of_seq. lia.
    + right. lia.
Qed.

Lemma clique_edges (s n : nat) (c : Qc) (e : nat * nat * Qc) :
  e ∈ edges (generateClique s n c) ↔ e.1.1 < e.1.2 ∧ e.1.2 < n ∧ e.2 = c.
Proof.
  unfold generateClique. simpl. rewrite list_elem_of_fmap. split.
  - intros ([i j] & -> & Hin). apply elem_of_combinations2_seq in Hin.
    simpl. split_and!; [lia..|done].
  - destruct e as [[i j] c']. simpl. intros (Hij & Hj & ->).
    exists (i, j). split; [done|]. apply elem_of_combinations2_seq. lia.
Qed.

Lemma clique_links (s n : nat) (c : Qc) (i j : nat) :
  (i, j) ∈ graph_links (generateClique s n c) ↔ i < n ∧ j < n ∧ i ≠ j.
Proof.
  unfold graph_links.
  assert (∀ x y, (x, y) ∈ (list_to_set (fst <$> edges (generateClique s n c))
                            : gset (nat * nat))
            ↔ x < y ∧ y < n) as Hu.
  { intros x y. rewrite elem_of_list_to_set, list_elem_of_fmap. split.
    - intros (e & He & Hin). apply clique_edges in Hin.
      destruct e as [[x' y'] c']. simpl in *. simplify_eq. lia.
    - intros [Hxy Hy]. exists (x, y, c). split; [done|].
      apply clique_edges. simpl. split_and!; [lia..|done]. }
  rewrite elem_of_union, elem_of_map. split.
  - intros [Hin|([a b] & Heq & Hin)].
    + apply Hu in Hin. lia.
    + apply Hu in Hin. simpl in Heq. simplify_eq. lia.
  - intros (Hi & Hj & Hne). destruct (decide (i < j)).
    + left. apply Hu. lia.
    + right. exists (j, i). split; [done|]. apply Hu. lia.
Qed.

Lemma clique_number_of_nodes (s n : nat) (c : Qc) :
  number_of_nodes (generateClique s n c) = n.
Proof. unfold number_of_nodes. simpl. apply length_seq. Qed.

Lemma clique_graph_ok (s n : nat) (c : Qc) : graph_ok (generateClique s n c).
Proof.
  intros e He. apply clique_edges in He as (H1 & H2 & _). simpl.
  rewrite !elem_of_seq. lia.
Qed.

(** Every permutation of the nodes is an automorphism of a clique. *)
Lemma clique_link_preserving (s n : nat) (c : Qc) (gens : list (list nat)) :
  Forall (perm_gen n) gens →
  link_preserving (graph_links (generateClique s n c)) gens.
Proof.
  intros Hgens g [i j] Hg Hl. rewrite Forall_forall in Hgens.
  destruct (Hgens g Hg) as [Hwf Hnd].
  apply clique_links in Hl as (Hi & Hj & Hne). unfold act2. simpl.
  apply clique_links. split_and!; [by eapply act_lt..|].
  intros Heq. apply Hne. by eapply (act_inj n g).
Qed.

Lemma clique_host_preserving (s n : nat) (c : Qc) (gens : list (list nat)) :
  host_preserving (generateClique s n c) gens.
Proof. intros g u _ _ Hpos. done. Qed.

(** X18: for the clique [generateClique] builds, with a link
    capacity other than zero, any generators that are permutations of
    the [numToR] nodes, pools that run every task once and [numToR^4]
    loop iterations allowed, [Topology.__init__] (started without stage
    files) and the model construction complete; the directed links are
    the ordered pairs of distinct nodes, and so are the commodities when
    every node has a server; and over a routing graph with an edge for
    every directed link the objective of every link and the counts of
    every node of the clique are computed without an exception. *)
Theorem clique_pipeline_completes (o : Oracles) (fuel : nat)
    (numServerPerToR numToR : nat) (linkCapacity : Qc)
    (autgen : list (list nat)) :
  linkCapacity ≠ 0%Qc →
  Forall (perm_gen numToR) autgen →
  (∀ l, sched_flow o l ≡ₚ l) →
  (∀ l, sched_link o l ≡ₚ l) →
  numToR * numToR * (numToR * numToR) ≤ fuel →
  ∃ topo fs' model,
    Topology_init o fuel
      (generateClique numServerPerToR numToR linkCapacity) autgen no_files
    = Ok (topo, fs')
    ∧ (∀ i j, (i, j) ∈ DLinks topo ↔ i < numToR ∧ j < numToR ∧ i ≠ j)
    ∧ (∀ s d, (s, d) ∈ Commodities topo
         ↔ 0 < numServerPerToR ∧ s < numToR ∧ d < numToR ∧ s ≠ d)
    ∧ build_model fs' topo = Ok model
    ∧ ∀ g : Routing,
        (∀ l, l ∈ DLinks topo → is_Some (r_edges g !! l)) →
        (∀ link, link ∈ DLinks topo →
           ∃ load,
             link_objective fs'
               {| intermediate := false; vTopo := topo;
                  vRoute := RouteGraph g |} link
             = Ok load)
        ∧ (∀ node, node < numToR →
             ∃ all compact,
               node_counts fs' {| gTopo := topo; gRoute := RouteGraph g |}
                 node
               = Ok (all, compact)).
Proof.
  intros Hcap Hgens Hsf Hsl Hfuel.
  set (G := generateClique numServerPerToR numToR linkCapacity).
  pose proof (clique_number_of_nodes numServerPerToR numToR linkCapacity)
    as Hn. fold G in Hn.
  pose proof (Topology_init_served o fuel G autgen no_files) as Hserved.
  cbv zeta in Hserved. rewrite Hn in Hserved.
  destruct Hserved as (topo & fs' & Hrun & Hrd & Hmaps); try done.
  { apply list_to_set_seq_U1. }
  { apply clique_graph_ok. }
  { apply clique_host_preserving. }
  { by apply clique_link_preserving. }
  destruct (build_model_total _ _ _ _ _ Hrd) as (model & Hm).
  { intros e He. apply clique_edges in He as (_ & _ & ->). done. }
  { intros Hne. apply set_choose_L in Hne as [[s d] Hr].
    destruct (rd_groups _ _ _ _ _ Hrd _ Hr) as [Hc _].
    apply (rd_commodities _ _ _ _ _ Hrd) in Hc as (Hs & Hd & Hsd).
    apply (rd_hosts _ _ _ _ _ Hrd) in Hs as [Hs _], Hd as [Hd _].
    intros v Hv. apply (rd_nodes _ _ _ _ _ Hrd) in Hv.
    destruct (decide (v = 0)) as [->|Hv0].
    - exists (0, 1, linkCapacity). split; [|by left].
      apply clique_edges. simpl. split_and!; [lia..|done].
    - exists (0, v, linkCapacity). split; [|by right].
      apply clique_edges. simpl. split_and!; [lia..|done]. }
  exists topo, fs', model. split; [done|].
  assert (∀ i j, (i, j) ∈ DLinks topo
            ↔ i < numToR ∧ j < numToR ∧ i ≠ j) as HD.
  { intros i j. rewrite (rd_links _ _ _ _ _ Hrd). split.
    - intros (e & He & Hor). apply clique_edges in He as (H1 & H2 & _).
      destruct Hor as [Hx|Hx]; rewrite Hx in *; simpl in *; lia.
    - intros (Hi & Hj & Hne). destruct (decide (i < j)).
      + exists (i, j, linkCapacity). split; [|by left].
        apply clique_edges. simpl. split_and!; [lia..|done].
      + exists (j, i, linkCapacity). split; [|by right].
        apply clique_edges. simpl. split_and!; [lia..|done]. }
  split; [done|]. split.
  { intros s d. rewrite (rd_commodities _ _ _ _ _ Hrd).
    rewrite !(rd_hosts _ _ _ _ _ Hrd). simpl. lia. }
  split; [done|]. intros g Hkeys. split.
  - intros link Hl.
    apply (link_objective_total _ _ _ _ _ Hrd Hmaps false g link Hkeys Hl).
  - intros node Hnode.
    destruct (node_counts_total _ _ _ _ _ g node Hrd Hmaps Hkeys Hnode)
      as ([all compact] & Hc).
    by exists all, compact.
Qed.

Lemma clique_pipeline_completes_witness :
  ∃ topo fs' model,
    Topology_init first_oracles 100 (generateClique 1 2 1%Qc) [[1; 0]] no_files
    = Ok (topo, fs')
    ∧ (∀ i j, (i, j) ∈ DLinks topo ↔ i < 2 ∧ j < 2 ∧ i ≠ j)
    ∧ (∀ s d, (s, d) ∈ Commodities topo ↔ 0 < 1 ∧ s < 2 ∧ d < 2 ∧ s ≠ d)
    ∧ build_model fs' topo = Ok model
    ∧ ∀ g : Routing,
        (∀ l, l ∈ DLinks topo → is_Some (r_edges g !! l)) →
        (∀ link, link ∈ DLinks topo →
           ∃ load,
             link_objective fs'
               {| intermediate := false; vTopo := topo;
                  vRoute := RouteGraph g |} link
             = Ok load)
        ∧ (∀ node, node < 2 →
             ∃ all compact,
               node_counts fs' {| gTopo := topo; gRoute := RouteGraph g |}
                 node
               = Ok (all, compact)).
Proof.
  apply (clique_pipeline_completes first_oracles 100 1 2 1%Qc [[1; 0]]).
  - done.
  - by_compute.
  - done.
  - done.
  - simpl. lia.
Defined.

(** ** Commodity classes are orbits, whatever [pop] returns *)

#[global] Instance pair_le_total : Total pair_le.
Proof. intros [a b] [c d]. unfold pair_le. simpl. lia. Qed.

#[global] Instance pair_le_trans : Transitive pair_le.
Proof. intros [a b] [c d] [e f]. unfold pair_le. simpl. lia. Qed.



Section comm_reach.
Context (n : nat) (gens : list (list nat)).
Hypothesis Hgens : Forall (perm_gen n) gens.





End comm_reach.




(** ** Flow conservation at concrete topologies *)

Lemma detached_run_ok : detached_run = Ok (detached_topo, detached_files).
Proof. vm_compute. reflexivity. Qed.



(** ** The counts of a node and the flow it carries *)







(** ** Completion order in the pool stages *)

Lemma imap_traced_returns {A B} (f : A → result B) (d : B) (xs : list A) :
  (∀ x, x ∈ xs → ∃ y, f x = Ok y) →
  imap_traced f xs = (Ok ((λ x, returned_or d (f x)) <$> xs), xs).
Proof.
  induction xs as [|x xs IH]; intros Hall; [done|]. simpl.
  destruct (Hall x) as [y Hy]; [set_solver|]. rewrite Hy.
  rewrite IH by (intros; apply Hall; set_solver). simpl. done.
Qed.

Lemma imap_traced_tasks {A B} (f : A → result B) (xs : list A) (ys : list B) :
  (imap_traced f xs).1 = Ok ys → ∀ x, x ∈ xs → ∃ y, f x = Ok y.
Proof.
  intros Hrun x Hx. apply imap_traced_Ok in Hrun.
  apply list_elem_of_lookup in Hx as [k Hk].
  destruct (Forall2_lookup_l _ _ _ _ _ Hrun Hk) as (y & _ & Hy). eauto.
Qed.

(** Inserting values that depend on the key alone commutes. *)
Lemma foldl_insert_key_permutation `{Countable K} {V} (v : K → V)
    (l1 l2 : list K) :
  l1 ≡ₚ l2 →
  ∀ m : gmap K V,
    foldl (λ m x, <[x := v x]> m) m l1 = foldl (λ m x, <[x := v x]> m) m l2.
Proof.
  induction 1 as [|x l l' Hp IH|x y l|l l' l'' Hp1 IH1 Hp2 IH2]; intros m.
  - done.
  - simpl. apply IH.
  - simpl. destruct (decide (x = y)) as [->|Hne]; [done|].
    by rewrite insert_insert_ne.
  - rewrite IH1. apply IH2.
Qed.

Lemma match_nil_permutation {A B} (l1 l2 : list A) (a b : B) :
  l1 ≡ₚ l2 →
  match l1 with [] => a | _ :: _ => b end
  = match l2 with [] => a | _ :: _ => b end.
Proof.
  intros Hp. apply Permutation_length in Hp.
  destruct l1, l2; simpl in *; done.
Qed.

(** The dictionary [linkload] as a fold, when every edge has a capacity
    other than zero. *)
Lemma linkload_fold (G : Graph) (results : list ((nat * nat) * Qc))
    (m : gmap (nat * nat) Qc) :
  (∀ r, r ∈ results →
     ∃ cap, get_edge_data G r.1.1 r.1.2 = Some cap ∧ cap ≠ 0%Qc) →
  for_each
    (λ (linkload : gmap (nat * nat) Qc) (r : (nat * nat) * Qc),
       cap ← orRaise TypeError (get_edge_data G r.1.1 r.1.2);
       if decide (cap = 0%Qc) then Raise ZeroDivisionError
       else Ok (<[r.1 := (r.2 / cap)%Qc]> linkload))
    results m
  = Ok (foldl
          (λ m r, <[r.1 := (r.2 / default 0%Qc
                                    (get_edge_data G r.1.1 r.1.2))%Qc]> m)
          m results).
Proof.
  revert m. induction results as [|r results IH]; intros m Hall; [done|].
  rewrite for_each_cons. destruct (Hall r) as (cap & Hc & Hne); [set_solver|].
  rewrite Hc, orRaise_Some_bind, decide_False by done.
  rewrite result_bind_Ok, IH by (intros; apply Hall; set_solver).
  simpl. by rewrite Hc.
Qed.

(** The verification stage: a run that returns a value returns the same
    value, and writes the same file, for every completion order. *)
Lemma verify_order_independent
    (sched1 sched2 : list (nat * nat) → list (nat * nat))
    (solve : LinkLP → Status * Qc) (fs : Files) (self : Verification)
    (out : Output) (r : option (Qc * Qc)) :
  (∀ l, sched1 l ≡ₚ l) → (∀ l, sched2 l ≡ₚ l) →
  returned (verifyAllLinkLoad sched1 solve fs self out) = Ok r →
  returned (verifyAllLinkLoad sched2 solve fs self out) = Ok r
  ∧ output_after (verifyAllLinkLoad sched2 solve fs self out)
    = output_after (verifyAllLinkLoad sched1 solve fs self out)
  ∧ solved_links (verifyAllLinkLoad sched2 solve fs self out)
    ≡ₚ solved_links (verifyAllLinkLoad sched1 solve fs self out).
Proof.
  intros Hs1 Hs2. unfold verifyAllLinkLoad.
  destruct (VerifiedThroughput out) as [v|]; [by intros ?|].
  set (links := elements (DLinks (vTopo self))).
  set (f := findMaxLinkLoad solve fs self).
  set (d := ((0, 0), 0%Qc) : (nat * nat) * Qc).
  cbv zeta. intros Hrun.
  assert (∀ x, x ∈ links → ∃ y, f x = Ok y) as Hall.
  { destruct (imap_traced f (sched1 links)).1 as [ys| |] eqn:Hr1; [|done..].
    intros x Hx. apply (imap_traced_tasks f (sched1 links) ys Hr1).
    by rewrite Hs1. }
  rewrite (imap_traced_returns f d (sched1 links)) in Hrun |- *
    by (intros x Hx; apply Hall; by rewrite <- (Hs1 links)).
  rewrite (imap_traced_returns f d (sched2 links))
    by (intros x Hx; apply Hall; by rewrite <- (Hs2 links)).
  cbn [fst snd] in *. rewrite !result_bind_Ok in Hrun.
  repeat rewrite result_bind_Ok.
  set (g := λ x, returned_or d (f x)) in *.
  match type of Hrun with
  | context [for_each ?body (g <$> sched1 links) ∅] =>
      destruct (for_each body (g <$> sched1 links) ∅) as [ll| |] eqn:Hll;
        [|done..]
  end.
  pose proof (linkload_caps _ _ _ Hll) as Hcaps.
  assert (g <$> sched2 links ≡ₚ g <$> sched1 links) as Hperm.
  { apply fmap_Permutation. by rewrite Hs1, Hs2. }
  rewrite linkload_fold in Hll by done.
  rewrite linkload_fold by (intros x Hx; apply Hcaps; by rewrite <- Hperm).
  assert (NoDup ((λ r : (nat * nat) * Qc, r.1) <$> (g <$> sched2 links)))
    as Hnd.
  { rewrite <- list_fmap_compose.
    assert (((λ r : (nat * nat) * Qc, r.1) ∘ g) <$> sched2 links
            = sched2 links) as ->.
    { rewrite <- (list_fmap_id (sched2 links)) at 2.
      apply list_fmap_ext. intros i x Hx. simpl.
      destruct (Hall x) as [y Hy].
      { rewrite <- (Hs2 links). by eapply list_elem_of_lookup_2. }
      unfold g. rewrite Hy. simpl. by eapply findMaxLinkLoad_link. }
    rewrite Hs2. apply NoDup_elements. }
  rewrite (foldl_insert_permutation (λ r : (nat * nat) * Qc, r.1)
             (λ r, (r.2 / default 0%Qc
                            (get_edge_data (UG (vTopo self)) r.1.1 r.1.2))%Qc)
             _ _ Hperm Hnd).
  injection Hll as ->. rewrite !result_bind_Ok in Hrun.
  repeat rewrite result_bind_Ok.
  destruct (py_max _ ≫= _) as [res| |]; [|done..]. simpl in *.
  split; [done|]. split; [done|]. by rewrite Hs1, Hs2.
Qed.

(** *** The grouping stage *)

Lemma list_remove_perm (x : nat) (l l' : list nat) :
  x :: l ≡ₚ l' → ∃ r, list_remove x l' = Ok r ∧ l ≡ₚ r.
Proof.
  intros Hp.
  assert (x ∈ l') as Hin by (rewrite <- Hp; set_solver).
  assert (∃ r, list_remove x l' = Ok r ∧ l' ≡ₚ x :: r) as (r & Hr & Hp').
  { clear Hp. induction l' as [|y l' IH]; [by apply elem_of_nil in Hin|].
    simpl. destruct (decide (x = y)) as [->|Hne]; [by eauto|].
    destruct IH as (r & -> & Hp); [set_solver|].
    exists (y :: r). split; [done|]. rewrite Hp. apply Permutation_swap. }
  exists r. split; [done|]. apply (inj (cons x)). by rewrite Hp, Hp'.
Qed.

Section grouping.
Context (fs : Files) (self : SolutionGrouping).

Let sgv (node : nat) := returned_or ∅ (groupSolutionAtNode fs self node).

Let cntv (node : nat) :=
  returned_or (0, 0) (countRouteInfoAtNode self (sgv node)).

Let task_ok (node : nat) : Prop :=
  ∃ sg cnt, groupSolutionAtNode fs self node = Ok sg
    ∧ countRouteInfoAtNode self sg = Ok cnt.

Lemma group_task_ok (x : nat) (gf : GroupFiles) :
  task_ok x →
  groupSolutionAtNode_task fs self x gf
  = (Ok x,
     {| SplitGroupsAtNodes := <[x := sgv x]> (SplitGroupsAtNodes gf);
        CountRouteInfo := <[x := cntv x]> (CountRouteInfo gf);
        RemainedNodes := RemainedNodes gf |}).
Proof.
  intros (sg & cnt & Hsg & Hcnt). unfold groupSolutionAtNode_task, cntv, sgv.
  rewrite Hsg. simpl. by rewrite Hcnt.
Qed.

Lemma group_task_returns (x node : nat) (gf gf' : GroupFiles) :
  groupSolutionAtNode_task fs self x gf = (Ok node, gf') → task_ok x.
Proof.
  unfold groupSolutionAtNode_task, task_ok.
  destruct (groupSolutionAtNode fs self x) as [sg| |]; [|done..].
  destruct (countRouteInfoAtNode self sg) as [cnt| |] eqn:Hcnt; [|done..].
  intros _. by exists sg, cnt.
Qed.

Lemma group_loop_tasks (arrivals remained r : list nat) (gf gf' : GroupFiles) :
  group_loop fs self arrivals remained gf = (Ok r, gf') →
  ∀ x, x ∈ arrivals → task_ok x.
Proof.
  revert remained gf. induction arrivals as [|a arrivals IH];
    intros remained gf Hrun x Hx; [by apply elem_of_nil in Hx|].
  simpl in Hrun.
  destruct (groupSolutionAtNode_task fs self a gf) as [[node| |] gf1] eqn:Ht;
    [|done..].
  destruct (list_remove node remained) as [rem1| |]; [|done..].
  apply elem_of_cons in Hx as [->|Hx].
  - by eapply group_task_returns.
  - by eapply IH.
Qed.

Lemma group_loop_all (arrivals remained : list nat) (gf : GroupFiles) :
  (∀ x, x ∈ arrivals → task_ok x) →
  arrivals ≡ₚ remained →
  group_loop fs self arrivals remained gf
  = (Ok [],
     {| SplitGroupsAtNodes :=
          foldl (λ m x, <[x := sgv x]> m) (SplitGroupsAtNodes gf) arrivals;
        CountRouteInfo :=
          foldl (λ m x, <[x := cntv x]> m) (CountRouteInfo gf) arrivals;
        RemainedNodes :=
          match arrivals with [] => RemainedNodes gf | _ :: _ => Some [] end |}).
Proof.
  revert remained gf. induction arrivals as [|a arrivals IH];
    intros remained gf Hall Hp.
  - apply Permutation_nil_l in Hp. subst remained. by destruct gf.
  - simpl. rewrite group_task_ok by (apply Hall; set_solver).
    destruct (list_remove_perm a arrivals remained Hp) as (r & -> & Hp').
    rewrite IH; [|intros; apply Hall; set_solver|done]. simpl.
    f_equal. f_equal. destruct arrivals; [|done].
    apply Permutation_nil_l in Hp'. by subst r.
Qed.

(** The grouping stage: a run that returns does so with the same printed
    statistics and the same files for every completion order. *)
Lemma groupSolution_order_independent (sched1 sched2 : list nat → list nat)
    (remainedNodes : list nat) (gf gf' : GroupFiles)
    (r : option (Qc * Qc * Qc)) :
  (∀ l, sched1 l ≡ₚ l) → (∀ l, sched2 l ≡ₚ l) →
  groupSolution sched1 fs self remainedNodes gf = (Ok r, gf') →
  groupSolution sched2 fs self remainedNodes gf = (Ok r, gf').
Proof.
  intros Hs1 Hs2. unfold groupSolution. cbv zeta.
  destruct (group_loop fs self (sched1 remainedNodes) remainedNodes gf)
    as [[rem1| |] gf1] eqn:H1; [|done..].
  pose proof (group_loop_tasks _ _ _ _ _ H1) as Hall.
  rewrite group_loop_all in H1 by done. injection H1 as <- <-.
  rewrite group_loop_all;
    [|intros x Hx; apply Hall; by rewrite Hs1, <- (Hs2 remainedNodes)|done].
  assert (sched2 remainedNodes ≡ₚ sched1 remainedNodes) as Hp
    by by rewrite Hs1, Hs2.
  rewrite (foldl_insert_key_permutation sgv _ _ Hp).
  rewrite (foldl_insert_key_permutation cntv _ _ Hp).
  by rewrite (match_nil_permutation _ _ _ _ Hp).
Qed.
End grouping.

(** C7: the four pool stages and the order in which their tasks complete.
    The merge of the per-commodity flow-link results (one key per task) is
    the same for every completion order.  A verification run that returns
    a value returns the same value and writes the same file for every
    completion order, having solved the same links.  A grouping run that
    returns does so with the same statistics and the same files for every
    completion order.  The link-constraint stage yields, for every
    completion order and every choice made by [pop()], a set holding
    exactly one link of every signature class -- which member stands for
    a class is not fixed by the inputs. *)
Theorem merge_stages_and_completion_order
    (sched1 sched2 : list (nat * nat) → list (nat * nat))
    (nsched1 nsched2 : list nat → list nat)
    (pop1 pop2 : list (nat * nat) → nat)
    (pick : nat * nat → nat → list (nat * nat) → nat) (fuel : nat)
    (self0 : Topology) (fs0 : Files) (self : Topology) (fs : Files)
    (solve : LinkLP → Status * Qc) (vfs : Files) (ver : Verification)
    (out : Output)
    (gfs : Files) (grp : SolutionGrouping) (remainedNodes : list nat)
    (gf : GroupFiles) :
  (∀ l, sched1 l ≡ₚ l) → (∀ l, sched2 l ≡ₚ l) →
  (∀ l, nsched1 l ≡ₚ l) → (∀ l, nsched2 l ≡ₚ l) →
  (∀ repsd, repsd ∈ RepCommodities self0 →
     ∃ r, findRepresentativeCommodityFlowLinksByCommodity pick fuel self0 repsd
          = Ok r) →
  (∀ link, link ∈ DLinks self →
     ∃ e, encodeLinkConstraint self fs link = Ok (link, e)) →
  stage_findRepresentativeLinkConstrs fs = None →
  (findRepresentativeCommodityFlowLinks sched1 pick fuel self0 fs0
   = findRepresentativeCommodityFlowLinks sched2 pick fuel self0 fs0
   ∧ ∃ r, findRepresentativeCommodityFlowLinks sched1 pick fuel self0 fs0
          = Ok r)
  ∧ (∀ r, returned (verifyAllLinkLoad sched1 solve vfs ver out) = Ok r →
       returned (verifyAllLinkLoad sched2 solve vfs ver out) = Ok r
       ∧ output_after (verifyAllLinkLoad sched2 solve vfs ver out)
         = output_after (verifyAllLinkLoad sched1 solve vfs ver out)
       ∧ solved_links (verifyAllLinkLoad sched2 solve vfs ver out)
         ≡ₚ solved_links (verifyAllLinkLoad sched1 solve vfs ver out))
  ∧ (∀ r gf',
       groupSolution nsched1 gfs grp remainedNodes gf = (Ok r, gf') →
       groupSolution nsched2 gfs grp remainedNodes gf = (Ok r, gf'))
  ∧ ∃ self1 fs1 self2 fs2,
      findRepresentativeLinkConstrs sched1 pop1 self fs = Ok (self1, fs1)
      ∧ findRepresentativeLinkConstrs sched2 pop2 self fs = Ok (self2, fs2)
      ∧ one_per_class self fs (RepLinkConstrs self1)
      ∧ one_per_class self fs (RepLinkConstrs self2).
Proof.
  intros Hs1 Hs2 Hn1 Hn2 Htask Henc Hstage. split.
  { by apply flowlinks_merge_order_independent. }
  split.
  { intros r. by apply verify_order_independent. }
  split.
  { intros r gf'. by apply groupSolution_order_independent. }
  destruct (findRepresentativeLinkConstrs_spec sched1 pop1 self fs)
    as (R1 & Hrun1 & Hcls1); [done..|].
  destruct (findRepresentativeLinkConstrs_spec sched2 pop2 self fs)
    as (R2 & Hrun2 & Hcls2); [done..|].
  eexists _, _, _, _. split; [done|]. split; [done|]. simpl.
  split; done.
Qed.

(** C7, counterexample: on the two-host topology, with [pop()] handing out
    the oldest member, the two completion orders of the per-link signature
    tasks give different representative link-constraint sets. *)
Lemma completion_order_changes_representatives :
  let run1 :=
    findRepresentativeLinkConstrs id (λ _, 0) pair_aux_topo pair_aux_files in
  let run2 :=
    findRepresentativeLinkConstrs reverse (λ _, 0) pair_aux_topo pair_aux_files in
  (∃ r, run1 = Ok r) ∧ (∃ r, run2 = Ok r)
  ∧ RepLinkConstrs (topo_of run1) = {[(0, 1)]}
  ∧ RepLinkConstrs (topo_of run2) = {[(1, 0)]}
  ∧ RepLinkConstrs (topo_of run1) ≠ RepLinkConstrs (topo_of run2).
Proof.
  simpl. split; [eexists; vm_compute; reflexivity|].
  split; [eexists; vm_compute; reflexivity|].
  split; [by_compute|]. split; by_compute.
Qed.

(** The four stages on sample runs with more than one task each, the
    second run handing the results back in the opposite order. *)
Lemma merge_stages_and_completion_order_witness :
  (elements (RepCommodities pendant_comm_topo) = [(0, 1); (1, 0)]
   ∧ stage_findRepresentativeCommodityFlowLinks pendant_comm_files = None
   ∧ findRepresentativeCommodityFlowLinks id (λ _ _ _, 0) 100
       pendant_comm_topo pendant_comm_files
     = findRepresentativeCommodityFlowLinks reverse (λ _ _ _, 0) 100
         pendant_comm_topo pendant_comm_files
   ∧ ∃ r, findRepresentativeCommodityFlowLinks id (λ _ _ _, 0) 100
            pendant_comm_topo pendant_comm_files = Ok r)
  ∧ (returned (verifyAllLinkLoad id sum_solver pendant_files
                 pendant_verification no_output) = Ok (Some (1%Qc, 1%Qc))
     ∧ returned (verifyAllLinkLoad reverse sum_solver pendant_files
                   pendant_verification no_output) = Ok (Some (1%Qc, 1%Qc))
     ∧ output_after (verifyAllLinkLoad reverse sum_solver pendant_files
                       pendant_verification no_output)
       = output_after (verifyAllLinkLoad id sum_solver pendant_files
                         pendant_verification no_output)
     ∧ solved_links (verifyAllLinkLoad reverse sum_solver pendant_files
                       pendant_verification no_output)
       ≡ₚ solved_links (verifyAllLinkLoad id sum_solver pendant_files
                          pendant_verification no_output)
     ∧ solved_links (verifyAllLinkLoad reverse sum_solver pendant_files
                       pendant_verification no_output)
       ≠ solved_links (verifyAllLinkLoad id sum_solver pendant_files
                         pendant_verification no_output))
  ∧ (∃ stats gf',
       groupSolution id pair_files
         {| gTopo := pair_topo; gRoute := RouteGraph pair_route |} [0; 1]
         no_group_files = (Ok (Some stats), gf')
       ∧ groupSolution reverse pair_files
           {| gTopo := pair_topo; gRoute := RouteGraph pair_route |} [0; 1]
           no_group_files = (Ok (Some stats), gf'))
  ∧ elements (DLinks pendant_aux_topo) = [(0, 2); (2, 0); (0, 1); (1, 0)]
  ∧ ∃ self1 fs1 self2 fs2,
      findRepresentativeLinkConstrs id (λ _, 0) pendant_aux_topo
        pendant_aux_files = Ok (self1, fs1)
      ∧ findRepresentativeLinkConstrs reverse (λ _, 0) pendant_aux_topo
          pendant_aux_files = Ok (self2, fs2)
      ∧ one_per_class pendant_aux_topo pendant_aux_files (RepLinkConstrs self1)
      ∧ one_per_class pendant_aux_topo pendant_aux_files (RepLinkConstrs self2).
Proof.
  destruct (merge_stages_and_completion_order id reverse id reverse
              (λ _, 0) (λ _, 0) (λ _ _ _, 0) 100
              pendant_comm_topo pendant_comm_files
              pendant_aux_topo pendant_aux_files
              sum_solver pendant_files pendant_verification no_output
              pair_files
              {| gTopo := pair_topo; gRoute := RouteGraph pair_route |}
              [0; 1] no_group_files)
    as (Hflow & Hver & Hgrp & Hlink).
  - done.
  - intros l. apply reverse_Permutation.
  - done.
  - intros l. apply reverse_Permutation.
  - intros repsd Hin. members Hin; eexists; vm_compute; reflexivity.
  - intros link Hin. members Hin; eexists; vm_compute; reflexivity.
  - reflexivity.
  - split.
    { split; [vm_compute; reflexivity|]. split; [reflexivity|]. exact Hflow. }
    split.
    { split; [vm_compute; reflexivity|].
      destruct (Hver (Some (1%Qc, 1%Qc))) as (H1 & H2 & H3);
        [vm_compute; reflexivity|].
      split; [exact H1|]. split; [exact H2|]. split; [exact H3|].
      vm_compute. intros Heq. discriminate Heq. }
    split.
    { eexists _, _. split; [vm_compute; reflexivity|].
      apply Hgrp. vm_compute. reflexivity. }
    split; [vm_compute; reflexivity|]. exact Hlink.
Defined.
